(** * TDL to JSON Schema: the parser and the two schema emitters

    A shallow embedding of [src/typedoc/src/tdl.ts] (the TDL front end),
    [src/typedoc/src/schema-openai.ts] and [src/typedoc/src/schema-gemini.ts]
    (the two lowerings), followed by the properties of the converter.

    Conventions of the embedding.
    - A JavaScript string is a [string]: a sequence of code units below 256.
    - A JavaScript exception is the [Throw] outcome; the state of an emitter
      after a throw is never observed, since nothing in the library catches.
    - Recursion that the source does not bound structurally (type references
      followed through the named-type table) is bounded by a call-depth
      budget; [OutOfFuel] is the outcome of a call tree deeper than the
      budget, so a call that is [OutOfFuel] at every budget is unbounded
      recursion in the source.
    - A [Map] is the insertion-ordered association list of a JS [Map]; a JS
      object is the list of its own enumerable properties in creation order
      (the engine's reordering of integer-like keys is not represented). *)

From Stdlib Require Import List String Ascii Bool Arith ZArith Lia Permutation.
Import ListNotations.
Open Scope string_scope.

Set Implicit Arguments.
Set Warnings "-register-all".

(** ** Outcomes *)

Inductive result (A : Type) : Type :=
| Ok (a : A)
| Throw (msg : string)
| OutOfFuel.

Arguments Ok {A} a.
Arguments Throw {A} msg.
Arguments OutOfFuel {A}.

Definition rbind {A B : Type} (r : result A) (k : A -> result B) : result B :=
  match r with
  | Ok a => k a
  | Throw msg => Throw msg
  | OutOfFuel => OutOfFuel
  end.

Definition is_ok {A : Type} (r : result A) : bool :=
  match r with Ok _ => true | _ => false end.

Declare Scope result_scope.
Delimit Scope result_scope with result.
Notation "x <- c ;; k" := (rbind c (fun x => k))
  (at level 61, c at next level, right associativity) : result_scope.
Notation "' pat <- c ;; k" := (rbind c (fun x => match x with pat => k end))
  (at level 61, pat pattern, c at next level, right associativity) : result_scope.

(** [Array.prototype.map] with a callback that may throw. *)
Fixpoint rmap {A B : Type} (f : A -> result B) (l : list A) : result (list B) :=
  match l with
  | [] => Ok []
  | a :: l' =>
      match f a with
      | Ok b =>
          match rmap f l' with
          | Ok bs => Ok (b :: bs)
          | Throw msg => Throw msg
          | OutOfFuel => OutOfFuel
          end
      | Throw msg => Throw msg
      | OutOfFuel => OutOfFuel
      end
  end.

(** A [for ... of] loop with a body that may throw, threading an accumulator. *)
Fixpoint rfold {A B : Type} (f : B -> A -> result B) (l : list A) (b : B) : result B :=
  match l with
  | [] => Ok b
  | a :: l' =>
      match f b a with
      | Ok b' => rfold f l' b'
      | Throw msg => Throw msg
      | OutOfFuel => OutOfFuel
      end
  end.

(** ** JS [Map<string, V>] and [Set<string>] *)

Section MapOps.
Variable V : Type.

Definition Map := list (string * V).

Fixpoint map_get (k : string) (m : Map) : option V :=
  match m with
  | [] => None
  | (k', v) :: rest => if String.eqb k' k then Some v else map_get k rest
  end.

Definition map_has (k : string) (m : Map) : bool :=
  match map_get k m with Some _ => true | None => false end.

(** [m.set(k, v)]: an existing key keeps its position, a new key goes last. *)
Fixpoint map_set (k : string) (v : V) (m : Map) : Map :=
  match m with
  | [] => [(k, v)]
  | (k', v') :: rest =>
      if String.eqb k' k then (k, v) :: rest else (k', v') :: map_set k v rest
  end.

Definition map_keys (m : Map) : list string := List.map fst m.
Definition map_values (m : Map) : list V := List.map snd m.

(** [o[k] = v] on an object created by [{}], given as the list of its own
    properties.  Assignment consults the prototype chain, and
    [Object.prototype] carries one accessor with a setter, [__proto__]:
    assigning to that key runs the setter (which replaces the prototype of
    [o] when [v] is an object) and creates no own property.  Every other
    key becomes, or updates, an own property. *)
Definition obj_assign (k : string) (v : V) (fields : Map) : Map :=
  if String.eqb k "__proto__" then fields else map_set k v fields.
End MapOps.

Arguments map_get {V} k m.
Arguments map_has {V} k m.
Arguments map_set {V} k v m.
Arguments map_keys {V} m.
Arguments map_values {V} m.
Arguments obj_assign {V} k v fields.

Definition set_has (k : string) (s : list string) : bool :=
  existsb (String.eqb k) s.

Definition set_add (k : string) (s : list string) : list string :=
  if set_has k s then s else (s ++ [k])%list.

Definition set_delete (k : string) (s : list string) : list string :=
  filter (fun k' => negb (String.eqb k k')) s.

(** ** JS numbers

    A JS number is an IEEE-754 double.  The converter never computes with
    numbers: it reads them from decimal tokens ([Number(s)]), prints them as
    property keys ([String(n)]), and compares the two constants of the
    [never] encoding.  These operations of the runtime are the interface
    below; everything is stated for an arbitrary implementation of it. *)

Class JsNumber : Type := {
  number : Type;
  (** [Number(s)] on a token matching [\d+(\.\d+)?]; the literals [0] and [1]
      of the source are [Number("0")] and [Number("1")]. *)
  Number_of_string : string -> number;
  (** [String(n)] *)
  String_of_number : number -> string;
  (** [a > b] *)
  number_gt : number -> number -> bool;
  one_gt_zero : number_gt (Number_of_string "1") (Number_of_string "0") = true
}.

(** ** The intermediate representation ([tdl.ts]) *)

Inductive PrimitiveName : Type :=
| PString | PNumber | PBoolean | PTypedoc | PImage | PAudio | PVideo | PNever.

Inductive IndexKind : Type := KString | KEnum.

Inductive Literal {N : JsNumber} : Type :=
| LString (s : string)
| LNumber (n : number)
| LBoolean (b : bool).

Record PropNode_ (T : Type) : Type := mkProp {
  prop_name : string;
  prop_type : T;
  prop_optional : bool;
  prop_isArray : bool
}.

Record IndexSigNode_ {N : JsNumber} (T : Type) : Type := mkIndexSig {
  idx_kind : IndexKind;
  idx_keys : option (list Literal);
  idx_valueType : T;
  idx_optional : bool;
  idx_isArray : bool
}.

Record ObjectNode_ {N : JsNumber} (T : Type) : Type := mkObject {
  obj_props : list (PropNode_ T);
  obj_indexSigs : list (IndexSigNode_ T);
  obj_closed : bool
}.

Inductive TypeNode {N : JsNumber} : Type :=
| Primitive (name : PrimitiveName)
| StringLiteral (value : string)
| NumberLiteral (value : number)
| BooleanLiteral (value : bool)
| TypeRef (name : string)
| Union (members : list TypeNode)
| Intersection (members : list TypeNode)
| Object (obj : ObjectNode_ TypeNode).

Definition PropNode {N : JsNumber} : Type := PropNode_ TypeNode.
Definition IndexSigNode {N : JsNumber} : Type := IndexSigNode_ TypeNode.
Definition ObjectNode {N : JsNumber} : Type := ObjectNode_ TypeNode.

Record TypeDef {N : JsNumber} : Type := mkTypeDef {
  def_name : string;
  def_node : TypeNode
}.

Record SymbolDef {N : JsNumber} : Type := mkSymbol {
  sym_name : string;
  sym_type : TypeNode;
  sym_optional : bool;
  sym_isArray : bool
}.

(** ** The value tree of the YAML reader, and JSON values *)

Inductive yaml {N : JsNumber} : Type :=
| YNull
| YBool (b : bool)
| YNum (n : number)
| YStr (s : string)
| YSeq (items : list yaml)
| YMap (entries : list (string * yaml)).

Record TDLDoc {N : JsNumber} : Type := mkDoc {
  doc_types : Map TypeDef;
  doc_symbols : list SymbolDef;
  doc_meta : Map yaml
}.

Inductive json {N : JsNumber} : Type :=
| JBool (b : bool)
| JNum (n : number)
| JStr (s : string)
| JArr (items : list json)
| JObj (fields : list (string * json)).

(** ** Strings: character classes, [trim], and the regular expressions of [tdl.ts]

    Each regular expression of the source is a recogniser over the list of
    the string's characters.  The character classes of the expressions never
    overlap with the character that follows them, so the greedy match is the
    only match and backtracking finds nothing else. *)

Section Chars.
Definition chars (s : string) : list ascii := list_ascii_of_string s.
Definition str (l : list ascii) : string := string_of_list_ascii l.

Definition code (c : ascii) : nat := nat_of_ascii c.
(** The double quote and the backslash *)
Definition dquote : ascii := ascii_of_nat 34.
Definition backslash : ascii := ascii_of_nat 92.
Definition between (lo hi : nat) (c : ascii) : bool :=
  Nat.leb lo (code c) && Nat.leb (code c) hi.

Definition is_upper : ascii -> bool := between 65 90.
Definition is_lower : ascii -> bool := between 97 122.
Definition is_digit : ascii -> bool := between 48 57.
Definition is_alpha (c : ascii) : bool := is_upper c || is_lower c.
(** [[A-Za-z0-9]] *)
Definition is_alnum (c : ascii) : bool := is_alpha c || is_digit c.
(** [\w], that is [[A-Za-z0-9_]] *)
Definition is_word (c : ascii) : bool := is_alnum c || Ascii.eqb c "_".
(** The characters [.] does not match: LF and CR (LS and PS are above 255). *)
Definition is_line_terminator (c : ascii) : bool :=
  Nat.eqb (code c) 10 || Nat.eqb (code c) 13.
(** [\s], also what [trim] strips: TAB, LF, VT, FF, CR, SP, NBSP. *)
Definition is_space (c : ascii) : bool :=
  between 9 13 c || Nat.eqb (code c) 32 || Nat.eqb (code c) 160.

Fixpoint dropWhile (p : ascii -> bool) (l : list ascii) : list ascii :=
  match l with
  | [] => []
  | c :: l' => if p c then dropWhile p l' else l
  end.

Fixpoint takeWhile (p : ascii -> bool) (l : list ascii) : list ascii :=
  match l with
  | [] => []
  | c :: l' => if p c then c :: takeWhile p l' else []
  end.

Definition trim_chars (l : list ascii) : list ascii :=
  rev (dropWhile is_space (rev (dropWhile is_space l))).

Definition trim (s : string) : string := str (trim_chars (chars s)).

Fixpoint starts_with (p l : list ascii) : bool :=
  match p, l with
  | [], _ => true
  | a :: p', b :: l' => Ascii.eqb a b && starts_with p' l'
  | _ :: _, [] => false
  end.

Definition ends_with (p l : list ascii) : bool := starts_with (rev p) (rev l).

(** [s.includes(sub)], also the regular-expression test for a literal [sub] *)
Fixpoint includes (sub l : list ascii) : bool :=
  starts_with sub l ||
  match l with
  | [] => false
  | _ :: l' => includes sub l'
  end.

(** [s.slice(1, -1)] *)
Definition slice_1_m1 (l : list ascii) : list ascii := removelast (tl l).

(** [\bw\b] somewhere in [l], for a word [w] of word characters; [prev] is
    the character before [l], if any. *)
Fixpoint has_word_from (w : list ascii) (prev : option ascii) (l : list ascii) : bool :=
  ((match prev with Some c => negb (is_word c) | None => true end)
   && starts_with w l
   && (match skipn (List.length w) l with
       | [] => true
       | c :: _ => negb (is_word c)
       end))
  || match l with
     | [] => false
     | c :: l' => has_word_from w (Some c) l'
     end.

Definition has_word (w : string) (l : list ascii) : bool :=
  has_word_from (chars w) None l.

(** [open .* close $] on the rest of a string: it starts with [open], ends
    with [close] (two distinct positions), and has no line terminator in
    between.  The middle is returned. *)
Definition bracketed (open close : ascii) (l : list ascii) : option (list ascii) :=
  match l with
  | c :: rest =>
      if Ascii.eqb c open then
        match rev rest with
        | d :: rmid =>
            if Ascii.eqb d close && forallb (fun x => negb (is_line_terminator x)) rmid
            then Some (rev rmid) else None
        | [] => None
        end
      else None
  | [] => None
  end.

(** The type-entry test, spaced out: [^ [A-Z] [A-Za-z0-9]* \s* (?: \( .* \) )? $] *)
Definition re_type_entry (l : list ascii) : bool :=
  match l with
  | c :: r =>
      is_upper c &&
      match dropWhile is_space (dropWhile is_alnum r) with
      | [] => true
      | r' => match bracketed "(" ")" r' with Some _ => true | None => false end
      end
  | [] => false
  end.

(** The extends-sugar match, spaced out: [^ ( [A-Z] [A-Za-z0-9]* ) \( ( .* ) \) $];
    the two groups *)
Definition re_extends (l : list ascii) : option (list ascii * list ascii) :=
  match l with
  | c :: r =>
      if is_upper c then
        match bracketed "(" ")" (dropWhile is_alnum r) with
        | Some mid => Some (c :: takeWhile is_alnum r, mid)
        | None => None
        end
      else None
  | [] => None
  end.

(** The symbol-entry test, spaced out: [^ [a-z] [A-Za-z0-9_]* ( [?\[\]]+ )? $] *)
Definition re_symbol_entry (l : list ascii) : bool :=
  match l with
  | c :: r =>
      is_lower c &&
      forallb (fun x => Ascii.eqb x "?" || Ascii.eqb x "[" || Ascii.eqb x "]")
              (dropWhile is_word r)
  | [] => false
  end.

(** The label match, spaced out: [^ ( [a-z] [A-Za-z0-9_]* ) ( .* ) $]; the two groups *)
Definition re_label (l : list ascii) : option (list ascii * list ascii) :=
  match l with
  | c :: r =>
      if is_lower c && forallb (fun x => negb (is_line_terminator x)) (dropWhile is_word r)
      then Some (c :: takeWhile is_word r, dropWhile is_word r)
      else None
  | [] => None
  end.

(** The index-label match, spaced out:
    [^ \[ ( [A-Za-z_] [A-Za-z0-9_]* ) \s* : \s* ( [^\]]+ ) \] ( .* ) $]; groups 2 and 3.
    Group 2 is the text between the colon and the first closing bracket
    less the white space that [\s*] takes; the caller trims it, so the
    text is returned whole. *)
Definition re_index_label (l : list ascii) : option (list ascii * list ascii) :=
  match l with
  | b :: c :: r =>
      if Ascii.eqb b "[" && (is_alpha c || Ascii.eqb c "_") then
        match dropWhile is_space (dropWhile is_word r) with
        | colon :: r' =>
            let seg := takeWhile (fun x => negb (Ascii.eqb x "]")) r' in
            match dropWhile (fun x => negb (Ascii.eqb x "]")) r' with
            | _ :: tail =>
                if Ascii.eqb colon ":"
                   && negb (Nat.eqb (List.length seg) 0)
                   && forallb (fun x => negb (is_line_terminator x)) tail
                then Some (seg, tail) else None
            | [] => None
            end
        | [] => None
        end
      else None
  | _ => None
  end.

(** The all-caps token test: [^ [A-Z] [A-Z0-9_]* $] *)
Definition re_all_caps (l : list ascii) : bool :=
  match l with
  | c :: r => is_upper c && forallb (fun x => is_upper x || is_digit x || Ascii.eqb x "_") r
  | [] => false
  end.

(** The type-name test: [^ [A-Z] [A-Za-z0-9]* $] *)
Definition re_type_name (l : list ascii) : bool :=
  match l with
  | c :: r => is_upper c && forallb is_alnum r
  | [] => false
  end.

(** The generic-usage test, spaced out: [^ [A-Za-z_] [A-Za-z0-9_]* \s* < .* > $] *)
Definition re_generic (l : list ascii) : bool :=
  match l with
  | c :: r =>
      (is_alpha c || Ascii.eqb c "_") &&
      match bracketed "<" ">" (dropWhile is_space (dropWhile is_word r)) with
      | Some _ => true
      | None => false
      end
  | [] => false
  end.

(** The Ref test: [^ Ref \s* <] *)
Definition re_ref (l : list ascii) : bool :=
  starts_with (chars "Ref") l &&
  match dropWhile is_space (skipn 3 l) with
  | c :: _ => Ascii.eqb c "<"
  | [] => false
  end.

(** The number-token test, spaced out: [^ \d+ (?: \. \d+ )? $] *)
Definition re_number (l : list ascii) : bool :=
  match takeWhile is_digit l, dropWhile is_digit l with
  | _ :: _, [] => true
  | _ :: _, dot :: frac =>
      Ascii.eqb dot "." && negb (Nat.eqb (List.length frac) 0) && forallb is_digit frac
  | [], _ => false
  end.

Definition primitive_of_string (s : string) : option PrimitiveName :=
  if String.eqb s "string" then Some PString
  else if String.eqb s "number" then Some PNumber
  else if String.eqb s "boolean" then Some PBoolean
  else if String.eqb s "typedoc" then Some PTypedoc
  else if String.eqb s "image" then Some PImage
  else if String.eqb s "audio" then Some PAudio
  else if String.eqb s "video" then Some PVideo
  else if String.eqb s "never" then Some PNever
  else None.
End Chars.

(** ** JS objects as they are built by the emitters *)

Section Json.
Context {N : JsNumber}.

(** [o.k] for an object [o]: [None] is [undefined]. *)
Definition obj_get (k : string) (j : json) : option json :=
  match j with
  | JObj fields => map_get k fields
  | _ => None
  end.

Definition obj_keys (j : json) : list string :=
  match j with
  | JObj fields => map_keys fields
  | _ => []
  end.

(** [Object.fromEntries(m)] for a [Map]; keys of a [Map] are distinct. *)
Definition Object_fromEntries (m : Map json) : json := JObj m.

(** [a.includes("null")] on an array of a schema's types *)
Definition includes_str (s : string) (items : list json) : bool :=
  existsb (fun j => match j with JStr s' => String.eqb s' s | _ => false end) items.
End Json.

(** ** Helpers that both emitter files define, with the same text *)

Section Lowering.
Context {N : JsNumber}.

Definition primitiveToSchema (name : PrimitiveName) : json :=
  match name with
  | PString | PTypedoc | PImage | PAudio | PVideo => JObj [("type", JStr "string")]
  | PNumber => JObj [("type", JStr "number")]
  | PBoolean => JObj [("type", JStr "boolean")]
  | PNever =>
      JObj [("type", JStr "number");
            ("minimum", JNum (Number_of_string "1"));
            ("maximum", JNum (Number_of_string "0"))]
  end.

Definition arrayOf (item : json) : json :=
  JObj [("type", JStr "array"); ("items", item)].

Definition isScalarLiteral (n : TypeNode) : bool :=
  match n with
  | StringLiteral _ | NumberLiteral _ | BooleanLiteral _ => true
  | _ => false
  end.

Definition literalValue (n : TypeNode) : result Literal :=
  match n with
  | StringLiteral v => Ok (LString v)
  | NumberLiteral v => Ok (LNumber v)
  | BooleanLiteral v => Ok (LBoolean v)
  | _ => Throw "not a literal"
  end.

Definition json_of_literal (v : Literal) : json :=
  match v with
  | LString s => JStr s
  | LNumber n => JNum n
  | LBoolean b => JBool b
  end.

(** [typeof v] for a literal value *)
Definition typeof (v : Literal) : string :=
  match v with
  | LString _ => "string"
  | LNumber _ => "number"
  | LBoolean _ => "boolean"
  end.

(** [new Set(values.map(typeof))] has size 1 exactly when there is a first
    type and every later one equals it. *)
Definition unionLiteralType (values : list Literal) : option string :=
  match List.map typeof values with
  | [] => None
  | t :: rest =>
      if forallb (String.eqb t) rest then
        if String.eqb t "string" || String.eqb t "number" || String.eqb t "boolean"
        then Some t else None
      else None
  end.

(** [String(key)] for an enum key *)
Definition String_of_literal (v : Literal) : string :=
  match v with
  | LString s => s
  | LNumber n => String_of_number n
  | LBoolean true => "true"
  | LBoolean false => "false"
  end.

(** The schema of an all-literal union: [{ enum }], then [base.type = type]. *)
Definition enumSchema (enums : list Literal) : json :=
  let base := [("enum", JArr (List.map json_of_literal enums))] in
  match unionLiteralType enums with
  | Some t => JObj (map_set "type" (JStr t) base)
  | None => JObj base
  end.

(** The detector of the [never] encoding: [isNeverSchema] in the OpenAI
    file, [isNever] in the Gemini file. *)
Definition isNeverSchema (s : json) : bool :=
  match obj_get "type" s, obj_get "minimum" s, obj_get "maximum" s with
  | Some (JStr t), Some (JNum lo), Some (JNum hi) =>
      String.eqb t "number" && number_gt lo hi
  | _, _, _ => false
  end.

Variable doc : TDLDoc.

(** [outProps.set(ip.name, ip)] for each property, [outIdx.push(is)] for
    each signature. *)
Definition mergeStep (acc : Map PropNode * list IndexSigNode * bool) (obj : ObjectNode)
  : Map PropNode * list IndexSigNode * bool :=
  let '(outProps, outIdx, closed) := acc in
  (fold_left (fun m ip => map_set (prop_name ip) ip m) (obj_props obj) outProps,
   (outIdx ++ obj_indexSigs obj)%list,
   closed || obj_closed obj).

Definition mergeWith (resolve : TypeNode -> result ObjectNode) (parts : list TypeNode)
  : result ObjectNode :=
  match rfold (fun acc p =>
                 match resolve p with
                 | Ok obj => Ok (mergeStep acc obj)
                 | Throw msg => Throw msg
                 | OutOfFuel => OutOfFuel
                 end) parts ([], [], false) with
  | Ok (outProps, outIdx, closed) =>
      Ok (mkObject (map_values outProps) outIdx closed)
  | Throw msg => Throw msg
  | OutOfFuel => OutOfFuel
  end.

Fixpoint resolveObject (fuel : nat) (node : TypeNode) {struct fuel} : result ObjectNode :=
  match fuel with
  | 0 => OutOfFuel
  | S fuel' =>
      match node with
      | Object obj => Ok obj
      | TypeRef name =>
          match map_get name (doc_types doc) with
          | None => Throw ("Unknown type: " ++ name)
          | Some def => resolveObject fuel' (def_node def)
          end
      | Intersection members => mergeWith (resolveObject fuel') members
      | _ => Throw "Intersection operands must be object-like"
      end
  end.

Definition mergeObjects (fuel : nat) (parts : list TypeNode) : result ObjectNode :=
  mergeWith (resolveObject fuel) parts.

(** *** The emitter context: [defs] and [stack] *)

Record Ctx : Type := mkCtx {
  defs : Map json;
  stack : list string
}.

Definition M (A : Type) : Type := Ctx -> result (A * Ctx).

Definition ret {A : Type} (a : A) : M A := fun ctx => Ok (a, ctx).

Definition bind {A B : Type} (c : M A) (k : A -> M B) : M B :=
  fun ctx =>
    match c ctx with
    | Ok (a, ctx') => k a ctx'
    | Throw msg => Throw msg
    | OutOfFuel => OutOfFuel
    end.

Definition throw {A : Type} (msg : string) : M A := fun _ => Throw msg.

Definition lift {A : Type} (r : result A) : M A :=
  fun ctx =>
    match r with
    | Ok a => Ok (a, ctx)
    | Throw msg => Throw msg
    | OutOfFuel => OutOfFuel
    end.

Fixpoint mapM {A B : Type} (f : A -> M B) (l : list A) : M (list B) :=
  match l with
  | [] => ret []
  | a :: l' => bind (f a) (fun b => bind (mapM f l') (fun bs => ret (b :: bs)))
  end.

Fixpoint foldM {A B : Type} (f : B -> A -> M B) (l : list A) (b : B) : M B :=
  match l with
  | [] => ret b
  | a :: l' => bind (f b a) (fun b' => foldM f l' b')
  end.
End Lowering.

Declare Scope emit_scope.
Delimit Scope emit_scope with emit.
Notation "x <- c ;; k" := (bind c (fun x => k))
  (at level 61, c at next level, right associativity) : emit_scope.
Notation "c ;;; k" := (bind c (fun _ => k))
  (at level 61, right associativity) : emit_scope.

(** ** The OpenAI emitter ([schema-openai.ts]) *)

Module OpenAI.
Section Emit.
Context {N : JsNumber}.
Variable doc : TDLDoc.

Local Open Scope emit_scope.

Definition placeholder : json :=
  JObj [("type", JStr "object"); ("properties", JObj []);
        ("required", JArr []); ("additionalProperties", JBool false)].

Definition string_index_error : string :=
  "OpenAI schema: string index signatures (maps) are not supported. Use [k: string]? never for closure.".

Definition makeNullable (schema : json) : json :=
  match schema with
  | JObj fields =>
      match map_get "type" fields with
      | Some (JStr t) => JObj (map_set "type" (JArr [JStr t; JStr "null"]) fields)
      | Some (JArr t) =>
          if negb (includes_str "null" t)
          then JObj (map_set "type" (JArr (t ++ [JStr "null"])) fields)
          else schema
      | _ => JObj [("anyOf", JArr [schema; JObj [("type", JStr "null")]])]
      end
  | _ => JObj [("anyOf", JArr [schema; JObj [("type", JStr "null")]])]
  end.

(** The schema stored for a symbol, a property or an enum key. *)
Definition finalSchema (isArray optional : bool) (base : json) : json :=
  let withArray := if isArray then arrayOf base else base in
  if optional then makeNullable withArray else withArray.

Definition ensureDef_ (emit : TypeNode -> M json) (name : string) : M unit :=
  fun ctx =>
    if map_has name (defs ctx) then Ok (tt, ctx)
    else if set_has name (stack ctx) then
      Ok (tt, mkCtx (map_set name placeholder (defs ctx)) (stack ctx))
    else
      match map_get name (doc_types doc) with
      | None => Throw ("Unknown type reference: " ++ name)
      | Some def =>
          match emit (def_node def) (mkCtx (defs ctx) (set_add name (stack ctx))) with
          | Ok (schema, ctx') =>
              Ok (tt, mkCtx (map_set name schema (defs ctx'))
                            (set_delete name (stack ctx')))
          | Throw msg => Throw msg
          | OutOfFuel => OutOfFuel
          end
      end.

(** The accumulator of [emitObject]: [properties] and [required]. *)
Definition Acc : Type := (list (string * json) * list string)%type.

Definition record (acc : Acc) (key : string) (schema : json) : Acc :=
  (obj_assign key schema (fst acc), (snd acc ++ [key])%list).

Definition emitIndexSig_ (emit : TypeNode -> M json) (acc : Acc) (idx : IndexSigNode)
  : M Acc :=
  match idx_kind idx with
  | KString =>
      closure <- (if idx_optional idx
                  then s <- emit (idx_valueType idx) ;; ret (isNeverSchema s)
                  else ret false) ;;
      if closure then ret acc else throw string_index_error
  | KEnum =>
      foldM (fun acc key =>
               base <- emit (idx_valueType idx) ;;
               ret (record acc (String_of_literal key)
                           (finalSchema (idx_isArray idx) (idx_optional idx) base)))
            (match idx_keys idx with Some ks => ks | None => [] end) acc
  end.

Definition emitProp_ (emit : TypeNode -> M json) (acc : Acc) (p : PropNode) : M Acc :=
  base <- emit (prop_type p) ;;
  ret (record acc (prop_name p) (finalSchema (prop_isArray p) (prop_optional p) base)).

Definition emitObject_ (emit : TypeNode -> M json) (obj : ObjectNode) : M json :=
  acc <- foldM (emitIndexSig_ emit) (obj_indexSigs obj) ([], []) ;;
  acc <- foldM (emitProp_ emit) (obj_props obj) acc ;;
  ret (JObj [("type", JStr "object");
             ("properties", JObj (fst acc));
             ("required", JArr (List.map JStr (snd acc)));
             ("additionalProperties", JBool false)]).

Fixpoint emit (fuel : nat) (node : TypeNode) {struct fuel} : M json :=
  match fuel with
  | 0 => fun _ => OutOfFuel
  | S fuel' =>
      match node with
      | Primitive name => ret (primitiveToSchema name)
      | StringLiteral v => ret (JObj [("type", JStr "string"); ("enum", JArr [JStr v])])
      | NumberLiteral v => ret (JObj [("type", JStr "number"); ("enum", JArr [JNum v])])
      | BooleanLiteral v => ret (JObj [("type", JStr "boolean"); ("enum", JArr [JBool v])])
      | TypeRef name =>
          ensureDef_ (emit fuel') name ;;;
          ret (JObj [("$ref", JStr ("#/$defs/" ++ name))])
      | Union members =>
          if forallb isScalarLiteral members then
            enums <- lift (rmap literalValue members) ;;
            ret (enumSchema enums)
          else
            schemas <- mapM (emit fuel') members ;;
            ret (JObj [("anyOf", JArr schemas)])
      | Intersection members =>
          obj <- lift (mergeObjects doc fuel' members) ;;
          emitObject_ (emit fuel') obj
      | Object obj => emitObject_ (emit fuel') obj
      end
  end.

Definition ensureDef (fuel : nat) : string -> M unit := ensureDef_ (emit fuel).
Definition emitObject (fuel : nat) : ObjectNode -> M json := emitObject_ (emit fuel).

Definition emitSymbol (fuel : nat) (acc : Acc) (sym : SymbolDef) : M Acc :=
  baseSchema <- emit fuel (sym_type sym) ;;
  ret (record acc (sym_name sym) (finalSchema (sym_isArray sym) (sym_optional sym) baseSchema)).

Definition generateOpenAISchema (fuel : nat) : result json :=
  match
    (foldM (fun (_ : unit) name => ensureDef fuel name) (map_keys (doc_types doc)) tt ;;;
     foldM (emitSymbol fuel) (doc_symbols doc) ([], []))
      (mkCtx [] [])
  with
  | Ok (acc, ctx) =>
      Ok (JObj [("type", JStr "object");
                ("properties", JObj (fst acc));
                ("required", JArr (List.map JStr (snd acc)));
                ("additionalProperties", JBool false);
                ("$defs", Object_fromEntries (defs ctx))])
  | Throw msg => Throw msg
  | OutOfFuel => OutOfFuel
  end.
End Emit.
End OpenAI.

(** ** The Gemini emitter ([schema-gemini.ts]) *)

Module Gemini.
Section Emit.
Context {N : JsNumber}.
Variable doc : TDLDoc.

Local Open Scope emit_scope.

Definition placeholder : json :=
  JObj [("type", JStr "object"); ("properties", JObj []);
        ("required", JArr []); ("additionalProperties", JBool true)].

Definition withArray (isArray : bool) (base : json) : json :=
  if isArray then arrayOf base else base.

Definition ensureDef_ (emit : TypeNode -> M json) (name : string) : M unit :=
  fun ctx =>
    if map_has name (defs ctx) then Ok (tt, ctx)
    else if set_has name (stack ctx) then
      Ok (tt, mkCtx (map_set name placeholder (defs ctx)) (stack ctx))
    else
      match map_get name (doc_types doc) with
      | None => Throw ("Unknown type reference: " ++ name)
      | Some def =>
          match emit (def_node def) (mkCtx (defs ctx) (set_add name (stack ctx))) with
          | Ok (schema, ctx') =>
              Ok (tt, mkCtx (map_set name schema (defs ctx'))
                            (set_delete name (stack ctx')))
          | Throw msg => Throw msg
          | OutOfFuel => OutOfFuel
          end
      end.

(** The accumulator of [emitObject]: [properties], [required] and
    [additionalProps]. *)
Record Acc : Type := mkAcc {
  properties : list (string * json);
  required : list string;
  additionalProps : json
}.

(** [properties[key] = schema; if (!optional) required.push(key)] *)
Definition record (acc : Acc) (key : string) (optional : bool) (schema : json) : Acc :=
  mkAcc (obj_assign key schema (properties acc))
        (if optional then required acc else (required acc ++ [key])%list)
        (additionalProps acc).

Definition emitIndexSig_ (emit : TypeNode -> M json) (acc : Acc) (idx : IndexSigNode)
  : M Acc :=
  match idx_kind idx with
  | KString =>
      closure <- (if idx_optional idx
                  then s <- emit (idx_valueType idx) ;; ret (isNeverSchema s)
                  else ret false) ;;
      if closure then
        ret (mkAcc (properties acc) (required acc) (JBool false))
      else
        base <- emit (idx_valueType idx) ;;
        ret (mkAcc (properties acc) (required acc) (withArray (idx_isArray idx) base))
  | KEnum =>
      foldM (fun acc key =>
               base <- emit (idx_valueType idx) ;;
               ret (record acc (String_of_literal key) (idx_optional idx)
                           (withArray (idx_isArray idx) base)))
            (match idx_keys idx with Some ks => ks | None => [] end) acc
  end.

Definition emitProp_ (emit : TypeNode -> M json) (acc : Acc) (p : PropNode) : M Acc :=
  base <- emit (prop_type p) ;;
  ret (record acc (prop_name p) (prop_optional p) (withArray (prop_isArray p) base)).

Definition emitObject_ (emit : TypeNode -> M json) (obj : ObjectNode) : M json :=
  acc <- foldM (emitIndexSig_ emit) (obj_indexSigs obj)
           (mkAcc [] [] (JBool (if obj_closed obj then false else true))) ;;
  acc <- foldM (emitProp_ emit) (obj_props obj) acc ;;
  ret (JObj [("type", JStr "object");
             ("properties", JObj (properties acc));
             ("required", JArr (List.map JStr (required acc)));
             ("additionalProperties", additionalProps acc)]).

Fixpoint emit (fuel : nat) (node : TypeNode) {struct fuel} : M json :=
  match fuel with
  | 0 => fun _ => OutOfFuel
  | S fuel' =>
      match node with
      | Primitive name => ret (primitiveToSchema name)
      | StringLiteral v => ret (JObj [("type", JStr "string"); ("enum", JArr [JStr v])])
      | NumberLiteral v => ret (JObj [("type", JStr "number"); ("enum", JArr [JNum v])])
      | BooleanLiteral v => ret (JObj [("type", JStr "boolean"); ("enum", JArr [JBool v])])
      | TypeRef name =>
          ensureDef_ (emit fuel') name ;;;
          ret (JObj [("$ref", JStr ("#/$defs/" ++ name))])
      | Union members =>
          if forallb isScalarLiteral members then
            enums <- lift (rmap literalValue members) ;;
            ret (enumSchema enums)
          else
            schemas <- mapM (emit fuel') members ;;
            ret (JObj [("anyOf", JArr schemas)])
      | Intersection members =>
          obj <- lift (mergeObjects doc fuel' members) ;;
          emitObject_ (emit fuel') obj
      | Object obj => emitObject_ (emit fuel') obj
      end
  end.

Definition ensureDef (fuel : nat) : string -> M unit := ensureDef_ (emit fuel).
Definition emitObject (fuel : nat) : ObjectNode -> M json := emitObject_ (emit fuel).

Definition emitSymbol (fuel : nat) (acc : Acc) (sym : SymbolDef) : M Acc :=
  base <- emit fuel (sym_type sym) ;;
  ret (record acc (sym_name sym) (sym_optional sym) (withArray (sym_isArray sym) base)).

Definition generateGeminiSchema (fuel : nat) : result json :=
  match
    (foldM (fun (_ : unit) name => ensureDef fuel name) (map_keys (doc_types doc)) tt ;;;
     foldM (emitSymbol fuel) (doc_symbols doc) (mkAcc [] [] (JBool false)))
      (mkCtx [] [])
  with
  | Ok (acc, ctx) =>
      Ok (JObj [("type", JStr "object");
                ("properties", JObj (properties acc));
                ("required", JArr (List.map JStr (required acc)));
                ("additionalProperties", JBool false);
                ("$defs", Object_fromEntries (defs ctx))])
  | Throw msg => Throw msg
  | OutOfFuel => OutOfFuel
  end.
End Emit.
End Gemini.

(** ** The parser ([tdl.ts]) *)

Section Parser.
Context {N : JsNumber}.

Local Open Scope result_scope.

Definition isObjectNode (x : yaml) : bool :=
  match x with YMap _ => true | _ => false end.

(** [typeof v === "string"] *)
Definition isString (x : yaml) : bool :=
  match x with YStr _ => true | _ => false end.

(** [String(v)]: an array joins the strings of its elements with commas,
    [null] elements printing as nothing. *)
Fixpoint String_of_yaml (v : yaml) : string :=
  match v with
  | YNull => "null"
  | YBool true => "true"
  | YBool false => "false"
  | YNum n => String_of_number n
  | YStr s => s
  | YSeq items =>
      (fix join (l : list yaml) : string :=
         match l with
         | [] => ""
         | x :: rest =>
             let sx := match x with YNull => "" | _ => String_of_yaml x end in
             match rest with
             | [] => sx
             | _ :: _ => sx ++ "," ++ join rest
             end
         end) items
  | YMap _ => "[object Object]"
  end.

(** The loop of [splitTopLevel], from position [i] on: [prev] is [s[i-1]]. *)
Fixpoint splitLoop (sep : ascii) (l : list ascii) (prev : option ascii)
         (parts : list string) (depthParen depthAngle : Z)
         (cur : list ascii) (inStr : option ascii) : list string * list ascii :=
  match l with
  | [] => (parts, cur)
  | ch :: l' =>
      match inStr with
      | Some q =>
          let closing :=
            Ascii.eqb ch q &&
            match prev with Some b => negb (Ascii.eqb b backslash) | None => true end in
          splitLoop sep l' (Some ch) parts depthParen depthAngle (cur ++ [ch])
                    (if closing then None else inStr)
      | None =>
          if Ascii.eqb ch dquote || Ascii.eqb ch "'" then
            splitLoop sep l' (Some ch) parts depthParen depthAngle (cur ++ [ch]) (Some ch)
          else
            let depthParen' :=
              if Ascii.eqb ch "(" then (depthParen + 1)%Z
              else if Ascii.eqb ch ")" then (depthParen - 1)%Z
              else depthParen in
            let depthAngle' :=
              if Ascii.eqb ch "(" || Ascii.eqb ch ")" then depthAngle
              else if Ascii.eqb ch "<" then (depthAngle + 1)%Z
              else if Ascii.eqb ch ">" then (depthAngle - 1)%Z
              else depthAngle in
            if Z.eqb depthParen' 0 && Z.eqb depthAngle' 0 && Ascii.eqb ch sep then
              splitLoop sep l' (Some ch) (parts ++ [str (trim_chars cur)])
                        depthParen' depthAngle' [] None
            else
              splitLoop sep l' (Some ch) parts depthParen' depthAngle' (cur ++ [ch]) None
      end
  end.

Definition splitTopLevel (s : string) (sep : ascii) : list string :=
  let '(parts, cur) := splitLoop sep (chars s) None [] 0%Z 0%Z [] None in
  match trim_chars cur with
  | [] => parts
  | c :: cs => (parts ++ [str (c :: cs)])%list
  end.

Fixpoint balancedLoop (l : list ascii) (d : Z) : bool :=
  match l with
  | [] => Z.eqb d 0
  | c :: l' =>
      let d' := if Ascii.eqb c "(" then (d + 1)%Z
                else if Ascii.eqb c ")" then (d - 1)%Z
                else d in
      if Z.ltb d' 0 then false else balancedLoop l' d'
  end.

Definition isBalancedParens (s : string) : bool := balancedLoop (chars s) 0%Z.

Definition tryParseLiteral (x : string) : option Literal :=
  let s := trim_chars (chars x) in
  if (starts_with [dquote] s && ends_with [dquote] s)
     || (starts_with ["'"%char] s && ends_with ["'"%char] s)
  then Some (LString (str (slice_1_m1 s)))
  else if String.eqb (str s) "true" then Some (LBoolean true)
  else if String.eqb (str s) "false" then Some (LBoolean false)
  else if re_number s then Some (LNumber (Number_of_string (str s)))
  else None.

Definition literalToNode (v : Literal) : TypeNode :=
  match v with
  | LString s => StringLiteral s
  | LNumber n => NumberLiteral n
  | LBoolean b => BooleanLiteral b
  end.

Definition isNever (t : TypeNode) : bool :=
  match t with
  | Primitive PNever => true
  | _ => false
  end.

Definition parseLabel (label : string) : result (string * bool * bool) :=
  match re_label (chars label) with
  | None => Throw ("Invalid label: " ++ label)
  | Some (name, rest) =>
      let tail := trim_chars rest in
      Ok (str name, includes (chars "[]") tail, includes (chars "?") tail)
  end.

Inductive Domain : Type :=
| DString
| DEnum (keys : list Literal).

Definition parseEnumLike (expr : string) : result (list Literal) :=
  let parts :=
    filter (fun p => negb (String.eqb p ""))
           (List.map trim (splitTopLevel expr "|")) in
  rfold (fun keys p =>
           match tryParseLiteral p with
           | Some lit => Ok (keys ++ [lit])%list
           | None =>
               if re_all_caps (chars p) then Ok (keys ++ [LString p])%list
               else Throw ("Enum-like expression must be literals or ALL_CAPS_TOKENs: "
                             ++ expr)
           end) parts [].

Definition parseIndexLabel (label : string) : result (Domain * bool * bool) :=
  match re_index_label (chars label) with
  | None => Throw ("Invalid index signature label: " ++ label)
  | Some (seg, rest) =>
      let domainRaw := str (trim_chars seg) in
      let tail := trim_chars rest in
      let isArray := includes (chars "[]") tail in
      let optional := includes (chars "?") tail in
      if String.eqb domainRaw "string" then Ok (DString, optional, isArray)
      else
        keys <- parseEnumLike domainRaw ;;
        Ok (DEnum keys, optional, isArray)
  end.

Fixpoint parseTypeExpr (fuel : nat) (expr : string) {struct fuel} : result TypeNode :=
  match fuel with
  | 0 => OutOfFuel
  | S fuel' =>
      let t := trim_chars (chars expr) in
      let trimmed := str t in
      if String.eqb trimmed "" then Throw "Empty type expression"
      else if includes (chars "=>") t then
        Throw ("Function types are not supported: " ++ expr)
      else if has_word "if" t || has_word "then" t || has_word "else" t then
        Throw ("Conditionals are not supported: " ++ expr)
      else if includes (chars "::") t then
        Throw ("Qualified imports are not supported: " ++ expr)
      else if re_generic t then
        if re_ref t then Ok (Primitive PString)
        else Throw ("Generics are not supported in this converter: " ++ expr)
      else
        let unionParts := splitTopLevel trimmed "|" in
        if Nat.ltb 1 (List.length unionParts) then
          members <- rmap (parseTypeExpr fuel') unionParts ;;
          Ok (Union members)
        else
          let andParts := splitTopLevel trimmed "&" in
          if Nat.ltb 1 (List.length andParts) then
            members <- rmap (parseTypeExpr fuel') andParts ;;
            Ok (Intersection members)
          else if starts_with ["("%char] t && ends_with [")"%char] t
                  && isBalancedParens trimmed then
            parseTypeExpr fuel' (str (slice_1_m1 t))
          else
            match tryParseLiteral trimmed with
            | Some lit => Ok (literalToNode lit)
            | None =>
                match primitive_of_string trimmed with
                | Some name => Ok (Primitive name)
                | None =>
                    if re_type_name t then Ok (TypeRef trimmed)
                    else if re_all_caps t then Ok (StringLiteral trimmed)
                    else Throw ("Unsupported or unrecognized type expression: " ++ expr)
                end
            end
  end.

(** The accumulator of [parseInlineObject]: [props], [indexSigs], [closed]. *)
Definition ObjAcc : Type := (list PropNode * list IndexSigNode * bool)%type.

(** [isObjectNode(v) ? parseInlineObject(v) : parseTypeExpr(String(v))] *)
Definition parseValue_ (parseInline : list (string * yaml) -> result TypeNode)
           (fuel : nat) (v : yaml) : result TypeNode :=
  match v with
  | YMap entries => parseInline entries
  | _ => parseTypeExpr fuel (String_of_yaml v)
  end.

Definition parseMember_ (parseInline : list (string * yaml) -> result TypeNode)
           (fuel : nat) (acc : ObjAcc) (entry : string * yaml) : result ObjAcc :=
  let '(k, v) := entry in
  let '(props, indexSigs, closed) := acc in
  if starts_with ["["%char] (chars k) then
    '(domain, optional, isArray) <- parseIndexLabel k ;;
    valueType <- parseValue_ parseInline fuel v ;;
    match domain with
    | DString =>
        if optional && isNever valueType then Ok (props, indexSigs, true)
        else Ok (props,
                 (indexSigs ++ [mkIndexSig KString None valueType optional isArray])%list,
                 closed)
    | DEnum keys =>
        Ok (props,
            (indexSigs ++ [mkIndexSig KEnum (Some keys) valueType optional isArray])%list,
            closed)
    end
  else
    '(name, isArray, optional) <- parseLabel k ;;
    type <- parseValue_ parseInline fuel v ;;
    Ok ((props ++ [mkProp name type optional isArray])%list, indexSigs, closed).

Fixpoint parseInlineObject (fuel : nat) (obj : list (string * yaml)) {struct fuel}
  : result TypeNode :=
  match fuel with
  | 0 => OutOfFuel
  | S fuel' =>
      '(props, indexSigs, closed) <-
        rfold (parseMember_ (parseInlineObject fuel') fuel') obj ([], [], false) ;;
      Ok (Object (mkObject props indexSigs closed))
  end.

Definition parseValue (fuel : nat) : yaml -> result TypeNode :=
  parseValue_ (parseInlineObject fuel) fuel.

(** The body of the loop of [parseTDL] for one top-level entry. *)
Definition parseEntry (fuel : nat) (doc : TDLDoc) (entry : string * yaml)
  : result TDLDoc :=
  let '(k, v) := entry in
  if starts_with ["_"%char] (chars k) then
    Ok (mkDoc (doc_types doc) (doc_symbols doc) (obj_assign k v (doc_meta doc)))
  else if re_type_entry (chars k) then
    match re_extends (chars k) with
    | Some (name, baseExpr) =>
        let name := str name in
        match v with
        | YMap body =>
            base <- parseTypeExpr fuel (str baseExpr) ;;
            body <- parseInlineObject fuel body ;;
            Ok (mkDoc (map_set name (mkTypeDef name (Intersection [base; body]))
                               (doc_types doc))
                      (doc_symbols doc) (doc_meta doc))
        | _ => Throw ("Type " ++ name ++ " with extends sugar must have an object body")
        end
    | None =>
        let name := trim k in
        if negb (isObjectNode v) && negb (isString v) then
          Throw ("Type " ++ name
                   ++ " must be a scalar type expression or an inline object")
        else
          node <- parseValue fuel v ;;
          Ok (mkDoc (map_set name (mkTypeDef name node) (doc_types doc))
                    (doc_symbols doc) (doc_meta doc))
    end
  else if re_symbol_entry (chars k) then
    '(name, isArray, optional) <- parseLabel k ;;
    type <- parseValue fuel v ;;
    Ok (mkDoc (doc_types doc)
              (doc_symbols doc ++ [mkSymbol name type optional isArray])%list
              (doc_meta doc))
  else Throw ("Unrecognized top-level entry: " ++ k).

Definition parseTDL (fuel : nat) (raw : yaml) : result TDLDoc :=
  match raw with
  | YMap entries => rfold (parseEntry fuel) entries (mkDoc [] [] [])
  | _ => Throw "TDL document must be a YAML mapping at the top level"
  end.
End Parser.

(** ** The entry point ([index.ts]), after the YAML reader *)

Definition convertTypedocToSchemas {N : JsNumber} (fuel : nat) (raw : yaml)
  : result (json * json) :=
  match parseTDL fuel raw with
  | Ok doc =>
      match OpenAI.generateOpenAISchema doc fuel with
      | Ok openai =>
          match Gemini.generateGeminiSchema doc fuel with
          | Ok gemini => Ok (openai, gemini)
          | Throw msg => Throw msg
          | OutOfFuel => OutOfFuel
          end
      | Throw msg => Throw msg
      | OutOfFuel => OutOfFuel
      end
  | Throw msg => Throw msg
  | OutOfFuel => OutOfFuel
  end.

(** * Vocabulary of the statements *)

Section Vocabulary.
Context {N : JsNumber}.

(** The nodes an object's emission descends into: the value types of its
    index signatures, then the types of its properties. *)
Definition children (obj : ObjectNode) : list TypeNode :=
  (List.map (fun i : IndexSigNode => idx_valueType i) (obj_indexSigs obj)
   ++ List.map (fun p : PropNode => prop_type p) (obj_props obj))%list.

(** The names of the type references that occur in a node. *)
Fixpoint typeRefs (n : TypeNode) : list string :=
  match n with
  | TypeRef name => [name]
  | Union members => flat_map typeRefs members
  | Intersection members => flat_map typeRefs members
  | Object obj =>
      (flat_map (fun i : IndexSigNode_ TypeNode => typeRefs (idx_valueType i))
                (obj_indexSigs obj)
       ++ flat_map (fun p : PropNode_ TypeNode => typeRefs (prop_type p))
                   (obj_props obj))%list
  | _ => []
  end.

(** No type refers to a type declared after it: the references in the body
    of each declaration name the declarations before it, or itself. *)
Definition no_forward_refs (doc : TDLDoc) : Prop :=
  forall pre name def post,
    doc_types doc = (pre ++ (name, def) :: post)%list ->
    incl (typeRefs (def_node def)) (map_keys pre ++ [name])%list.

(** [grows doc c c']: the stack is restored, [defs] keeps its keys in place
    and gains keys at its end, each named by the stack or by the type table,
    and the keys of [defs] stay distinct. *)
Definition grows (doc : TDLDoc) (c c' : Ctx) : Prop :=
  stack c' = stack c /\
  (exists extra,
      map_keys (defs c') = (map_keys (defs c) ++ extra)%list /\
      forall k, In k extra -> In k (stack c) \/ In k (map_keys (doc_types doc))) /\
  (NoDup (map_keys (defs c)) -> NoDup (map_keys (defs c'))).

(** A set [S] of names is closed: the body of every declared type named in
    [S] refers to names of [S] only. *)
Definition closed_names (doc : TDLDoc) (S : list string) : Prop :=
  forall name def,
    In name S -> map_get name (doc_types doc) = Some def ->
    incl (typeRefs (def_node def)) S.

Definition refs_in (S : list string) (n : TypeNode) : Prop := incl (typeRefs n) S.

(** When every name of [S] is already defined or on the stack, an emission
    of a node referring to [S] only defines nothing but names of the stack. *)
Definition settles (S : list string) (c c' : Ctx) : Prop :=
  incl S (map_keys (defs c) ++ stack c)%list ->
  stack c' = stack c /\
  exists extra,
    map_keys (defs c') = (map_keys (defs c) ++ extra)%list /\ incl extra (stack c).

(** An emitter [e] relates the contexts before and after every successful
    emission of a node satisfying [Q]. *)
Definition emit_rel (Q : TypeNode -> Prop) (R : Ctx -> Ctx -> Prop)
           (e : TypeNode -> M json) : Prop :=
  forall node c s c', Q node -> e node c = Ok (s, c') -> R c c'.
End Vocabulary.

Section Origins.
Context {N : JsNumber}.

(** What a key of an emitted object comes from in the IR: a property, a key
    of an enum index signature, or (for the root) a symbol. *)
Record Origin : Type := mkOrigin {
  o_key : string;
  o_type : TypeNode;
  o_optional : bool;
  o_isArray : bool
}.

Definition prop_origin (p : PropNode) : Origin :=
  mkOrigin (prop_name p) (prop_type p) (prop_optional p) (prop_isArray p).

Definition sym_origin (s : SymbolDef) : Origin :=
  mkOrigin (sym_name s) (sym_type s) (sym_optional s) (sym_isArray s).

Definition key_origin (idx : IndexSigNode) (key : Literal) : Origin :=
  mkOrigin (String_of_literal key) (idx_valueType idx) (idx_optional idx) (idx_isArray idx).

Definition idx_origins (idx : IndexSigNode) : list Origin :=
  match idx_kind idx with
  | KString => []
  | KEnum =>
      List.map (key_origin idx) (match idx_keys idx with Some ks => ks | None => [] end)
  end.

(** The origins of an object's keys, in the order the emitters visit them. *)
Definition origins (obj : ObjectNode) : list Origin :=
  (flat_map idx_origins (obj_indexSigs obj) ++ List.map prop_origin (obj_props obj))%list.

(** [e] can emit [n] as the schema [s], from some context. *)
Definition emits (e : TypeNode -> M json) (n : TypeNode) (s : json) : Prop :=
  exists c c', e n c = Ok (s, c').

(** The properties object after the assignments [kvs], in order. *)
Definition assign_all (kvs : list (string * json)) : list (string * json) :=
  fold_left (fun m kv => obj_assign (fst kv) (snd kv) m) kvs [].

(** The last schema assigned to [k] among [kvs], if any. *)
Definition last_assigned (k : string) (kvs : list (string * json)) : option json :=
  map_get k (rev kvs).

(** The entry [kv] is what the OpenAI emitter stores for the origin [o]. *)
Definition OpenAI_stores (e : TypeNode -> M json) (o : Origin) (kv : string * json) : Prop :=
  fst kv = o_key o /\
  exists base,
    emits e (o_type o) base /\
    snd kv = OpenAI.finalSchema (o_isArray o) (o_optional o) base.

(** The entry [kv] is what the Gemini emitter stores for the origin [o]. *)
Definition Gemini_stores (e : TypeNode -> M json) (o : Origin) (kv : string * json) : Prop :=
  fst kv = o_key o /\
  exists base,
    emits e (o_type o) base /\
    snd kv = Gemini.withArray (o_isArray o) base.

Definition required_keys (os : list Origin) : list string :=
  List.map o_key (filter (fun o => negb (o_optional o)) os).
End Origins.

Section MergeVocabulary.
Context {N : JsNumber}.

(** The first property of a list that has the given name. *)
Definition find_prop (name : string) (ps : list PropNode) : option PropNode :=
  find (fun p : PropNode => String.eqb (prop_name p) name) ps.

(** Every key of a properties map is the name of the property it holds. *)
Definition keyed_by_name (m : Map PropNode) : Prop :=
  forall k p, In (k, p) m -> k = prop_name p.

(** [outProps.set(p.name, p)] *)
Definition set_prop (m : Map PropNode) (p : PropNode) : Map PropNode :=
  map_set (prop_name p) p m.

(** A node that is neither an object, a type reference nor an intersection. *)
Definition not_object_like (n : TypeNode) : bool :=
  match n with
  | Object _ | TypeRef _ | Intersection _ => false
  | _ => true
  end.
End MergeVocabulary.

Section ParserVocabulary.
Context {N : JsNumber}.

(** [P] holds of every object node of [n], at any depth. *)
Fixpoint every_object (P : ObjectNode -> Prop) (n : TypeNode) : Prop :=
  match n with
  | Union members => fold_right (fun m acc => every_object P m /\ acc) True members
  | Intersection members => fold_right (fun m acc => every_object P m /\ acc) True members
  | Object obj =>
      P obj /\
      fold_right (fun (i : IndexSigNode_ TypeNode) acc =>
                    every_object P (idx_valueType i) /\ acc) True (obj_indexSigs obj) /\
      fold_right (fun (p : PropNode_ TypeNode) acc =>
                    every_object P (prop_type p) /\ acc) True (obj_props obj)
  | _ => True
  end.

(** [P] holds of every object node of the document. *)
Definition every_object_of (P : ObjectNode -> Prop) (doc : TDLDoc) : Prop :=
  Forall (fun d : TypeDef => every_object P (def_node d)) (map_values (doc_types doc)) /\
  Forall (fun s : SymbolDef => every_object P (sym_type s)) (doc_symbols doc).

Definition names_distinct (obj : ObjectNode) : Prop :=
  NoDup (List.map (fun p : PropNode => prop_name p) (obj_props obj)).

(** An enum signature carries a keys vector; a string signature carries none
    and is not the closure sugar. *)
Definition signatures_formed (obj : ObjectNode) : Prop :=
  Forall (fun i : IndexSigNode =>
            match idx_kind i with
            | KEnum => exists keys, idx_keys i = Some keys
            | KString =>
                idx_keys i = None /\
                (idx_optional i && isNever (idx_valueType i) = false)
            end) (obj_indexSigs obj).

(** The name a property label denotes: the label less its suffix. *)
Definition label_name (label : string) : string :=
  match re_label (chars label) with
  | Some (name, _) => str name
  | None => ""
  end.

(** The property labels of a mapping: the keys that open no index signature. *)
Definition prop_labels (entries : list (string * yaml)) : list string :=
  List.map fst (filter (fun kv => negb (starts_with ["["%char] (chars (fst kv)))) entries).

(** In every mapping of the value, at any depth, no two property labels
    denote the same name. *)
Fixpoint labels_distinct (v : yaml) : Prop :=
  match v with
  | YMap entries =>
      NoDup (List.map label_name (prop_labels entries)) /\
      fold_right (fun (kv : string * yaml) acc => labels_distinct (snd kv) /\ acc)
                 True entries
  | _ => True
  end.

(** The same, for every value of the top-level mapping. *)
Definition top_labels_distinct (raw : yaml) : Prop :=
  match raw with
  | YMap entries => Forall (fun kv => labels_distinct (snd kv)) entries
  | _ => True
  end.
End ParserVocabulary.

(** * A runtime for the examples

    The examples below run on decimal numbers: a number is a natural
    mantissa and a count of fraction digits, without trailing zeros in the
    fraction.  On tokens of at most fifteen significant digits this is the
    value and the printing of IEEE doubles. *)

Section DecimalRuntime.
Definition digit_value (c : ascii) : N := N.of_nat (code c - 48).

Definition digits_value (l : list ascii) : N :=
  fold_left (fun a c => (10 * a + digit_value c)%N) l 0%N.

Fixpoint strip_zeros (m : N) (scale : nat) : N * nat :=
  match scale with
  | 0 => (m, 0)
  | S k => if N.eqb (N.modulo m 10) 0 then strip_zeros (N.div m 10) k else (m, scale)
  end.

Definition decimal_of_string (s : string) : N * nat :=
  let l := chars s in
  let frac := tl (dropWhile is_digit l) in
  strip_zeros (digits_value (takeWhile is_digit l ++ frac)) (List.length frac).

Fixpoint digits_of (fuel : nat) (m : N) : list ascii :=
  match fuel with
  | 0 => []
  | S f =>
      let d := ascii_of_nat (48 + N.to_nat (N.modulo m 10)) in
      if N.ltb m 10 then [d] else (digits_of f (N.div m 10) ++ [d])%list
  end.

Definition string_of_decimal (d : N * nat) : string :=
  let '(m, scale) := d in
  let ds := digits_of (S (N.size_nat m)) m in
  let padded := (repeat "0"%char (S scale - List.length ds) ++ ds)%list in
  let int := firstn (List.length padded - scale) padded in
  match skipn (List.length padded - scale) padded with
  | [] => str int
  | frac => str (int ++ "."%char :: frac)
  end.

Definition decimal_gt (a b : N * nat) : bool :=
  N.ltb (fst b * 10 ^ N.of_nat (snd a)) (fst a * 10 ^ N.of_nat (snd b)).

Definition DecimalNumber : JsNumber := {|
  number := (N * nat)%type;
  Number_of_string := decimal_of_string;
  String_of_number := string_of_decimal;
  number_gt := decimal_gt;
  one_gt_zero := eq_refl
|}.
End DecimalRuntime.

(** * Example documents, as the YAML reader hands them over *)

Section Examples.
(** [Tree: { value: number, children[]: Tree }] with [root: Tree] *)
Definition tree_yaml : @yaml DecimalNumber :=
  YMap [("Tree", YMap [("value", YStr "number"); ("children[]", YStr "Tree")]);
        ("root", YStr "Tree")].

(** [A: B] before [B: string] *)
Definition forward_alias_yaml : @yaml DecimalNumber :=
  YMap [("A", YStr "B"); ("B", YStr "string")].

(** [Node(Node): { value: number }]: a type that extends itself *)
Definition self_extending_yaml : @yaml DecimalNumber :=
  YMap [("Node(Node)", YMap [("value", YStr "number")])].

Definition self_extending_doc {N : JsNumber} : TDLDoc :=
  mkDoc [("Node",
          mkTypeDef "Node"
            (Intersection
               [TypeRef "Node";
                Object (mkObject [mkProp "value" (Primitive PNumber) false false] [] false)]))]
        [] [].

(** An enum index signature whose only key is the prototype key *)
Definition proto_key_yaml : @yaml DecimalNumber :=
  YMap [("Foo", YMap [("[k: '__proto__']", YStr "string")])].

(** [tags?[]: 'a' | 'b' | 'c'] *)
Definition tags_yaml : @yaml DecimalNumber :=
  YMap [("tags?[]", YStr "'a' | 'b' | 'c'")].

(** [mixed: 'a' | true] *)
Definition mixed_union_yaml : @yaml DecimalNumber :=
  YMap [("mixed", YStr "'a' | true")].

(** The symbol [foo] declared twice, required and optional *)
Definition twice_yaml : @yaml DecimalNumber :=
  YMap [("foo", YStr "string"); ("foo?", YStr "number")].

(** [scores: { [k: string]: number }] *)
Definition scores_yaml : @yaml DecimalNumber :=
  YMap [("scores", YMap [("[k: string]", YStr "number")])].

(** [A: { x: string, y: string }], [B: { x: number }], [out: A & B] *)
Definition override_yaml : @yaml DecimalNumber :=
  YMap [("A", YMap [("x", YStr "string"); ("y", YStr "string")]);
        ("B", YMap [("x", YStr "number")]);
        ("out", YStr "A & B")].

(** An object whose labels [x] and [x?] denote one name, with an enum
    signature of mixed keys and one of no key *)
Definition irregular_yaml : @yaml DecimalNumber :=
  YMap [("item", YMap [("x", YStr "string"); ("x?", YStr "number");
                       ("[k: 'a' | true]", YStr "string");
                       ("[k: |]", YStr "string")])].

(** A boolean as the value of a symbol, and of a type *)
Definition flag_symbol_yaml : @yaml DecimalNumber := YMap [("flag", YBool true)].
Definition flag_type_yaml : @yaml DecimalNumber := YMap [("Flag", YBool true)].

(** The documents these parse into, and two of the schemas. *)
Definition parsed {N : JsNumber} (raw : yaml) : TDLDoc :=
  match parseTDL 10 raw with
  | Ok doc => doc
  | _ => mkDoc [] [] []
  end.

Definition tree_doc : @TDLDoc DecimalNumber := Eval vm_compute in parsed tree_yaml.
Definition forward_alias_doc : @TDLDoc DecimalNumber := Eval vm_compute in parsed forward_alias_yaml.
Definition tags_doc : @TDLDoc DecimalNumber := Eval vm_compute in parsed tags_yaml.
Definition twice_doc : @TDLDoc DecimalNumber := Eval vm_compute in parsed twice_yaml.
Definition override_doc : @TDLDoc DecimalNumber := Eval vm_compute in parsed override_yaml.
Definition irregular_doc : @TDLDoc DecimalNumber := Eval vm_compute in parsed irregular_yaml.

Definition empty_doc : @TDLDoc DecimalNumber := mkDoc [] [] [].
Definition empty_ctx : @Ctx DecimalNumber := mkCtx [] [].

(** ['a' | true] and ['a' | 'b'] *)
Definition mixed_members : list (@TypeNode DecimalNumber) :=
  [StringLiteral "a"; BooleanLiteral true].
Definition string_members : list (@TypeNode DecimalNumber) :=
  [StringLiteral "a"; StringLiteral "b"].

(** The schemas of [tree_yaml] and [tags_yaml]. *)
Definition tree_openai : @json DecimalNumber :=
  JObj [("type", JStr "object");
        ("properties", JObj [("root", JObj [("$ref", JStr "#/$defs/Tree")])]);
        ("required", JArr [JStr "root"]);
        ("additionalProperties", JBool false);
        ("$defs",
         JObj [("Tree",
                JObj [("type", JStr "object");
                      ("properties",
                       JObj [("value", JObj [("type", JStr "number")]);
                             ("children",
                              JObj [("type", JStr "array");
                                    ("items", JObj [("$ref", JStr "#/$defs/Tree")])])]);
                      ("required", JArr [JStr "value"; JStr "children"]);
                      ("additionalProperties", JBool false)])])].

Definition tags_openai : @json DecimalNumber :=
  JObj [("type", JStr "object");
        ("properties",
         JObj [("tags",
                JObj [("type", JArr [JStr "array"; JStr "null"]);
                      ("items",
                       JObj [("enum", JArr [JStr "a"; JStr "b"; JStr "c"]);
                             ("type", JStr "string")])])]);
        ("required", JArr [JStr "tags"]);
        ("additionalProperties", JBool false);
        ("$defs", JObj [])].

Definition tags_gemini : @json DecimalNumber :=
  JObj [("type", JStr "object");
        ("properties",
         JObj [("tags",
                JObj [("type", JStr "array");
                      ("items",
                       JObj [("enum", JArr [JStr "a"; JStr "b"; JStr "c"]);
                             ("type", JStr "string")])])]);
        ("required", JArr []);
        ("additionalProperties", JBool false);
        ("$defs", JObj [])].

(** The object [A & B] of [override_yaml] merges into. *)
Definition override_merged : @ObjectNode DecimalNumber :=
  mkObject [mkProp "x" (Primitive PNumber) false false;
            mkProp "y" (Primitive PString) false false] [] false.

Definition override_parts : list (@TypeNode DecimalNumber) :=
  [TypeRef "A"; TypeRef "B"].

Definition scores_object : @ObjectNode DecimalNumber :=
  mkObject [] [mkIndexSig KString None (Primitive PNumber) false false] false.
End Examples.

(** * Vocabulary of the further properties *)

Section References.
Context {N : JsNumber}.

(** The JSON pointer the emitters write for a named type. *)
Definition ref_path (name : string) : string := "#/$defs/" ++ name.

(** The string a field holds as a reference: the value of a [$ref] key. *)
Definition own_ref (k : string) (v : json) : list string :=
  match v with
  | JStr s => if String.eqb k "$ref" then [s] else []
  | _ => []
  end.

(** Every reference of a JSON value, at any depth. *)
Fixpoint json_refs (j : json) : list string :=
  match j with
  | JArr items => flat_map json_refs items
  | JObj fields =>
      flat_map (fun kv : string * json => (own_ref (fst kv) (snd kv) ++ json_refs (snd kv))%list)
               fields
  | _ => []
  end.

Definition is_object (j : json) : Prop :=
  match j with JObj _ => True | _ => False end.

(** The names a schema may refer to while the context is [c]: the names
    defined so far, and the names under emission. *)
Definition known_names (c : Ctx) : list string := (map_keys (defs c) ++ stack c)%list.

(** A schema is an object whose references point at known names. *)
Definition schema_ok (c : Ctx) (s : json) : Prop :=
  is_object s /\ incl (json_refs s) (List.map ref_path (known_names c)).

Definition fields_ok (c : Ctx) (fields : list (string * json)) : Prop :=
  Forall (fun kv : string * json => schema_ok c (snd kv)) fields.

Definition defs_ok (c : Ctx) : Prop := fields_ok c (defs c).

Definition emits_ok (doc : TDLDoc) (e : TypeNode -> M json) : Prop :=
  forall node c s c',
    e node c = Ok (s, c') ->
    grows doc c c' /\ schema_ok c' s /\ (defs_ok c -> defs_ok c').
End References.

Section Definitions.
Context {N : JsNumber}.

(** [s] is a schema the emitter returns for [node], at some call depth and
    from some context. *)
Definition emitted_by (emit : nat -> TypeNode -> M json) (node : TypeNode) (s : json)
  : Prop :=
  exists fuel c c', emit fuel node c = Ok (s, c').

(** Every entry of [defs] whose name is not under emission holds a schema
    emitted for the body of the type of that name. *)
Definition defs_done (doc : TDLDoc) (emit : nat -> TypeNode -> M json) (c : Ctx) : Prop :=
  forall name v,
    map_get name (defs c) = Some v -> ~ In name (stack c) ->
    exists def,
      map_get name (doc_types doc) = Some def /\ emitted_by emit (def_node def) v.
End Definitions.

Section Termination.
Context {N : JsNumber}.

(** A call returns: it yields a value or throws, within the call depth. *)
Definition returns {A : Type} (r : result A) : Prop :=
  match r with OutOfFuel => False | _ => True end.

(** The nesting depth of a node. *)
Fixpoint depth (n : TypeNode) : nat :=
  match n with
  | Union ms => S (fold_right (fun m acc => Nat.max (depth m) acc) 0 ms)
  | Intersection ms => S (fold_right (fun m acc => Nat.max (depth m) acc) 0 ms)
  | Object obj =>
      S (Nat.max
           (fold_right (fun (i : IndexSigNode_ TypeNode) acc =>
                          Nat.max (depth (idx_valueType i)) acc) 0 (obj_indexSigs obj))
           (fold_right (fun (p : PropNode_ TypeNode) acc =>
                          Nat.max (depth (prop_type p)) acc) 0 (obj_props obj)))
  | _ => 1
  end.

(** No intersection occurs in the node. *)
Fixpoint intersection_free (n : TypeNode) : bool :=
  match n with
  | Union ms => forallb intersection_free ms
  | Intersection _ => false
  | Object obj =>
      forallb (fun i : IndexSigNode_ TypeNode => intersection_free (idx_valueType i))
              (obj_indexSigs obj)
      && forallb (fun p : PropNode_ TypeNode => intersection_free (prop_type p))
                 (obj_props obj)
  | _ => true
  end.

(** The nodes of a document: the bodies of its types and the types of its
    symbols. *)
Definition doc_nodes (doc : TDLDoc) : list TypeNode :=
  (List.map (fun d : TypeDef => def_node d) (map_values (doc_types doc))
   ++ List.map (fun s : SymbolDef => sym_type s) (doc_symbols doc))%list.

Definition doc_depth (doc : TDLDoc) : nat :=
  fold_right (fun n acc => Nat.max (depth n) acc) 0 (doc_nodes doc).

(** The declared names that are not under emission. *)
Definition pending (doc : TDLDoc) (c : Ctx) : nat :=
  List.length (filter (fun name => negb (set_has name (stack c))) (map_keys (doc_types doc))).

(** A call depth that suffices for a document without intersections. *)
Definition fuel_bound (doc : TDLDoc) : nat :=
  S (List.length (doc_types doc)) * S (doc_depth doc).
End Termination.

Section MoreExamples.
(** The OpenAI schema of the object [A & B] of [override_yaml] merges into. *)
Definition override_schema : @json DecimalNumber :=
  JObj [("type", JStr "object");
        ("properties", JObj [("x", JObj [("type", JStr "number")]);
                             ("y", JObj [("type", JStr "string")])]);
        ("required", JArr [JStr "x"; JStr "y"]);
        ("additionalProperties", JBool false)].

(** The body of [Tree] in [tree_yaml]. *)
Definition tree_def : @TypeDef DecimalNumber :=
  mkTypeDef "Tree"
    (Object (mkObject [mkProp "value" (Primitive PNumber) false false;
                       mkProp "children" (TypeRef "Tree") false true] [] false)).

(** An object closed by a string signature over [never] that the parser
    would have absorbed, as an IR value; and an open object with an enum
    signature. *)
Definition sealed_object : @ObjectNode DecimalNumber :=
  mkObject [mkProp "x" (Primitive PString) false false]
           [mkIndexSig KString None (Primitive PNever) true false] false.

Definition keyed_object : @ObjectNode DecimalNumber :=
  mkObject [] [mkIndexSig KEnum (Some [LString "a"]) (Primitive PString) true false] false.
End MoreExamples.

Section Orders.
(** The distinct elements of a list, each at its first occurrence. *)
Definition first_occurrences (names : list string) : list string :=
  fold_left (fun s k => set_add k s) names [].
End Orders.

Section ParserVocabulary2.
Context {N : JsNumber}.

(** What a character adds to the parenthesis depth. *)
Definition paren_delta (c : ascii) : Z :=
  if Ascii.eqb c "(" then 1%Z else if Ascii.eqb c ")" then (-1)%Z else 0%Z.

(** Opening less closing parentheses of a text. *)
Definition paren_sum (l : list ascii) : Z :=
  fold_right (fun c acc => (paren_delta c + acc)%Z) 0%Z l.

(** A text between two quote characters [q]. *)
Definition quoted (q : ascii) (s : string) : string := String q (s ++ String q "").

(** The three kinds of top-level keys [parseTDL] accepts, in the order it
    tests them. *)
Definition is_meta_key (k : string) : bool := starts_with ["_"%char] (chars k).

Definition is_type_key (k : string) : bool :=
  negb (is_meta_key k) && re_type_entry (chars k).

Definition is_symbol_key (k : string) : bool :=
  negb (is_meta_key k) && negb (re_type_entry (chars k)) && re_symbol_entry (chars k).

(** The name a type key declares: the name before the parenthesis of the
    extends sugar, or else the trimmed key. *)
Definition type_key_name (k : string) : string :=
  match re_extends (chars k) with
  | Some (name, _) => str name
  | None => trim k
  end.

(** The shape of a node a scalar type expression parses into: it holds no
    object, and its unions and intersections have two members or more. *)
Fixpoint expr_shaped (n : TypeNode) : Prop :=
  match n with
  | Union ms =>
      2 <= List.length ms /\ fold_right (fun m acc => expr_shaped m /\ acc) True ms
  | Intersection ms =>
      2 <= List.length ms /\ fold_right (fun m acc => expr_shaped m /\ acc) True ms
  | Object _ => False
  | _ => True
  end.
End ParserVocabulary2.

Section ParserExamples.
(** ['a' | (B & C)] as it parses. *)
Definition nested_expr : @TypeNode DecimalNumber :=
  Union [StringLiteral "a"; Intersection [TypeRef "B"; TypeRef "C"]].
End ParserExamples.

Section TopLevelVocabulary.
(** Whether a symbol label marks its symbol optional. *)
Definition label_optional (k : string) : bool :=
  match parseLabel k with
  | Ok (_, _, optional) => optional
  | _ => false
  end.

Definition is_required_symbol_key (k : string) : bool :=
  is_symbol_key k && negb (label_optional k).

(** A document with a named type, a metadata entry, a required symbol and an
    optional one. *)
Definition mixed_entries : list (string * @yaml DecimalNumber) :=
  [("total", YStr "number"); ("_version", YStr "1.2"); ("Item", YStr "string");
   ("note?", YStr "Item")].
End TopLevelVocabulary.

Section Memoization.
Context {N : JsNumber}.

(** From [c] to [c']: the stack is as it was, and every name that has an
    entry in [defs] and is not under emission keeps its schema. *)
Definition keeps_completed (c c' : Ctx) : Prop :=
  stack c' = stack c /\
  forall name v,
    ~ In name (stack c) -> map_get name (defs c) = Some v ->
    map_get name (defs c') = Some v.
End Memoization.

Section ContextExamples.
(** A context in which [Tree] is completed, with a schema of its own. *)
Definition seeded_ctx : @Ctx DecimalNumber :=
  mkCtx [("Tree", JObj [("type", JStr "string")])] [].
End ContextExamples.

Section ClosureVocabulary.
Context {N : JsNumber}.

(** An entry of a mapping is the closure sugar: an index signature over the
    domain [string], marked optional, whose value parses as [never]. *)
Definition is_closure_entry (parseV : yaml -> result TypeNode) (entry : string * yaml)
  : Prop :=
  starts_with ["["%char] (chars (fst entry)) = true /\
  exists isArray,
    parseIndexLabel (fst entry) = Ok (DString, true, isArray) /\
    parseV (snd entry) = Ok (Primitive PNever).
End ClosureVocabulary.

Section ClosureExamples.
(** [{ x: string, [k: string]?: never }] and [{ x: string, [k: string]: never }] *)
Definition sealed_entries : list (string * @yaml DecimalNumber) :=
  [("x", YStr "string"); ("[k: string]?", YStr "never")].

Definition sealed_parsed : @ObjectNode DecimalNumber :=
  mkObject [mkProp "x" (Primitive PString) false false] [] true.
End ClosureExamples.

Section UnsupportedSyntax.
(** One of the words [if], [then], [else] stands in the text as a word of
    its own. *)
Definition has_keyword (l : list ascii) : bool :=
  has_word "if" l || has_word "then" l || has_word "else" l.

(** The message with which a text is refused before it is read as a type
    expression, if it is: an arrow, a conditional word, a double colon, in
    this order. *)
Definition unsupported (l : list ascii) : option string :=
  if includes (chars "=>") l then Some "Function types are not supported: "
  else if has_keyword l then Some "Conditionals are not supported: "
  else if includes (chars "::") l then Some "Qualified imports are not supported: "
  else None.
End UnsupportedSyntax.

Section ObjectLike.
Context {N : JsNumber}.
Variable doc : TDLDoc.

(** A node stands for an object: an object, a reference to a declared type
    whose body stands for an object, or an intersection of such nodes. *)
Inductive object_like : TypeNode -> Prop :=
| object_like_object (obj : ObjectNode) : object_like (Object obj)
| object_like_ref (name : string) (def : TypeDef) :
    map_get name (doc_types doc) = Some def ->
    object_like (def_node def) ->
    object_like (TypeRef name)
| object_like_intersection (members : list TypeNode) :
    (forall m, In m members -> object_like m) ->
    object_like (Intersection members).
End ObjectLike.

Section ObjectLikeExamples.
(** [Pet: { name: string }] and [Id: string] *)
Definition pet_doc : @TDLDoc DecimalNumber :=
  mkDoc [("Pet", mkTypeDef "Pet"
                   (Object (mkObject [mkProp "name" (Primitive PString) false false]
                                     [] false)));
         ("Id", mkTypeDef "Id" (Primitive PString))] [] [].

(** [Pet & { age: number }] *)
Definition pet_with_age : list (@TypeNode DecimalNumber) :=
  [TypeRef "Pet";
   Object (mkObject [mkProp "age" (Primitive PNumber) false false] [] false)].
End ObjectLikeExamples.

Section SplittingVocabulary.
(** The pieces a text is written from: a plain character, a quoted run, a
    parenthesised group. *)
Inductive Item : Type :=
| Plain (c : ascii)
| Quoted (q : ascii) (body : list ascii)
| Group (inner : list ascii).

Definition item_chars (it : Item) : list ascii :=
  match it with
  | Plain c => [c]
  | Quoted q body => q :: body ++ [q]
  | Group inner => "("%char :: inner ++ [")"%char]
  end.

Definition items_chars (its : list Item) : list ascii := flat_map item_chars its.

(** A quote, a parenthesis or an angle bracket. *)
Definition is_delimiter (c : ascii) : bool :=
  Ascii.eqb c dquote || Ascii.eqb c "'" || Ascii.eqb c "(" || Ascii.eqb c ")"
  || Ascii.eqb c "<" || Ascii.eqb c ">".

(** A plain character is neither a delimiter nor the separator; a quoted run
    is between two quotes of one kind, holds no quote of this kind and does
    not end with a backslash; a group holds no delimiter.  The separator may
    stand in a quoted run and in a group. *)
Definition item_ok (sep : ascii) (it : Item) : bool :=
  match it with
  | Plain c => negb (is_delimiter c) && negb (Ascii.eqb c sep)
  | Quoted q body =>
      (Ascii.eqb q dquote || Ascii.eqb q "'")
      && forallb (fun c => negb (Ascii.eqb c q)) body
      && negb (Ascii.eqb (last body q) backslash)
  | Group inner => forallb (fun c => negb (is_delimiter c)) inner
  end.

(** The text of segments, each followed by the separator, and of a last one. *)
Definition joined (sep : ascii) (segs : list (list Item)) (final : list Item)
  : list ascii :=
  (flat_map (fun seg => items_chars seg ++ [sep]) segs ++ items_chars final)%list.
End SplittingVocabulary.

Section SplittingExamples.
(** The two segments of ['a|b' | (C | D) |], before a blank last one. *)
Definition guarded_segments : list (list Item) :=
  [[Quoted "'" (chars "a|b"); Plain " "]; [Plain " "; Group (chars "C | D"); Plain " "]].
End SplittingExamples.

(** * Properties of the converter *)

Section UnionFacts.
Context {N : JsNumber}.

Lemma rmap_literalValue_Forall2 (members : list TypeNode) (values : list Literal) :
  rmap literalValue members = Ok values <->
  Forall2 (fun m v => literalValue m = Ok v) members values.
Proof.
  revert values; induction members as [|m members IH]; intros values; simpl.
  - split.
    + intros H; injection H as <-; constructor.
    + intros H; inversion H; reflexivity.
  - split.
    + destruct (literalValue m) as [v| |] eqn:Hm; try discriminate.
      destruct (rmap literalValue members) as [vs| |] eqn:Hr; try discriminate.
      intros H; injection H as <-. constructor; [assumption|]. now apply IH.
    + intros H; inversion H as [|? v ? vs Hm Hrest]; subst.
      rewrite Hm. apply IH in Hrest. now rewrite Hrest.
Qed.

Lemma literalValue_isScalarLiteral (m : TypeNode) (v : Literal) :
  literalValue m = Ok v -> isScalarLiteral m = true.
Proof. destruct m; simpl; intros H; try discriminate; reflexivity. Qed.

Lemma isScalarLiteral_literalValue (m : TypeNode) :
  isScalarLiteral m = true -> exists v, literalValue m = Ok v.
Proof. destruct m; simpl; intros H; try discriminate; eauto. Qed.

Lemma Forall2_literalValue_forallb (members : list TypeNode) (values : list Literal) :
  Forall2 (fun m v => literalValue m = Ok v) members values ->
  forallb isScalarLiteral members = true.
Proof.
  induction 1 as [|m v ms vs Hm _ IH]; simpl; [reflexivity|].
  erewrite literalValue_isScalarLiteral by eassumption. assumption.
Qed.

Lemma typeof_cases (v : Literal) :
  typeof v = "string" \/ typeof v = "number" \/ typeof v = "boolean".
Proof. destruct v; simpl; auto. Qed.

Lemma unionLiteralType_Some (values : list Literal) (t : string) :
  unionLiteralType values = Some t <->
  values <> [] /\ Forall (fun v => typeof v = t) values.
Proof.
  unfold unionLiteralType. destruct values as [|v vs]; simpl.
  - split; [discriminate | intros [H _]; now elim H].
  - destruct (forallb (String.eqb (typeof v)) (List.map typeof vs)) eqn:Hall.
    + assert (Hvs : Forall (fun w => typeof w = typeof v) vs).
      { rewrite forallb_forall in Hall. apply Forall_forall. intros w Hw.
        symmetry. apply String.eqb_eq, Hall, in_map, Hw. }
      assert (Hk : (typeof v =? "string") || (typeof v =? "number")
                   || (typeof v =? "boolean") = true).
      { destruct (typeof_cases v) as [-> | [-> | ->]]; reflexivity. }
      rewrite Hk. split.
      * intros H; injection H as <-. split; [discriminate|]. now constructor.
      * intros [_ H]. inversion H; subst. reflexivity.
    + split; [discriminate|]. intros [_ H]. inversion H as [|? ? Hv Hrest]; subst.
      exfalso. apply Bool.not_true_iff_false in Hall. apply Hall.
      apply forallb_forall. intros s Hs. apply in_map_iff in Hs as (w & <- & Hw).
      apply String.eqb_eq. rewrite Forall_forall in Hrest. symmetry. now apply Hrest.
Qed.
End UnionFacts.

(** ** The emitter monad *)

Section MonadFacts.
Context {N : JsNumber}.

Lemma bind_Ok {A B : Type} (c : M A) (k : A -> M B) ctx b ctx' :
  bind c k ctx = Ok (b, ctx') <->
  exists a ctx1, c ctx = Ok (a, ctx1) /\ k a ctx1 = Ok (b, ctx').
Proof.
  unfold bind. destruct (c ctx) as [[a ctx1]| |]; split.
  - intros H; eauto.
  - intros (a' & c' & H1 & H2). injection H1 as -> ->. assumption.
  - discriminate.
  - intros (? & ? & H1 & _); discriminate.
  - discriminate.
  - intros (? & ? & H1 & _); discriminate.
Qed.

Lemma lift_Ok {A : Type} (r : result A) ctx a ctx' :
  lift r ctx = Ok (a, ctx') <-> r = Ok a /\ ctx' = ctx.
Proof.
  unfold lift. destruct r; split; try discriminate.
  - intros H; injection H as -> ->; auto.
  - intros [H ->]; injection H as ->; reflexivity.
  - intros [H _]; discriminate.
  - intros [H _]; discriminate.
Qed.

Lemma ret_Ok {A : Type} (a b : A) ctx ctx' :
  ret a ctx = Ok (b, ctx') <-> b = a /\ ctx' = ctx.
Proof.
  unfold ret. split.
  - intros H; injection H as -> ->; auto.
  - intros [-> ->]; reflexivity.
Qed.

Lemma mapM_Ok {A B : Type} (f : A -> M B) (l : list A) ctx bs ctx' :
  mapM f l ctx = Ok (bs, ctx') ->
  Forall2 (fun a b => exists c1 c2, f a c1 = Ok (b, c2)) l bs.
Proof.
  revert ctx bs ctx'. induction l as [|a l IH]; intros ctx bs ctx'; simpl.
  - intros H; apply ret_Ok in H as [-> _]; constructor.
  - intros H. apply bind_Ok in H as (b & c1 & Hb & H).
    apply bind_Ok in H as (bs' & c2 & Hbs & H).
    apply ret_Ok in H as [-> _].
    constructor; eauto.
Qed.
End MonadFacts.

Section UnionLowering.
Context {N : JsNumber}.
Variable doc : TDLDoc.

Lemma enumSchema_typed (values : list Literal) (t : string) :
  values <> [] -> Forall (fun v => typeof v = t) values ->
  enumSchema values =
    JObj [("enum", JArr (List.map json_of_literal values)); ("type", JStr t)].
Proof.
  intros Hne Hall. unfold enumSchema.
  assert (H : unionLiteralType values = Some t) by (apply unionLiteralType_Some; auto).
  rewrite H. reflexivity.
Qed.

Lemma enumSchema_untyped (values : list Literal) :
  (forall t, ~ (values <> [] /\ Forall (fun v => typeof v = t) values)) ->
  enumSchema values = JObj [("enum", JArr (List.map json_of_literal values))].
Proof.
  intros Hno. unfold enumSchema.
  destruct (unionLiteralType values) as [t|] eqn:H; [|reflexivity].
  apply unionLiteralType_Some in H. now elim (Hno t).
Qed.

Lemma OpenAI_emit_literal_union fuel members values ctx :
  Forall2 (fun m v => literalValue m = Ok v) members values ->
  OpenAI.emit doc (S fuel) (Union members) ctx = Ok (enumSchema values, ctx).
Proof.
  intros H. simpl. rewrite (Forall2_literalValue_forallb H).
  apply rmap_literalValue_Forall2 in H. unfold bind, lift. rewrite H. reflexivity.
Qed.

Lemma Gemini_emit_literal_union fuel members values ctx :
  Forall2 (fun m v => literalValue m = Ok v) members values ->
  Gemini.emit doc (S fuel) (Union members) ctx = Ok (enumSchema values, ctx).
Proof.
  intros H. simpl. rewrite (Forall2_literalValue_forallb H).
  apply rmap_literalValue_Forall2 in H. unfold bind, lift. rewrite H. reflexivity.
Qed.

Lemma OpenAI_emit_other_union fuel members ctx s ctx' :
  forallb isScalarLiteral members = false ->
  OpenAI.emit doc (S fuel) (Union members) ctx = Ok (s, ctx') ->
  exists schemas,
    s = JObj [("anyOf", JArr schemas)] /\
    Forall2 (fun m sm => exists c1 c2, OpenAI.emit doc fuel m c1 = Ok (sm, c2))
            members schemas.
Proof.
  intros Hlit H. simpl in H. rewrite Hlit in H.
  apply bind_Ok in H as (schemas & c1 & H1 & H). apply ret_Ok in H as [-> _].
  eexists; split; [reflexivity|]. eapply mapM_Ok; eassumption.
Qed.

Lemma Gemini_emit_other_union fuel members ctx s ctx' :
  forallb isScalarLiteral members = false ->
  Gemini.emit doc (S fuel) (Union members) ctx = Ok (s, ctx') ->
  exists schemas,
    s = JObj [("anyOf", JArr schemas)] /\
    Forall2 (fun m sm => exists c1 c2, Gemini.emit doc fuel m c1 = Ok (sm, c2))
            members schemas.
Proof.
  intros Hlit H. simpl in H. rewrite Hlit in H.
  apply bind_Ok in H as (schemas & c1 & H1 & H). apply ret_Ok in H as [-> _].
  eexists; split; [reflexivity|]. eapply mapM_Ok; eassumption.
Qed.
End UnionLowering.

(** ** Maps and sets *)

Section MapFacts.
Variable V : Type.
Implicit Types (m : Map V) (k : string) (v : V).

Lemma map_has_In k m : map_has k m = true <-> In k (map_keys m).
Proof.
  unfold map_has. induction m as [|[k' v'] m IH]; simpl.
  - split; [discriminate | tauto].
  - destruct (String.eqb_spec k' k) as [->|Hne].
    + split; auto.
    + rewrite IH. split; [auto | intros [H|H]; [contradiction | assumption]].
Qed.

Lemma map_has_false k m : map_has k m = false <-> ~ In k (map_keys m).
Proof.
  rewrite <- map_has_In. destruct (map_has k m); split; congruence.
Qed.

Lemma map_keys_set k v m :
  map_keys (map_set k v m) =
  if map_has k m then map_keys m else (map_keys m ++ [k])%list.
Proof.
  unfold map_has. induction m as [|[k' v'] m IH]; simpl; [reflexivity|].
  destruct (String.eqb_spec k' k) as [->|Hne]; simpl.
  - reflexivity.
  - rewrite IH. destruct (map_get k m); reflexivity.
Qed.

Lemma map_keys_set_In k v m k' :
  In k' (map_keys (map_set k v m)) <-> k' = k \/ In k' (map_keys m).
Proof.
  rewrite map_keys_set. destruct (map_has k m) eqn:Hk.
  - apply map_has_In in Hk. split; [auto | intros [->|H]; assumption].
  - rewrite in_app_iff. simpl. intuition.
Qed.

Lemma map_keys_set_NoDup k v m :
  NoDup (map_keys m) -> NoDup (map_keys (map_set k v m)).
Proof.
  intros Hm. rewrite map_keys_set. destruct (map_has k m) eqn:Hk; [assumption|].
  apply map_has_false in Hk.
  apply NoDup_app; [assumption | repeat constructor; auto | ].
  intros x Hx [<-|[]]. contradiction.
Qed.

Lemma map_get_set_same k v m : map_get k (map_set k v m) = Some v.
Proof.
  induction m as [|[k' v'] m IH]; simpl.
  - now rewrite String.eqb_refl.
  - destruct (String.eqb_spec k' k) as [->|Hne]; simpl.
    + now rewrite String.eqb_refl.
    + destruct (String.eqb_spec k' k); [contradiction | assumption].
Qed.

Lemma map_get_set_other k k' v m :
  k' <> k -> map_get k' (map_set k v m) = map_get k' m.
Proof.
  intros Hne. induction m as [|[k0 v0] m IH]; simpl.
  - destruct (String.eqb_spec k k'); [congruence | reflexivity].
  - destruct (String.eqb_spec k0 k) as [->|Hk]; simpl.
    + destruct (String.eqb_spec k k'); [congruence | reflexivity].
    + destruct (String.eqb_spec k0 k'); [reflexivity | assumption].
Qed.

Lemma map_get_Some_In k v m : map_get k m = Some v -> In k (map_keys m).
Proof.
  intros H. apply map_has_In. unfold map_has. now rewrite H.
Qed.
End MapFacts.

Lemma set_has_In k s : set_has k s = true <-> In k s.
Proof.
  unfold set_has. rewrite existsb_exists. split.
  - intros (x & Hx & Heq). apply String.eqb_eq in Heq. now subst.
  - intros H. exists k. split; [assumption | apply String.eqb_refl].
Qed.

Lemma set_delete_add k s : set_has k s = false -> set_delete k (set_add k s) = s.
Proof.
  intros Hk. unfold set_add. rewrite Hk. unfold set_delete.
  rewrite filter_app. simpl. rewrite String.eqb_refl. simpl. rewrite app_nil_r.
  apply forallb_filter_id. apply forallb_forall. intros x Hx.
  destruct (String.eqb_spec k x) as [->|]; [|reflexivity].
  apply set_has_In in Hx. congruence.
Qed.

Lemma set_add_In k s k' : In k' (set_add k s) <-> k' = k \/ In k' s.
Proof.
  unfold set_add. destruct (set_has k s) eqn:Hk.
  - apply set_has_In in Hk. split; [auto | intros [->|H]; assumption].
  - rewrite in_app_iff. simpl. intuition.
Qed.

(** ** Loops in the emitter monad *)

Section LoopFacts.
Context {N : JsNumber}.
Variable R : Ctx -> Ctx -> Prop.
Hypothesis R_refl : forall c, R c c.
Hypothesis R_trans : forall c1 c2 c3, R c1 c2 -> R c2 c3 -> R c1 c3.

Lemma foldM_rel {A B : Type} (f : B -> A -> M B) (l : list A) :
  (forall b a ctx b' ctx', In a l -> f b a ctx = Ok (b', ctx') -> R ctx ctx') ->
  forall b ctx b' ctx', foldM f l b ctx = Ok (b', ctx') -> R ctx ctx'.
Proof.
  induction l as [|a l IH]; intros Hf b ctx b' ctx' H; simpl in H.
  - apply ret_Ok in H as [_ ->]. apply R_refl.
  - apply bind_Ok in H as (b1 & c1 & H1 & H).
    eapply R_trans.
    + eapply Hf; [left; reflexivity | eassumption].
    + eapply IH; [|eassumption]. intros; eapply Hf; [right|]; eassumption.
Qed.

Lemma mapM_rel {A B : Type} (f : A -> M B) (l : list A) :
  (forall a ctx b ctx', In a l -> f a ctx = Ok (b, ctx') -> R ctx ctx') ->
  forall ctx bs ctx', mapM f l ctx = Ok (bs, ctx') -> R ctx ctx'.
Proof.
  induction l as [|a l IH]; intros Hf ctx bs ctx' H; simpl in H.
  - apply ret_Ok in H as [_ ->]. apply R_refl.
  - apply bind_Ok in H as (b1 & c1 & H1 & H).
    apply bind_Ok in H as (bs1 & c2 & H2 & H).
    apply ret_Ok in H as [_ ->].
    eapply R_trans.
    + eapply Hf; [left; reflexivity | eassumption].
    + eapply IH; [|eassumption]. intros; eapply Hf; [right|]; eassumption.
Qed.
End LoopFacts.

(** ** How an emission changes the context *)

Section CtxOrder.
Context {N : JsNumber}.
Variable doc : TDLDoc.

Lemma grows_refl c : grows doc c c.
Proof.
  repeat split; auto. exists []. rewrite app_nil_r. split; [reflexivity | intros k []].
Qed.

Lemma grows_trans c1 c2 c3 : grows doc c1 c2 -> grows doc c2 c3 -> grows doc c1 c3.
Proof.
  intros (S1 & (e1 & K1 & B1) & D1) (S2 & (e2 & K2 & B2) & D2). repeat split.
  - congruence.
  - exists (e1 ++ e2)%list. split.
    + rewrite K2, K1. now rewrite app_assoc.
    + intros k Hk. apply in_app_iff in Hk as [Hk|Hk]; auto.
      apply B2 in Hk as [Hk|Hk]; auto. rewrite S1 in Hk. auto.
  - auto.
Qed.

Lemma grows_incl c c' : grows doc c c' -> incl (map_keys (defs c)) (map_keys (defs c')).
Proof.
  intros (_ & (e & K & _) & _) k Hk. rewrite K. apply in_app_iff. auto.
Qed.

Lemma grows_bound c c' k :
  grows doc c c' -> In k (map_keys (defs c')) ->
  In k (map_keys (defs c)) \/ In k (stack c) \/ In k (map_keys (doc_types doc)).
Proof.
  intros (_ & (e & K & B) & _) Hk. rewrite K in Hk.
  apply in_app_iff in Hk as [Hk|Hk]; auto.
Qed.

Lemma grows_set name (v : json) c :
  In name (stack c) \/ In name (map_keys (doc_types doc)) ->
  grows doc c (mkCtx (map_set name v (defs c)) (stack c)).
Proof.
  intros Hname. repeat split; simpl.
  - rewrite map_keys_set. destruct (map_has name (defs c)).
    + exists []. rewrite app_nil_r. split; [reflexivity | intros k []].
    + exists [name]. split; [reflexivity|]. intros k [<-|[]]. assumption.
  - apply map_keys_set_NoDup.
Qed.

Lemma grows_ensureDef (emit : TypeNode -> M json) (placeholder : json) name ctx :
  forall r,
  (if map_has name (defs ctx) then Ok (tt, ctx)
   else if set_has name (stack ctx) then
     Ok (tt, mkCtx (map_set name placeholder (defs ctx)) (stack ctx))
   else
     match map_get name (doc_types doc) with
     | None => Throw ("Unknown type reference: " ++ name)
     | Some def =>
         match emit (def_node def) (mkCtx (defs ctx) (set_add name (stack ctx))) with
         | Ok (schema, ctx') =>
             Ok (tt, mkCtx (map_set name schema (defs ctx'))
                           (set_delete name (stack ctx')))
         | Throw msg => Throw msg
         | OutOfFuel => OutOfFuel
         end
     end) = Ok r ->
  (forall node c s c', emit node c = Ok (s, c') -> grows doc c c') ->
  grows doc ctx (snd r).
Proof.
  intros r H Hemit.
  destruct (map_has name (defs ctx)) eqn:Hhas.
  - injection H as <-. apply grows_refl.
  - destruct (set_has name (stack ctx)) eqn:Hst.
    + injection H as <-. simpl. apply grows_set. left. now apply set_has_In.
    + destruct (map_get name (doc_types doc)) as [def|] eqn:Hdef; [|discriminate].
      destruct (emit _ _) as [[schema ctx']| |] eqn:He; try discriminate.
      injection H as <-. simpl.
      assert (Hname : In name (map_keys (doc_types doc)))
        by (eapply map_get_Some_In; eassumption).
      apply Hemit in He.
      assert (G : grows doc ctx' (mkCtx (map_set name schema (defs ctx')) (stack ctx')))
        by (apply grows_set; auto).
      destruct He as (S1 & (e1 & K1 & B1) & D1).
      destruct G as (_ & (e2 & K2 & B2) & D2). simpl in *.
      repeat split; simpl.
      * rewrite S1. now apply set_delete_add.
      * exists (e1 ++ e2)%list. split; [rewrite K2, K1; now rewrite app_assoc|].
        intros k Hk. apply in_app_iff in Hk as [Hk|Hk].
        -- apply B1 in Hk as [Hk|Hk]; auto.
           apply set_add_In in Hk as [->|Hk]; auto.
        -- apply B2 in Hk as [Hk|Hk]; auto.
           rewrite S1 in Hk. apply set_add_In in Hk as [->|Hk]; auto.
      * auto.
Qed.

(** Whatever [ensureDef] does, the name is defined afterwards. *)
Lemma ensureDef_defines (emit : TypeNode -> M json) (placeholder : json) name ctx :
  forall r,
  (if map_has name (defs ctx) then Ok (tt, ctx)
   else if set_has name (stack ctx) then
     Ok (tt, mkCtx (map_set name placeholder (defs ctx)) (stack ctx))
   else
     match map_get name (doc_types doc) with
     | None => Throw ("Unknown type reference: " ++ name)
     | Some def =>
         match emit (def_node def) (mkCtx (defs ctx) (set_add name (stack ctx))) with
         | Ok (schema, ctx') =>
             Ok (tt, mkCtx (map_set name schema (defs ctx'))
                           (set_delete name (stack ctx')))
         | Throw msg => Throw msg
         | OutOfFuel => OutOfFuel
         end
     end) = Ok r ->
  In name (map_keys (defs (snd r))).
Proof.
  intros r H.
  destruct (map_has name (defs ctx)) eqn:Hhas.
  - injection H as <-. now apply map_has_In.
  - destruct (set_has name (stack ctx)).
    + injection H as <-. simpl. apply map_keys_set_In; auto.
    + destruct (map_get name (doc_types doc)) as [def|]; [|discriminate].
      destruct (emit _ _) as [[schema ctx']| |]; try discriminate.
      injection H as <-. simpl. apply map_keys_set_In; auto.
Qed.
End CtxOrder.

(** ** An induction principle for the two emitters

    [emit] reaches the members of a union, the value types of the index
    signatures and the types of the properties of an object (its children),
    the object an intersection merges into, and, through [ensureDef], the
    body of a named type.  A relation [R] on contexts that is reflexive and
    transitive and holds across [ensureDef] holds across every emission of a
    node satisfying [Q], when [Q] passes to the nodes [emit] reaches. *)

Section Children.
Context {N : JsNumber}.

Lemma children_idx obj (idx : IndexSigNode) :
  In idx (obj_indexSigs obj) -> In (idx_valueType idx) (children obj).
Proof.
  intros H. apply in_app_iff. left.
  apply (in_map (fun i : IndexSigNode => idx_valueType i)), H.
Qed.

Lemma children_prop obj (p : PropNode) :
  In p (obj_props obj) -> In (prop_type p) (children obj).
Proof.
  intros H. apply in_app_iff. right.
  apply (in_map (fun p : PropNode => prop_type p)), H.
Qed.
End Children.

Section EmitInduction.
Context {N : JsNumber}.
Variable doc : TDLDoc.
Variable Q : TypeNode -> Prop.
Variable R : Ctx -> Ctx -> Prop.
Hypothesis R_refl : forall c, R c c.
Hypothesis R_trans : forall c1 c2 c3, R c1 c2 -> R c2 c3 -> R c1 c3.
Hypothesis Q_union : forall ms m, Q (Union ms) -> In m ms -> Q m.
Hypothesis Q_object : forall obj n, Q (Object obj) -> In n (children obj) -> Q n.
Hypothesis Q_merge :
  forall fuel ms obj,
    Q (Intersection ms) -> mergeObjects doc fuel ms = Ok obj -> Q (Object obj).

Lemma OpenAI_emitObject_rel e obj c s c' :
  emit_rel Q R e -> Q (Object obj) -> OpenAI.emitObject_ e obj c = Ok (s, c') -> R c c'.
Proof.
  intros He HQ H. unfold OpenAI.emitObject_ in H.
  apply bind_Ok in H as (acc1 & c1 & H1 & H).
  apply bind_Ok in H as (acc2 & c2 & H2 & H).
  apply ret_Ok in H as [_ ->].
  apply R_trans with c1.
  - revert H1. apply foldM_rel; [apply R_refl | apply R_trans |].
    intros acc idx ctx acc' ctx' Hin Hi. unfold OpenAI.emitIndexSig_ in Hi.
    assert (Qv : Q (idx_valueType idx)) by eauto using children_idx.
    destruct (idx_kind idx).
    + apply bind_Ok in Hi as (closure & c3 & Hc & Hi).
      assert (Hg : R ctx c3).
      { destruct (idx_optional idx).
        - apply bind_Ok in Hc as (s0 & c4 & Hs & Hc). apply ret_Ok in Hc as [_ ->].
          eapply He; eassumption.
        - apply ret_Ok in Hc as [_ ->]. apply R_refl. }
      destruct closure; [|discriminate]. apply ret_Ok in Hi as [_ ->]. assumption.
    + revert Hi. apply foldM_rel; [apply R_refl | apply R_trans |].
      intros b key ctx0 b' ctx0' _ Hk.
      apply bind_Ok in Hk as (base & c3 & Hb & Hk). apply ret_Ok in Hk as [_ ->].
      eapply He; eassumption.
  - revert H2. apply foldM_rel; [apply R_refl | apply R_trans |].
    intros acc p ctx acc' ctx' Hin Hp. unfold OpenAI.emitProp_ in Hp.
    apply bind_Ok in Hp as (base & c3 & Hb & Hp). apply ret_Ok in Hp as [_ ->].
    eapply He; [|eassumption]. eauto using children_prop.
Qed.

Lemma Gemini_emitObject_rel e obj c s c' :
  emit_rel Q R e -> Q (Object obj) -> Gemini.emitObject_ e obj c = Ok (s, c') -> R c c'.
Proof.
  intros He HQ H. unfold Gemini.emitObject_ in H.
  apply bind_Ok in H as (acc1 & c1 & H1 & H).
  apply bind_Ok in H as (acc2 & c2 & H2 & H).
  apply ret_Ok in H as [_ ->].
  apply R_trans with c1.
  - revert H1. apply foldM_rel; [apply R_refl | apply R_trans |].
    intros acc idx ctx acc' ctx' Hin Hi. unfold Gemini.emitIndexSig_ in Hi.
    assert (Qv : Q (idx_valueType idx)) by eauto using children_idx.
    destruct (idx_kind idx).
    + apply bind_Ok in Hi as (closure & c3 & Hc & Hi).
      assert (Hg : R ctx c3).
      { destruct (idx_optional idx).
        - apply bind_Ok in Hc as (s0 & c4 & Hs & Hc). apply ret_Ok in Hc as [_ ->].
          eapply He; eassumption.
        - apply ret_Ok in Hc as [_ ->]. apply R_refl. }
      destruct closure.
      * apply ret_Ok in Hi as [_ ->]. assumption.
      * apply bind_Ok in Hi as (base & c4 & Hb & Hi). apply ret_Ok in Hi as [_ ->].
        eapply R_trans; [eassumption|]. eapply He; eassumption.
    + revert Hi. apply foldM_rel; [apply R_refl | apply R_trans |].
      intros b key ctx0 b' ctx0' _ Hk.
      apply bind_Ok in Hk as (base & c3 & Hb & Hk). apply ret_Ok in Hk as [_ ->].
      eapply He; eassumption.
  - revert H2. apply foldM_rel; [apply R_refl | apply R_trans |].
    intros acc p ctx acc' ctx' Hin Hp. unfold Gemini.emitProp_ in Hp.
    apply bind_Ok in Hp as (base & c3 & Hb & Hp). apply ret_Ok in Hp as [_ ->].
    eapply He; [|eassumption]. eauto using children_prop.
Qed.

Lemma OpenAI_emit_rel :
  (forall e name c r,
      emit_rel Q R e -> Q (TypeRef name) ->
      OpenAI.ensureDef_ doc e name c = Ok r -> R c (snd r)) ->
  forall fuel, emit_rel Q R (OpenAI.emit doc fuel).
Proof.
  intros Hens. induction fuel as [|fuel IH]; intros node c s c' HQ H; [discriminate|].
  destruct node; simpl in H;
    try (apply ret_Ok in H as [_ ->]; apply R_refl).
  - apply bind_Ok in H as ([] & c1 & H1 & H). apply ret_Ok in H as [_ ->].
    apply (Hens _ _ _ _ IH HQ H1).
  - destruct (forallb isScalarLiteral members).
    + apply bind_Ok in H as (enums & c1 & H1 & H). apply lift_Ok in H1 as [_ ->].
      apply ret_Ok in H as [_ ->]. apply R_refl.
    + apply bind_Ok in H as (ss & c1 & H1 & H). apply ret_Ok in H as [_ ->].
      revert H1. apply mapM_rel; [apply R_refl | apply R_trans |].
      intros; eapply IH; [|eassumption]. eauto.
  - apply bind_Ok in H as (obj & c1 & H1 & H). apply lift_Ok in H1 as [H1 ->].
    eapply OpenAI_emitObject_rel; [exact IH | | eassumption]. eauto.
  - eapply OpenAI_emitObject_rel; eassumption.
Qed.

Lemma Gemini_emit_rel :
  (forall e name c r,
      emit_rel Q R e -> Q (TypeRef name) ->
      Gemini.ensureDef_ doc e name c = Ok r -> R c (snd r)) ->
  forall fuel, emit_rel Q R (Gemini.emit doc fuel).
Proof.
  intros Hens. induction fuel as [|fuel IH]; intros node c s c' HQ H; [discriminate|].
  destruct node; simpl in H;
    try (apply ret_Ok in H as [_ ->]; apply R_refl).
  - apply bind_Ok in H as ([] & c1 & H1 & H). apply ret_Ok in H as [_ ->].
    apply (Hens _ _ _ _ IH HQ H1).
  - destruct (forallb isScalarLiteral members).
    + apply bind_Ok in H as (enums & c1 & H1 & H). apply lift_Ok in H1 as [_ ->].
      apply ret_Ok in H as [_ ->]. apply R_refl.
    + apply bind_Ok in H as (ss & c1 & H1 & H). apply ret_Ok in H as [_ ->].
      revert H1. apply mapM_rel; [apply R_refl | apply R_trans |].
      intros; eapply IH; [|eassumption]. eauto.
  - apply bind_Ok in H as (obj & c1 & H1 & H). apply lift_Ok in H1 as [H1 ->].
    eapply Gemini_emitObject_rel; [exact IH | | eassumption]. eauto.
  - eapply Gemini_emitObject_rel; eassumption.
Qed.
End EmitInduction.

Section Growth.
Context {N : JsNumber}.
Variable doc : TDLDoc.

Lemma OpenAI_emit_grows fuel node c s c' :
  OpenAI.emit doc fuel node c = Ok (s, c') -> grows doc c c'.
Proof.
  apply (@OpenAI_emit_rel _ doc (fun _ => True) (grows doc)); auto.
  - apply grows_refl.
  - apply grows_trans.
  - intros e name c0 r He _ Hr. eapply grows_ensureDef; [exact Hr|].
    intros; eapply He; eauto.
Qed.

Lemma Gemini_emit_grows fuel node c s c' :
  Gemini.emit doc fuel node c = Ok (s, c') -> grows doc c c'.
Proof.
  apply (@Gemini_emit_rel _ doc (fun _ => True) (grows doc)); auto.
  - apply grows_refl.
  - apply grows_trans.
  - intros e name c0 r He _ Hr. eapply grows_ensureDef; [exact Hr|].
    intros; eapply He; eauto.
Qed.

Lemma OpenAI_ensureDef_grows fuel name c r :
  OpenAI.ensureDef doc fuel name c = Ok r ->
  grows doc c (snd r) /\ In name (map_keys (defs (snd r))).
Proof.
  intros H. split.
  - eapply grows_ensureDef; [exact H|]. apply OpenAI_emit_grows.
  - eapply ensureDef_defines; exact H.
Qed.

Lemma Gemini_ensureDef_grows fuel name c r :
  Gemini.ensureDef doc fuel name c = Ok r ->
  grows doc c (snd r) /\ In name (map_keys (defs (snd r))).
Proof.
  intros H. split.
  - eapply grows_ensureDef; [exact H|]. apply Gemini_emit_grows.
  - eapply ensureDef_defines; exact H.
Qed.

(** The pre-registration loop leaves every declared name defined. *)
Lemma ensure_all_defined (ensure : string -> M unit) (names : list string) :
  (forall name c r, ensure name c = Ok r ->
                    grows doc c (snd r) /\ In name (map_keys (defs (snd r)))) ->
  forall c u c',
    foldM (fun (_ : unit) name => ensure name) names tt c = Ok (u, c') ->
    grows doc c c' /\ incl names (map_keys (defs c')).
Proof.
  intros Hens. induction names as [|name names IH]; intros c u c' H; simpl in H.
  - apply ret_Ok in H as [_ ->]. split; [apply grows_refl | intros x []].
  - apply bind_Ok in H as ([] & c1 & H1 & H).
    apply Hens in H1 as [G1 In1]. simpl in *.
    apply IH in H as [G2 In2]. split.
    + eapply grows_trans; eassumption.
    + intros x [<-|Hx]; [|auto]. eapply grows_incl; eassumption.
Qed.
End Growth.

Section DefsTable.
Context {N : JsNumber}.
Variable doc : TDLDoc.

Lemma defs_keys_after (c : Ctx) :
  NoDup (map_keys (doc_types doc)) ->
  grows doc (mkCtx [] []) c ->
  incl (map_keys (doc_types doc)) (map_keys (defs c)) ->
  NoDup (map_keys (defs c)) /\
  Permutation (map_keys (defs c)) (map_keys (doc_types doc)).
Proof.
  intros Hnd G Hin.
  assert (Hnd' : NoDup (map_keys (defs c))).
  { destruct G as (_ & _ & Hd). apply Hd; constructor. }
  split; [assumption|].
  apply NoDup_Permutation; try assumption.
  intros k; split; [|apply Hin].
  intros Hk. destruct (grows_bound k G Hk) as [[]|[[]|Hk']]. assumption.
Qed.

Lemma OpenAI_defs_permutation fuel out :
  NoDup (map_keys (doc_types doc)) ->
  OpenAI.generateOpenAISchema doc fuel = Ok out ->
  exists entries,
    obj_get "$defs" out = Some (JObj entries) /\
    NoDup (map_keys entries) /\
    Permutation (map_keys entries) (map_keys (doc_types doc)).
Proof.
  intros Hnd H. unfold OpenAI.generateOpenAISchema in H.
  destruct (bind _ _ _) as [[acc c]| |] eqn:Hrun; try discriminate.
  injection H as <-.
  apply bind_Ok in Hrun as ([] & c1 & H1 & H2).
  apply (ensure_all_defined (doc := doc)) in H1 as [G1 I1].
  2:{ intros name c0 r Hr. eapply OpenAI_ensureDef_grows; exact Hr. }
  assert (G2 : grows doc c1 c).
  { revert H2. apply foldM_rel; [apply grows_refl | apply grows_trans |].
    intros b sym ctx b' ctx' _ Hs. unfold OpenAI.emitSymbol in Hs.
    apply bind_Ok in Hs as (base & c3 & Hb & Hs). apply ret_Ok in Hs as [_ ->].
    eapply OpenAI_emit_grows; eassumption. }
  exists (defs c). split; [reflexivity|].
  apply defs_keys_after; [assumption | eapply grows_trans; eassumption |].
  eapply incl_tran; [eassumption | eapply grows_incl; eassumption].
Qed.

Lemma Gemini_defs_permutation fuel out :
  NoDup (map_keys (doc_types doc)) ->
  Gemini.generateGeminiSchema doc fuel = Ok out ->
  exists entries,
    obj_get "$defs" out = Some (JObj entries) /\
    NoDup (map_keys entries) /\
    Permutation (map_keys entries) (map_keys (doc_types doc)).
Proof.
  intros Hnd H. unfold Gemini.generateGeminiSchema in H.
  destruct (bind _ _ _) as [[acc c]| |] eqn:Hrun; try discriminate.
  injection H as <-.
  apply bind_Ok in Hrun as ([] & c1 & H1 & H2).
  apply (ensure_all_defined (doc := doc)) in H1 as [G1 I1].
  2:{ intros name c0 r Hr. eapply Gemini_ensureDef_grows; exact Hr. }
  assert (G2 : grows doc c1 c).
  { revert H2. apply foldM_rel; [apply grows_refl | apply grows_trans |].
    intros b sym ctx b' ctx' _ Hs. unfold Gemini.emitSymbol in Hs.
    apply bind_Ok in Hs as (base & c3 & Hb & Hs). apply ret_Ok in Hs as [_ ->].
    eapply Gemini_emit_grows; eassumption. }
  exists (defs c). split; [reflexivity|].
  apply defs_keys_after; [assumption | eapply grows_trans; eassumption |].
  eapply incl_tran; [eassumption | eapply grows_incl; eassumption].
Qed.
End DefsTable.

Section MapPositions.
Variable V : Type.

Lemma map_get_app_NoDup (pre post : Map V) name v :
  NoDup (map_keys (pre ++ (name, v) :: post)%list) ->
  map_get name (pre ++ (name, v) :: post)%list = Some v.
Proof.
  induction pre as [|[k w] pre IH]; simpl; intros Hnd.
  - now rewrite String.eqb_refl.
  - inversion Hnd as [|? ? Hk Hrest]; subst.
    destruct (String.eqb_spec k name) as [->|Hne].
    + exfalso. apply Hk. unfold map_keys. rewrite map_app. apply in_app_iff.
      right. left. reflexivity.
    + apply IH, Hrest.
Qed.

Lemma map_get_split (m : Map V) name v :
  map_get name m = Some v ->
  exists pre post, m = (pre ++ (name, v) :: post)%list /\ ~ In name (map_keys pre).
Proof.
  induction m as [|[k w] m IH]; simpl; [discriminate|].
  destruct (String.eqb_spec k name) as [->|Hne].
  - intros H; injection H as ->. exists [], m. split; [reflexivity | intros []].
  - intros H. apply IH in H as (pre & post & -> & Hn).
    exists ((k, w) :: pre), post. split; [reflexivity|].
    intros [H|H]; [contradiction | auto].
Qed.
End MapPositions.

Section Order.
Context {N : JsNumber}.
Variable doc : TDLDoc.
Variable S : list string.

Hypothesis S_closed : closed_names doc S.

Lemma refs_in_union ms m : refs_in S (Union ms) -> In m ms -> refs_in S m.
Proof.
  intros H Hm k Hk. apply H. simpl. apply in_flat_map. eauto.
Qed.

Lemma refs_in_intersection ms m : refs_in S (Intersection ms) -> In m ms -> refs_in S m.
Proof.
  intros H Hm k Hk. apply H. simpl. apply in_flat_map. eauto.
Qed.

Lemma refs_in_object obj n : refs_in S (Object obj) -> In n (children obj) -> refs_in S n.
Proof.
  intros H Hn k Hk. apply H. simpl. unfold children in Hn.
  apply in_app_iff in Hn as [Hn|Hn]; apply in_map_iff in Hn as (x & <- & Hx);
    apply in_app_iff; [left|right]; apply in_flat_map; eauto.
Qed.

Lemma refs_in_object_intro obj :
  Forall (fun i : IndexSigNode => refs_in S (idx_valueType i)) (obj_indexSigs obj) ->
  Forall (fun p : PropNode => refs_in S (prop_type p)) (obj_props obj) ->
  refs_in S (Object obj).
Proof.
  intros Hi Hp k Hk. simpl in Hk. rewrite Forall_forall in Hi, Hp.
  apply in_app_iff in Hk as [Hk|Hk]; apply in_flat_map in Hk as (x & Hx & Hk).
  - eapply Hi; eassumption.
  - eapply Hp; eassumption.
Qed.

Lemma refs_in_object_idx obj :
  refs_in S (Object obj) ->
  Forall (fun i : IndexSigNode => refs_in S (idx_valueType i)) (obj_indexSigs obj).
Proof.
  intros H. apply Forall_forall. intros i Hi.
  eapply refs_in_object; [eassumption | now apply children_idx].
Qed.

Lemma refs_in_object_props obj :
  refs_in S (Object obj) ->
  Forall (fun p : PropNode => refs_in S (prop_type p)) (obj_props obj).
Proof.
  intros H. apply Forall_forall. intros i Hi.
  eapply refs_in_object; [eassumption | now apply children_prop].
Qed.

Lemma map_set_values_Forall (P : PropNode -> Prop) (m : Map PropNode) k v :
  Forall P (map_values m) -> P v -> Forall P (map_values (map_set k v m)).
Proof.
  intros Hm Hv. induction m as [|[k' v'] m IH]; simpl.
  - constructor; [assumption | constructor].
  - inversion Hm; subst. destruct (String.eqb k' k); simpl; constructor; auto.
Qed.

Lemma mergeStep_refs acc obj :
  Forall (fun p : PropNode => refs_in S (prop_type p)) (map_values (fst (fst acc))) ->
  Forall (fun i : IndexSigNode => refs_in S (idx_valueType i)) (snd (fst acc)) ->
  refs_in S (Object obj) ->
  let acc' := mergeStep acc obj in
  Forall (fun p : PropNode => refs_in S (prop_type p)) (map_values (fst (fst acc'))) /\
  Forall (fun i : IndexSigNode => refs_in S (idx_valueType i)) (snd (fst acc')).
Proof.
  destruct acc as [[outProps outIdx] closed]. simpl. intros Hp Hi Hobj. split.
  - pose proof (refs_in_object_props Hobj) as Hps.
    revert outProps Hp. induction (obj_props obj) as [|p ps IH]; intros outProps Hp;
      simpl; [assumption|].
    inversion Hps; subst. apply IH; [assumption|].
    apply map_set_values_Forall; assumption.
  - apply Forall_app. split; [assumption | now apply refs_in_object_idx].
Qed.

Lemma mergeWith_refs (resolve : TypeNode -> result ObjectNode) parts obj :
  (forall p o, In p parts -> resolve p = Ok o -> refs_in S (Object o)) ->
  mergeWith resolve parts = Ok obj -> refs_in S (Object obj).
Proof.
  unfold mergeWith. intros Hres H.
  destruct (rfold _ parts _) as [[[outProps outIdx] closed]| |] eqn:Hfold;
    try discriminate.
  injection H as <-.
  assert (Hinv :
    Forall (fun p : PropNode => refs_in S (prop_type p)) (map_values outProps) /\
    Forall (fun i : IndexSigNode => refs_in S (idx_valueType i)) outIdx).
  { set (acc0 := (@nil (string * PropNode), @nil IndexSigNode, false)) in Hfold.
    assert (H0 :
      Forall (fun p : PropNode => refs_in S (prop_type p)) (map_values (fst (fst acc0))) /\
      Forall (fun i : IndexSigNode => refs_in S (idx_valueType i)) (snd (fst acc0)))
      by (split; constructor).
    clearbody acc0. revert acc0 H0 Hfold.
    induction parts as [|p parts IH]; intros acc0 H0 Hfold; simpl in Hfold.
    - injection Hfold as ->. exact H0.
    - destruct (resolve p) as [o| |] eqn:Hp; try discriminate.
      eapply IH; [ | | exact Hfold].
      + intros; eapply Hres; [right|]; eassumption.
      + destruct H0. apply mergeStep_refs; auto.
        eapply Hres; [left; reflexivity | eassumption]. }
  destruct Hinv. apply refs_in_object_intro; assumption.
Qed.

Lemma resolveObject_refs fuel node obj :
  refs_in S node -> resolveObject doc fuel node = Ok obj -> refs_in S (Object obj).
Proof.
  revert node obj. induction fuel as [|fuel IH]; intros node obj Hn H; [discriminate|].
  destruct node; simpl in H; try discriminate.
  - destruct (map_get name (doc_types doc)) as [def|] eqn:Hdef; [|discriminate].
    eapply IH; [|exact H]. eapply S_closed; [|exact Hdef].
    apply Hn. left; reflexivity.
  - eapply mergeWith_refs; [|exact H].
    intros p o Hp Hr. eapply IH; [|exact Hr]. eapply refs_in_intersection; eassumption.
  - injection H as <-. assumption.
Qed.

Lemma mergeObjects_refs fuel ms obj :
  refs_in S (Intersection ms) -> mergeObjects doc fuel ms = Ok obj -> refs_in S (Object obj).
Proof.
  intros Hn H. eapply mergeWith_refs; [|exact H].
  intros p o Hp Hr. eapply resolveObject_refs; [|exact Hr].
  eapply refs_in_intersection; eassumption.
Qed.

Lemma settles_refl c : settles S c c.
Proof.
  intros _. split; [reflexivity|]. exists []. rewrite app_nil_r.
  split; [reflexivity | intros k []].
Qed.

Lemma settles_trans c1 c2 c3 : settles S c1 c2 -> settles S c2 c3 -> settles S c1 c3.
Proof.
  intros H1 H2 P1. destruct (H1 P1) as (S1 & e1 & K1 & I1).
  destruct H2 as (S2 & e2 & K2 & I2).
  { intros k Hk. apply P1 in Hk. rewrite K1, S1.
    apply in_app_iff in Hk as [Hk|Hk]; apply in_app_iff; [left|right]; auto.
    apply in_app_iff; auto. }
  split; [congruence|]. exists (e1 ++ e2)%list. split.
  - rewrite K2, K1. now rewrite app_assoc.
  - rewrite S1 in I2. apply incl_app; assumption.
Qed.

Lemma settles_ensureDef (emit : TypeNode -> M json) (placeholder : json) name ctx :
  forall r,
  (if map_has name (defs ctx) then Ok (tt, ctx)
   else if set_has name (stack ctx) then
     Ok (tt, mkCtx (map_set name placeholder (defs ctx)) (stack ctx))
   else
     match map_get name (doc_types doc) with
     | None => Throw ("Unknown type reference: " ++ name)
     | Some def =>
         match emit (def_node def) (mkCtx (defs ctx) (set_add name (stack ctx))) with
         | Ok (schema, ctx') =>
             Ok (tt, mkCtx (map_set name schema (defs ctx'))
                           (set_delete name (stack ctx')))
         | Throw msg => Throw msg
         | OutOfFuel => OutOfFuel
         end
     end) = Ok r ->
  refs_in S (TypeRef name) ->
  settles S ctx (snd r).
Proof.
  intros r H Hname P.
  assert (Hin : In name (map_keys (defs ctx) ++ stack ctx)%list)
    by (apply P, Hname; left; reflexivity).
  destruct (map_has name (defs ctx)) eqn:Hhas.
  - injection H as <-. now apply settles_refl.
  - destruct (set_has name (stack ctx)) eqn:Hst.
    + injection H as <-. simpl. split; [reflexivity|].
      rewrite map_keys_set, Hhas. exists [name]. split; [reflexivity|].
      intros k [<-|[]]. now apply set_has_In.
    + exfalso. apply in_app_iff in Hin as [Hin|Hin].
      * apply map_has_In in Hin. congruence.
      * apply set_has_In in Hin. congruence.
Qed.

Lemma OpenAI_emit_settles fuel node c s c' :
  refs_in S node -> OpenAI.emit doc fuel node c = Ok (s, c') -> settles S c c'.
Proof.
  apply (@OpenAI_emit_rel _ doc (refs_in S) (settles S)).
  - apply settles_refl.
  - apply settles_trans.
  - apply refs_in_union.
  - apply refs_in_object.
  - apply mergeObjects_refs.
  - intros e name c0 r _ Hq Hr. eapply settles_ensureDef; eassumption.
Qed.

Lemma Gemini_emit_settles fuel node c s c' :
  refs_in S node -> Gemini.emit doc fuel node c = Ok (s, c') -> settles S c c'.
Proof.
  apply (@Gemini_emit_rel _ doc (refs_in S) (settles S)).
  - apply settles_refl.
  - apply settles_trans.
  - apply refs_in_union.
  - apply refs_in_object.
  - apply mergeObjects_refs.
  - intros e name c0 r _ Hq Hr. eapply settles_ensureDef; eassumption.
Qed.
End Order.

Section PrefixFacts.
Variable V : Type.

Lemma earlier_prefix (pre pre' post post' : Map V) x n d :
  (pre ++ x :: post = pre' ++ (n, d) :: post')%list ->
  ~ In n (map_keys pre') ->
  In n (map_keys pre ++ [fst x])%list ->
  incl (map_keys pre' ++ [n])%list (map_keys pre ++ [fst x])%list.
Proof.
  revert pre'. induction pre as [|p pre IH]; intros pre' Heq Hn Hin; simpl in *.
  - destruct Hin as [<-|[]]. destruct pre' as [|z pre'']; simpl in *.
    + intros k Hk. exact Hk.
    + injection Heq as <- _. exfalso. apply Hn. left. reflexivity.
  - destruct pre' as [|z pre'']; simpl in *.
    + injection Heq as -> _. simpl. intros k [<-|[]]. left. reflexivity.
    + injection Heq as <- Heq.
      assert (Hne : fst p <> n) by (intros E; apply Hn; left; exact E).
      destruct Hin as [E|Hin]; [contradiction|].
      intros k [<-|Hk]; [left; reflexivity | right].
      eapply IH; try eassumption. intros H; apply Hn; right; exact H.
Qed.
End PrefixFacts.

Section DeclarationOrder.
Context {N : JsNumber}.
Variable doc : TDLDoc.
Hypothesis types_distinct : NoDup (map_keys (doc_types doc)).
Hypothesis backward : no_forward_refs doc.

Lemma closed_prefix pre name def post :
  doc_types doc = (pre ++ (name, def) :: post)%list ->
  closed_names doc (map_keys pre ++ [name])%list.
Proof.
  intros Heq n d Hn Hget.
  apply map_get_split in Hget as (pre' & post' & Heq' & Hn').
  eapply incl_tran; [eapply backward; exact Heq'|].
  apply (@earlier_prefix _ pre pre' post post' (name, def) n d); auto.
  congruence.
Qed.

Lemma NoDup_extra (keys extra : list string) name :
  NoDup (keys ++ extra)%list -> incl extra [name] ->
  extra = [] \/ extra = [name].
Proof.
  intros Hnd Hin. apply NoDup_app_remove_l in Hnd.
  destruct extra as [|a [|b extra]]; auto.
  - right. destruct (Hin a (or_introl eq_refl)) as [<-|[]]. reflexivity.
  - exfalso. destruct (Hin a (or_introl eq_refl)) as [<-|[]].
    destruct (Hin b (or_intror (or_introl eq_refl))) as [<-|[]].
    inversion Hnd as [|? ? Hx _]. apply Hx. left. reflexivity.
Qed.

(** One round of the pre-registration loop, for the declaration that
    follows [pre]: [defs] gains exactly its name, at the end. *)
Lemma ensure_next
      (emit : TypeNode -> M json) (placeholder : json) pre name def post c r :
  doc_types doc = (pre ++ (name, def) :: post)%list ->
  map_keys (defs c) = map_keys pre -> stack c = [] ->
  (forall node c s c', emit node c = Ok (s, c') -> grows doc c c') ->
  (forall node c s c',
      refs_in (map_keys pre ++ [name])%list node ->
      emit node c = Ok (s, c') -> settles (map_keys pre ++ [name])%list c c') ->
  (if map_has name (defs c) then Ok (tt, c)
   else if set_has name (stack c) then
     Ok (tt, mkCtx (map_set name placeholder (defs c)) (stack c))
   else
     match map_get name (doc_types doc) with
     | None => Throw ("Unknown type reference: " ++ name)
     | Some def =>
         match emit (def_node def) (mkCtx (defs c) (set_add name (stack c))) with
         | Ok (schema, ctx') =>
             Ok (tt, mkCtx (map_set name schema (defs ctx'))
                           (set_delete name (stack ctx')))
         | Throw msg => Throw msg
         | OutOfFuel => OutOfFuel
         end
     end) = Ok r ->
  map_keys (defs (snd r)) = map_keys (pre ++ [(name, def)])%list /\ stack (snd r) = [].
Proof.
  intros Heq Hkeys Hstack Hgrows Hsettles H.
  assert (Hnd : NoDup (map_keys (pre ++ (name, def) :: post)%list))
    by (rewrite <- Heq; exact types_distinct).
  assert (Hfresh : ~ In name (map_keys pre)).
  { unfold map_keys in Hnd. rewrite map_app in Hnd. simpl in Hnd.
    apply NoDup_remove_2 in Hnd. intros Hin. apply Hnd. apply in_app_iff. auto. }
  assert (Hpre : NoDup (map_keys pre)).
  { unfold map_keys in Hnd. rewrite map_app in Hnd. now apply NoDup_app_remove_r in Hnd. }
  assert (Hhas : map_has name (defs c) = false)
    by (apply map_has_false; rewrite Hkeys; exact Hfresh).
  rewrite Hhas, Hstack in H. simpl in H.
  rewrite Heq, (@map_get_app_NoDup _ pre post name def Hnd) in H.
  destruct (emit _ _) as [[schema ctx']| |] eqn:He; try discriminate.
  injection H as <-. simpl.
  pose proof (Hgrows _ _ _ _ He) as (_ & _ & Hd). simpl in Hd.
  rewrite Hkeys in Hd. specialize (Hd Hpre).
  apply Hsettles in He.
  2:{ eapply backward; exact Heq. }
  destruct He as (Hst & extra & Hk & Hex).
  { simpl. rewrite Hkeys. apply incl_refl. }
  simpl in *. rewrite Hst. split.
  2:{ unfold set_delete. simpl. now rewrite String.eqb_refl. }
  rewrite map_keys_set. unfold map_keys at 3. rewrite map_app. simpl.
  rewrite Hkeys in Hk. rewrite Hk in Hd.
  destruct (@NoDup_extra (map_keys pre) extra name Hd Hex) as [->| ->].
  - rewrite app_nil_r in Hk.
    assert (Hh : map_has name (defs ctx') = false)
      by (apply map_has_false; rewrite Hk; exact Hfresh).
    rewrite Hh, Hk. reflexivity.
  - assert (Hh : map_has name (defs ctx') = true).
    { apply map_has_In. rewrite Hk. apply in_app_iff. right. left. reflexivity. }
    rewrite Hh, Hk. reflexivity.
Qed.

Lemma ensure_loop_order (ensure : string -> M unit) :
  (forall pre name def post c r,
      doc_types doc = (pre ++ (name, def) :: post)%list ->
      map_keys (defs c) = map_keys pre -> stack c = [] ->
      ensure name c = Ok r ->
      map_keys (defs (snd r)) = map_keys (pre ++ [(name, def)])%list /\
      stack (snd r) = []) ->
  forall rest pre c u c',
    doc_types doc = (pre ++ rest)%list ->
    map_keys (defs c) = map_keys pre -> stack c = [] ->
    foldM (fun (_ : unit) name => ensure name) (map_keys rest) tt c = Ok (u, c') ->
    map_keys (defs c') = map_keys (doc_types doc) /\ stack c' = [].
Proof.
  intros Hens. induction rest as [|[name def] rest IH];
    intros pre c u c' Heq Hkeys Hstack H; simpl in H.
  - apply ret_Ok in H as [_ ->]. rewrite Heq, app_nil_r. auto.
  - apply bind_Ok in H as ([] & c1 & H1 & H).
    destruct (Hens _ _ _ _ _ _ Heq Hkeys Hstack H1) as [K1 S1]. simpl in *.
    apply (IH (pre ++ [(name, def)])%list c1 u c'); auto.
    rewrite Heq, <- app_assoc. reflexivity.
Qed.

(** Once every declared name is defined and the stack is empty, an emission
    adds no definition. *)
Lemma grows_full c c' :
  map_keys (defs c) = map_keys (doc_types doc) -> stack c = [] ->
  grows doc c c' ->
  map_keys (defs c') = map_keys (doc_types doc) /\ stack c' = [].
Proof.
  intros Hk Hs (S1 & (extra & K1 & B1) & D1).
  rewrite Hk in D1. specialize (D1 types_distinct).
  split; [|congruence].
  destruct extra as [|k extra]; [rewrite K1, app_nil_r; exact Hk|].
  exfalso. rewrite K1, Hk in D1.
  destruct (B1 k (or_introl eq_refl)) as [Hin|Hin]; [rewrite Hs in Hin; destruct Hin|].
  apply NoDup_remove_2 in D1. apply D1. apply in_app_iff. auto.
Qed.
End DeclarationOrder.

Section DefsOrder.
Context {N : JsNumber}.
Variable doc : TDLDoc.
Hypothesis types_distinct : NoDup (map_keys (doc_types doc)).
Hypothesis backward : no_forward_refs doc.

Lemma OpenAI_defs_in_order fuel out :
  OpenAI.generateOpenAISchema doc fuel = Ok out ->
  exists entries,
    obj_get "$defs" out = Some (JObj entries) /\
    map_keys entries = map_keys (doc_types doc).
Proof.
  intros H. unfold OpenAI.generateOpenAISchema in H.
  destruct (bind _ _ _) as [[acc c]| |] eqn:Hrun; try discriminate.
  injection H as <-.
  apply bind_Ok in Hrun as ([] & c1 & H1 & H2).
  exists (defs c). split; [reflexivity|].
  eapply ensure_loop_order with (pre := []) in H1 as [K1 S1]; try reflexivity.
  2:{ intros pre name def post c0 r Heq Hk Hs Hr.
      eapply (ensure_next types_distinct backward); try eassumption.
      - apply OpenAI_emit_grows.
      - intros node c2 s c2' Hq He.
        eapply OpenAI_emit_settles; try eassumption.
        eapply closed_prefix; eassumption. }
  assert (G2 : grows doc c1 c).
  { revert H2. apply foldM_rel; [apply grows_refl | apply grows_trans |].
    intros b sym ctx b' ctx' _ Hs. unfold OpenAI.emitSymbol in Hs.
    apply bind_Ok in Hs as (base & c3 & Hb & Hs). apply ret_Ok in Hs as [_ ->].
    eapply OpenAI_emit_grows; eassumption. }
  eapply grows_full; eassumption.
Qed.

Lemma Gemini_defs_in_order fuel out :
  Gemini.generateGeminiSchema doc fuel = Ok out ->
  exists entries,
    obj_get "$defs" out = Some (JObj entries) /\
    map_keys entries = map_keys (doc_types doc).
Proof.
  intros H. unfold Gemini.generateGeminiSchema in H.
  destruct (bind _ _ _) as [[acc c]| |] eqn:Hrun; try discriminate.
  injection H as <-.
  apply bind_Ok in Hrun as ([] & c1 & H1 & H2).
  exists (defs c). split; [reflexivity|].
  eapply ensure_loop_order with (pre := []) in H1 as [K1 S1]; try reflexivity.
  2:{ intros pre name def post c0 r Heq Hk Hs Hr.
      eapply (ensure_next types_distinct backward); try eassumption.
      - apply Gemini_emit_grows.
      - intros node c2 s c2' Hq He.
        eapply Gemini_emit_settles; try eassumption.
        eapply closed_prefix; eassumption. }
  assert (G2 : grows doc c1 c).
  { revert H2. apply foldM_rel; [apply grows_refl | apply grows_trans |].
    intros b sym ctx b' ctx' _ Hs. unfold Gemini.emitSymbol in Hs.
    apply bind_Ok in Hs as (base & c3 & Hb & Hs). apply ret_Ok in Hs as [_ ->].
    eapply Gemini_emit_grows; eassumption. }
  eapply grows_full; eassumption.
Qed.
End DefsOrder.


(** ** Assignments to a properties object *)

Section Assignments.
Context {N : JsNumber}.

Lemma obj_assign_keys_In k (v : json) m k' :
  In k' (map_keys (obj_assign k v m)) <->
  (k' = k /\ k <> "__proto__") \/ In k' (map_keys m).
Proof.
  unfold obj_assign. destruct (String.eqb_spec k "__proto__") as [->|Hne].
  - split; [auto | intros [[_ H]|H]; [congruence | assumption]].
  - rewrite map_keys_set_In. split.
    + intros [->|H]; auto.
    + intros [[-> _]|H]; auto.
Qed.

Lemma fold_assign_keys_In (kvs : list (string * json)) m k :
  In k (map_keys (fold_left (fun m kv => obj_assign (fst kv) (snd kv) m) kvs m)) <->
  (In k (List.map fst kvs) /\ k <> "__proto__") \/ In k (map_keys m).
Proof.
  revert m. induction kvs as [|[k0 v0] kvs IH]; intros m; simpl.
  - split; [auto | intros [[[] _]|H]; assumption].
  - rewrite IH, obj_assign_keys_In. split.
    + intros [[H1 H2]|[[-> H]|H]]; auto.
    + intros [[[<-|H1] H2]|H]; auto.
Qed.

Lemma assign_all_keys_In kvs k :
  In k (map_keys (assign_all kvs)) <-> In k (List.map fst kvs) /\ k <> "__proto__".
Proof.
  unfold assign_all. rewrite fold_assign_keys_In. simpl. tauto.
Qed.

Lemma obj_assign_get k (v : json) m k' :
  map_get k' (obj_assign k v m) =
  if String.eqb k "__proto__" then map_get k' m
  else if String.eqb k k' then Some v else map_get k' m.
Proof.
  unfold obj_assign. destruct (String.eqb_spec k "__proto__") as [->|Hne]; [reflexivity|].
  destruct (String.eqb_spec k k') as [<-|Hk].
  - apply map_get_set_same.
  - apply map_get_set_other. congruence.
Qed.

Lemma fold_assign_get (kvs : list (string * json)) m k :
  k <> "__proto__" ->
  map_get k (fold_left (fun m kv => obj_assign (fst kv) (snd kv) m) kvs m) =
  match last_assigned k kvs with
  | Some v => Some v
  | None => map_get k m
  end.
Proof.
  intros Hk. unfold last_assigned. revert m.
  induction kvs as [|[k0 v0] kvs IH]; intros m; simpl; [reflexivity|].
  rewrite IH, obj_assign_get.
  assert (Hrev : forall (l1 l2 : list (string * json)),
             map_get k (l1 ++ l2)%list =
             match map_get k l1 with Some v => Some v | None => map_get k l2 end).
  { induction l1 as [|[a b] l1 IHl]; intros l2; simpl; [reflexivity|].
    destruct (String.eqb a k); [reflexivity | apply IHl]. }
  rewrite Hrev. destruct (map_get k (rev kvs)) as [v|]; [reflexivity|]. simpl.
  destruct (String.eqb_spec k0 "__proto__") as [->|H0].
  - destruct (String.eqb_spec "__proto__" k); [congruence | reflexivity].
  - destruct (String.eqb k0 k); reflexivity.
Qed.

(** A key other than [__proto__] reads back the last schema assigned to it. *)
Lemma assign_all_get kvs k :
  k <> "__proto__" -> map_get k (assign_all kvs) = last_assigned k kvs.
Proof.
  intros Hk. unfold assign_all. rewrite fold_assign_get by assumption.
  destruct (last_assigned k kvs); reflexivity.
Qed.

Lemma last_assigned_app k kvs v rest :
  ~ In k (List.map fst rest) ->
  last_assigned k (kvs ++ (k, v) :: rest) = Some v.
Proof.
  intros Hn. unfold last_assigned. rewrite rev_app_distr. simpl. rewrite <- app_assoc.
  simpl. induction (rev rest) as [|[a b] l IH] eqn:E in rest, Hn |- *; simpl.
  - now rewrite String.eqb_refl.
  - destruct (String.eqb_spec a k) as [->|Hne].
    + exfalso. apply Hn. apply in_map_iff. exists (k, b). split; [reflexivity|].
      apply in_rev. rewrite E. left. reflexivity.
    + apply (IH (rev l)).
      * intros H. apply Hn. apply in_map_iff in H as (x & Hx & Hin).
        apply in_map_iff. exists x. split; [assumption|].
        apply in_rev. rewrite E. right. now apply in_rev in Hin.
      * apply rev_involutive.
Qed.
End Assignments.

(** ** What an object emission stores, key by key *)

Section ObjectEmission.
Context {N : JsNumber}.
Variable e : TypeNode -> M json.

Lemma OpenAI_fold_origins (X : Type) (g : X -> Origin) (l : list X) acc c acc' c' :
  foldM (fun acc x =>
           bind (e (o_type (g x)))
                (fun base =>
                   ret (OpenAI.record acc (o_key (g x))
                          (OpenAI.finalSchema (o_isArray (g x)) (o_optional (g x)) base))))
        l acc c = Ok (acc', c') ->
  exists kvs,
    Forall2 (OpenAI_stores e) (List.map g l) kvs /\
    fst acc' = fold_left (fun m kv => obj_assign (fst kv) (snd kv) m) kvs (fst acc) /\
    snd acc' = (snd acc ++ List.map o_key (List.map g l))%list.
Proof.
  revert acc c. induction l as [|x l IH]; intros acc c H; simpl in H.
  - apply ret_Ok in H as [-> _]. exists []. simpl. rewrite app_nil_r.
    repeat split. constructor.
  - apply bind_Ok in H as (acc1 & c1 & H1 & H).
    apply bind_Ok in H1 as (base & c2 & Hb & H1). apply ret_Ok in H1 as [-> ->].
    apply IH in H as (kvs & HF & Hp & Hr).
    exists ((o_key (g x), OpenAI.finalSchema (o_isArray (g x)) (o_optional (g x)) base)
              :: kvs).
    simpl in *. repeat split.
    + constructor; [|assumption]. split; [reflexivity|].
      exists base. split; [|reflexivity]. exists c, c2. assumption.
    + assumption.
    + rewrite Hr, <- app_assoc. reflexivity.
Qed.

Lemma OpenAI_fold_indexSigs (idxs : list IndexSigNode) acc c acc' c' :
  foldM (OpenAI.emitIndexSig_ e) idxs acc c = Ok (acc', c') ->
  exists kvs,
    Forall2 (OpenAI_stores e) (flat_map idx_origins idxs) kvs /\
    fst acc' = fold_left (fun m kv => obj_assign (fst kv) (snd kv) m) kvs (fst acc) /\
    snd acc' = (snd acc ++ List.map o_key (flat_map idx_origins idxs))%list.
Proof.
  revert acc c. induction idxs as [|idx idxs IH]; intros acc c H; simpl in H.
  - apply ret_Ok in H as [-> _]. exists []. simpl. rewrite app_nil_r.
    repeat split. constructor.
  - apply bind_Ok in H as (acc1 & c1 & H1 & H).
    apply IH in H as (kvs2 & HF2 & Hp2 & Hr2).
    unfold OpenAI.emitIndexSig_ in H1. simpl. unfold idx_origins at 1 3.
    destruct (idx_kind idx).
    + apply bind_Ok in H1 as (closure & c2 & _ & H1).
      destruct closure; [|discriminate]. apply ret_Ok in H1 as [-> _].
      exists kvs2. simpl. auto.
    + apply (OpenAI_fold_origins (key_origin idx)) in H1 as (kvs1 & HF1 & Hp1 & Hr1).
      exists (kvs1 ++ kvs2)%list. repeat split.
      * apply Forall2_app; assumption.
      * rewrite fold_left_app, <- Hp1. assumption.
      * rewrite Hr2, Hr1, map_app, app_assoc. reflexivity.
Qed.

(** The schema the OpenAI emitter returns for an object: every origin is
    stored and required. *)
Lemma OpenAI_emitObject_stores obj c s c' :
  OpenAI.emitObject_ e obj c = Ok (s, c') ->
  exists kvs,
    Forall2 (OpenAI_stores e) (origins obj) kvs /\
    s = JObj [("type", JStr "object");
              ("properties", JObj (assign_all kvs));
              ("required", JArr (List.map JStr (List.map o_key (origins obj))));
              ("additionalProperties", JBool false)].
Proof.
  intros H. unfold OpenAI.emitObject_ in H.
  apply bind_Ok in H as (acc1 & c1 & H1 & H).
  apply bind_Ok in H as (acc2 & c2 & H2 & H).
  apply ret_Ok in H as [-> _].
  apply OpenAI_fold_indexSigs in H1 as (kvs1 & HF1 & Hp1 & Hr1).
  apply (OpenAI_fold_origins prop_origin) in H2 as (kvs2 & HF2 & Hp2 & Hr2).
  exists (kvs1 ++ kvs2)%list. split.
  - unfold origins. apply Forall2_app; assumption.
  - unfold assign_all, origins. rewrite fold_left_app, map_app.
    simpl in Hp1, Hr1. rewrite <- Hp1, <- Hp2, Hr2, Hr1. reflexivity.
Qed.

Lemma Gemini_fold_origins (X : Type) (g : X -> Origin) (l : list X) acc c acc' c' :
  foldM (fun acc x =>
           bind (e (o_type (g x)))
                (fun base =>
                   ret (Gemini.record acc (o_key (g x)) (o_optional (g x))
                          (Gemini.withArray (o_isArray (g x)) base))))
        l acc c = Ok (acc', c') ->
  exists kvs,
    Forall2 (Gemini_stores e) (List.map g l) kvs /\
    Gemini.properties acc' =
      fold_left (fun m kv => obj_assign (fst kv) (snd kv) m) kvs (Gemini.properties acc) /\
    Gemini.required acc' = (Gemini.required acc ++ required_keys (List.map g l))%list /\
    Gemini.additionalProps acc' = Gemini.additionalProps acc.
Proof.
  revert acc c. induction l as [|x l IH]; intros acc c H; simpl in H.
  - apply ret_Ok in H as [-> _]. exists []. unfold required_keys. simpl.
    rewrite app_nil_r. repeat split. constructor.
  - apply bind_Ok in H as (acc1 & c1 & H1 & H).
    apply bind_Ok in H1 as (base & c2 & Hb & H1). apply ret_Ok in H1 as [-> ->].
    apply IH in H as (kvs & HF & Hp & Hr & Ha).
    exists ((o_key (g x), Gemini.withArray (o_isArray (g x)) base) :: kvs).
    simpl in *. repeat split.
    + constructor; [|assumption]. split; [reflexivity|].
      exists base. split; [|reflexivity]. exists c, c2. assumption.
    + assumption.
    + rewrite Hr. unfold required_keys. simpl.
      destruct (o_optional (g x)); simpl; [reflexivity|].
      rewrite <- app_assoc. reflexivity.
    + assumption.
Qed.

Lemma Gemini_fold_indexSigs (idxs : list IndexSigNode) acc c acc' c' :
  foldM (Gemini.emitIndexSig_ e) idxs acc c = Ok (acc', c') ->
  exists kvs,
    Forall2 (Gemini_stores e) (flat_map idx_origins idxs) kvs /\
    Gemini.properties acc' =
      fold_left (fun m kv => obj_assign (fst kv) (snd kv) m) kvs (Gemini.properties acc) /\
    Gemini.required acc' =
      (Gemini.required acc ++ required_keys (flat_map idx_origins idxs))%list.
Proof.
  revert acc c. induction idxs as [|idx idxs IH]; intros acc c H; simpl in H.
  - apply ret_Ok in H as [-> _]. exists []. unfold required_keys. simpl.
    rewrite app_nil_r. repeat split. constructor.
  - apply bind_Ok in H as (acc1 & c1 & H1 & H).
    apply IH in H as (kvs2 & HF2 & Hp2 & Hr2).
    unfold Gemini.emitIndexSig_ in H1. simpl. unfold idx_origins at 1 3.
    destruct (idx_kind idx).
    + apply bind_Ok in H1 as (closure & c2 & _ & H1).
      exists kvs2. simpl. destruct closure.
      * apply ret_Ok in H1 as [-> _]. simpl in *. auto.
      * apply bind_Ok in H1 as (base & c3 & _ & H1).
        apply ret_Ok in H1 as [-> _]. simpl in *. auto.
    + apply (Gemini_fold_origins (key_origin idx)) in H1
        as (kvs1 & HF1 & Hp1 & Hr1 & _).
      exists (kvs1 ++ kvs2)%list. repeat split.
      * apply Forall2_app; assumption.
      * rewrite fold_left_app, <- Hp1. assumption.
      * rewrite Hr2, Hr1. unfold required_keys.
        rewrite filter_app, map_app, app_assoc. reflexivity.
Qed.

(** The schema the Gemini emitter returns for an object: every origin is
    stored, and the origins that are not optional are required. *)
Lemma Gemini_emitObject_stores obj c s c' :
  Gemini.emitObject_ e obj c = Ok (s, c') ->
  exists kvs additional,
    Forall2 (Gemini_stores e) (origins obj) kvs /\
    s = JObj [("type", JStr "object");
              ("properties", JObj (assign_all kvs));
              ("required", JArr (List.map JStr (required_keys (origins obj))));
              ("additionalProperties", additional)].
Proof.
  intros H. unfold Gemini.emitObject_ in H.
  apply bind_Ok in H as (acc1 & c1 & H1 & H).
  apply bind_Ok in H as (acc2 & c2 & H2 & H).
  apply ret_Ok in H as [-> _].
  apply Gemini_fold_indexSigs in H1 as (kvs1 & HF1 & Hp1 & Hr1).
  apply (Gemini_fold_origins prop_origin) in H2 as (kvs2 & HF2 & Hp2 & Hr2 & Ha2).
  exists (kvs1 ++ kvs2)%list, (Gemini.additionalProps acc2). split.
  - unfold origins. apply Forall2_app; assumption.
  - unfold assign_all, origins, required_keys. rewrite fold_left_app, filter_app, map_app.
    simpl in Hp1, Hr1. rewrite <- Hp1, <- Hp2, Hr2, Hr1. reflexivity.
Qed.
End ObjectEmission.

Section StoredLookup.
Context {N : JsNumber}.

Lemma Forall2_fst_keys (St : Origin -> string * json -> Prop) os kvs :
  (forall o kv, St o kv -> fst kv = o_key o) ->
  Forall2 St os kvs -> List.map fst kvs = List.map o_key os.
Proof.
  intros Hfst H. induction H as [|o kv os kvs Hs _ IH]; simpl; [reflexivity|].
  rewrite IH, (Hfst _ _ Hs). reflexivity.
Qed.

(** The entry stored for an origin whose key no later origin repeats is the
    one the properties object holds under that key. *)
Lemma stored_lookup (St : Origin -> string * json -> Prop) os1 o os2 kvs :
  (forall o kv, St o kv -> fst kv = o_key o) ->
  Forall2 St (os1 ++ o :: os2) kvs ->
  ~ In (o_key o) (List.map o_key os2) ->
  o_key o <> "__proto__" ->
  exists kv, St o kv /\ map_get (o_key o) (assign_all kvs) = Some (snd kv).
Proof.
  intros Hfst HF Hlast Hproto.
  apply Forall2_app_inv_l in HF as (k1 & k2 & H1 & H2 & ->).
  inversion H2 as [|? kv ? k3 Hs H3]; subst.
  exists kv. split; [assumption|].
  rewrite assign_all_get by assumption.
  pose proof (Hfst _ _ Hs) as Hk. destruct kv as [k v]. simpl in *. subst k.
  apply last_assigned_app.
  rewrite (Forall2_fst_keys Hfst H3). assumption.
Qed.

Lemma required_keys_In (os : list Origin) k :
  In k (required_keys os) <->
  exists o, In o os /\ o_key o = k /\ o_optional o = false.
Proof.
  unfold required_keys. rewrite in_map_iff. split.
  - intros (o & Hk & Ho). apply filter_In in Ho as [Ho Hopt].
    exists o. repeat split; auto. now destruct (o_optional o).
  - intros (o & Ho & Hk & Hopt). exists o. split; [assumption|].
    apply filter_In. split; [assumption|]. now rewrite Hopt.
Qed.

Lemma required_keys_incl (os : list Origin) : incl (required_keys os) (List.map o_key os).
Proof.
  intros k Hk. apply required_keys_In in Hk as (o & Ho & <- & _). now apply in_map.
Qed.
End StoredLookup.

Section RootEmission.
Context {N : JsNumber}.
Variable doc : TDLDoc.

Lemma OpenAI_root_stores fuel out :
  OpenAI.generateOpenAISchema doc fuel = Ok out ->
  exists kvs entries,
    Forall2 (OpenAI_stores (OpenAI.emit doc fuel))
            (List.map sym_origin (doc_symbols doc)) kvs /\
    out = JObj [("type", JStr "object");
                ("properties", JObj (assign_all kvs));
                ("required", JArr (List.map JStr (List.map sym_name (doc_symbols doc))));
                ("additionalProperties", JBool false);
                ("$defs", JObj entries)].
Proof.
  intros H. unfold OpenAI.generateOpenAISchema in H.
  destruct (bind _ _ _) as [[acc c]| |] eqn:Hrun; try discriminate.
  injection H as <-.
  apply bind_Ok in Hrun as ([] & c1 & _ & H2).
  apply (OpenAI_fold_origins (OpenAI.emit doc fuel) sym_origin) in H2
    as (kvs & HF & Hp & Hr).
  exists kvs, (defs c). split; [assumption|].
  unfold assign_all, Object_fromEntries. simpl in Hp, Hr.
  rewrite <- Hp, Hr. rewrite (map_map sym_origin o_key). reflexivity.
Qed.

Lemma Gemini_root_stores fuel out :
  Gemini.generateGeminiSchema doc fuel = Ok out ->
  exists kvs entries,
    Forall2 (Gemini_stores (Gemini.emit doc fuel))
            (List.map sym_origin (doc_symbols doc)) kvs /\
    out = JObj [("type", JStr "object");
                ("properties", JObj (assign_all kvs));
                ("required",
                 JArr (List.map JStr (required_keys (List.map sym_origin (doc_symbols doc)))));
                ("additionalProperties", JBool false);
                ("$defs", JObj entries)].
Proof.
  intros H. unfold Gemini.generateGeminiSchema in H.
  destruct (bind _ _ _) as [[acc c]| |] eqn:Hrun; try discriminate.
  injection H as <-.
  apply bind_Ok in Hrun as ([] & c1 & _ & H2).
  apply (Gemini_fold_origins (Gemini.emit doc fuel) sym_origin) in H2
    as (kvs & HF & Hp & Hr & _).
  exists kvs, (defs c). split; [assumption|].
  unfold assign_all, Object_fromEntries. simpl in Hp, Hr.
  rewrite <- Hp, Hr. reflexivity.
Qed.
End RootEmission.

Section Nullability.
Context {N : JsNumber}.

Lemma makeNullable_string fields t :
  map_get "type" fields = Some (JStr t) ->
  OpenAI.makeNullable (JObj fields) =
    JObj (map_set "type" (JArr [JStr t; JStr "null"]) fields).
Proof. intros H. unfold OpenAI.makeNullable. now rewrite H. Qed.

Lemma makeNullable_array fields ts :
  map_get "type" fields = Some (JArr ts) ->
  OpenAI.makeNullable (JObj fields) =
    if includes_str "null" ts then JObj fields
    else JObj (map_set "type" (JArr (ts ++ [JStr "null"])) fields).
Proof.
  intros H. unfold OpenAI.makeNullable. rewrite H.
  now destruct (includes_str "null" ts).
Qed.

Lemma makeNullable_untyped fields :
  map_get "type" fields = None ->
  OpenAI.makeNullable (JObj fields) =
    JObj [("anyOf", JArr [JObj fields; JObj [("type", JStr "null")]])].
Proof. intros H. unfold OpenAI.makeNullable. now rewrite H. Qed.

Lemma includes_str_app s l1 l2 :
  includes_str s (l1 ++ l2) = includes_str s l1 || includes_str s l2.
Proof. unfold includes_str. apply existsb_app. Qed.

(** Making a typed schema nullable twice is making it nullable once. *)
Lemma makeNullable_idempotent fields :
  (exists t, map_get "type" fields = Some (JStr t)) \/
  (exists ts, map_get "type" fields = Some (JArr ts)) ->
  OpenAI.makeNullable (OpenAI.makeNullable (JObj fields)) =
  OpenAI.makeNullable (JObj fields).
Proof.
  intros [[t H]|[ts H]].
  - rewrite (makeNullable_string _ H).
    rewrite (@makeNullable_array _ [JStr t; JStr "null"])
      by apply map_get_set_same.
    assert (Hin : includes_str "null" [JStr t; JStr "null"] = true).
    { unfold includes_str. cbn [existsb]. change ("null" =? "null") with true.
      apply orb_true_iff. right. reflexivity. }
    rewrite Hin. reflexivity.
  - rewrite (makeNullable_array _ H).
    destruct (includes_str "null" ts) eqn:Hin.
    + rewrite (makeNullable_array _ H), Hin. reflexivity.
    + rewrite (@makeNullable_array _ (ts ++ [JStr "null"]))
        by apply map_get_set_same.
      rewrite includes_str_app.
      change (includes_str "null" [JStr "null"]) with true. rewrite orb_true_r.
      reflexivity.
Qed.

Lemma finalSchema_optional_array base :
  OpenAI.finalSchema true true base =
    JObj [("type", JArr [JStr "array"; JStr "null"]); ("items", base)].
Proof. reflexivity. Qed.
End Nullability.


(** C6 (amended). In the Gemini output optionality is encoded by omission
    from [required] and never by nullability: [required] lists, in order,
    the keys of the symbols, properties and enum keys whose origin is not
    optional, so the key of an optional origin is absent from [required]
    unless an origin of the same object that is not optional has the same
    key; the schema stored under a key is the array-wrapped schema of its
    last origin, unchanged; and [required] is within the keys of
    [properties] when no required key is the prototype key. *)
Theorem Gemini_optional_by_omission
        {N : JsNumber} (doc : TDLDoc) (fuel : nat) :
  (forall out,
      Gemini.generateGeminiSchema doc fuel = Ok out ->
      exists kvs,
        Forall2 (Gemini_stores (Gemini.emit doc fuel))
                (List.map sym_origin (doc_symbols doc)) kvs /\
        obj_get "properties" out = Some (JObj (assign_all kvs)) /\
        obj_get "required" out =
          Some (JArr (List.map JStr
                        (required_keys (List.map sym_origin (doc_symbols doc)))))) /\
  (forall obj c s c',
      Gemini.emitObject doc fuel obj c = Ok (s, c') ->
      exists kvs,
        Forall2 (Gemini_stores (Gemini.emit doc fuel)) (origins obj) kvs /\
        obj_get "properties" s = Some (JObj (assign_all kvs)) /\
        obj_get "required" s =
          Some (JArr (List.map JStr (required_keys (origins obj))))) /\
  (forall os k,
      In k (required_keys os) <->
      exists o, In o os /\ o_key o = k /\ o_optional o = false) /\
  (forall e os kvs,
      Forall2 (Gemini_stores e) os kvs ->
      ~ In "__proto__" (required_keys os) ->
      incl (required_keys os) (map_keys (assign_all kvs))) /\
  (forall e os1 o os2 kvs,
      Forall2 (Gemini_stores e) (os1 ++ o :: os2) kvs ->
      ~ In (o_key o) (List.map o_key os2) ->
      o_key o <> "__proto__" ->
      exists base,
        emits e (o_type o) base /\
        map_get (o_key o) (assign_all kvs) =
          Some (Gemini.withArray (o_isArray o) base)).
Proof.
  repeat split.
  - intros out H. apply Gemini_root_stores in H as (kvs & entries & HF & ->).
    exists kvs. repeat split. assumption.
  - intros obj c s c' H.
    apply Gemini_emitObject_stores in H as (kvs & additional & HF & ->).
    exists kvs. repeat split. assumption.
  - apply required_keys_In.
  - apply required_keys_In.
  - intros e os kvs HF Hproto k Hk.
    apply assign_all_keys_In. split.
    + rewrite (@Forall2_fst_keys _ (Gemini_stores e) os kvs); [|intros ? ? [H _]; exact H|assumption].
      now apply required_keys_incl.
    + intros ->. contradiction.
  - intros e os1 o os2 kvs HF Hlast Hproto.
    destruct (@stored_lookup _ (Gemini_stores e) os1 o os2 kvs) as (kv & Hs & Hget);
      try assumption.
    + intros o0 kv0 [H0 _]. exact H0.
    + destruct Hs as (_ & base & He & Hv). exists base. split; [assumption|].
      rewrite Hget, Hv. reflexivity.
Qed.

(** ** String-domain index signatures *)

Section FoldSplit.
Context {N : JsNumber}.

Lemma foldM_app_Ok {A B : Type} (f : B -> A -> M B) pre x post b c r :
  foldM f (pre ++ x :: post) b c = Ok r ->
  exists b1 c1 b2 c2,
    foldM f pre b c = Ok (b1, c1) /\
    f b1 x c1 = Ok (b2, c2) /\
    foldM f post b2 c2 = Ok r.
Proof.
  revert b c. induction pre as [|a pre IH]; intros b c H; simpl in H.
  - destruct r as [b' c']. apply bind_Ok in H as (b2 & c2 & H1 & H).
    exists b, c, b2, c2. repeat split; assumption.
  - destruct r as [b' c']. apply bind_Ok in H as (b0 & c0 & H1 & H).
    apply IH in H as (b1 & c1 & b2 & c2 & Hpre & Hx & Hpost).
    exists b1, c1, b2, c2. repeat split; try assumption.
    simpl. unfold bind. rewrite H1. assumption.
Qed.

Lemma foldM_app_Throw {A B : Type} (f : B -> A -> M B) pre x post b c b1 c1 msg :
  foldM f pre b c = Ok (b1, c1) ->
  f b1 x c1 = Throw msg ->
  foldM f (pre ++ x :: post) b c = Throw msg.
Proof.
  revert b c. induction pre as [|a pre IH]; intros b c Hpre Hx; simpl in *.
  - apply ret_Ok in Hpre as [-> ->]. unfold bind. now rewrite Hx.
  - apply bind_Ok in Hpre as (b0 & c0 & H1 & Hpre).
    unfold bind. rewrite H1. eapply IH; eassumption.
Qed.
End FoldSplit.

Section NeverDetection.
Context {N : JsNumber}.
Variable doc : TDLDoc.

Lemma enumSchema_not_never enums : isNeverSchema (enumSchema enums) = false.
Proof.
  unfold enumSchema. destruct (unionLiteralType enums); reflexivity.
Qed.

Lemma primitive_not_never name :
  name <> PNever -> isNeverSchema (primitiveToSchema name) = false.
Proof. destruct name; intros H; try reflexivity. now elim H. Qed.

Lemma OpenAI_emit_not_never fuel node c s c' :
  node <> Primitive PNever ->
  OpenAI.emit doc fuel node c = Ok (s, c') -> isNeverSchema s = false.
Proof.
  intros Hn H. destruct fuel as [|fuel]; [discriminate|].
  destruct node; simpl in H.
  - apply ret_Ok in H as [-> _]. apply primitive_not_never. congruence.
  - apply ret_Ok in H as [-> _]. reflexivity.
  - apply ret_Ok in H as [-> _]. reflexivity.
  - apply ret_Ok in H as [-> _]. reflexivity.
  - apply bind_Ok in H as (u & c1 & _ & H). apply ret_Ok in H as [-> _]. reflexivity.
  - destruct (forallb isScalarLiteral members).
    + apply bind_Ok in H as (enums & c1 & _ & H). apply ret_Ok in H as [-> _].
      apply enumSchema_not_never.
    + apply bind_Ok in H as (ss & c1 & _ & H). apply ret_Ok in H as [-> _]. reflexivity.
  - apply bind_Ok in H as (obj & c1 & _ & H).
    apply OpenAI_emitObject_stores in H as (kvs & _ & ->). reflexivity.
  - apply OpenAI_emitObject_stores in H as (kvs & _ & ->). reflexivity.
Qed.

Lemma Gemini_emit_not_never fuel node c s c' :
  node <> Primitive PNever ->
  Gemini.emit doc fuel node c = Ok (s, c') -> isNeverSchema s = false.
Proof.
  intros Hn H. destruct fuel as [|fuel]; [discriminate|].
  destruct node; simpl in H.
  - apply ret_Ok in H as [-> _]. apply primitive_not_never. congruence.
  - apply ret_Ok in H as [-> _]. reflexivity.
  - apply ret_Ok in H as [-> _]. reflexivity.
  - apply ret_Ok in H as [-> _]. reflexivity.
  - apply bind_Ok in H as (u & c1 & _ & H). apply ret_Ok in H as [-> _]. reflexivity.
  - destruct (forallb isScalarLiteral members).
    + apply bind_Ok in H as (enums & c1 & _ & H). apply ret_Ok in H as [-> _].
      apply enumSchema_not_never.
    + apply bind_Ok in H as (ss & c1 & _ & H). apply ret_Ok in H as [-> _]. reflexivity.
  - apply bind_Ok in H as (obj & c1 & _ & H).
    apply Gemini_emitObject_stores in H as (kvs & additional & _ & ->). reflexivity.
  - apply Gemini_emitObject_stores in H as (kvs & additional & _ & ->). reflexivity.
Qed.
End NeverDetection.

Section StringSignatures.
Context {N : JsNumber}.
Variable e : TypeNode -> M json.
Variable idx : IndexSigNode.
Hypothesis idx_string : idx_kind idx = KString.
Hypothesis value_not_never :
  forall c s c', e (idx_valueType idx) c = Ok (s, c') -> isNeverSchema s = false.

Lemma OpenAI_string_sig_fails acc c r : OpenAI.emitIndexSig_ e acc idx c <> Ok r.
Proof.
  destruct r as [acc' c']. intros H. unfold OpenAI.emitIndexSig_ in H.
  rewrite idx_string in H. apply bind_Ok in H as (closure & c1 & Hc & H).
  destruct closure; [|discriminate].
  destruct (idx_optional idx).
  - apply bind_Ok in Hc as (s & c2 & Hs & Hc). apply ret_Ok in Hc as [Hc _].
    apply value_not_never in Hs. congruence.
  - apply ret_Ok in Hc as [Hc _]. discriminate.
Qed.

Lemma OpenAI_string_sig_throws acc c :
  idx_optional idx = false \/ is_ok (e (idx_valueType idx) c) = true ->
  OpenAI.emitIndexSig_ e acc idx c = Throw OpenAI.string_index_error.
Proof.
  intros H. unfold OpenAI.emitIndexSig_. rewrite idx_string. unfold bind at 1.
  destruct (idx_optional idx).
  - destruct H as [H|H]; [discriminate|].
    unfold bind. destruct (e (idx_valueType idx) c) as [[s c1]| |] eqn:He;
      try discriminate.
    unfold ret. rewrite (value_not_never He). reflexivity.
  - reflexivity.
Qed.

Lemma OpenAI_emitObject_with_string_sig obj pre post c :
  obj_indexSigs obj = (pre ++ idx :: post)%list ->
  is_ok (OpenAI.emitObject_ e obj c) = false.
Proof.
  intros Hsigs. destruct (OpenAI.emitObject_ e obj c) as [[s c']| |] eqn:H;
    try reflexivity.
  exfalso. unfold OpenAI.emitObject_ in H. rewrite Hsigs in H.
  apply bind_Ok in H as (acc1 & c1 & H1 & _).
  apply foldM_app_Ok in H1 as (b1 & c2 & b2 & c3 & _ & Hx & _).
  eapply OpenAI_string_sig_fails; eassumption.
Qed.

Lemma OpenAI_emitObject_string_sig_error obj pre post c s1 c1 :
  obj_indexSigs obj = (pre ++ idx :: post)%list ->
  OpenAI.emitObject_ e (mkObject [] pre false) c = Ok (s1, c1) ->
  idx_optional idx = false \/ is_ok (e (idx_valueType idx) c1) = true ->
  OpenAI.emitObject_ e obj c = Throw OpenAI.string_index_error.
Proof.
  intros Hsigs Hpre Hv. unfold OpenAI.emitObject_ in *. simpl in Hpre.
  apply bind_Ok in Hpre as (acc1 & c2 & H1 & Hpre).
  apply bind_Ok in Hpre as (acc2 & c3 & H2 & Hpre).
  apply ret_Ok in H2 as [-> ->]. apply ret_Ok in Hpre as [_ ->].
  rewrite Hsigs. unfold bind at 1.
  erewrite foldM_app_Throw; [reflexivity | exact H1 |].
  now apply OpenAI_string_sig_throws.
Qed.

Lemma Gemini_string_sig_sets acc c acc' c' :
  Gemini.emitIndexSig_ e acc idx c = Ok (acc', c') ->
  exists base,
    emits e (idx_valueType idx) base /\
    Gemini.additionalProps acc' = Gemini.withArray (idx_isArray idx) base.
Proof.
  intros H. unfold Gemini.emitIndexSig_ in H. rewrite idx_string in H.
  apply bind_Ok in H as (closure & c1 & Hc & H).
  assert (closure = false) as ->.
  { destruct (idx_optional idx).
    - apply bind_Ok in Hc as (s & c2 & Hs & Hc). apply ret_Ok in Hc as [-> _].
      eapply value_not_never; eassumption.
    - now apply ret_Ok in Hc as [-> _]. }
  apply bind_Ok in H as (base & c2 & Hb & H). apply ret_Ok in H as [-> _].
  exists base. split; [exists c1, c2; assumption | reflexivity].
Qed.

Lemma Gemini_enum_sigs_keep (post : list IndexSigNode) acc c acc' c' :
  Forall (fun i : IndexSigNode => idx_kind i = KEnum) post ->
  foldM (Gemini.emitIndexSig_ e) post acc c = Ok (acc', c') ->
  Gemini.additionalProps acc' = Gemini.additionalProps acc.
Proof.
  intros Hpost. revert acc c. induction Hpost as [|i post Hi _ IH];
    intros acc c H; simpl in H.
  - now apply ret_Ok in H as [-> _].
  - apply bind_Ok in H as (acc1 & c1 & H1 & H). apply IH in H. rewrite H.
    unfold Gemini.emitIndexSig_ in H1. rewrite Hi in H1.
    apply (Gemini_fold_origins e (key_origin i)) in H1 as (_ & _ & _ & _ & Ha).
    exact Ha.
Qed.

Lemma Gemini_emitObject_last_string_sig obj pre post c s c' :
  obj_indexSigs obj = (pre ++ idx :: post)%list ->
  Forall (fun i : IndexSigNode => idx_kind i = KEnum) post ->
  Gemini.emitObject_ e obj c = Ok (s, c') ->
  exists base,
    emits e (idx_valueType idx) base /\
    obj_get "additionalProperties" s = Some (Gemini.withArray (idx_isArray idx) base).
Proof.
  intros Hsigs Hpost H. unfold Gemini.emitObject_ in H. rewrite Hsigs in H.
  apply bind_Ok in H as (acc1 & c1 & H1 & H).
  apply bind_Ok in H as (acc2 & c2 & H2 & H).
  apply ret_Ok in H as [-> _].
  apply foldM_app_Ok in H1 as (b1 & c3 & b2 & c4 & _ & Hx & Hrest).
  apply Gemini_string_sig_sets in Hx as (base & He & Hb).
  eapply Gemini_enum_sigs_keep in Hrest; [|exact Hpost].
  apply (Gemini_fold_origins e prop_origin) in H2 as (_ & _ & _ & _ & Ha).
  exists base. split; [assumption|].
  simpl. rewrite Ha, Hrest, Hb. reflexivity.
Qed.
End StringSignatures.


(** ** Intersection merging *)

Section Merging.
Context {N : JsNumber}.

Lemma keyed_by_name_set m p : keyed_by_name m -> keyed_by_name (set_prop m p).
Proof.
  unfold set_prop. intros Hm. induction m as [|[k q] m IH]; simpl.
  - intros k' p' [H|[]]. now injection H as <- <-.
  - assert (Hm' : keyed_by_name m) by (intros k' p' H; apply Hm; right; exact H).
    destruct (String.eqb k (prop_name p)).
    + intros k' p' [H|H]; [now injection H as <- <- | apply Hm; right; exact H].
    + intros k' p' [H|H]; [apply Hm; left; exact H | now apply IH].
Qed.

Lemma keyed_by_name_fold ps m :
  keyed_by_name m -> keyed_by_name (fold_left set_prop ps m).
Proof.
  revert m. induction ps as [|p ps IH]; intros m Hm; simpl; [assumption|].
  apply IH, keyed_by_name_set, Hm.
Qed.

Lemma find_prop_values m name :
  keyed_by_name m -> find_prop name (map_values m) = map_get name m.
Proof.
  intros Hm. induction m as [|[k p] m IH]; simpl; [reflexivity|].
  rewrite (Hm k p (or_introl eq_refl)).
  destruct (String.eqb (prop_name p) name); [reflexivity|].
  apply IH. intros k' p' H. apply Hm. right. exact H.
Qed.

Lemma find_prop_app name ps qs :
  find_prop name (ps ++ qs) =
  match find_prop name ps with Some p => Some p | None => find_prop name qs end.
Proof.
  unfold find_prop. induction ps as [|p ps IH]; simpl; [reflexivity|].
  destruct (String.eqb (prop_name p) name); [reflexivity | apply IH].
Qed.

Lemma map_get_fold_set_prop ps m name :
  map_get name (fold_left set_prop ps m) =
  match find_prop name (rev ps) with
  | Some p => Some p
  | None => map_get name m
  end.
Proof.
  revert m. induction ps as [|p ps IH]; intros m; simpl; [reflexivity|].
  rewrite IH, find_prop_app. destruct (find_prop name (rev ps)); [reflexivity|].
  unfold find_prop, set_prop. simpl.
  destruct (String.eqb_spec (prop_name p) name) as [<-|Hne].
  - apply map_get_set_same.
  - apply map_get_set_other. congruence.
Qed.

Lemma fold_set_prop_NoDup ps (m : Map PropNode) :
  NoDup (map_keys m) -> NoDup (map_keys (fold_left set_prop ps m)).
Proof.
  revert m. induction ps as [|p ps IH]; intros m Hm; simpl; [assumption|].
  apply IH. unfold set_prop. now apply map_keys_set_NoDup.
Qed.

Lemma fold_set_prop_In ps (m : Map PropNode) p :
  In p (map_values (fold_left set_prop ps m)) -> In p (map_values m) \/ In p ps.
Proof.
  revert m. induction ps as [|q ps IH]; intros m H; simpl in *; [auto|].
  apply IH in H as [H|H]; [|auto].
  unfold set_prop in H.
  assert (Hset : forall m0 : Map PropNode,
             In p (map_values (map_set (prop_name q) q m0)) ->
             In p (map_values m0) \/ q = p).
  { induction m0 as [|[k r] m0 IHm]; simpl.
    - intros [E|[]]; auto.
    - destruct (String.eqb k (prop_name q)); simpl.
      + intros [E|E]; auto.
      + intros [E|E]; auto. apply IHm in E as [E|E]; auto. }
  apply Hset in H as [H|H]; auto.
Qed.

Lemma keyed_names (m : Map PropNode) :
  keyed_by_name m ->
  List.map (fun p : PropNode => prop_name p) (map_values m) = map_keys m.
Proof.
  intros Hm. induction m as [|[k p] m IH]; simpl; [reflexivity|].
  rewrite (Hm k p (or_introl eq_refl)). f_equal.
  apply IH. intros k' p' H. apply Hm. right. exact H.
Qed.

Lemma fold_mergeStep (objs : list ObjectNode) outProps outIdx closed :
  fold_left mergeStep objs (outProps, outIdx, closed) =
  (fold_left set_prop (flat_map (fun o : ObjectNode => obj_props o) objs) outProps,
   (outIdx ++ flat_map (fun o : ObjectNode => obj_indexSigs o) objs)%list,
   closed || existsb (fun o : ObjectNode => obj_closed o) objs).
Proof.
  revert outProps outIdx closed.
  induction objs as [|o objs IH]; intros outProps outIdx closed; simpl.
  - now rewrite app_nil_r, orb_false_r.
  - rewrite IH, fold_left_app, <- app_assoc, orb_assoc. reflexivity.
Qed.

Lemma rfold_resolve (resolve : TypeNode -> result ObjectNode) parts acc acc' :
  rfold (fun acc p =>
           match resolve p with
           | Ok obj => Ok (mergeStep acc obj)
           | Throw msg => Throw msg
           | OutOfFuel => OutOfFuel
           end) parts acc = Ok acc' ->
  exists objs,
    Forall2 (fun p o => resolve p = Ok o) parts objs /\
    acc' = fold_left mergeStep objs acc.
Proof.
  revert acc. induction parts as [|p parts IH]; intros acc H; simpl in H.
  - injection H as <-. exists []. split; [constructor | reflexivity].
  - destruct (resolve p) as [o| |] eqn:Hp; try discriminate.
    apply IH in H as (objs & HF & ->).
    exists (o :: objs). split; [constructor; assumption | reflexivity].
Qed.

(** What [mergeObjects] returns, in terms of the resolved operands. *)
Lemma mergeWith_spec (resolve : TypeNode -> result ObjectNode) parts merged :
  mergeWith resolve parts = Ok merged ->
  exists objs,
    Forall2 (fun p o => resolve p = Ok o) parts objs /\
    obj_closed merged = existsb (fun o : ObjectNode => obj_closed o) objs /\
    obj_indexSigs merged = flat_map (fun o : ObjectNode => obj_indexSigs o) objs /\
    (forall name,
        find_prop name (obj_props merged) =
        find_prop name (rev (flat_map (fun o : ObjectNode => obj_props o) objs))) /\
    NoDup (List.map (fun p : PropNode => prop_name p) (obj_props merged)) /\
    (forall p, In p (obj_props merged) ->
               In p (flat_map (fun o : ObjectNode => obj_props o) objs)).
Proof.
  unfold mergeWith. intros H.
  destruct (rfold _ parts _) as [[[outProps outIdx] closed]| |] eqn:Hfold;
    try discriminate.
  injection H as <-. apply rfold_resolve in Hfold as (objs & HF & Hacc).
  rewrite fold_mergeStep in Hacc. injection Hacc as -> -> ->.
  assert (Hkeyed : keyed_by_name
                     (fold_left set_prop
                        (flat_map (fun o : ObjectNode => obj_props o) objs) []))
    by (apply keyed_by_name_fold; intros k p []).
  exists objs. simpl. repeat split.
  - assumption.
  - intros name. rewrite (find_prop_values _ Hkeyed), map_get_fold_set_prop.
    now destruct (find_prop name _).
  - rewrite (keyed_names Hkeyed). apply fold_set_prop_NoDup. constructor.
  - intros p Hp. apply fold_set_prop_In in Hp as [[]|Hp]. exact Hp.
Qed.
End Merging.

(** C8. An intersection is emitted as the object its operands merge into.
    An operand resolves to an object: an object is itself, a type reference
    is resolved through the type table, a nested intersection is merged, and
    any other operand raises the object-like error.  In the merged object a
    property name is held by the rightmost operand property of that name,
    whole; the index signatures are those of the operands in order; and the
    object is closed exactly when some operand is. *)
Theorem intersection_merge
        {N : JsNumber} (doc : TDLDoc) (fuel : nat) (parts : list TypeNode)
        (merged : ObjectNode) :
  mergeObjects doc fuel parts = Ok merged ->
  (exists objs,
      Forall2 (fun p o => resolveObject doc fuel p = Ok o) parts objs /\
      obj_closed merged = existsb (fun o : ObjectNode => obj_closed o) objs /\
      obj_indexSigs merged = flat_map (fun o : ObjectNode => obj_indexSigs o) objs /\
      (forall name,
          find_prop name (obj_props merged) =
          find_prop name (rev (flat_map (fun o : ObjectNode => obj_props o) objs))) /\
      NoDup (List.map (fun p : PropNode => prop_name p) (obj_props merged)) /\
      (forall p, In p (obj_props merged) ->
                 In p (flat_map (fun o : ObjectNode => obj_props o) objs))) /\
  (forall c,
      OpenAI.emit doc (S fuel) (Intersection parts) c = OpenAI.emitObject doc fuel merged c /\
      Gemini.emit doc (S fuel) (Intersection parts) c = Gemini.emitObject doc fuel merged c) /\
  (forall obj, resolveObject doc (S fuel) (Object obj) = Ok obj) /\
  (forall name,
      resolveObject doc (S fuel) (TypeRef name) =
      match map_get name (doc_types doc) with
      | Some def => resolveObject doc fuel (def_node def)
      | None => Throw ("Unknown type: " ++ name)
      end) /\
  (forall members,
      resolveObject doc (S fuel) (Intersection members) = mergeObjects doc fuel members) /\
  (forall node,
      not_object_like node = true ->
      resolveObject doc (S fuel) node = Throw "Intersection operands must be object-like").
Proof.
  intros H. split; [|split; [|split; [|split; [|split]]]].
  - apply mergeWith_spec. exact H.
  - intros c. simpl. unfold bind, lift. rewrite H. split; reflexivity.
  - reflexivity.
  - intros name. simpl. destruct (map_get name (doc_types doc)); reflexivity.
  - reflexivity.
  - intros node Hn. destruct node; simpl in *; try reflexivity; discriminate.
Qed.

(** ** The parser *)

Section ResultFacts.
Lemma rbind_Ok {A B : Type} (r : result A) (k : A -> result B) b :
  rbind r k = Ok b <-> exists a, r = Ok a /\ k a = Ok b.
Proof.
  destruct r; simpl; split.
  - eauto.
  - intros (a' & H1 & H2). now injection H1 as ->.
  - discriminate.
  - intros (? & H & _); discriminate.
  - discriminate.
  - intros (? & H & _); discriminate.
Qed.

Lemma rmap_Ok_Forall {A B : Type} (f : A -> result B) (P : B -> Prop) l bs :
  (forall a b, In a l -> f a = Ok b -> P b) ->
  rmap f l = Ok bs -> Forall P bs.
Proof.
  revert bs. induction l as [|a l IH]; intros bs Hf H; simpl in H.
  - injection H as <-. constructor.
  - destruct (f a) as [b| |] eqn:Ha; try discriminate.
    destruct (rmap f l) as [bs'| |] eqn:Hl; try discriminate.
    injection H as <-. constructor.
    + eapply Hf; [left; reflexivity | eassumption].
    + apply IH; [|reflexivity]. intros; eapply Hf; [right|]; eassumption.
Qed.
End ResultFacts.

Section EveryObject.
Context {N : JsNumber}.
Variable P : ObjectNode -> Prop.

Lemma every_member (ms : list TypeNode) :
  fold_right (fun m acc => every_object P m /\ acc) True ms <->
  Forall (every_object P) ms.
Proof.
  induction ms as [|m ms IH]; simpl.
  - split; [constructor | trivial].
  - rewrite IH. split.
    + intros [H1 H2]; now constructor.
    + intros H; inversion H; auto.
Qed.

Lemma every_object_Object (obj : ObjectNode) :
  every_object P (Object obj) <->
  P obj /\
  Forall (fun i : IndexSigNode => every_object P (idx_valueType i)) (obj_indexSigs obj) /\
  Forall (fun p : PropNode => every_object P (prop_type p)) (obj_props obj).
Proof.
  simpl.
  assert (Hi : forall l : list IndexSigNode,
             fold_right (fun (i : IndexSigNode_ TypeNode) acc =>
                           every_object P (idx_valueType i) /\ acc) True l <->
             Forall (fun i : IndexSigNode => every_object P (idx_valueType i)) l).
  { induction l as [|i l IH]; simpl.
    - split; [constructor | trivial].
    - rewrite IH. split; [intros [H1 H2]; now constructor | intros H; inversion H; auto]. }
  assert (Hp : forall l : list PropNode,
             fold_right (fun (p : PropNode_ TypeNode) acc =>
                           every_object P (prop_type p) /\ acc) True l <->
             Forall (fun p : PropNode => every_object P (prop_type p)) l).
  { induction l as [|p l IH]; simpl.
    - split; [constructor | trivial].
    - rewrite IH. split; [intros [H1 H2]; now constructor | intros H; inversion H; auto]. }
  rewrite Hi, Hp. reflexivity.
Qed.

Lemma literalToNode_no_object lit : every_object P (literalToNode lit).
Proof. destruct lit; exact I. Qed.

(** A scalar type expression never denotes an object node. *)
Lemma parseTypeExpr_no_object fuel expr node :
  parseTypeExpr fuel expr = Ok node -> every_object P node.
Proof.
  revert expr node. induction fuel as [|fuel IH]; intros expr node H; [discriminate|].
  cbn [parseTypeExpr] in H.
  set (t := trim_chars (chars expr)) in *.
  destruct (String.eqb (str t) ""); [discriminate|].
  destruct (includes (chars "=>") t); [discriminate|].
  destruct (has_word "if" t || has_word "then" t || has_word "else" t); [discriminate|].
  destruct (includes (chars "::") t); [discriminate|].
  destruct (re_generic t).
  { destruct (re_ref t); [|discriminate]. injection H as <-. exact I. }
  destruct (Nat.ltb 1 (List.length (splitTopLevel (str t) "|"))).
  { apply rbind_Ok in H as (members & Hm & H). injection H as <-.
    simpl. apply every_member. eapply rmap_Ok_Forall; [|exact Hm].
    intros a b _ Hab. eapply IH; exact Hab. }
  destruct (Nat.ltb 1 (List.length (splitTopLevel (str t) "&"))).
  { apply rbind_Ok in H as (members & Hm & H). injection H as <-.
    simpl. apply every_member. eapply rmap_Ok_Forall; [|exact Hm].
    intros a b _ Hab. eapply IH; exact Hab. }
  destruct (starts_with ["("%char] t && ends_with [")"%char] t && isBalancedParens (str t)).
  { eapply IH; exact H. }
  destruct (tryParseLiteral (str t)) as [lit|].
  { injection H as <-. apply literalToNode_no_object. }
  destruct (primitive_of_string (str t)).
  { injection H as <-. exact I. }
  destruct (re_type_name t).
  { injection H as <-. exact I. }
  destruct (re_all_caps t); [|discriminate].
  injection H as <-. exact I.
Qed.
End EveryObject.

Section InlineObjects.
Context {N : JsNumber}.
Variable parseInline : list (string * yaml) -> result TypeNode.
Variable fuel : nat.

Lemma parseLabel_name label name isArray optional :
  parseLabel label = Ok (name, isArray, optional) -> name = label_name label.
Proof.
  unfold parseLabel, label_name. destruct (re_label (chars label)) as [[n rest]|];
    [|discriminate].
  intros H. now injection H as <- _ _.
Qed.

(** What one member of a mapping adds to the object under construction. *)
Lemma parseMember_Ok props idx closed k v props' idx' closed' :
  parseMember_ parseInline fuel (props, idx, closed) (k, v) = Ok (props', idx', closed') ->
  (starts_with ["["%char] (chars k) = true /\ props' = props /\
   exists domain optional isArray vt,
     parseIndexLabel k = Ok (domain, optional, isArray) /\
     parseValue_ parseInline fuel v = Ok vt /\
     match domain with
     | DString =>
         if optional && isNever vt then idx' = idx /\ closed' = true
         else idx' = (idx ++ [mkIndexSig KString None vt optional isArray])%list /\
              closed' = closed
     | DEnum keys =>
         idx' = (idx ++ [mkIndexSig KEnum (Some keys) vt optional isArray])%list /\
         closed' = closed
     end) \/
  (starts_with ["["%char] (chars k) = false /\ idx' = idx /\ closed' = closed /\
   exists isArray optional ty,
     parseLabel k = Ok (label_name k, isArray, optional) /\
     parseValue_ parseInline fuel v = Ok ty /\
     props' = (props ++ [mkProp (label_name k) ty optional isArray])%list).
Proof.
  unfold parseMember_. destruct (starts_with ["["%char] (chars k)).
  - intros H. left. split; [reflexivity|].
    apply rbind_Ok in H as ([[domain optional] isArray] & Hl & H).
    apply rbind_Ok in H as (vt & Hv & H).
    destruct domain as [|keys].
    + destruct (optional && isNever vt) eqn:Hc.
      * injection H as <- <- <-. split; [reflexivity|].
        exists DString, optional, isArray, vt. rewrite Hc. auto.
      * injection H as <- <- <-. split; [reflexivity|].
        exists DString, optional, isArray, vt. rewrite Hc. auto.
    + injection H as <- <- <-. split; [reflexivity|].
      exists (DEnum keys), optional, isArray, vt. auto.
  - intros H. right. split; [reflexivity|].
    apply rbind_Ok in H as ([[name isArray] optional] & Hl & H).
    apply rbind_Ok in H as (ty & Hv & H).
    injection H as <- <- <-.
    pose proof (parseLabel_name _ Hl) as ->.
    repeat split. exists isArray, optional, ty. auto.
Qed.

Variable P : ObjectNode -> Prop.

Lemma fold_members_children entries acc acc' :
  (forall k v node,
      In (k, v) entries -> parseValue_ parseInline fuel v = Ok node ->
      every_object P node) ->
  rfold (parseMember_ parseInline fuel) entries acc = Ok acc' ->
  Forall (fun p : PropNode => every_object P (prop_type p)) (fst (fst acc)) ->
  Forall (fun i : IndexSigNode => every_object P (idx_valueType i)) (snd (fst acc)) ->
  Forall (fun p : PropNode => every_object P (prop_type p)) (fst (fst acc')) /\
  Forall (fun i : IndexSigNode => every_object P (idx_valueType i)) (snd (fst acc')).
Proof.
  revert acc. induction entries as [|[k v] entries IH]; intros acc Hv H Hp Hi;
    cbn [rfold] in H.
  - injection H as <-. auto.
  - destruct (parseMember_ parseInline fuel acc (k, v)) as [acc1| |] eqn:Hm;
      try discriminate.
    apply IH in H; auto.
    + intros; eapply Hv; [right|]; eassumption.
    + destruct acc as [[props idx] closed], acc1 as [[props1 idx1] closed1].
      apply parseMember_Ok in Hm
        as [(_ & -> & _)|(_ & _ & _ & isArray & optional & ty & _ & Hty & ->)];
        simpl in *; [assumption|].
      apply Forall_app. split; [assumption|]. constructor; [|constructor].
      simpl. eapply Hv; [left; reflexivity | eassumption].
    + destruct acc as [[props idx] closed], acc1 as [[props1 idx1] closed1].
      apply parseMember_Ok in Hm
        as [(_ & _ & domain & optional & isArray & vt & _ & Hvt & Hd)
           |(_ & -> & _)]; simpl in *; [|assumption].
      assert (Hvt' : every_object P vt)
        by (eapply Hv; [left; reflexivity | eassumption]).
      destruct domain as [|keys].
      * destruct (optional && isNever vt); destruct Hd as [-> _]; [assumption|].
        apply Forall_app. split; [assumption|]. constructor; [assumption|constructor].
      * destruct Hd as [-> _].
        apply Forall_app. split; [assumption|]. constructor; [assumption|constructor].
Qed.

Lemma prop_labels_cons k (v : yaml) entries :
  prop_labels ((k, v) :: entries) =
  if starts_with ["["%char] (chars k) then prop_labels entries
  else k :: prop_labels entries.
Proof.
  unfold prop_labels. cbn [filter fst]. 
  destruct (starts_with ["["%char] (chars k)); reflexivity.
Qed.

Lemma fold_members_names entries acc acc' :
  rfold (parseMember_ parseInline fuel) entries acc = Ok acc' ->
  List.map (fun p : PropNode => prop_name p) (fst (fst acc')) =
  (List.map (fun p : PropNode => prop_name p) (fst (fst acc))
   ++ List.map label_name (prop_labels entries))%list.
Proof.
  revert acc. induction entries as [|[k v] entries IH]; intros acc H; cbn [rfold] in H.
  - injection H as <-. unfold prop_labels. simpl. now rewrite app_nil_r.
  - destruct (parseMember_ parseInline fuel acc (k, v)) as [acc1| |] eqn:Hm;
      try discriminate.
    apply IH in H. rewrite H, prop_labels_cons.
    destruct acc as [[props idx] closed], acc1 as [[props1 idx1] closed1].
    apply parseMember_Ok in Hm
      as [(Hk & -> & _)|(Hk & _ & _ & isArray & optional & ty & _ & _ & ->)];
      rewrite Hk; cbn [fst snd].
    + reflexivity.
    + rewrite map_app, <- app_assoc. reflexivity.
Qed.

Lemma fold_members_signatures entries acc acc' :
  rfold (parseMember_ parseInline fuel) entries acc = Ok acc' ->
  signatures_formed (mkObject [] (snd (fst acc)) false) ->
  signatures_formed (mkObject [] (snd (fst acc')) false).
Proof.
  unfold signatures_formed. simpl.
  revert acc. induction entries as [|[k v] entries IH]; intros acc H Hs; cbn [rfold] in H.
  - now injection H as <-.
  - destruct (parseMember_ parseInline fuel acc (k, v)) as [acc1| |] eqn:Hm;
      try discriminate.
    apply IH in H; [assumption|].
    destruct acc as [[props idx] closed], acc1 as [[props1 idx1] closed1].
    apply parseMember_Ok in Hm
      as [(_ & _ & domain & optional & isArray & vt & _ & _ & Hd)|(_ & -> & _)];
      simpl in *; [|assumption].
    destruct domain as [|keys].
    + destruct (optional && isNever vt) eqn:Hc; destruct Hd as [-> _]; [assumption|].
      apply Forall_app. split; [assumption|]. constructor; [|constructor].
      simpl. auto.
    + destruct Hd as [-> _].
      apply Forall_app. split; [assumption|]. constructor; [|constructor].
      simpl. eauto.
Qed.
End InlineObjects.

Section ParsedObjects.
Context {N : JsNumber}.

Lemma labels_distinct_entry entries k v :
  labels_distinct (YMap entries) -> In (k, v) entries -> labels_distinct v.
Proof.
  simpl. intros [_ H]. induction entries as [|kv entries IH]; simpl in *; [tauto|].
  destruct H as [H1 H2]. intros [->|Hin]; [exact H1 | auto].
Qed.

Lemma parseInlineObject_signatures fuel entries node :
  parseInlineObject fuel entries = Ok node -> every_object signatures_formed node.
Proof.
  revert entries node. induction fuel as [|fuel IH]; intros entries node H;
    [discriminate|].
  cbn [parseInlineObject] in H. apply rbind_Ok in H as ([[props idx] closed] & Hf & H).
  injection H as <-. apply every_object_Object.
  pose proof (fold_members_signatures _ _ _ _ Hf) as Hs.
  assert (Hc : forall k v node,
             In (k, v) entries ->
             parseValue_ (parseInlineObject fuel) fuel v = Ok node ->
             every_object signatures_formed node).
  { intros k v node _ Hv. destruct v; simpl in Hv;
      try (eapply parseTypeExpr_no_object; exact Hv).
    eapply IH; exact Hv. }
  destruct (@fold_members_children _ _ _ signatures_formed _ _ _ Hc Hf
              (Forall_nil _) (Forall_nil _)) as [Hp Hi].
  cbn [fst snd obj_props obj_indexSigs] in *. split; [|split]; try assumption.
  apply Hs. constructor.
Qed.

Lemma parseInlineObject_names fuel entries node :
  parseInlineObject fuel entries = Ok node ->
  labels_distinct (YMap entries) ->
  every_object names_distinct node.
Proof.
  revert entries node. induction fuel as [|fuel IH]; intros entries node H Hl;
    [discriminate|].
  cbn [parseInlineObject] in H. apply rbind_Ok in H as ([[props idx] closed] & Hf & H).
  injection H as <-. apply every_object_Object.
  pose proof (fold_members_names _ _ _ _ Hf) as Hn. simpl in Hn.
  assert (Hc : forall k v node,
             In (k, v) entries ->
             parseValue_ (parseInlineObject fuel) fuel v = Ok node ->
             every_object names_distinct node).
  { intros k v node Hin Hv. destruct v; simpl in Hv;
      try (eapply parseTypeExpr_no_object; exact Hv).
    eapply IH; [exact Hv|]. eapply labels_distinct_entry; eassumption. }
  destruct (@fold_members_children _ _ _ names_distinct _ _ _ Hc Hf
              (Forall_nil _) (Forall_nil _)) as [Hp Hi].
  cbn [fst snd obj_props obj_indexSigs] in *. split; [|split]; try assumption.
  unfold names_distinct. cbn [obj_props]. rewrite Hn. apply Hl.
Qed.

Lemma parseValue_signatures fuel v node :
  parseValue fuel v = Ok node -> every_object signatures_formed node.
Proof.
  unfold parseValue. intros H. destruct v; simpl in H;
    try (eapply parseTypeExpr_no_object; exact H).
  eapply parseInlineObject_signatures; exact H.
Qed.

Lemma parseValue_names fuel v node :
  parseValue fuel v = Ok node -> labels_distinct v -> every_object names_distinct node.
Proof.
  unfold parseValue. intros H Hl. destruct v; simpl in H;
    try (eapply parseTypeExpr_no_object; exact H).
  eapply parseInlineObject_names; eassumption.
Qed.
End ParsedObjects.

Section MapValues.
Variable V : Type.

Lemma map_set_values (Q : V -> Prop) (m : Map V) k v :
  Forall Q (map_values m) -> Q v -> Forall Q (map_values (map_set k v m)).
Proof.
  intros Hm Hv. induction m as [|[k' v'] m IH]; simpl.
  - constructor; [assumption | constructor].
  - inversion Hm; subst. destruct (String.eqb k' k); simpl; constructor; auto.
Qed.
End MapValues.

Section TopLevel.
Context {N : JsNumber}.
Variable P : ObjectNode -> Prop.
Variable Pre : yaml -> Prop.
Variable fuel : nat.
Hypothesis parsed_value :
  forall v node, parseValue fuel v = Ok node -> Pre v -> every_object P node.

Lemma parseEntry_every doc k v doc' :
  parseEntry fuel doc (k, v) = Ok doc' ->
  Pre v -> every_object_of P doc -> every_object_of P doc'.
Proof.
  unfold parseEntry. intros H Hv [Ht Hs].
  destruct (starts_with ["_"%char] (chars k)).
  { injection H as <-. split; assumption. }
  destruct (re_type_entry (chars k)).
  { destruct (re_extends (chars k)) as [[name baseExpr]|].
    - destruct v; try discriminate.
      apply rbind_Ok in H as (base & Hb & H).
      apply rbind_Ok in H as (body & Hbody & H).
      injection H as <-. split; [|assumption]. cbn [doc_types].
      apply map_set_values; [assumption|].
      cbn [def_node every_object fold_right]. repeat split.
      + eapply parseTypeExpr_no_object; exact Hb.
      + apply (@parsed_value (YMap entries)); assumption.
    - destruct (negb (isObjectNode v) && negb (isString v)); [discriminate|].
      apply rbind_Ok in H as (node & Hn & H). injection H as <-.
      split; [|assumption]. cbn [doc_types].
      apply map_set_values; [assumption|]. cbn [def_node]. eauto. }
  destruct (re_symbol_entry (chars k)); [|discriminate].
  apply rbind_Ok in H as ([[name isArray] optional] & Hl & H).
  apply rbind_Ok in H as (type & Hty & H). injection H as <-.
  split; [assumption|]. cbn [doc_symbols].
  apply Forall_app. split; [assumption|]. constructor; [|constructor].
  cbn [sym_type]. eauto.
Qed.

Lemma parseEntries_every entries doc doc' :
  rfold (parseEntry fuel) entries doc = Ok doc' ->
  Forall (fun kv => Pre (snd kv)) entries ->
  every_object_of P doc -> every_object_of P doc'.
Proof.
  revert doc. induction entries as [|[k v] entries IH]; intros doc H Hpre Hdoc;
    cbn [rfold] in H.
  - now injection H as <-.
  - destruct (parseEntry fuel doc (k, v)) as [doc1| |] eqn:He; try discriminate.
    inversion Hpre; subst. eapply IH; [exact H | assumption |].
    eapply parseEntry_every; eassumption.
Qed.
End TopLevel.

Section TypesTable.
Context {N : JsNumber}.

Lemma parseEntry_types_distinct fuel doc k v doc' :
  parseEntry fuel doc (k, v) = Ok doc' ->
  NoDup (map_keys (doc_types doc)) -> NoDup (map_keys (doc_types doc')).
Proof.
  unfold parseEntry. intros H Hnd.
  destruct (starts_with ["_"%char] (chars k)).
  { now injection H as <-. }
  destruct (re_type_entry (chars k)).
  { destruct (re_extends (chars k)) as [[name baseExpr]|].
    - destruct v; try discriminate.
      apply rbind_Ok in H as (base & Hb & H).
      apply rbind_Ok in H as (body & Hbody & H).
      injection H as <-. cbn [doc_types]. now apply map_keys_set_NoDup.
    - destruct (negb (isObjectNode v) && negb (isString v)); [discriminate|].
      apply rbind_Ok in H as (node & Hn & H). injection H as <-.
      cbn [doc_types]. now apply map_keys_set_NoDup. }
  destruct (re_symbol_entry (chars k)); [|discriminate].
  apply rbind_Ok in H as ([[name isArray] optional] & Hl & H).
  apply rbind_Ok in H as (type & Hty & H). now injection H as <-.
Qed.

(** The type table of a parsed document has distinct names, as a [Map] has. *)
Lemma parseTDL_types_distinct fuel raw doc :
  parseTDL fuel raw = Ok doc -> NoDup (map_keys (doc_types doc)).
Proof.
  unfold parseTDL. destruct raw; try discriminate.
  assert (H0 : NoDup (map_keys (doc_types (mkDoc [] [] [])))) by constructor.
  revert H0. generalize (mkDoc [] [] []).
  induction entries as [|[k v] entries IH]; intros doc0 H0 H; cbn [rfold] in H.
  - now injection H as <-.
  - destruct (parseEntry fuel doc0 (k, v)) as [doc1| |] eqn:He; try discriminate.
    eapply IH; [|exact H]. eapply parseEntry_types_distinct; eassumption.
Qed.
End TypesTable.


(** C10 (amended). A mapping or a string is parsed alike as the value of a
    type definition and as the value of a symbol: both positions hand it to
    the same value parser and fail when it fails.  Any other value (a
    number, a boolean, null, a sequence) is rejected in type position by the
    guard of the type branch, with the message naming the type, while in
    symbol position it is printed as a string and parsed as a scalar type
    expression. *)
Theorem symbol_value_and_type_value
        {N : JsNumber} (fuel : nat) (doc : TDLDoc) (kt ks : string) (v : yaml)
        (name : string) (isArray optional : bool) :
  starts_with ["_"%char] (chars kt) = false ->
  re_type_entry (chars kt) = true ->
  re_extends (chars kt) = None ->
  starts_with ["_"%char] (chars ks) = false ->
  re_type_entry (chars ks) = false ->
  re_symbol_entry (chars ks) = true ->
  parseLabel ks = Ok (name, isArray, optional) ->
  (isObjectNode v || isString v = true ->
   parseEntry fuel doc (kt, v) =
     rbind (parseValue fuel v)
           (fun node =>
              Ok (mkDoc (map_set (trim kt) (mkTypeDef (trim kt) node) (doc_types doc))
                        (doc_symbols doc) (doc_meta doc))) /\
   parseEntry fuel doc (ks, v) =
     rbind (parseValue fuel v)
           (fun node =>
              Ok (mkDoc (doc_types doc)
                        (doc_symbols doc ++ [mkSymbol name node optional isArray])
                        (doc_meta doc)))) /\
  (isObjectNode v || isString v = false ->
   parseEntry fuel doc (kt, v) =
     Throw ("Type " ++ trim kt ++ " must be a scalar type expression or an inline object") /\
   parseEntry fuel doc (ks, v) =
     rbind (parseTypeExpr fuel (String_of_yaml v))
           (fun node =>
              Ok (mkDoc (doc_types doc)
                        (doc_symbols doc ++ [mkSymbol name node optional isArray])
                        (doc_meta doc)))).
Proof.
  intros Ht1 Ht2 Ht3 Hs1 Hs2 Hs3 Hl.
  assert (Hsym : parseEntry fuel doc (ks, v) =
                 rbind (parseValue fuel v)
                       (fun node =>
                          Ok (mkDoc (doc_types doc)
                                    (doc_symbols doc ++ [mkSymbol name node optional isArray])
                                    (doc_meta doc)))).
  { unfold parseEntry. rewrite Hs1, Hs2, Hs3, Hl. reflexivity. }
  split; intros Hv.
  - split; [|exact Hsym].
    unfold parseEntry. rewrite Ht1, Ht2, Ht3.
    destruct v; simpl in Hv; try discriminate; reflexivity.
  - split.
    + unfold parseEntry. rewrite Ht1, Ht2, Ht3.
      destruct v; simpl in Hv; try discriminate; reflexivity.
    + rewrite Hsym. destruct v; simpl in Hv; try discriminate; reflexivity.
Qed.

(** C4 (amended). A union all of whose members are scalar literals is
    emitted by both emitters as an [enum] of the literal values in member
    order, to which [type] is added exactly when the literals share one JSON
    type; a union with a member that is not a scalar literal is emitted as
    [anyOf] of the member schemas.  A union of literals of different JSON
    types is therefore an untyped [enum], not an [anyOf]. *)
Theorem union_lowering
        {N : JsNumber} (doc : TDLDoc) (fuel : nat) (members : list TypeNode) :
  (forall values t c,
      Forall2 (fun m v => literalValue m = Ok v) members values ->
      values <> [] -> Forall (fun v => typeof v = t) values ->
      let schema :=
        JObj [("enum", JArr (List.map json_of_literal values)); ("type", JStr t)] in
      OpenAI.emit doc (S fuel) (Union members) c = Ok (schema, c) /\
      Gemini.emit doc (S fuel) (Union members) c = Ok (schema, c)) /\
  (forall values c,
      Forall2 (fun m v => literalValue m = Ok v) members values ->
      (forall t, ~ (values <> [] /\ Forall (fun v => typeof v = t) values)) ->
      let schema := JObj [("enum", JArr (List.map json_of_literal values))] in
      OpenAI.emit doc (S fuel) (Union members) c = Ok (schema, c) /\
      Gemini.emit doc (S fuel) (Union members) c = Ok (schema, c)) /\
  (forall c s c',
      forallb isScalarLiteral members = false ->
      (OpenAI.emit doc (S fuel) (Union members) c = Ok (s, c') ->
       exists schemas,
         s = JObj [("anyOf", JArr schemas)] /\
         Forall2 (emits (OpenAI.emit doc fuel)) members schemas) /\
      (Gemini.emit doc (S fuel) (Union members) c = Ok (s, c') ->
       exists schemas,
         s = JObj [("anyOf", JArr schemas)] /\
         Forall2 (emits (Gemini.emit doc fuel)) members schemas)).
Proof.
  split; [|split].
  - intros values t c HF Hne Ht schema. subst schema.
    rewrite <- (enumSchema_typed Hne Ht). split.
    + now apply OpenAI_emit_literal_union.
    + now apply Gemini_emit_literal_union.
  - intros values c HF Hno schema. subst schema.
    rewrite <- (enumSchema_untyped Hno). split.
    + now apply OpenAI_emit_literal_union.
    + now apply Gemini_emit_literal_union.
  - intros c s c' Hlit. split; intros H.
    + eapply OpenAI_emit_other_union in H as (schemas & -> & HF); [|assumption].
      exists schemas. split; [reflexivity | exact HF].
    + eapply Gemini_emit_other_union in H as (schemas & -> & HF); [|assumption].
      exists schemas. split; [reflexivity | exact HF].
Qed.

(** C4, the counterexample.  The union ['a' | true] is a union of
    literals of two JSON types: both emitters return an [enum] without
    [type], and no [anyOf]. *)
Lemma mixed_literal_union_is_untyped_enum :
  parseTypeExpr 10 "'a' | true" = Ok (Union mixed_members) /\
  forallb isScalarLiteral mixed_members = true /\
  OpenAI.emit empty_doc 10 (Union mixed_members) empty_ctx
    = Ok (JObj [("enum", JArr [JStr "a"; JBool true])], empty_ctx) /\
  Gemini.emit empty_doc 10 (Union mixed_members) empty_ctx
    = Ok (JObj [("enum", JArr [JStr "a"; JBool true])], empty_ctx).
Proof. repeat split. Qed.

(** C4 at the union ['a' | 'b']. *)
Lemma union_lowering_witness :
  OpenAI.emit empty_doc 2 (Union string_members) empty_ctx
    = Ok (JObj [("enum", JArr [JStr "a"; JStr "b"]); ("type", JStr "string")],
          empty_ctx) /\
  Gemini.emit empty_doc 2 (Union string_members) empty_ctx
    = Ok (JObj [("enum", JArr [JStr "a"; JStr "b"]); ("type", JStr "string")],
          empty_ctx).
Proof.
  apply (proj1 (@union_lowering DecimalNumber empty_doc 1 string_members)
               [LString "a"; LString "b"] "string" empty_ctx).
  - repeat constructor.
  - discriminate.
  - repeat constructor.
Defined.

(** C1, at the failing input.  The enum key ['__proto__'] of
    [proto_key_yaml] is pushed to [required], while its assignment to
    [properties] reaches the prototype setter and adds no property: the
    object schema of [Foo] requires a key that is not among its properties. *)
Theorem proto_key_required_without_property :
  rbind (parseTDL 10 proto_key_yaml) (fun doc => OpenAI.generateOpenAISchema doc 10)
  = Ok (JObj [("type", JStr "object");
              ("properties", JObj []);
              ("required", JArr []);
              ("additionalProperties", JBool false);
              ("$defs",
               JObj [("Foo",
                      JObj [("type", JStr "object");
                            ("properties", JObj []);
                            ("required", JArr [JStr "__proto__"]);
                            ("additionalProperties", JBool false)])])]).
Proof. reflexivity. Qed.

(** Apart from the prototype key, an object schema of the OpenAI emitter is
    closed and requires exactly its properties. *)
Lemma OpenAI_object_schema_shape
      {N : JsNumber} (e : TypeNode -> M json) (obj : ObjectNode) c s c' :
  OpenAI.emitObject_ e obj c = Ok (s, c') ->
  exists props required,
    obj_get "type" s = Some (JStr "object") /\
    obj_get "additionalProperties" s = Some (JBool false) /\
    obj_get "properties" s = Some (JObj props) /\
    obj_get "required" s = Some (JArr (List.map JStr required)) /\
    incl (map_keys props) required /\
    (forall k, In k required -> k <> "__proto__" -> In k (map_keys props)).
Proof.
  intros H. apply OpenAI_emitObject_stores in H as (kvs & HF & ->).
  exists (assign_all kvs), (List.map o_key (origins obj)).
  assert (Hk : List.map fst kvs = List.map o_key (origins obj)).
  { eapply Forall2_fst_keys; [|exact HF]. intros o kv [H _]. exact H. }
  repeat split.
  - intros k Hin. apply assign_all_keys_In in Hin as [Hin _]. now rewrite <- Hk.
  - intros k Hin Hp. apply assign_all_keys_In. rewrite Hk. auto.
Qed.



(** Resolving the operand [Node] of the body of [Node(Node)] resolves [Node]
    again: no call depth suffices. *)
Section SelfExtension.
Context {N : JsNumber}.

Lemma self_extension_unresolved fuel :
  resolveObject self_extending_doc fuel (TypeRef "Node") = OutOfFuel /\
  mergeObjects self_extending_doc fuel
    [TypeRef "Node";
     Object (mkObject [mkProp "value" (Primitive PNumber) false false] [] false)]
  = OutOfFuel.
Proof.
  assert (H : resolveObject self_extending_doc fuel (TypeRef "Node") = OutOfFuel /\
              resolveObject self_extending_doc fuel
                (Intersection
                   [TypeRef "Node";
                    Object (mkObject [mkProp "value" (Primitive PNumber) false false]
                                     [] false)])
              = OutOfFuel).
  { induction fuel as [|fuel [IH1 IH2]]; [split; reflexivity|]. split.
    - exact IH2.
    - cbn [resolveObject]. unfold mergeWith. cbn [rfold]. rewrite IH1. reflexivity. }
  destruct H as [H1 _]. split; [exact H1|].
  unfold mergeObjects, mergeWith. cbn [rfold]. rewrite H1. reflexivity.
Qed.
End SelfExtension.

(** C3, at the failing input.  [Node(Node)] makes [Node] an intersection
    whose first operand is [Node]: resolving the operand resolves [Node]
    again, at every call depth, so neither emitter returns and no [$defs]
    table is produced. *)
Theorem self_extension_never_returns {N : JsNumber} (fuel : nat) :
  OpenAI.generateOpenAISchema self_extending_doc fuel = OutOfFuel /\
  Gemini.generateGeminiSchema self_extending_doc fuel = OutOfFuel.
Proof.
  set (body := Intersection
                 [TypeRef "Node";
                  Object (mkObject [mkProp "value" (Primitive PNumber) false false]
                                   [] false)]).
  assert (HO : forall c, OpenAI.emit self_extending_doc fuel body c = OutOfFuel).
  { intros c. destruct fuel as [|fuel]; [reflexivity|].
    pose proof (self_extension_unresolved fuel) as [_ Hm].
    change (OpenAI.emit self_extending_doc (S fuel) body c)
      with (bind (lift (mergeObjects self_extending_doc fuel
                          [TypeRef "Node";
                           Object (mkObject [mkProp "value" (Primitive PNumber) false false]
                                            [] false)]))
                 (OpenAI.emitObject_ (OpenAI.emit self_extending_doc fuel)) c).
    unfold bind, lift. rewrite Hm. reflexivity. }
  assert (HG : forall c, Gemini.emit self_extending_doc fuel body c = OutOfFuel).
  { intros c. destruct fuel as [|fuel]; [reflexivity|].
    pose proof (self_extension_unresolved fuel) as [_ Hm].
    change (Gemini.emit self_extending_doc (S fuel) body c)
      with (bind (lift (mergeObjects self_extending_doc fuel
                          [TypeRef "Node";
                           Object (mkObject [mkProp "value" (Primitive PNumber) false false]
                                            [] false)]))
                 (Gemini.emitObject_ (Gemini.emit self_extending_doc fuel)) c).
    unfold bind, lift. rewrite Hm. reflexivity. }
  split.
  - unfold OpenAI.generateOpenAISchema, OpenAI.ensureDef.
    generalize dependent (OpenAI.emit self_extending_doc fuel). intros e He.
    cbv [self_extending_doc doc_types map_keys List.map fst foldM bind
         OpenAI.ensureDef_ defs stack map_has map_get set_has existsb def_node].
    change ("Node" =? "Node") with true. cbv iota.
    fold body. rewrite He. reflexivity.
  - unfold Gemini.generateGeminiSchema, Gemini.ensureDef.
    generalize dependent (Gemini.emit self_extending_doc fuel). intros e He.
    cbv [self_extending_doc doc_types map_keys List.map fst foldM bind
         Gemini.ensureDef_ defs stack map_has map_get set_has existsb def_node].
    change ("Node" =? "Node") with true. cbv iota.
    fold body. rewrite He. reflexivity.
Qed.

(** The failing document is what the parser makes of [Node(Node)]. *)
Lemma self_extending_parsed :
  parseTDL 10 self_extending_yaml = Ok self_extending_doc.
Proof. reflexivity. Qed.

(** Recursion through a property is cut by the visitation stack: the
    document [tree_yaml] is emitted, with an entry for [Tree]. *)
Lemma tree_is_emitted :
  exists openai gemini : @json DecimalNumber,
    convertTypedocToSchemas 10 tree_yaml = Ok (openai, gemini) /\
    option_map obj_keys (obj_get "$defs" openai) = Some ["Tree"] /\
    option_map obj_keys (obj_get "$defs" gemini) = Some ["Tree"].
Proof. do 2 eexists. repeat split. Qed.


(** C6, the counterexample.  The symbols [foo] and [foo?] of [twice_yaml]
    share the name [foo]; the second is optional, and [foo] is required. *)
Lemma optional_symbol_listed_in_required :
  parseTDL 10 twice_yaml = Ok twice_doc /\
  In (mkSymbol "foo" (Primitive PNumber) true false) (doc_symbols twice_doc) /\
  Gemini.generateGeminiSchema twice_doc 10
  = Ok (JObj [("type", JStr "object");
              ("properties", JObj [("foo", JObj [("type", JStr "number")])]);
              ("required", JArr [JStr "foo"]);
              ("additionalProperties", JBool false);
              ("$defs", JObj [])]).
Proof.
  split; [reflexivity|]. split; [right; left; reflexivity | reflexivity].
Qed.

(** C6 at [tags?[]: 'a' | 'b' | 'c']. *)
Lemma Gemini_optional_by_omission_witness :
  exists kvs,
    Forall2 (Gemini_stores (Gemini.emit tags_doc 10))
            (List.map sym_origin (doc_symbols tags_doc)) kvs /\
    obj_get "properties" tags_gemini = Some (JObj (assign_all kvs)) /\
    obj_get "required" tags_gemini
      = Some (JArr (List.map JStr
                      (required_keys (List.map sym_origin (doc_symbols tags_doc))))).
Proof.
  apply (proj1 (@Gemini_optional_by_omission DecimalNumber tags_doc 10)).
  reflexivity.
Defined.


(** C8 at [out: A & B] with [A: { x: string, y: string }], [B: { x: number }]:
    the merged object holds [x] from [B] and [y] from [A], and both emitters
    lower [x] from [number]. *)
Lemma intersection_override_example :
  mergeObjects override_doc 5 override_parts = Ok override_merged /\
  OpenAI.emit override_doc 6 (Intersection override_parts) empty_ctx
  = Ok (JObj [("type", JStr "object");
              ("properties", JObj [("x", JObj [("type", JStr "number")]);
                                   ("y", JObj [("type", JStr "string")])]);
              ("required", JArr [JStr "x"; JStr "y"]);
              ("additionalProperties", JBool false)], empty_ctx) /\
  Gemini.emit override_doc 6 (Intersection override_parts) empty_ctx
  = Ok (JObj [("type", JStr "object");
              ("properties", JObj [("x", JObj [("type", JStr "number")]);
                                   ("y", JObj [("type", JStr "string")])]);
              ("required", JArr [JStr "x"; JStr "y"]);
              ("additionalProperties", JBool true)], empty_ctx).
Proof. repeat split. Qed.

(** C8 at the operands [A] and [B] of [override_yaml]. *)
Lemma intersection_merge_witness :
  exists objs,
    Forall2 (fun p o => resolveObject override_doc 5 p = Ok o) override_parts objs /\
    obj_closed override_merged = existsb (fun o : ObjectNode => obj_closed o) objs /\
    obj_indexSigs override_merged = flat_map (fun o : ObjectNode => obj_indexSigs o) objs /\
    (forall name,
        find_prop name (obj_props override_merged) =
        find_prop name (rev (flat_map (fun o : ObjectNode => obj_props o) objs))) /\
    NoDup (List.map (fun p : PropNode => prop_name p) (obj_props override_merged)) /\
    (forall p, In p (obj_props override_merged) ->
               In p (flat_map (fun o : ObjectNode => obj_props o) objs)).
Proof.
  apply (proj1 (@intersection_merge DecimalNumber override_doc 5
                  override_parts override_merged eq_refl)).
Defined.



(** C10, the counterexample.  The boolean [true] as the value of the symbol
    [flag] is parsed as the literal [true]; as the value of the type [Flag]
    it is rejected. *)
Lemma boolean_value_differs_by_position :
  parseTDL 10 flag_symbol_yaml
  = Ok (mkDoc [] [mkSymbol "flag" (BooleanLiteral true) false false] []) /\
  parseTDL 10 flag_type_yaml
  = Throw "Type Flag must be a scalar type expression or an inline object".
Proof. split; reflexivity. Qed.

(** C10 at the entries [Count: number] and [count?: number]. *)
Lemma symbol_value_and_type_value_witness :
  (isObjectNode (YStr "number" : @yaml DecimalNumber) || isString (YStr "number" : @yaml DecimalNumber) = true ->
   parseEntry 10 empty_doc ("Count", YStr "number") =
     rbind (parseValue 10 (YStr "number"))
           (fun node =>
              Ok (mkDoc (map_set (trim "Count") (mkTypeDef (trim "Count") node)
                                 (doc_types empty_doc))
                        (doc_symbols empty_doc) (doc_meta empty_doc))) /\
   parseEntry 10 empty_doc ("count?", YStr "number") =
     rbind (parseValue 10 (YStr "number"))
           (fun node =>
              Ok (mkDoc (doc_types empty_doc)
                        (doc_symbols empty_doc ++ [mkSymbol "count" node true false])
                        (doc_meta empty_doc)))) /\
  (isObjectNode (YStr "number" : @yaml DecimalNumber) || isString (YStr "number" : @yaml DecimalNumber) = false ->
   parseEntry 10 empty_doc ("Count", YStr "number") =
     Throw ("Type " ++ trim "Count"
              ++ " must be a scalar type expression or an inline object") /\
   parseEntry 10 empty_doc ("count?", YStr "number") =
     rbind (parseTypeExpr 10 (String_of_yaml (YStr "number" : @yaml DecimalNumber)))
           (fun node =>
              Ok (mkDoc (doc_types empty_doc)
                        (doc_symbols empty_doc ++ [mkSymbol "count" node true false])
                        (doc_meta empty_doc)))).
Proof.
  apply (@symbol_value_and_type_value DecimalNumber 10 empty_doc "Count" "count?"
           (YStr "number") "count" false true); reflexivity.
Defined.

(** * Further properties *)

(** ** References of the emitted schemas *)

Section JsonRefs.
Context {N : JsNumber}.

Lemma json_refs_cons k v (fields : list (string * json)) :
  json_refs (JObj ((k, v) :: fields)) =
  (own_ref k v ++ json_refs v ++ json_refs (JObj fields))%list.
Proof. simpl. now rewrite <- app_assoc. Qed.

Lemma json_refs_field k v (fields : list (string * json)) :
  In (k, v) fields -> incl (json_refs v) (json_refs (JObj fields)).
Proof.
  induction fields as [|[k' v'] fields IH]; intros H; [destruct H|].
  destruct H as [H|H].
  - injection H as -> ->. rewrite json_refs_cons. intros x Hx.
    apply in_app_iff. right. apply in_app_iff. now left.
  - rewrite json_refs_cons. intros x Hx.
    apply in_app_iff. right. apply in_app_iff. right. now apply IH.
Qed.

Lemma map_get_In_field k (fields : list (string * json)) v :
  map_get k fields = Some v -> In (k, v) fields.
Proof.
  induction fields as [|[k' v'] fields IH]; simpl; [discriminate|].
  destruct (String.eqb k' k) eqn:E.
  - intros H. injection H as ->. apply String.eqb_eq in E as ->. now left.
  - intros H. right. auto.
Qed.

Lemma json_refs_map_set k v (fields : list (string * json)) :
  incl (json_refs (JObj (map_set k v fields)))
       (own_ref k v ++ json_refs v ++ json_refs (JObj fields))%list.
Proof.
  induction fields as [|[k' v'] fields IH]; cbn [map_set].
  - rewrite json_refs_cons. intros x Hx. exact Hx.
  - destruct (String.eqb k' k).
    + rewrite !json_refs_cons. intros x Hx.
      rewrite !in_app_iff in *. tauto.
    + rewrite !json_refs_cons. intros x Hx.
      rewrite !in_app_iff in Hx. rewrite !in_app_iff.
      destruct Hx as [Hx|[Hx|Hx]]; [tauto | tauto |].
      apply IH in Hx. rewrite !in_app_iff in Hx. tauto.
Qed.

Lemma json_refs_literals (values : list Literal) :
  json_refs (JArr (List.map json_of_literal values)) = [].
Proof.
  induction values as [|v values IH]; [reflexivity|].
  simpl in *. rewrite IH. now destruct v.
Qed.

Lemma json_refs_enumSchema (enums : list Literal) : json_refs (enumSchema enums) = [].
Proof.
  unfold enumSchema. pose proof (json_refs_literals enums) as H.
  destruct (unionLiteralType enums); simpl in *; rewrite H; reflexivity.
Qed.

Lemma json_refs_primitive name : json_refs (primitiveToSchema name) = [].
Proof. now destruct name. Qed.

Lemma json_refs_arrayOf s : json_refs (arrayOf s) = json_refs s.
Proof. unfold arrayOf. simpl. rewrite app_nil_r. now destruct s. Qed.

Lemma json_refs_strings (ts : list json) :
  incl (json_refs (JArr (ts ++ [JStr "null"]))) (json_refs (JArr ts)).
Proof.
  simpl. rewrite flat_map_app. simpl. rewrite app_nil_r. apply incl_refl.
Qed.

Lemma json_refs_makeNullable s :
  incl (json_refs (OpenAI.makeNullable s)) (json_refs s).
Proof.
  assert (Hwrap : incl (json_refs (JObj [("anyOf", JArr [s; JObj [("type", JStr "null")]])]))
                       (json_refs s)).
  { simpl. rewrite !app_nil_r. apply incl_refl. }
  destruct s as [b|n|t|items|fields]; try exact Hwrap.
  unfold OpenAI.makeNullable.
  destruct (map_get "type" fields) as [[b|n|t|ts|fs]|] eqn:E; try exact Hwrap.
  - intros x Hx. apply json_refs_map_set in Hx. simpl in Hx. exact Hx.
  - destruct (includes_str "null" ts); simpl negb; cbv iota; [apply incl_refl|].
    intros x Hx. apply json_refs_map_set in Hx.
    apply in_app_iff in Hx as [[]|Hx].
    apply in_app_iff in Hx as [Hx|Hx]; [|exact Hx].
    apply json_refs_strings in Hx.
    eapply json_refs_field; [|exact Hx]. apply map_get_In_field. exact E.
Qed.

Lemma makeNullable_is_object s : is_object s -> is_object (OpenAI.makeNullable s).
Proof.
  destruct s as [b|n|t|items|fields]; try contradiction. intros _.
  unfold OpenAI.makeNullable.
  destruct (map_get "type" fields) as [[b|n|t|ts|fs]|]; try exact I.
  now destruct (negb (includes_str "null" ts)).
Qed.
End JsonRefs.

(** ** Loops with an invariant on the accumulator and the context *)

Section LoopInvariants.
Context {N : JsNumber}.

Lemma foldM_inv {A B : Type} (f : B -> A -> M B) (J : Ctx -> B -> Prop) (l : list A) :
  (forall b a c b' c', In a l -> J c b -> f b a c = Ok (b', c') -> J c' b') ->
  forall b c b' c', J c b -> foldM f l b c = Ok (b', c') -> J c' b'.
Proof.
  induction l as [|a l IH]; intros Hf b c b' c' HJ H; simpl in H.
  - apply ret_Ok in H as [-> ->]. exact HJ.
  - apply bind_Ok in H as (b1 & c1 & H1 & H).
    eapply IH; [| |exact H].
    + intros; eapply Hf; [right| |]; eassumption.
    + eapply Hf; [left; reflexivity | exact HJ | exact H1].
Qed.

Lemma mapM_inv {A B : Type} (f : A -> M B) (J : Ctx -> Prop) (P : Ctx -> B -> Prop)
      (l : list A) :
  (forall a c b c', In a l -> J c -> f a c = Ok (b, c') ->
                    J c' /\ P c' b /\ forall x, P c x -> P c' x) ->
  forall c bs c', J c -> mapM f l c = Ok (bs, c') -> J c' /\ Forall (P c') bs.
Proof.
  induction l as [|a l IH]; intros Hf c bs c' HJ H; simpl in H.
  - apply ret_Ok in H as [-> ->]. split; [exact HJ | constructor].
  - apply bind_Ok in H as (b1 & c1 & H1 & H).
    apply bind_Ok in H as (bs1 & c2 & H2 & H).
    apply ret_Ok in H as [-> ->].
    destruct (Hf a c b1 c1 (or_introl eq_refl) HJ H1) as (J1 & P1 & _).
    assert (Hmono : forall c3 bs3 c4,
               J c3 -> mapM f l c3 = Ok (bs3, c4) -> forall x, P c3 x -> P c4 x).
    { clear - Hf. induction l as [|a' l IH']; intros c3 bs3 c4 J3 H3 x Px; simpl in H3.
      - apply ret_Ok in H3 as [_ ->]. exact Px.
      - apply bind_Ok in H3 as (b5 & c5 & H5 & H3).
        apply bind_Ok in H3 as (bs6 & c6 & H6 & H3).
        apply ret_Ok in H3 as [_ ->].
        destruct (Hf a' c3 b5 c5 (or_intror (or_introl eq_refl)) J3 H5) as (J5 & _ & M5).
        eapply IH'; [| exact J5 | exact H6 | apply M5, Px].
        intros a0 c0 b0 c0' [<-|Hin]; [apply Hf; now left | apply Hf; right; now right]. }
    destruct (IH (fun a0 c0 b0 c0' Hin => Hf a0 c0 b0 c0' (or_intror Hin)) c1 bs1 c2 J1 H2)
      as (J2 & F2).
    split; [exact J2|]. constructor; [|exact F2].
    eapply Hmono; [exact J1 | exact H2 | exact P1].
Qed.
End LoopInvariants.

(** ** Every reference of an emitted schema names a defined type *)

Section RefsOfSchemas.
Context {N : JsNumber}.
Variable doc : TDLDoc.

Lemma known_names_grows c c' : grows doc c c' -> incl (known_names c) (known_names c').
Proof.
  intros (Hs & (extra & Hk & _) & _) x Hx. unfold known_names in *.
  rewrite Hs, Hk. rewrite !in_app_iff in *. tauto.
Qed.

Lemma schema_ok_incl c c' s :
  incl (known_names c) (known_names c') -> schema_ok c s -> schema_ok c' s.
Proof.
  intros Hi [Ho Hr]. split; [exact Ho|].
  intros x Hx. apply Hr in Hx. apply in_map_iff in Hx as (n & <- & Hn).
  apply in_map, Hi, Hn.
Qed.

Lemma schema_ok_grows c c' s : grows doc c c' -> schema_ok c s -> schema_ok c' s.
Proof. intros G. apply schema_ok_incl, known_names_grows, G. Qed.

Lemma fields_ok_incl c c' fields :
  incl (known_names c) (known_names c') -> fields_ok c fields -> fields_ok c' fields.
Proof.
  intros Hi. unfold fields_ok. apply Forall_impl. intros kv. now apply schema_ok_incl.
Qed.

Lemma fields_ok_grows c c' fields :
  grows doc c c' -> fields_ok c fields -> fields_ok c' fields.
Proof. intros G. apply fields_ok_incl, known_names_grows, G. Qed.

Lemma fields_ok_refs c fields :
  fields_ok c fields -> incl (json_refs (JObj fields)) (List.map ref_path (known_names c)).
Proof.
  induction 1 as [|[k v] fields [Ho Hr] _ IH]; [intros x []|].
  rewrite json_refs_cons. simpl in Ho, Hr.
  destruct v; try contradiction. simpl own_ref. simpl app.
  intros x Hx. apply in_app_iff in Hx as [Hx|Hx]; auto.
Qed.

Lemma map_set_Forall {V : Type} (P : string * V -> Prop) k v (m : Map V) :
  Forall P m -> P (k, v) -> Forall P (map_set k v m).
Proof.
  intros Hm Hv. induction m as [|[k' v'] m IH]; simpl.
  - constructor; [assumption | constructor].
  - inversion Hm; subst. destruct (String.eqb k' k); constructor; auto.
Qed.

Lemma fields_ok_assign c k v fields :
  fields_ok c fields -> schema_ok c v -> fields_ok c (obj_assign k v fields).
Proof.
  intros Hf Hv. unfold obj_assign. destruct (String.eqb k "__proto__"); [exact Hf|].
  apply map_set_Forall; assumption.
Qed.

Lemma schema_ok_arrayOf c s : schema_ok c s -> schema_ok c (arrayOf s).
Proof. intros [_ Hr]. split; [exact I|]. now rewrite json_refs_arrayOf. Qed.

Lemma schema_ok_finalSchema c isArray optional s :
  schema_ok c s -> schema_ok c (OpenAI.finalSchema isArray optional s).
Proof.
  intros Hs. unfold OpenAI.finalSchema.
  assert (Hw : schema_ok c (if isArray then arrayOf s else s)).
  { destruct isArray; [now apply schema_ok_arrayOf | exact Hs]. }
  destruct optional; [|exact Hw]. destruct Hw as [Ho Hr]. split.
  - now apply makeNullable_is_object.
  - intros x Hx. apply json_refs_makeNullable in Hx. auto.
Qed.

Lemma schema_ok_withArray c isArray s :
  schema_ok c s -> schema_ok c (Gemini.withArray isArray s).
Proof. intros Hs. destruct isArray; [now apply schema_ok_arrayOf | exact Hs]. Qed.

Lemma schema_ok_closed c s :
  is_object s -> json_refs s = [] -> schema_ok c s.
Proof. intros Ho Hr. split; [exact Ho|]. rewrite Hr. intros x []. Qed.

(** [ensureDef], for either emitter: the placeholder refers to nothing. *)
Lemma ensureDef_ok (emit : TypeNode -> M json) (placeholder : json) name ctx :
  forall r,
  (if map_has name (defs ctx) then Ok (tt, ctx)
   else if set_has name (stack ctx) then
     Ok (tt, mkCtx (map_set name placeholder (defs ctx)) (stack ctx))
   else
     match map_get name (doc_types doc) with
     | None => Throw ("Unknown type reference: " ++ name)
     | Some def =>
         match emit (def_node def) (mkCtx (defs ctx) (set_add name (stack ctx))) with
         | Ok (schema, ctx') =>
             Ok (tt, mkCtx (map_set name schema (defs ctx'))
                           (set_delete name (stack ctx')))
         | Throw msg => Throw msg
         | OutOfFuel => OutOfFuel
         end
     end) = Ok r ->
  emits_ok doc emit ->
  is_object placeholder -> json_refs placeholder = [] ->
  defs_ok ctx -> defs_ok (snd r).
Proof.
  intros r H He Hpo Hpr Hd.
  destruct (map_has name (defs ctx)) eqn:Hhas.
  { injection H as <-. exact Hd. }
  destruct (set_has name (stack ctx)) eqn:Hst.
  { injection H as <-. cbn [snd]. unfold defs_ok. cbn [defs].
    apply map_set_Forall.
    - eapply fields_ok_incl; [|exact Hd].
      intros x Hx. unfold known_names in *. cbn [defs stack].
      rewrite in_app_iff in *. rewrite map_keys_set_In. tauto.
    - now apply schema_ok_closed. }
  destruct (map_get name (doc_types doc)) as [def|] eqn:Hdef; [|discriminate].
  destruct (emit _ _) as [[schema ctx']| |] eqn:Hemit; try discriminate.
  injection H as <-. cbn [snd].
  destruct (He _ _ _ _ Hemit) as (G & Hs & Hd').
  assert (Hstack : set_delete name (stack ctx') = stack ctx).
  { destruct G as (-> & _). cbn [stack]. now apply set_delete_add. }
  assert (Hin : incl (known_names ctx')
                     (known_names (mkCtx (map_set name schema (defs ctx'))
                                         (set_delete name (stack ctx'))))).
  { intros x Hx. unfold known_names in *. cbn [defs stack]. rewrite Hstack.
    destruct G as (Hs' & _). rewrite Hs' in Hx. cbn [stack] in Hx.
    rewrite in_app_iff in *. rewrite map_keys_set_In.
    destruct Hx as [Hx|Hx]; [tauto|]. apply set_add_In in Hx. tauto. }
  unfold defs_ok. cbn [defs]. apply map_set_Forall.
  - eapply fields_ok_incl; [exact Hin|]. apply Hd'.
    eapply fields_ok_incl; [|exact Hd].
    intros x Hx. unfold known_names in *. cbn [defs stack].
    rewrite in_app_iff in *. rewrite set_add_In. tauto.
  - eapply schema_ok_incl; [exact Hin | exact Hs].
Qed.

Lemma ref_schema_ok c name :
  In name (map_keys (defs c)) -> schema_ok c (JObj [("$ref", JStr (ref_path name))]).
Proof.
  intros Hin. split; [exact I|]. simpl. intros x [<-|[]].
  apply in_map. unfold known_names. apply in_app_iff. now left.
Qed.

Lemma anyOf_schema_ok c schemas :
  Forall (schema_ok c) schemas -> schema_ok c (JObj [("anyOf", JArr schemas)]).
Proof.
  intros HF. split; [exact I|]. simpl. rewrite app_nil_r.
  induction HF as [|s schemas [_ Hs] _ IH]; simpl; [intros x []|].
  intros x Hx. apply in_app_iff in Hx as [Hx|Hx]; auto.
Qed.

Lemma object_schema_ok c fields (required : list string) additional :
  fields_ok c fields ->
  incl (json_refs additional) (List.map ref_path (known_names c)) ->
  schema_ok c (JObj [("type", JStr "object");
                     ("properties", JObj fields);
                     ("required", JArr (List.map JStr required));
                     ("additionalProperties", additional)]).
Proof.
  intros Hf Ha. split; [exact I|].
  apply fields_ok_refs in Hf.
  assert (Hreq : json_refs (JArr (List.map JStr required)) = []).
  { induction required as [|r required IH]; [reflexivity|]. simpl in *. exact IH. }
  assert (Heq : json_refs (JObj [("type", JStr "object");
                                 ("properties", JObj fields);
                                 ("required", JArr (List.map JStr required));
                                 ("additionalProperties", additional)])
                = (json_refs (JObj fields) ++ json_refs additional)%list).
  { rewrite !json_refs_cons, Hreq.
    destruct additional; simpl; rewrite ?app_nil_r; reflexivity. }
  rewrite Heq. intros x Hx. apply in_app_iff in Hx as [Hx|Hx]; auto.
Qed.
End RefsOfSchemas.

Section RefsOfObjects.
Context {N : JsNumber}.
Variable doc : TDLDoc.
Variable e : TypeNode -> M json.
Hypothesis e_ok : emits_ok doc e.
Variable c0 : Ctx.

Lemma OpenAI_store_ok acc c node key isArray optional acc' c' :
  grows doc c0 c /\ fields_ok c (fst acc) /\ (defs_ok c0 -> defs_ok c) ->
  bind (e node)
       (fun base => ret (OpenAI.record acc key (OpenAI.finalSchema isArray optional base)))
       c = Ok (acc', c') ->
  grows doc c0 c' /\ fields_ok c' (fst acc') /\ (defs_ok c0 -> defs_ok c').
Proof.
  intros (G & F & D) H.
  apply bind_Ok in H as (base & c1 & Hb & H). apply ret_Ok in H as [-> ->].
  destruct (e_ok Hb) as (G1 & S1 & D1).
  split; [eapply grows_trans; eassumption|]. split; [|auto].
  cbn [OpenAI.record fst]. apply fields_ok_assign.
  - eapply fields_ok_grows; eassumption.
  - now apply schema_ok_finalSchema.
Qed.

Lemma OpenAI_emitObject_ok obj s c' :
  OpenAI.emitObject_ e obj c0 = Ok (s, c') ->
  grows doc c0 c' /\ schema_ok c' s /\ (defs_ok c0 -> defs_ok c').
Proof.
  intros H. unfold OpenAI.emitObject_ in H.
  apply bind_Ok in H as (acc1 & c1 & H1 & H).
  apply bind_Ok in H as (acc2 & c2 & H2 & H).
  apply ret_Ok in H as [-> ->].
  assert (J1 : grows doc c0 c1 /\ fields_ok c1 (fst acc1) /\ (defs_ok c0 -> defs_ok c1)).
  { revert H1.
    apply (@foldM_inv _ _ _ (OpenAI.emitIndexSig_ e)
             (fun c acc => grows doc c0 c /\ fields_ok c (fst acc) /\
                           (defs_ok c0 -> defs_ok c))).
    - intros acc idx c acc' c3 _ HJ Hi. unfold OpenAI.emitIndexSig_ in Hi.
      destruct (idx_kind idx).
      + apply bind_Ok in Hi as (closure & c4 & Hc & Hi).
        destruct closure; [|discriminate]. apply ret_Ok in Hi as [-> ->].
        destruct (idx_optional idx).
        * apply bind_Ok in Hc as (s0 & c5 & Hs & Hc). apply ret_Ok in Hc as [_ ->].
          destruct HJ as (G & F & D). destruct (e_ok Hs) as (G1 & _ & D1).
          split; [eapply grows_trans; eassumption|]. split; [|auto].
          eapply fields_ok_grows; eassumption.
        * apply ret_Ok in Hc as [_ ->]. exact HJ.
      + revert Hi.
        apply (@foldM_inv _ _ _ _
                 (fun c acc => grows doc c0 c /\ fields_ok c (fst acc) /\
                               (defs_ok c0 -> defs_ok c))); [|exact HJ].
        intros b key c5 b' c6 _ HJ5 Hk. eapply OpenAI_store_ok; eassumption.
    - split; [apply grows_refl|]. split; [constructor | auto]. }
  assert (J2 : grows doc c0 c2 /\ fields_ok c2 (fst acc2) /\ (defs_ok c0 -> defs_ok c2)).
  { revert H2.
    apply (@foldM_inv _ _ _ (OpenAI.emitProp_ e)
             (fun c acc => grows doc c0 c /\ fields_ok c (fst acc) /\
                           (defs_ok c0 -> defs_ok c))); [|exact J1].
    intros acc p c acc' c3 _ HJ Hp. eapply OpenAI_store_ok; eassumption. }
  destruct J2 as (G & F & D). split; [exact G|]. split; [|exact D].
  apply object_schema_ok; [exact F | intros x []].
Qed.

Lemma Gemini_store_ok acc c node key isArray optional acc' c' :
  grows doc c0 c /\ fields_ok c (Gemini.properties acc) /\
  incl (json_refs (Gemini.additionalProps acc)) (List.map ref_path (known_names c)) /\
  (defs_ok c0 -> defs_ok c) ->
  bind (e node)
       (fun base => ret (Gemini.record acc key optional (Gemini.withArray isArray base)))
       c = Ok (acc', c') ->
  grows doc c0 c' /\ fields_ok c' (Gemini.properties acc') /\
  incl (json_refs (Gemini.additionalProps acc')) (List.map ref_path (known_names c')) /\
  (defs_ok c0 -> defs_ok c').
Proof.
  intros (G & F & A & D) H.
  apply bind_Ok in H as (base & c1 & Hb & H). apply ret_Ok in H as [-> ->].
  destruct (e_ok Hb) as (G1 & S1 & D1).
  split; [eapply grows_trans; eassumption|].
  cbn [Gemini.record Gemini.properties Gemini.additionalProps].
  split; [|split; [|auto]].
  - apply fields_ok_assign.
    + eapply fields_ok_grows; eassumption.
    + now apply schema_ok_withArray.
  - intros x Hx. apply A in Hx. apply in_map_iff in Hx as (n & <- & Hn).
    apply in_map. eapply known_names_grows; eassumption.
Qed.

Lemma Gemini_emitObject_ok obj s c' :
  Gemini.emitObject_ e obj c0 = Ok (s, c') ->
  grows doc c0 c' /\ schema_ok c' s /\ (defs_ok c0 -> defs_ok c').
Proof.
  intros H. unfold Gemini.emitObject_ in H.
  apply bind_Ok in H as (acc1 & c1 & H1 & H).
  apply bind_Ok in H as (acc2 & c2 & H2 & H).
  apply ret_Ok in H as [-> ->].
  assert (J1 : grows doc c0 c1 /\ fields_ok c1 (Gemini.properties acc1) /\
               incl (json_refs (Gemini.additionalProps acc1))
                    (List.map ref_path (known_names c1)) /\
               (defs_ok c0 -> defs_ok c1)).
  { revert H1.
    apply (@foldM_inv _ _ _ (Gemini.emitIndexSig_ e)
             (fun c acc => grows doc c0 c /\ fields_ok c (Gemini.properties acc) /\
                           incl (json_refs (Gemini.additionalProps acc))
                                (List.map ref_path (known_names c)) /\
                           (defs_ok c0 -> defs_ok c))).
    - intros acc idx c acc' c3 _ HJ Hi. unfold Gemini.emitIndexSig_ in Hi.
      destruct (idx_kind idx).
      + apply bind_Ok in Hi as (closure & c4 & Hc & Hi).
        assert (J4 : grows doc c0 c4 /\ fields_ok c4 (Gemini.properties acc) /\
                     (defs_ok c0 -> defs_ok c4)).
        { destruct HJ as (G & F & A & D). destruct (idx_optional idx).
          - apply bind_Ok in Hc as (s0 & c5 & Hs & Hc). apply ret_Ok in Hc as [_ ->].
            destruct (e_ok Hs) as (G1 & _ & D1).
            split; [eapply grows_trans; eassumption|]. split; [|auto].
            eapply fields_ok_grows; eassumption.
          - apply ret_Ok in Hc as [_ ->]. auto. }
        destruct J4 as (G4 & F4 & D4). destruct closure.
        * apply ret_Ok in Hi as [-> ->].
          cbn [Gemini.properties Gemini.additionalProps].
          split; [exact G4|]. split; [exact F4|]. split; [intros x Hx; destruct Hx | exact D4].
        * apply bind_Ok in Hi as (base & c5 & Hb & Hi). apply ret_Ok in Hi as [-> ->].
          destruct (e_ok Hb) as (G5 & S5 & D5).
          cbn [Gemini.properties Gemini.additionalProps].
          split; [eapply grows_trans; eassumption|]. split; [|split; [|auto]].
          -- eapply fields_ok_grows; eassumption.
          -- apply (schema_ok_withArray (idx_isArray idx)) in S5. apply S5.
      + revert Hi.
        apply (@foldM_inv _ _ _ _
                 (fun c acc => grows doc c0 c /\ fields_ok c (Gemini.properties acc) /\
                               incl (json_refs (Gemini.additionalProps acc))
                                    (List.map ref_path (known_names c)) /\
                               (defs_ok c0 -> defs_ok c))); [|exact HJ].
        intros b key c5 b' c6 _ HJ5 Hk. eapply Gemini_store_ok; eassumption.
    - cbn [Gemini.properties Gemini.additionalProps].
      split; [apply grows_refl|]. split; [constructor|]. split; [intros x []|auto]. }
  assert (J2 : grows doc c0 c2 /\ fields_ok c2 (Gemini.properties acc2) /\
               incl (json_refs (Gemini.additionalProps acc2))
                    (List.map ref_path (known_names c2)) /\
               (defs_ok c0 -> defs_ok c2)).
  { revert H2.
    apply (@foldM_inv _ _ _ (Gemini.emitProp_ e)
             (fun c acc => grows doc c0 c /\ fields_ok c (Gemini.properties acc) /\
                           incl (json_refs (Gemini.additionalProps acc))
                                (List.map ref_path (known_names c)) /\
                           (defs_ok c0 -> defs_ok c))); [|exact J1].
    intros acc p c acc' c3 _ HJ Hp. eapply Gemini_store_ok; eassumption. }
  destruct J2 as (G & F & A & D). split; [exact G|]. split; [|exact D].
  apply object_schema_ok; assumption.
Qed.
End RefsOfObjects.

Section RefsOfEmission.
Context {N : JsNumber}.
Variable doc : TDLDoc.

Lemma leaf_ok c s :
  is_object s -> json_refs s = [] ->
  grows doc c c /\ schema_ok c s /\ (defs_ok c -> defs_ok c).
Proof.
  intros Ho Hr. split; [apply grows_refl|]. split; [now apply schema_ok_closed | auto].
Qed.

Lemma enumSchema_is_object (enums : list Literal) : is_object (enumSchema enums).
Proof. unfold enumSchema. now destruct (unionLiteralType enums). Qed.

Lemma union_ok (e : TypeNode -> M json) members c schemas c' :
  emits_ok doc e ->
  mapM e members c = Ok (schemas, c') ->
  grows doc c c' /\ schema_ok c' (JObj [("anyOf", JArr schemas)]) /\
  (defs_ok c -> defs_ok c').
Proof.
  intros He H.
  destruct (@mapM_inv _ _ _ e
              (fun c1 => grows doc c c1 /\ (defs_ok c -> defs_ok c1))
              (fun c1 s => schema_ok c1 s) members) with (c := c) (bs := schemas) (c' := c')
    as ((G & D) & F).
  - intros a c1 b c2 _ (G1 & D1) Ha. destruct (He _ _ _ _ Ha) as (G2 & S2 & D2).
    split; [split; [eapply grows_trans; eassumption | auto]|].
    split; [exact S2|]. intros x Hx. eapply schema_ok_grows; eassumption.
  - split; [apply grows_refl | auto].
  - exact H.
  - split; [exact G|]. split; [now apply anyOf_schema_ok | exact D].
Qed.

Lemma OpenAI_emit_ok fuel : emits_ok doc (OpenAI.emit doc fuel).
Proof.
  induction fuel as [|fuel IH]; intros node c s c' H; [discriminate|].
  destruct node; simpl in H.
  - apply ret_Ok in H as [-> ->]. apply leaf_ok; now destruct name.
  - apply ret_Ok in H as [-> ->]. now apply leaf_ok.
  - apply ret_Ok in H as [-> ->]. now apply leaf_ok.
  - apply ret_Ok in H as [-> ->]. now apply leaf_ok.
  - apply bind_Ok in H as ([] & c1 & H1 & H). apply ret_Ok in H as [-> ->].
    pose proof (@OpenAI_ensureDef_grows _ doc fuel name c (tt, c1) H1) as [G1 I1].
    pose proof (@ensureDef_ok _ doc (OpenAI.emit doc fuel) OpenAI.placeholder name c (tt, c1)
                  H1 IH I eq_refl) as D1.
    split; [exact G1|]. split; [now apply ref_schema_ok | exact D1].
  - destruct (forallb isScalarLiteral members).
    + apply bind_Ok in H as (enums & c1 & H1 & H). apply lift_Ok in H1 as [_ ->].
      apply ret_Ok in H as [-> ->].
      apply leaf_ok; [apply enumSchema_is_object | apply json_refs_enumSchema].
    + apply bind_Ok in H as (ss & c1 & H1 & H). apply ret_Ok in H as [-> ->].
      eapply union_ok; eassumption.
  - apply bind_Ok in H as (obj & c1 & H1 & H). apply lift_Ok in H1 as [H1 ->].
    eapply OpenAI_emitObject_ok; eassumption.
  - eapply OpenAI_emitObject_ok; eassumption.
Qed.

Lemma Gemini_emit_ok fuel : emits_ok doc (Gemini.emit doc fuel).
Proof.
  induction fuel as [|fuel IH]; intros node c s c' H; [discriminate|].
  destruct node; simpl in H.
  - apply ret_Ok in H as [-> ->]. apply leaf_ok; now destruct name.
  - apply ret_Ok in H as [-> ->]. now apply leaf_ok.
  - apply ret_Ok in H as [-> ->]. now apply leaf_ok.
  - apply ret_Ok in H as [-> ->]. now apply leaf_ok.
  - apply bind_Ok in H as ([] & c1 & H1 & H). apply ret_Ok in H as [-> ->].
    pose proof (@Gemini_ensureDef_grows _ doc fuel name c (tt, c1) H1) as [G1 I1].
    pose proof (@ensureDef_ok _ doc (Gemini.emit doc fuel) Gemini.placeholder name c (tt, c1)
                  H1 IH I eq_refl) as D1.
    split; [exact G1|]. split; [now apply ref_schema_ok | exact D1].
  - destruct (forallb isScalarLiteral members).
    + apply bind_Ok in H as (enums & c1 & H1 & H). apply lift_Ok in H1 as [_ ->].
      apply ret_Ok in H as [-> ->].
      apply leaf_ok; [apply enumSchema_is_object | apply json_refs_enumSchema].
    + apply bind_Ok in H as (ss & c1 & H1 & H). apply ret_Ok in H as [-> ->].
      eapply union_ok; eassumption.
  - apply bind_Ok in H as (obj & c1 & H1 & H). apply lift_Ok in H1 as [H1 ->].
    eapply Gemini_emitObject_ok; eassumption.
  - eapply Gemini_emitObject_ok; eassumption.
Qed.

(** The pre-registration loop keeps the table well formed. *)
Lemma ensure_all_ok (ensure : string -> M unit) (names : list string) :
  (forall name c r, ensure name c = Ok r ->
                    grows doc c (snd r) /\ (defs_ok c -> defs_ok (snd r))) ->
  forall c u c',
    foldM (fun (_ : unit) name => ensure name) names tt c = Ok (u, c') ->
    grows doc c c' /\ (defs_ok c -> defs_ok c').
Proof.
  intros Hens. induction names as [|name names IH]; intros c u c' H; simpl in H.
  - apply ret_Ok in H as [_ ->]. split; [apply grows_refl | auto].
  - apply bind_Ok in H as ([] & c1 & H1 & H).
    apply Hens in H1 as [G1 D1]. simpl in *.
    apply IH in H as [G2 D2]. split; [eapply grows_trans; eassumption | auto].
Qed.

Lemma root_refs (c : Ctx) fields (required : list string) :
  stack c = [] -> defs_ok c -> fields_ok c fields ->
  incl (json_refs (JObj [("type", JStr "object");
                         ("properties", JObj fields);
                         ("required", JArr (List.map JStr required));
                         ("additionalProperties", JBool false);
                         ("$defs", Object_fromEntries (defs c))]))
       (List.map ref_path (map_keys (defs c))).
Proof.
  intros Hst Hd Hf.
  assert (Hk : known_names c = map_keys (defs c)).
  { unfold known_names. rewrite Hst. apply app_nil_r. }
  apply fields_ok_refs in Hd, Hf. rewrite Hk in Hd, Hf.
  assert (Hreq : json_refs (JArr (List.map JStr required)) = []).
  { induction required as [|r required IH]; [reflexivity|]. simpl in *. exact IH. }
  assert (Heq : json_refs (JObj [("type", JStr "object");
                                 ("properties", JObj fields);
                                 ("required", JArr (List.map JStr required));
                                 ("additionalProperties", JBool false);
                                 ("$defs", Object_fromEntries (defs c))])
                = (json_refs (JObj fields) ++ json_refs (JObj (defs c)))%list).
  { rewrite !json_refs_cons, Hreq. unfold Object_fromEntries.
    simpl. rewrite ?app_nil_r. reflexivity. }
  rewrite Heq. intros x Hx. apply in_app_iff in Hx as [Hx|Hx]; auto.
Qed.

Lemma OpenAI_refs_resolve fuel out :
  OpenAI.generateOpenAISchema doc fuel = Ok out ->
  exists entries,
    obj_get "$defs" out = Some (JObj entries) /\
    incl (json_refs out) (List.map ref_path (map_keys entries)) /\
    incl (map_keys entries) (map_keys (doc_types doc)).
Proof.
  unfold OpenAI.generateOpenAISchema. intros H.
  destruct (bind _ _ _) as [[acc c]| |] eqn:Hrun; try discriminate.
  injection H as <-.
  apply bind_Ok in Hrun as (u & c1 & H1 & H2).
  apply (@ensure_all_ok (OpenAI.ensureDef doc fuel)) in H1 as [G1 D1].
  2:{ intros name c2 r Hr. split.
      - apply (@OpenAI_ensureDef_grows _ doc fuel name c2 r Hr).
      - apply (@ensureDef_ok _ doc (OpenAI.emit doc fuel) OpenAI.placeholder name c2 r
                 Hr (OpenAI_emit_ok fuel) I eq_refl). }
  assert (J : grows doc c1 c /\ fields_ok c (fst acc) /\ (defs_ok c1 -> defs_ok c)).
  { revert H2.
    apply (@foldM_inv _ _ _ (OpenAI.emitSymbol doc fuel)
             (fun c2 acc2 => grows doc c1 c2 /\ fields_ok c2 (fst acc2) /\
                             (defs_ok c1 -> defs_ok c2))).
    - intros b sym c2 b' c3 _ HJ Hs. unfold OpenAI.emitSymbol in Hs.
      eapply OpenAI_store_ok; [apply OpenAI_emit_ok | exact HJ | exact Hs].
    - split; [apply grows_refl|]. split; [constructor | auto]. }
  destruct J as (G2 & F & D2).
  exists (defs c). split; [reflexivity|]. split.
  - apply root_refs; [| |exact F].
    + destruct G2 as (-> & _). destruct G1 as (-> & _). reflexivity.
    + apply D2, D1. constructor.
  - intros k Hk.
    destruct (grows_bound k (grows_trans G1 G2) Hk) as [[]|[[]|Hd]]. exact Hd.
Qed.

Lemma Gemini_refs_resolve fuel out :
  Gemini.generateGeminiSchema doc fuel = Ok out ->
  exists entries,
    obj_get "$defs" out = Some (JObj entries) /\
    incl (json_refs out) (List.map ref_path (map_keys entries)) /\
    incl (map_keys entries) (map_keys (doc_types doc)).
Proof.
  unfold Gemini.generateGeminiSchema. intros H.
  destruct (bind _ _ _) as [[acc c]| |] eqn:Hrun; try discriminate.
  injection H as <-.
  apply bind_Ok in Hrun as (u & c1 & H1 & H2).
  apply (@ensure_all_ok (Gemini.ensureDef doc fuel)) in H1 as [G1 D1].
  2:{ intros name c2 r Hr. split.
      - apply (@Gemini_ensureDef_grows _ doc fuel name c2 r Hr).
      - apply (@ensureDef_ok _ doc (Gemini.emit doc fuel) Gemini.placeholder name c2 r
                 Hr (Gemini_emit_ok fuel) I eq_refl). }
  assert (J : grows doc c1 c /\ fields_ok c (Gemini.properties acc) /\
              incl (json_refs (Gemini.additionalProps acc))
                   (List.map ref_path (known_names c)) /\
              (defs_ok c1 -> defs_ok c)).
  { revert H2.
    apply (@foldM_inv _ _ _ (Gemini.emitSymbol doc fuel)
             (fun c2 acc2 => grows doc c1 c2 /\ fields_ok c2 (Gemini.properties acc2) /\
                             incl (json_refs (Gemini.additionalProps acc2))
                                  (List.map ref_path (known_names c2)) /\
                             (defs_ok c1 -> defs_ok c2))).
    - intros b sym c2 b' c3 _ HJ Hs. unfold Gemini.emitSymbol in Hs.
      eapply Gemini_store_ok; [apply Gemini_emit_ok | exact HJ | exact Hs].
    - split; [apply grows_refl|]. split; [constructor|]. split; [intros x []|auto]. }
  destruct J as (G2 & F & _ & D2).
  exists (defs c). split; [reflexivity|]. split.
  - apply root_refs; [| |exact F].
    + destruct G2 as (-> & _). destruct G1 as (-> & _). reflexivity.
    + apply D2, D1. constructor.
  - intros k Hk.
    destruct (grows_bound k (grows_trans G1 G2) Hk) as [[]|[[]|Hd]]. exact Hd.
Qed.
End RefsOfEmission.

(** Every [$ref] of an emitted schema, at any depth, is the pointer
    [#/$defs/name] of a name that has an entry in the [$defs] of that schema
    and is a declared type of the document: neither emitter leaves a
    reference dangling. *)
Theorem references_resolve_in_defs
        {N : JsNumber} (doc : TDLDoc) (fuel : nat) (out : json) :
  OpenAI.generateOpenAISchema doc fuel = Ok out \/
  Gemini.generateGeminiSchema doc fuel = Ok out ->
  exists entries,
    obj_get "$defs" out = Some (JObj entries) /\
    forall r, In r (json_refs out) ->
              exists name,
                r = "#/$defs/" ++ name /\ In name (map_keys entries) /\
                In name (map_keys (doc_types doc)).
Proof.
  intros H.
  assert (H' : exists entries,
             obj_get "$defs" out = Some (JObj entries) /\
             incl (json_refs out) (List.map ref_path (map_keys entries)) /\
             incl (map_keys entries) (map_keys (doc_types doc))).
  { destruct H as [H|H]; [eapply OpenAI_refs_resolve | eapply Gemini_refs_resolve];
      exact H. }
  destruct H' as (entries & Hd & Hi & Hk). exists entries. split; [exact Hd|].
  intros r Hr. apply Hi in Hr. apply in_map_iff in Hr as (name & <- & Hn).
  exists name. split; [reflexivity|]. split; [exact Hn | apply Hk, Hn].
Qed.

(** The references of the schema of [tree_yaml] are the two uses of [Tree]. *)
Lemma references_resolve_in_defs_witness :
  json_refs tree_openai = ["#/$defs/Tree"; "#/$defs/Tree"] /\
  exists entries,
    obj_get "$defs" tree_openai = Some (JObj entries) /\
    forall r, In r (json_refs tree_openai) ->
              exists name,
                r = "#/$defs/" ++ name /\ In name (map_keys entries) /\
                In name (map_keys (doc_types tree_doc)).
Proof.
  split; [reflexivity|].
  apply (@references_resolve_in_defs DecimalNumber tree_doc 10 tree_openai).
  left. reflexivity.
Defined.

(** ** The entries of [$defs] are the schemas of the declared bodies *)

Section DefsDone.
Context {N : JsNumber}.
Variable doc : TDLDoc.
Variable emit : nat -> TypeNode -> M json.

Lemma map_get_of_key {V : Type} k (m : Map V) :
  In k (map_keys m) -> exists v, map_get k m = Some v.
Proof.
  intros H. apply map_has_In in H. unfold map_has in H.
  destruct (map_get k m) as [v|]; [now exists v | discriminate].
Qed.

Lemma ensureDef_done (placeholder : json) fuel name ctx :
  forall r,
  (if map_has name (defs ctx) then Ok (tt, ctx)
   else if set_has name (stack ctx) then
     Ok (tt, mkCtx (map_set name placeholder (defs ctx)) (stack ctx))
   else
     match map_get name (doc_types doc) with
     | None => Throw ("Unknown type reference: " ++ name)
     | Some def =>
         match emit fuel (def_node def) (mkCtx (defs ctx) (set_add name (stack ctx))) with
         | Ok (schema, ctx') =>
             Ok (tt, mkCtx (map_set name schema (defs ctx'))
                           (set_delete name (stack ctx')))
         | Throw msg => Throw msg
         | OutOfFuel => OutOfFuel
         end
     end) = Ok r ->
  (forall node c s c', emit fuel node c = Ok (s, c') ->
                       stack c' = stack c /\
                       (defs_done doc emit c -> defs_done doc emit c')) ->
  defs_done doc emit ctx -> defs_done doc emit (snd r).
Proof.
  intros r H He Hd.
  destruct (map_has name (defs ctx)) eqn:Hhas.
  { injection H as <-. exact Hd. }
  destruct (set_has name (stack ctx)) eqn:Hst.
  { injection H as <-. cbn [snd]. intros name' v Hget Hns. cbn [defs stack] in *.
    destruct (String.eqb_spec name' name) as [->|Hne].
    - exfalso. apply Hns. now apply set_has_In.
    - rewrite map_get_set_other in Hget by assumption. now apply Hd. }
  destruct (map_get name (doc_types doc)) as [def|] eqn:Hdef; [|discriminate].
  destruct (emit fuel _ _) as [[schema ctx']| |] eqn:Hemit; try discriminate.
  injection H as <-. cbn [snd].
  destruct (He _ _ _ _ Hemit) as (Hs & Hd').
  cbn [stack] in Hs.
  assert (Hstack : set_delete name (stack ctx') = stack ctx).
  { rewrite Hs. now apply set_delete_add. }
  intros name' v Hget Hns. cbn [defs stack] in *. rewrite Hstack in Hns.
  destruct (String.eqb_spec name' name) as [->|Hne].
  - rewrite map_get_set_same in Hget. injection Hget as <-.
    exists def. split; [exact Hdef|]. eexists fuel, _, ctx'. exact Hemit.
  - rewrite map_get_set_other in Hget by assumption.
    apply Hd' with (name := name') (v := v); [|exact Hget|].
    + intros n w Hg Hn. apply Hd; [exact Hg|]. cbn [stack] in Hn.
      intros Hin. apply Hn. apply set_add_In. now right.
    + rewrite Hs. intros Hin. apply set_add_In in Hin as [Hin|Hin]; auto.
Qed.
End DefsDone.

Section DefsDoneEmit.
Context {N : JsNumber}.
Variable doc : TDLDoc.

Lemma OpenAI_emit_done fuel :
  emit_rel (fun _ => True)
           (fun c c' => defs_done doc (OpenAI.emit doc) c -> defs_done doc (OpenAI.emit doc) c')
           (OpenAI.emit doc fuel).
Proof.
  induction fuel as [|fuel IH]; intros node c s c' _ H; [discriminate|].
  destruct node; simpl in H;
    try (apply ret_Ok in H as [_ ->]; exact (fun x => x)).
  - apply bind_Ok in H as ([] & c1 & H1 & H). apply ret_Ok in H as [_ ->].
    apply (@ensureDef_done _ doc (OpenAI.emit doc) OpenAI.placeholder fuel name c (tt, c1) H1).
    intros node c2 s2 c3 H2. split.
    + apply OpenAI_emit_grows in H2. apply H2.
    + eapply IH; [exact I | exact H2].
  - destruct (forallb isScalarLiteral members).
    + apply bind_Ok in H as (enums & c1 & H1 & H). apply lift_Ok in H1 as [_ ->].
      apply ret_Ok in H as [_ ->]. exact (fun x => x).
    + apply bind_Ok in H as (ss & c1 & H1 & H). apply ret_Ok in H as [_ ->].
      refine (mapM_rel (fun c c' => defs_done doc (OpenAI.emit doc) c ->
                                    defs_done doc (OpenAI.emit doc) c')
                       (fun c x => x) (fun c1 c2 c3 f g x => g (f x))
                       (OpenAI.emit doc fuel) members _ c H1).
      intros a ctx b ctx' _ Ha. eapply IH; [exact I | exact Ha].
  - apply bind_Ok in H as (obj & c1 & H1 & H). apply lift_Ok in H1 as [H1 ->].
    exact (@OpenAI_emitObject_rel _ (fun _ => True)
             (fun c c' => defs_done doc (OpenAI.emit doc) c ->
                          defs_done doc (OpenAI.emit doc) c')
             (fun c x => x) (fun c1 c2 c3 f g x => g (f x)) (fun _ _ _ _ => I)
             _ obj c _ _ IH I H).
  - exact (@OpenAI_emitObject_rel _ (fun _ => True)
             (fun c c' => defs_done doc (OpenAI.emit doc) c ->
                          defs_done doc (OpenAI.emit doc) c')
             (fun c x => x) (fun c1 c2 c3 f g x => g (f x)) (fun _ _ _ _ => I)
             _ obj c _ _ IH I H).
Qed.

Lemma Gemini_emit_done fuel :
  emit_rel (fun _ => True)
           (fun c c' => defs_done doc (Gemini.emit doc) c -> defs_done doc (Gemini.emit doc) c')
           (Gemini.emit doc fuel).
Proof.
  induction fuel as [|fuel IH]; intros node c s c' _ H; [discriminate|].
  destruct node; simpl in H;
    try (apply ret_Ok in H as [_ ->]; exact (fun x => x)).
  - apply bind_Ok in H as ([] & c1 & H1 & H). apply ret_Ok in H as [_ ->].
    apply (@ensureDef_done _ doc (Gemini.emit doc) Gemini.placeholder fuel name c (tt, c1) H1).
    intros node c2 s2 c3 H2. split.
    + apply Gemini_emit_grows in H2. apply H2.
    + eapply IH; [exact I | exact H2].
  - destruct (forallb isScalarLiteral members).
    + apply bind_Ok in H as (enums & c1 & H1 & H). apply lift_Ok in H1 as [_ ->].
      apply ret_Ok in H as [_ ->]. exact (fun x => x).
    + apply bind_Ok in H as (ss & c1 & H1 & H). apply ret_Ok in H as [_ ->].
      refine (mapM_rel (fun c c' => defs_done doc (Gemini.emit doc) c ->
                                    defs_done doc (Gemini.emit doc) c')
                       (fun c x => x) (fun c1 c2 c3 f g x => g (f x))
                       (Gemini.emit doc fuel) members _ c H1).
      intros a ctx b ctx' _ Ha. eapply IH; [exact I | exact Ha].
  - apply bind_Ok in H as (obj & c1 & H1 & H). apply lift_Ok in H1 as [H1 ->].
    exact (@Gemini_emitObject_rel _ (fun _ => True)
             (fun c c' => defs_done doc (Gemini.emit doc) c ->
                          defs_done doc (Gemini.emit doc) c')
             (fun c x => x) (fun c1 c2 c3 f g x => g (f x)) (fun _ _ _ _ => I)
             _ obj c _ _ IH I H).
  - exact (@Gemini_emitObject_rel _ (fun _ => True)
             (fun c c' => defs_done doc (Gemini.emit doc) c ->
                          defs_done doc (Gemini.emit doc) c')
             (fun c x => x) (fun c1 c2 c3 f g x => g (f x)) (fun _ _ _ _ => I)
             _ obj c _ _ IH I H).
Qed.
End DefsDoneEmit.

(** ** A run of a generator: the pre-registration loop, then the symbols *)

Section Runs.
Context {N : JsNumber}.
Variable doc : TDLDoc.
Variable R : Ctx -> Ctx -> Prop.
Hypothesis R_refl : forall c, R c c.
Hypothesis R_trans : forall c1 c2 c3, R c1 c2 -> R c2 c3 -> R c1 c3.

Lemma OpenAI_generate_rel fuel out :
  emit_rel (fun _ => True) R (OpenAI.emit doc fuel) ->
  (forall name c r, OpenAI.ensureDef doc fuel name c = Ok r -> R c (snd r)) ->
  OpenAI.generateOpenAISchema doc fuel = Ok out ->
  exists c,
    R (mkCtx [] []) c /\ grows doc (mkCtx [] []) c /\
    incl (map_keys (doc_types doc)) (map_keys (defs c)) /\
    obj_get "$defs" out = Some (JObj (defs c)).
Proof.
  intros He Hens H. unfold OpenAI.generateOpenAISchema in H.
  destruct (bind _ _ _) as [[acc c]| |] eqn:Hrun; try discriminate.
  injection H as <-.
  apply bind_Ok in Hrun as ([] & c1 & H1 & H2).
  assert (R1 : R (mkCtx [] []) c1).
  { refine (foldM_rel R R_refl R_trans _ _ _ tt _ H1).
    intros [] name ctx [] ctx' _ Hr. apply (Hens _ _ _ Hr). }
  apply (ensure_all_defined (doc := doc)) in H1 as [G1 I1].
  2:{ intros name c0 r Hr. eapply OpenAI_ensureDef_grows; exact Hr. }
  assert (Hsym : forall b sym ctx b' ctx',
             OpenAI.emitSymbol doc fuel b sym ctx = Ok (b', ctx') ->
             exists base, OpenAI.emit doc fuel (sym_type sym) ctx = Ok (base, ctx')).
  { intros b sym ctx b' ctx' Hs. unfold OpenAI.emitSymbol in Hs.
    apply bind_Ok in Hs as (base & c3 & Hb & Hs). apply ret_Ok in Hs as [_ ->].
    now exists base. }
  assert (R2 : R c1 c).
  { refine (foldM_rel R R_refl R_trans _ _ _ _ _ H2).
    intros b sym ctx b' ctx' _ Hs. apply Hsym in Hs as (base & Hs).
    eapply He; [exact I | exact Hs]. }
  assert (G2 : grows doc c1 c).
  { refine (foldM_rel (grows doc) (@grows_refl _ doc) (@grows_trans _ doc) _ _ _ _ _ H2).
    intros b sym ctx b' ctx' _ Hs. apply Hsym in Hs as (base & Hs).
    eapply OpenAI_emit_grows; exact Hs. }
  exists c. split; [eapply R_trans; eassumption|].
  split; [eapply grows_trans; eassumption|].
  split; [|reflexivity].
  eapply incl_tran; [exact I1 | eapply grows_incl; exact G2].
Qed.

Lemma Gemini_generate_rel fuel out :
  emit_rel (fun _ => True) R (Gemini.emit doc fuel) ->
  (forall name c r, Gemini.ensureDef doc fuel name c = Ok r -> R c (snd r)) ->
  Gemini.generateGeminiSchema doc fuel = Ok out ->
  exists c,
    R (mkCtx [] []) c /\ grows doc (mkCtx [] []) c /\
    incl (map_keys (doc_types doc)) (map_keys (defs c)) /\
    obj_get "$defs" out = Some (JObj (defs c)).
Proof.
  intros He Hens H. unfold Gemini.generateGeminiSchema in H.
  destruct (bind _ _ _) as [[acc c]| |] eqn:Hrun; try discriminate.
  injection H as <-.
  apply bind_Ok in Hrun as ([] & c1 & H1 & H2).
  assert (R1 : R (mkCtx [] []) c1).
  { refine (foldM_rel R R_refl R_trans _ _ _ tt _ H1).
    intros [] name ctx [] ctx' _ Hr. apply (Hens _ _ _ Hr). }
  apply (ensure_all_defined (doc := doc)) in H1 as [G1 I1].
  2:{ intros name c0 r Hr. eapply Gemini_ensureDef_grows; exact Hr. }
  assert (Hsym : forall b sym ctx b' ctx',
             Gemini.emitSymbol doc fuel b sym ctx = Ok (b', ctx') ->
             exists base, Gemini.emit doc fuel (sym_type sym) ctx = Ok (base, ctx')).
  { intros b sym ctx b' ctx' Hs. unfold Gemini.emitSymbol in Hs.
    apply bind_Ok in Hs as (base & c3 & Hb & Hs). apply ret_Ok in Hs as [_ ->].
    now exists base. }
  assert (R2 : R c1 c).
  { refine (foldM_rel R R_refl R_trans _ _ _ _ _ H2).
    intros b sym ctx b' ctx' _ Hs. apply Hsym in Hs as (base & Hs).
    eapply He; [exact I | exact Hs]. }
  assert (G2 : grows doc c1 c).
  { refine (foldM_rel (grows doc) (@grows_refl _ doc) (@grows_trans _ doc) _ _ _ _ _ H2).
    intros b sym ctx b' ctx' _ Hs. apply Hsym in Hs as (base & Hs).
    eapply Gemini_emit_grows; exact Hs. }
  exists c. split; [eapply R_trans; eassumption|].
  split; [eapply grows_trans; eassumption|].
  split; [|reflexivity].
  eapply incl_tran; [exact I1 | eapply grows_incl; exact G2].
Qed.
End Runs.

Section DefsEntries.
Context {N : JsNumber}.
Variable doc : TDLDoc.

Lemma defs_done_entries (emit : nat -> TypeNode -> M json) (c : Ctx) name def :
  grows doc (mkCtx [] []) c ->
  incl (map_keys (doc_types doc)) (map_keys (defs c)) ->
  (defs_done doc emit (mkCtx [] []) -> defs_done doc emit c) ->
  map_get name (doc_types doc) = Some def ->
  exists v, map_get name (defs c) = Some v /\ emitted_by emit (def_node def) v.
Proof.
  intros G Hin Hd Hdef.
  destruct (@map_get_of_key _ name (defs c)) as [v Hv].
  { apply Hin. eapply map_get_Some_In; exact Hdef. }
  exists v. split; [exact Hv|].
  destruct (Hd (fun n w (Hg : map_get n (@nil (string * json)) = Some w) =>
                  match Hg in _ = o return match o with Some _ => _ | None => True end
                  with eq_refl => I end) name v Hv) as (def' & Hdef' & He).
  - destruct G as (-> & _). intros [].
  - rewrite Hdef in Hdef'. injection Hdef' as <-. exact He.
Qed.
End DefsEntries.

(** Each declared type has an entry in [$defs], and the entry is a schema
    the emitter returns for the body of the declaration: the placeholder that
    [ensureDef] stores when it meets a name under emission is overwritten
    before the generator returns. *)
Theorem defs_entries_are_emitted_bodies
        {N : JsNumber} (doc : TDLDoc) (fuel : nat) (out : json)
        (name : string) (def : TypeDef) :
  map_get name (doc_types doc) = Some def ->
  (OpenAI.generateOpenAISchema doc fuel = Ok out ->
   exists entries v,
     obj_get "$defs" out = Some (JObj entries) /\
     map_get name entries = Some v /\
     emitted_by (OpenAI.emit doc) (def_node def) v) /\
  (Gemini.generateGeminiSchema doc fuel = Ok out ->
   exists entries v,
     obj_get "$defs" out = Some (JObj entries) /\
     map_get name entries = Some v /\
     emitted_by (Gemini.emit doc) (def_node def) v).
Proof.
  intros Hdef. split; intros H.
  - apply (@OpenAI_generate_rel _ doc
             (fun c c' => defs_done doc (OpenAI.emit doc) c ->
                          defs_done doc (OpenAI.emit doc) c')) in H
      as (c & Hd & G & Hin & Hout); auto.
    + destruct (@defs_done_entries _ doc (OpenAI.emit doc) c name def G Hin Hd Hdef)
        as (v & Hv & He).
      now exists (defs c), v.
    + apply OpenAI_emit_done.
    + intros n c r Hr.
      apply (@ensureDef_done _ doc (OpenAI.emit doc) OpenAI.placeholder fuel n c r Hr).
      intros node c2 s2 c3 H2. split.
      * apply OpenAI_emit_grows in H2. apply H2.
      * eapply OpenAI_emit_done; [exact I | exact H2].
  - apply (@Gemini_generate_rel _ doc
             (fun c c' => defs_done doc (Gemini.emit doc) c ->
                          defs_done doc (Gemini.emit doc) c')) in H
      as (c & Hd & G & Hin & Hout); auto.
    + destruct (@defs_done_entries _ doc (Gemini.emit doc) c name def G Hin Hd Hdef)
        as (v & Hv & He).
      now exists (defs c), v.
    + apply Gemini_emit_done.
    + intros n c r Hr.
      apply (@ensureDef_done _ doc (Gemini.emit doc) Gemini.placeholder fuel n c r Hr).
      intros node c2 s2 c3 H2. split.
      * apply Gemini_emit_grows in H2. apply H2.
      * eapply Gemini_emit_done; [exact I | exact H2].
Qed.

(** ** Termination of the emitters on documents without intersections *)

Section Returning.
Context {N : JsNumber}.

Lemma bind_returns {A B : Type} (m : M A) (k : A -> M B) c :
  returns (m c) ->
  (forall a c', m c = Ok (a, c') -> returns (k a c')) ->
  returns (bind m k c).
Proof.
  unfold bind. intros Hm Hk. destruct (m c) as [[a c']| |]; auto.
Qed.

Lemma foldM_returns {A B : Type} (f : B -> A -> M B) (P : Ctx -> Prop) (l : list A) :
  (forall b a c, In a l -> P c -> returns (f b a c)) ->
  (forall b a c b' c', In a l -> P c -> f b a c = Ok (b', c') -> P c') ->
  forall b c, P c ->
    returns (foldM f l b c) /\ (forall b' c', foldM f l b c = Ok (b', c') -> P c').
Proof.
  induction l as [|a l IH]; intros Hr Hp b c Pc; simpl.
  - split; [exact I|]. intros b' c' H. apply ret_Ok in H as [_ ->]. exact Pc.
  - assert (IH' : forall b1 c1, P c1 ->
               returns (foldM f l b1 c1) /\
               (forall b' c', foldM f l b1 c1 = Ok (b', c') -> P c')).
    { apply IH; intros; [eapply Hr | eapply Hp]; try eassumption; now right. }
    split.
    + apply bind_returns; [apply Hr; [now left | exact Pc]|].
      intros b1 c1 H1. apply IH'. eapply Hp; [now left | exact Pc | exact H1].
    + intros b' c' H. apply bind_Ok in H as (b1 & c1 & H1 & H).
      eapply IH'; [|exact H]. eapply Hp; [now left | exact Pc | exact H1].
Qed.

Lemma mapM_returns {A B : Type} (f : A -> M B) (P : Ctx -> Prop) (l : list A) :
  (forall a c, In a l -> P c -> returns (f a c)) ->
  (forall a c b c', In a l -> P c -> f a c = Ok (b, c') -> P c') ->
  forall c, P c -> returns (mapM f l c).
Proof.
  induction l as [|a l IH]; intros Hr Hp c Pc; simpl; [exact I|].
  apply bind_returns; [apply Hr; [now left | exact Pc]|].
  intros b c1 H1. apply bind_returns; [|intros; exact I].
  apply IH; [| |eapply Hp; [now left | exact Pc | exact H1]].
  - intros; apply Hr; [now right | assumption].
  - intros; eapply Hp; [right| |]; eassumption.
Qed.

Lemma rmap_literalValue_returns (members : list TypeNode) :
  returns (rmap literalValue members).
Proof.
  induction members as [|m members IH]; simpl; [exact I|].
  destruct m; simpl; try exact I; destruct (rmap literalValue members); auto.
Qed.

Lemma lift_returns {A : Type} (r : result A) c : returns r -> returns (lift r c).
Proof. unfold lift. now destruct r. Qed.

Lemma max_fold_In {A : Type} (f : A -> nat) (l : list A) a :
  In a l -> f a <= fold_right (fun x acc => Nat.max (f x) acc) 0 l.
Proof.
  induction l as [|x l IH]; intros []; simpl.
  - subst. apply Nat.le_max_l.
  - etransitivity; [now apply IH | apply Nat.le_max_r].
Qed.

Lemma depth_pos (n : TypeNode) : 1 <= depth n.
Proof. destruct n; simpl; lia. Qed.

Lemma depth_union ms m : In m ms -> depth m < depth (Union ms).
Proof.
  intros H. apply (max_fold_In depth) in H.
  change (depth (Union ms))
    with (S (fold_right (fun m acc => Nat.max (depth m) acc) 0 ms)).
  lia.
Qed.

Lemma depth_child obj n : In n (children obj) -> depth n < depth (Object obj).
Proof.
  intros H.
  change (depth (Object obj))
    with (S (Nat.max
               (fold_right (fun (i : IndexSigNode) acc =>
                              Nat.max (depth (idx_valueType i)) acc) 0 (obj_indexSigs obj))
               (fold_right (fun (p : PropNode) acc =>
                              Nat.max (depth (prop_type p)) acc) 0 (obj_props obj)))).
  apply in_app_iff in H as [H|H].
  - apply in_map_iff in H as (i & <- & Hi).
    apply (max_fold_In (fun i : IndexSigNode => depth (idx_valueType i))) in Hi. lia.
  - apply in_map_iff in H as (p & <- & Hp).
    apply (max_fold_In (fun p : PropNode => depth (prop_type p))) in Hp. lia.
Qed.

Lemma free_union ms m :
  intersection_free (Union ms) = true -> In m ms -> intersection_free m = true.
Proof.
  change (intersection_free (Union ms)) with (forallb intersection_free ms).
  intros H Hin. rewrite forallb_forall in H. auto.
Qed.

Lemma free_child obj n :
  intersection_free (Object obj) = true -> In n (children obj) ->
  intersection_free n = true.
Proof.
  change (intersection_free (Object obj))
    with (forallb (fun i : IndexSigNode => intersection_free (idx_valueType i))
                  (obj_indexSigs obj)
          && forallb (fun p : PropNode => intersection_free (prop_type p))
                     (obj_props obj)).
  intros H Hin. apply andb_true_iff in H as [Hi Hp].
  rewrite forallb_forall in Hi, Hp.
  apply in_app_iff in Hin as [Hin|Hin]; apply in_map_iff in Hin as (x & <- & Hx); auto.
Qed.

Lemma map_get_In {V : Type} k (m : Map V) v : map_get k m = Some v -> In (k, v) m.
Proof.
  induction m as [|[k' v'] m IH]; simpl; [discriminate|].
  destruct (String.eqb k' k) eqn:E.
  - intros H. injection H as ->. apply String.eqb_eq in E as ->. now left.
  - intros H. right. auto.
Qed.

Lemma body_in_doc_nodes (doc : TDLDoc) name def :
  map_get name (doc_types doc) = Some def -> In (def_node def) (doc_nodes doc).
Proof.
  intros H. apply map_get_In in H. apply in_app_iff. left.
  apply (in_map (fun d : TypeDef => def_node d)).
  apply (in_map snd) in H. exact H.
Qed.

Lemma filter_length_lt {A : Type} (f g : A -> bool) (l : list A) x :
  (forall y, g y = true -> f y = true) ->
  In x l -> f x = true -> g x = false ->
  List.length (filter g l) < List.length (filter f l).
Proof.
  intros Hgf. 
  assert (Hle : forall l', List.length (filter g l') <= List.length (filter f l')).
  { induction l' as [|y l' IH]; simpl; [lia|].
    destruct (g y) eqn:Eg; [rewrite (Hgf _ Eg); simpl; lia|].
    destruct (f y); simpl; lia. }
  induction l as [|y l IH]; intros [] Hf Hg; simpl.
  - subst. rewrite Hf, Hg. simpl. specialize (Hle l). lia.
  - destruct (g y) eqn:Eg; [rewrite (Hgf _ Eg); simpl; apply IH in H; auto; lia|].
    destruct (f y); simpl; apply IH in H; auto; lia.
Qed.

Lemma pending_add (doc : TDLDoc) name (c : Ctx) :
  set_has name (stack c) = false ->
  In name (map_keys (doc_types doc)) ->
  pending doc (mkCtx (defs c) (set_add name (stack c))) < pending doc c.
Proof.
  intros Hst Hin. unfold pending. cbn [stack].
  apply filter_length_lt with (x := name); [|exact Hin|now rewrite Hst|].
  - intros y Hy. apply negb_true_iff in Hy. apply negb_true_iff.
    destruct (set_has y (stack c)) eqn:E; [|reflexivity].
    apply set_has_In in E.
    assert (H : set_has y (set_add name (stack c)) = true).
    { apply set_has_In, set_add_In. now right. }
    congruence.
  - apply negb_false_iff. apply set_has_In, set_add_In. now left.
Qed.

Lemma pending_stack (doc : TDLDoc) (c c' : Ctx) :
  stack c' = stack c -> pending doc c' = pending doc c.
Proof. unfold pending. now intros ->. Qed.
End Returning.

Section ObjectsReturn.
Context {N : JsNumber}.
Variable e : TypeNode -> M json.
Variable c0 : Ctx.
Hypothesis e_stack : forall n c1 s c2, e n c1 = Ok (s, c2) -> stack c2 = stack c1.

Lemma store_returns {Acc : Type} (g : json -> Acc) node c :
  returns (e node c) -> returns (bind (e node) (fun base => ret (g base)) c).
Proof. intros H. apply bind_returns; [exact H | intros; exact I]. Qed.

Lemma store_stack {Acc : Type} (g : json -> Acc) node c acc' c' :
  stack c = stack c0 ->
  bind (e node) (fun base => ret (g base)) c = Ok (acc', c') -> stack c' = stack c0.
Proof.
  intros Hs H. apply bind_Ok in H as (base & c1 & Hb & H). apply ret_Ok in H as [_ ->].
  rewrite (e_stack Hb). exact Hs.
Qed.

Lemma closure_test_returns (idx : IndexSigNode) c :
  returns (e (idx_valueType idx) c) ->
  returns ((if idx_optional idx
            then bind (e (idx_valueType idx)) (fun s => ret (isNeverSchema s))
            else ret false) c).
Proof. intros H. destruct (idx_optional idx); [now apply store_returns | exact I]. Qed.

Lemma closure_test_stack (idx : IndexSigNode) c b c' :
  stack c = stack c0 ->
  (if idx_optional idx
   then bind (e (idx_valueType idx)) (fun s => ret (isNeverSchema s))
   else ret false) c = Ok (b, c') ->
  stack c' = stack c0.
Proof.
  intros Hs H. destruct (idx_optional idx).
  - eapply store_stack; eassumption.
  - apply ret_Ok in H as [_ ->]. exact Hs.
Qed.

Lemma OpenAI_indexSig_stack acc (idx : IndexSigNode) c acc' c' :
  stack c = stack c0 ->
  OpenAI.emitIndexSig_ e acc idx c = Ok (acc', c') -> stack c' = stack c0.
Proof.
  intros Hs H. unfold OpenAI.emitIndexSig_ in H. destruct (idx_kind idx).
  - apply bind_Ok in H as (closure & c1 & Hc & H).
    apply closure_test_stack in Hc; [|exact Hs].
    destruct closure.
    + apply ret_Ok in H as [_ ->]. exact Hc.
    + discriminate.
  - assert (Hk : forall l b c1 b' c2,
               stack c1 = stack c0 ->
               foldM (fun acc key =>
                        bind (e (idx_valueType idx))
                             (fun base =>
                                ret (OpenAI.record acc (String_of_literal key)
                                       (OpenAI.finalSchema (idx_isArray idx)
                                          (idx_optional idx) base)))) l b c1
               = Ok (b', c2) ->
               stack c2 = stack c0).
    { induction l as [|key l IH]; intros b c1 b' c2 H1 H2; cbn [foldM] in H2.
      - apply ret_Ok in H2 as [_ ->]. exact H1.
      - apply bind_Ok in H2 as (b1 & c3 & H3 & H2).
        eapply IH; [|exact H2]. eapply store_stack; [exact H1 | exact H3]. }
    eapply Hk; eassumption.
Qed.

Lemma OpenAI_indexSig_returns acc (idx : IndexSigNode) c :
  stack c = stack c0 ->
  (forall c1, stack c1 = stack c0 -> returns (e (idx_valueType idx) c1)) ->
  returns (OpenAI.emitIndexSig_ e acc idx c).
Proof.
  intros Hs Hv. unfold OpenAI.emitIndexSig_. destruct (idx_kind idx).
  - apply bind_returns; [apply closure_test_returns, Hv, Hs|].
    intros [] c1 H1; [exact I|].
    exact I.
  - apply (@foldM_returns _ _ _ _ (fun c => stack c = stack c0)); [| |exact Hs].
    + intros b key c1 _ H1. apply store_returns, Hv, H1.
    + intros b key c1 b' c2 _ H1 H2. eapply store_stack; [exact H1 | exact H2].
Qed.

Lemma OpenAI_emitObject_returns obj :
  (forall n c1, In n (children obj) -> stack c1 = stack c0 -> returns (e n c1)) ->
  returns (OpenAI.emitObject_ e obj c0).
Proof.
  intros Hch. unfold OpenAI.emitObject_.
  destruct (@foldM_returns _ _ _ (OpenAI.emitIndexSig_ e) (fun c => stack c = stack c0)
              (obj_indexSigs obj)
              (fun acc idx c Hin Hs =>
                 @OpenAI_indexSig_returns acc idx c Hs
                   (fun c1 H1 => Hch _ c1 (children_idx _ _ Hin) H1))
              (fun acc idx c acc' c' _ Hs H => @OpenAI_indexSig_stack acc idx c acc' c' Hs H)
              ((@nil (string * json), @nil string)) c0 eq_refl)
    as [R1 P1].
  apply bind_returns; [exact R1|]. intros acc1 c1 H1. apply P1 in H1.
  apply bind_returns; [|intros; exact I].
  apply (@foldM_returns _ _ _ (OpenAI.emitProp_ e) (fun c => stack c = stack c0));
    [| |exact H1].
  - intros b p c Hin Hs. unfold OpenAI.emitProp_. apply store_returns.
    apply Hch; [now apply children_prop | exact Hs].
  - intros b p c b' c' _ Hs H. unfold OpenAI.emitProp_ in H.
    eapply store_stack; [exact Hs | exact H].
Qed.

Lemma Gemini_indexSig_stack acc (idx : IndexSigNode) c acc' c' :
  stack c = stack c0 ->
  Gemini.emitIndexSig_ e acc idx c = Ok (acc', c') -> stack c' = stack c0.
Proof.
  intros Hs H. unfold Gemini.emitIndexSig_ in H. destruct (idx_kind idx).
  - apply bind_Ok in H as (closure & c1 & Hc & H).
    apply closure_test_stack in Hc; [|exact Hs].
    destruct closure.
    + apply ret_Ok in H as [_ ->]. exact Hc.
    + eapply store_stack; [exact Hc | exact H].
  - assert (Hk : forall l b c1 b' c2,
               stack c1 = stack c0 ->
               foldM (fun acc key =>
                        bind (e (idx_valueType idx))
                             (fun base =>
                                ret (Gemini.record acc (String_of_literal key)
                                       (idx_optional idx)
                                       (Gemini.withArray (idx_isArray idx) base)))) l b c1
               = Ok (b', c2) ->
               stack c2 = stack c0).
    { induction l as [|key l IH]; intros b c1 b' c2 H1 H2; cbn [foldM] in H2.
      - apply ret_Ok in H2 as [_ ->]. exact H1.
      - apply bind_Ok in H2 as (b1 & c3 & H3 & H2).
        eapply IH; [|exact H2]. eapply store_stack; [exact H1 | exact H3]. }
    eapply Hk; eassumption.
Qed.

Lemma Gemini_indexSig_returns acc (idx : IndexSigNode) c :
  stack c = stack c0 ->
  (forall c1, stack c1 = stack c0 -> returns (e (idx_valueType idx) c1)) ->
  returns (Gemini.emitIndexSig_ e acc idx c).
Proof.
  intros Hs Hv. unfold Gemini.emitIndexSig_. destruct (idx_kind idx).
  - apply bind_returns; [apply closure_test_returns, Hv, Hs|].
    intros [] c1 H1; [exact I|].
    apply store_returns, Hv. eapply closure_test_stack; [exact Hs | exact H1].
  - apply (@foldM_returns _ _ _ _ (fun c => stack c = stack c0)); [| |exact Hs].
    + intros b key c1 _ H1. apply store_returns, Hv, H1.
    + intros b key c1 b' c2 _ H1 H2. eapply store_stack; [exact H1 | exact H2].
Qed.

Lemma Gemini_emitObject_returns obj :
  (forall n c1, In n (children obj) -> stack c1 = stack c0 -> returns (e n c1)) ->
  returns (Gemini.emitObject_ e obj c0).
Proof.
  intros Hch. unfold Gemini.emitObject_.
  destruct (@foldM_returns _ _ _ (Gemini.emitIndexSig_ e) (fun c => stack c = stack c0)
              (obj_indexSigs obj)
              (fun acc idx c Hin Hs =>
                 @Gemini_indexSig_returns acc idx c Hs
                   (fun c1 H1 => Hch _ c1 (children_idx _ _ Hin) H1))
              (fun acc idx c acc' c' _ Hs H => @Gemini_indexSig_stack acc idx c acc' c' Hs H)
              (Gemini.mkAcc [] [] (JBool (if obj_closed obj then false else true))) c0 eq_refl)
    as [R1 P1].
  apply bind_returns; [exact R1|]. intros acc1 c1 H1. apply P1 in H1.
  apply bind_returns; [|intros; exact I].
  apply (@foldM_returns _ _ _ (Gemini.emitProp_ e) (fun c => stack c = stack c0));
    [| |exact H1].
  - intros b p c Hin Hs. unfold Gemini.emitProp_. apply store_returns.
    apply Hch; [now apply children_prop | exact Hs].
  - intros b p c b' c' _ Hs H. unfold Gemini.emitProp_ in H.
    eapply store_stack; [exact Hs | exact H].
Qed.

End ObjectsReturn.

Section EmittersReturn.
Context {N : JsNumber}.
Variable doc : TDLDoc.
Hypothesis doc_free : forall n, In n (doc_nodes doc) -> intersection_free n = true.

Lemma depth_doc_node n : In n (doc_nodes doc) -> depth n <= doc_depth doc.
Proof. apply (max_fold_In depth). Qed.

Lemma pending_le (c : Ctx) : pending doc c <= List.length (doc_types doc).
Proof.
  unfold pending, map_keys.
  rewrite <- (length_map fst (doc_types doc)).
  generalize (List.map fst (doc_types doc)). intros l.
  induction l as [|x l IH]; simpl; [lia|].
  destruct (negb (set_has x (stack c))); simpl; lia.
Qed.

(** [ensureDef], for either emitter, returns when the emission of the body
    does. *)
Lemma ensureDef_returns (emit : TypeNode -> M json) (placeholder : json) name ctx :
  (forall def,
      map_get name (doc_types doc) = Some def ->
      set_has name (stack ctx) = false ->
      returns (emit (def_node def) (mkCtx (defs ctx) (set_add name (stack ctx))))) ->
  returns
    (if map_has name (defs ctx) then Ok (tt, ctx)
     else if set_has name (stack ctx) then
       Ok (tt, mkCtx (map_set name placeholder (defs ctx)) (stack ctx))
     else
       match map_get name (doc_types doc) with
       | None => Throw ("Unknown type reference: " ++ name)
       | Some def =>
           match emit (def_node def) (mkCtx (defs ctx) (set_add name (stack ctx))) with
           | Ok (schema, ctx') =>
               Ok (tt, mkCtx (map_set name schema (defs ctx'))
                             (set_delete name (stack ctx')))
           | Throw msg => Throw msg
           | OutOfFuel => OutOfFuel
           end
       end).
Proof.
  intros H. destruct (map_has name (defs ctx)); [exact I|].
  destruct (set_has name (stack ctx)); [exact I|].
  destruct (map_get name (doc_types doc)) as [def|]; [|exact I].
  specialize (H def eq_refl eq_refl).
  destruct (emit _ _) as [[schema ctx']| |]; auto.
Qed.

Lemma body_budget name def (c : Ctx) fuel :
  map_get name (doc_types doc) = Some def ->
  set_has name (stack c) = false ->
  pending doc c * S (doc_depth doc) <= fuel ->
  intersection_free (def_node def) = true /\
  depth (def_node def)
  + pending doc (mkCtx (defs c) (set_add name (stack c))) * S (doc_depth doc) <= fuel.
Proof.
  intros Hdef Hst Hf.
  assert (Hin : In (def_node def) (doc_nodes doc)).
  { eapply body_in_doc_nodes; exact Hdef. }
  split; [now apply doc_free|].
  assert (Hd : depth (def_node def) <= doc_depth doc) by now apply depth_doc_node.
  assert (Hk : In name (map_keys (doc_types doc))).
  { eapply map_get_Some_In; exact Hdef. }
  assert (Hp : pending doc (mkCtx (defs c) (set_add name (stack c))) < pending doc c)
    by now apply pending_add.
  nia.
Qed.

Lemma OpenAI_emit_returns fuel :
  forall node c,
    intersection_free node = true ->
    depth node + pending doc c * S (doc_depth doc) <= fuel ->
    returns (OpenAI.emit doc fuel node c).
Proof.
  induction fuel as [|fuel IH]; intros node c Hfree Hfuel.
  { pose proof (depth_pos node). lia. }
  assert (Hstack : forall n c1 s c2,
             OpenAI.emit doc fuel n c1 = Ok (s, c2) -> stack c2 = stack c1).
  { intros n c1 s c2 H. apply OpenAI_emit_grows in H. apply H. }
  destruct node; cbn [OpenAI.emit]; try exact I.
  - apply bind_returns; [|intros; exact I].
    apply ensureDef_returns. intros def Hdef Hst.
    destruct (@body_budget name def c fuel Hdef Hst) as [Hb1 Hb2].
    { change (depth (TypeRef name)) with 1 in Hfuel. lia. }
    apply IH; assumption.
  - destruct (forallb isScalarLiteral members).
    + apply bind_returns; [|intros; exact I].
      apply lift_returns, rmap_literalValue_returns.
    + apply bind_returns; [|intros; exact I].
      apply (@mapM_returns _ _ _ _ (fun c1 => stack c1 = stack c)); [| |reflexivity].
      * intros m c1 Hin Hs. apply IH; [eapply free_union; eassumption|].
        assert (Hd : depth m < depth (Union members)) by now apply depth_union.
        rewrite (@pending_stack _ doc c c1 Hs). lia.
      * intros m c1 b c2 _ Hs H. apply Hstack in H. congruence.
  - discriminate.
  - apply OpenAI_emitObject_returns; [exact Hstack|].
    intros n c1 Hin Hs. apply IH; [eapply free_child; eassumption|].
    assert (Hd : depth n < depth (Object obj)) by now apply depth_child.
    rewrite (@pending_stack _ doc c c1 Hs). lia.
Qed.

Lemma Gemini_emit_returns fuel :
  forall node c,
    intersection_free node = true ->
    depth node + pending doc c * S (doc_depth doc) <= fuel ->
    returns (Gemini.emit doc fuel node c).
Proof.
  induction fuel as [|fuel IH]; intros node c Hfree Hfuel.
  { pose proof (depth_pos node). lia. }
  assert (Hstack : forall n c1 s c2,
             Gemini.emit doc fuel n c1 = Ok (s, c2) -> stack c2 = stack c1).
  { intros n c1 s c2 H. apply Gemini_emit_grows in H. apply H. }
  destruct node; cbn [Gemini.emit]; try exact I.
  - apply bind_returns; [|intros; exact I].
    apply ensureDef_returns. intros def Hdef Hst.
    destruct (@body_budget name def c fuel Hdef Hst) as [Hb1 Hb2].
    { change (depth (TypeRef name)) with 1 in Hfuel. lia. }
    apply IH; assumption.
  - destruct (forallb isScalarLiteral members).
    + apply bind_returns; [|intros; exact I].
      apply lift_returns, rmap_literalValue_returns.
    + apply bind_returns; [|intros; exact I].
      apply (@mapM_returns _ _ _ _ (fun c1 => stack c1 = stack c)); [| |reflexivity].
      * intros m c1 Hin Hs. apply IH; [eapply free_union; eassumption|].
        assert (Hd : depth m < depth (Union members)) by now apply depth_union.
        rewrite (@pending_stack _ doc c c1 Hs). lia.
      * intros m c1 b c2 _ Hs H. apply Hstack in H. congruence.
  - discriminate.
  - apply Gemini_emitObject_returns; [exact Hstack|].
    intros n c1 Hin Hs. apply IH; [eapply free_child; eassumption|].
    assert (Hd : depth n < depth (Object obj)) by now apply depth_child.
    rewrite (@pending_stack _ doc c c1 Hs). lia.
Qed.

Lemma symbol_budget (sym : SymbolDef) (c : Ctx) fuel :
  In sym (doc_symbols doc) -> fuel_bound doc <= fuel ->
  intersection_free (sym_type sym) = true /\
  depth (sym_type sym) + pending doc c * S (doc_depth doc) <= fuel.
Proof.
  intros Hin Hf.
  assert (Hn : In (sym_type sym) (doc_nodes doc)).
  { apply in_app_iff. right. now apply (in_map (fun s : SymbolDef => sym_type s)). }
  split; [now apply doc_free|].
  assert (Hd : depth (sym_type sym) <= doc_depth doc) by now apply depth_doc_node.
  pose proof (pending_le c). unfold fuel_bound in Hf. nia.
Qed.

Lemma registration_budget (c : Ctx) fuel :
  fuel_bound doc <= fuel -> pending doc c * S (doc_depth doc) <= fuel.
Proof. intros Hf. pose proof (pending_le c). unfold fuel_bound in Hf. nia. Qed.

Lemma OpenAI_generate_returns fuel :
  fuel_bound doc <= fuel -> returns (OpenAI.generateOpenAISchema doc fuel).
Proof.
  intros Hf. unfold OpenAI.generateOpenAISchema.
  assert (H : returns
                (bind (foldM (fun (_ : unit) name => OpenAI.ensureDef doc fuel name)
                             (map_keys (doc_types doc)) tt)
                      (fun _ => foldM (OpenAI.emitSymbol doc fuel) (doc_symbols doc) ([], []))
                      (mkCtx [] []))).
  { apply bind_returns.
    - apply (@foldM_returns _ _ _ _ (fun _ => True)); auto.
      intros [] name c _ _. unfold OpenAI.ensureDef, OpenAI.ensureDef_.
      apply ensureDef_returns. intros def Hdef Hst.
      destruct (@body_budget name def c fuel Hdef Hst (registration_budget c Hf)).
      now apply OpenAI_emit_returns.
    - intros [] c1 _.
      apply (@foldM_returns _ _ _ _ (fun _ => True)); auto.
      intros acc sym c Hin _. unfold OpenAI.emitSymbol.
      apply bind_returns; [|intros; exact I].
      destruct (@symbol_budget sym c fuel Hin Hf). now apply OpenAI_emit_returns. }
  destruct (bind _ _ _) as [[acc c]| |]; auto.
Qed.

Lemma Gemini_generate_returns fuel :
  fuel_bound doc <= fuel -> returns (Gemini.generateGeminiSchema doc fuel).
Proof.
  intros Hf. unfold Gemini.generateGeminiSchema.
  assert (H : returns
                (bind (foldM (fun (_ : unit) name => Gemini.ensureDef doc fuel name)
                             (map_keys (doc_types doc)) tt)
                      (fun _ => foldM (Gemini.emitSymbol doc fuel) (doc_symbols doc)
                                      (Gemini.mkAcc [] [] (JBool false)))
                      (mkCtx [] []))).
  { apply bind_returns.
    - apply (@foldM_returns _ _ _ _ (fun _ => True)); auto.
      intros [] name c _ _. unfold Gemini.ensureDef, Gemini.ensureDef_.
      apply ensureDef_returns. intros def Hdef Hst.
      destruct (@body_budget name def c fuel Hdef Hst (registration_budget c Hf)).
      now apply Gemini_emit_returns.
    - intros [] c1 _.
      apply (@foldM_returns _ _ _ _ (fun _ => True)); auto.
      intros acc sym c Hin _. unfold Gemini.emitSymbol.
      apply bind_returns; [|intros; exact I].
      destruct (@symbol_budget sym c fuel Hin Hf). now apply Gemini_emit_returns. }
  destruct (bind _ _ _) as [[acc c]| |]; auto.
Qed.
End EmittersReturn.

(** On a document in which no intersection occurs, both generators return,
    with a schema or with a thrown error, at every call depth from
    [fuel_bound doc] on: recursion through properties, index signatures,
    unions and type references is cut by the stack of names under emission,
    however the named types refer to each other. *)
Theorem emission_terminates_without_intersections
        {N : JsNumber} (doc : TDLDoc) (fuel : nat) :
  forallb intersection_free (doc_nodes doc) = true ->
  fuel_bound doc <= fuel ->
  returns (OpenAI.generateOpenAISchema doc fuel) /\
  returns (Gemini.generateGeminiSchema doc fuel).
Proof.
  intros Hfree Hfuel. rewrite forallb_forall in Hfree.
  split; [now apply OpenAI_generate_returns | now apply Gemini_generate_returns].
Qed.

(** The recursive type [Tree] of [tree_yaml] is emitted at depth 6. *)
Lemma emission_terminates_without_intersections_witness :
  fuel_bound tree_doc = 6 /\
  returns (OpenAI.generateOpenAISchema tree_doc 6) /\
  returns (Gemini.generateGeminiSchema tree_doc 6).
Proof.
  split; [reflexivity|].
  apply (@emission_terminates_without_intersections DecimalNumber tree_doc 6).
  - reflexivity.
  - apply le_n.
Defined.

(** The schema of [Tree] in the output for [tree_yaml] is a schema emitted
    for the body of [Tree]. *)
Lemma defs_entries_are_emitted_bodies_witness :
  exists entries v,
    obj_get "$defs" tree_openai = Some (JObj entries) /\
    map_get "Tree" entries = Some v /\
    emitted_by (OpenAI.emit tree_doc) (def_node tree_def) v.
Proof.
  apply (proj1 (@defs_entries_are_emitted_bodies DecimalNumber tree_doc 10 tree_openai
                  "Tree" tree_def eq_refl)).
  reflexivity.
Defined.

(** The object [A & B] of [override_yaml] merges into, as the OpenAI emitter
    lowers it. *)
Lemma OpenAI_object_schema_shape_witness :
  exists props required,
    obj_get "type" override_schema = Some (JStr "object") /\
    obj_get "additionalProperties" override_schema = Some (JBool false) /\
    obj_get "properties" override_schema = Some (JObj props) /\
    obj_get "required" override_schema = Some (JArr (List.map JStr required)) /\
    incl (map_keys props) required /\
    (forall k, In k required -> k <> "__proto__" -> In k (map_keys props)).
Proof.
  apply (@OpenAI_object_schema_shape DecimalNumber (OpenAI.emit override_doc 5)
           override_merged empty_ctx override_schema empty_ctx).
  reflexivity.
Defined.

(** ** Openness of the objects of the Gemini emitter *)

Section Openness.
Context {N : JsNumber}.
Variable doc : TDLDoc.

Lemma never_schema_detected : isNeverSchema (primitiveToSchema PNever) = true.
Proof.
  unfold isNeverSchema. cbn [primitiveToSchema obj_get map_get].
  change ("type" =? "type") with true. cbn iota.
  change ("type" =? "minimum") with false. change ("minimum" =? "minimum") with true.
  change ("type" =? "maximum") with false. change ("minimum" =? "maximum") with false.
  change ("maximum" =? "maximum") with true. cbn iota.
  rewrite one_gt_zero. reflexivity.
Qed.

Lemma Gemini_props_keep (e : TypeNode -> M json) (props : list PropNode) acc c acc' c' :
  foldM (Gemini.emitProp_ e) props acc c = Ok (acc', c') ->
  Gemini.additionalProps acc' = Gemini.additionalProps acc.
Proof.
  revert acc c. induction props as [|p props IH]; intros acc c H; cbn [foldM] in H.
  - now apply ret_Ok in H as [-> _].
  - apply bind_Ok in H as (acc1 & c1 & H1 & H). apply IH in H. rewrite H.
    unfold Gemini.emitProp_ in H1.
    apply bind_Ok in H1 as (base & c2 & Hb & H1). now apply ret_Ok in H1 as [-> _].
Qed.

Lemma Gemini_enum_sig_keeps (e : TypeNode -> M json) (idx : IndexSigNode) acc c acc' c' :
  idx_kind idx = KEnum ->
  Gemini.emitIndexSig_ e acc idx c = Ok (acc', c') ->
  Gemini.additionalProps acc' = Gemini.additionalProps acc.
Proof.
  intros Hk H. unfold Gemini.emitIndexSig_ in H. rewrite Hk in H.
  revert acc c H.
  induction (match idx_keys idx with Some ks => ks | None => [] end) as [|key keys IH];
    intros acc c H; cbn [foldM] in H.
  - now apply ret_Ok in H as [-> _].
  - apply bind_Ok in H as (acc1 & c1 & H1 & H). apply IH in H. rewrite H.
    apply bind_Ok in H1 as (base & c2 & Hb & H1). now apply ret_Ok in H1 as [-> _].
Qed.

Lemma Gemini_enum_sigs_keep_all (e : TypeNode -> M json) (sigs : list IndexSigNode)
      acc c acc' c' :
  Forall (fun i : IndexSigNode => idx_kind i = KEnum) sigs ->
  foldM (Gemini.emitIndexSig_ e) sigs acc c = Ok (acc', c') ->
  Gemini.additionalProps acc' = Gemini.additionalProps acc.
Proof.
  intros Hs. revert acc c. induction Hs as [|i sigs Hi _ IH]; intros acc c H;
    cbn [foldM] in H.
  - now apply ret_Ok in H as [-> _].
  - apply bind_Ok in H as (acc1 & c1 & H1 & H). apply IH in H. rewrite H.
    eapply Gemini_enum_sig_keeps; eassumption.
Qed.
End Openness.

(** An object of the Gemini emitter has [type] object.  Without a
    string-domain index signature its [additionalProperties] is the negation
    of its [closed] flag: open unless the closure sugar was written.  When
    its last string-domain signature is the closure form (optional, over
    [never]), [additionalProperties] is [false]. *)
Theorem Gemini_object_openness
        {N : JsNumber} (doc : TDLDoc) (fuel : nat) (obj : ObjectNode) c s c' :
  Gemini.emitObject doc fuel obj c = Ok (s, c') ->
  obj_get "type" s = Some (JStr "object") /\
  (Forall (fun i : IndexSigNode => idx_kind i = KEnum) (obj_indexSigs obj) ->
   obj_get "additionalProperties" s = Some (JBool (negb (obj_closed obj)))) /\
  (forall pre idx post,
      obj_indexSigs obj = (pre ++ idx :: post)%list ->
      idx_kind idx = KString -> idx_optional idx = true ->
      idx_valueType idx = Primitive PNever ->
      Forall (fun i : IndexSigNode => idx_kind i = KEnum) post ->
      obj_get "additionalProperties" s = Some (JBool false)).
Proof.
  intros H. unfold Gemini.emitObject, Gemini.emitObject_ in H.
  apply bind_Ok in H as (acc1 & c1 & H1 & H).
  apply bind_Ok in H as (acc2 & c2 & H2 & H).
  apply ret_Ok in H as [-> _].
  apply Gemini_props_keep in H2.
  split; [reflexivity|]. split.
  - intros Hall. apply Gemini_enum_sigs_keep_all in H1; [|exact Hall].
    cbn [obj_get map_get]. simpl. rewrite H2, H1. cbn [Gemini.additionalProps].
    now destruct (obj_closed obj).
  - intros pre idx post Hsigs Hk Ho Hv Hpost. rewrite Hsigs in H1.
    apply foldM_app_Ok in H1 as (b1 & c3 & b2 & c4 & _ & Hx & Hrest).
    apply Gemini_enum_sigs_keep_all in Hrest; [|exact Hpost].
    unfold Gemini.emitIndexSig_ in Hx. rewrite Hk, Ho, Hv in Hx.
    apply bind_Ok in Hx as (closure & c5 & Hc & Hx).
    apply bind_Ok in Hc as (s0 & c6 & Hs & Hc). apply ret_Ok in Hc as [-> ->].
    destruct fuel as [|fuel]; [discriminate|]. cbn [Gemini.emit] in Hs.
    apply ret_Ok in Hs as [-> ->]. rewrite never_schema_detected in Hx.
    apply ret_Ok in Hx as [-> _].
    simpl. rewrite H2, Hrest. reflexivity.
Qed.

(** The objects [keyed_object] (open) and [sealed_object] (closed by a
    string signature over [never]). *)
Lemma Gemini_object_openness_witness :
  Gemini.emitObject empty_doc 5 keyed_object empty_ctx
  = Ok (JObj [("type", JStr "object");
              ("properties", JObj [("a", JObj [("type", JStr "string")])]);
              ("required", JArr []);
              ("additionalProperties", JBool true)], empty_ctx) /\
  obj_get "additionalProperties"
    (JObj [("type", JStr "object");
           ("properties", JObj [("x", JObj [("type", JStr "string")])]);
           ("required", JArr [JStr "x"]);
           ("additionalProperties", JBool false)] : @json DecimalNumber)
  = Some (JBool false).
Proof.
  split; [reflexivity|].
  apply (proj2 (proj2 (@Gemini_object_openness DecimalNumber empty_doc 5 sealed_object
                         empty_ctx _ empty_ctx eq_refl))
           [] (mkIndexSig KString None (Primitive PNever) true false) []);
    try reflexivity. constructor.
Defined.

(** ** The order of the properties of a merged object *)

Section MergeOrder.
Context {N : JsNumber}.

Lemma map_has_set_has {V : Type} k (m : Map V) : map_has k m = set_has k (map_keys m).
Proof.
  apply eq_true_iff_eq. rewrite map_has_In, set_has_In. reflexivity.
Qed.

Lemma map_keys_set_add {V : Type} k (v : V) (m : Map V) :
  map_keys (map_set k v m) = set_add k (map_keys m).
Proof. rewrite map_keys_set. unfold set_add. now rewrite map_has_set_has. Qed.

Lemma map_keys_fold_set_prop (ps : list PropNode) (m : Map PropNode) :
  map_keys (fold_left set_prop ps m) =
  fold_left (fun s k => set_add k s) (List.map (fun p : PropNode => prop_name p) ps)
            (map_keys m).
Proof.
  revert m. induction ps as [|p ps IH]; intros m; [reflexivity|].
  cbn [fold_left List.map]. rewrite IH. unfold set_prop at 1.
  now rewrite map_keys_set_add.
Qed.
End MergeOrder.

(** The properties of the object an intersection merges into stand in the
    order in which their names first occur among the properties of the
    resolved operands, left to right: a property that a later operand
    redefines keeps the place of its first definition. *)
Theorem intersection_property_order
        {N : JsNumber} (doc : TDLDoc) (fuel : nat) (parts : list TypeNode)
        (merged : ObjectNode) :
  mergeObjects doc fuel parts = Ok merged ->
  exists objs,
    Forall2 (fun p o => resolveObject doc fuel p = Ok o) parts objs /\
    List.map (fun p : PropNode => prop_name p) (obj_props merged) =
    first_occurrences
      (List.map (fun p : PropNode => prop_name p)
                (flat_map (fun o : ObjectNode => obj_props o) objs)).
Proof.
  unfold mergeObjects, mergeWith. intros H.
  destruct (rfold _ parts _) as [[[outProps outIdx] closed]| |] eqn:Hfold;
    try discriminate.
  injection H as <-.
  apply rfold_resolve in Hfold as (objs & HF & Hacc).
  pose proof (eq_trans Hacc (fold_mergeStep objs [] [] false)) as E.
  injection E as -> _ _.
  exists objs. split; [exact HF|]. cbn [obj_props].
  rewrite keyed_names.
  - apply map_keys_fold_set_prop.
  - apply keyed_by_name_fold. intros k p [].
Qed.

(** In [A & B] of [override_yaml], [x] is redefined by [B] and stays first. *)
Lemma intersection_property_order_witness :
  exists objs,
    Forall2 (fun p o => resolveObject override_doc 5 p = Ok o) override_parts objs /\
    List.map (fun p : PropNode => prop_name p) (obj_props override_merged) =
    first_occurrences
      (List.map (fun p : PropNode => prop_name p)
                (flat_map (fun o : ObjectNode => obj_props o) objs)).
Proof.
  apply (@intersection_property_order DecimalNumber override_doc 5 override_parts
           override_merged).
  reflexivity.
Defined.

(** ** The encoding of [never] *)

(** A schema either emitter returns is the [never] encoding, as the closure
    test of [emitObject] detects it, exactly when the node is the primitive
    [never]. *)
Theorem never_encoding_only_for_never
        {N : JsNumber} (doc : TDLDoc) (fuel : nat) (node : TypeNode) c s c' :
  OpenAI.emit doc fuel node c = Ok (s, c') \/ Gemini.emit doc fuel node c = Ok (s, c') ->
  (isNeverSchema s = true <-> node = Primitive PNever).
Proof.
  intros H. split.
  - intros Hs.
    assert (Hd : node = Primitive PNever \/ node <> Primitive PNever).
    { destruct node as [[]| | | | | | |]; (now left) || (right; discriminate). }
    destruct Hd as [Hd|Hd]; [exact Hd|].
    destruct H as [H|H];
      [eapply OpenAI_emit_not_never in H | eapply Gemini_emit_not_never in H];
      try exact Hd; congruence.
  - intros ->. destruct fuel as [|fuel]; [destruct H; discriminate|].
    destruct H as [H|H]; simpl in H; apply ret_Ok in H as [-> _];
      apply never_schema_detected.
Qed.

(** The schema of the primitive [never] is detected. *)
Lemma never_encoding_only_for_never_witness :
  isNeverSchema (primitiveToSchema PNever : @json DecimalNumber) = true.
Proof.
  apply (proj2 (@never_encoding_only_for_never DecimalNumber empty_doc 1
                  (Primitive PNever) empty_ctx (primitiveToSchema PNever) empty_ctx
                  (or_introl eq_refl))).
  reflexivity.
Defined.

(** ** Balanced parentheses *)

Section Balanced.
Lemma balancedLoop_spec (l : list ascii) :
  forall d, (0 <= d)%Z ->
    (balancedLoop l d = true <->
     (forall n, (0 <= d + paren_sum (firstn n l))%Z) /\ (d + paren_sum l = 0)%Z).
Proof.
  induction l as [|c l IH]; intros d Hd; simpl balancedLoop.
  - rewrite Z.eqb_eq. split.
    + intros ->. split; [intros n; rewrite firstn_nil; simpl; lia | simpl; lia].
    + intros [_ H]. simpl in H. lia.
  - change (if Ascii.eqb c "(" then (d + 1)%Z
            else if Ascii.eqb c ")" then (d - 1)%Z else d)
      with (if Ascii.eqb c "(" then (d + 1)%Z
            else if Ascii.eqb c ")" then (d + -1)%Z else d).
    assert (Hd' : (if Ascii.eqb c "(" then (d + 1)%Z
                   else if Ascii.eqb c ")" then (d + -1)%Z else d)
                  = (d + paren_delta c)%Z).
    { unfold paren_delta. destruct (Ascii.eqb c "("); [reflexivity|].
      destruct (Ascii.eqb c ")"); lia. }
    rewrite Hd'. clear Hd'.
    destruct (Z.ltb_spec (d + paren_delta c) 0) as [Hlt|Hge].
    + split; [discriminate|]. intros [H _]. specialize (H 1). simpl in H. lia.
    + rewrite (IH _ Hge). split.
      * intros [H1 H2]. split.
        -- intros [|n]; [simpl; lia|]. specialize (H1 n). simpl. simpl in H1. lia.
        -- simpl. lia.
      * intros [H1 H2]. split.
        -- intros n. specialize (H1 (S n)). simpl in H1. lia.
        -- simpl in H2. lia.
Qed.
End Balanced.

(** [isBalancedParens] accepts a text exactly when no prefix of it closes
    more parentheses than it opens and the whole text closes as many as it
    opens. *)
Theorem isBalancedParens_spec (s : string) :
  isBalancedParens s = true <->
  (forall n, (0 <= paren_sum (firstn n (chars s)))%Z) /\ paren_sum (chars s) = 0%Z.
Proof.
  unfold isBalancedParens. rewrite (balancedLoop_spec (chars s) (Z.le_refl 0)).
  simpl. reflexivity.
Qed.

(** ** Characters of strings, and trimming *)

Section Texts.
Lemma chars_app (s1 s2 : string) : chars (s1 ++ s2) = (chars s1 ++ chars s2)%list.
Proof.
  unfold chars. induction s1 as [|c s1 IH]; simpl; [reflexivity|]. now rewrite IH.
Qed.

Lemma str_chars (s : string) : str (chars s) = s.
Proof. apply string_of_list_ascii_of_string. Qed.

Lemma chars_str (l : list ascii) : chars (str l) = l.
Proof. apply list_ascii_of_string_of_list_ascii. Qed.

Lemma dropWhile_head (p : ascii -> bool) c l : p c = false -> dropWhile p (c :: l) = c :: l.
Proof. intros H. simpl. now rewrite H. Qed.

Lemma dropWhile_all (p : ascii -> bool) l1 l2 :
  forallb p l1 = true -> dropWhile p (l1 ++ l2) = dropWhile p l2.
Proof.
  induction l1 as [|c l1 IH]; simpl; [reflexivity|].
  intros H. apply andb_true_iff in H as [-> H]. auto.
Qed.

Lemma takeWhile_all (p : ascii -> bool) l1 l2 :
  forallb p l1 = true -> takeWhile p (l1 ++ l2) = (l1 ++ takeWhile p l2)%list.
Proof.
  induction l1 as [|c l1 IH]; simpl; [reflexivity|].
  intros H. apply andb_true_iff in H as [-> H]. now rewrite IH.
Qed.

Lemma dropWhile_all_nil (p : ascii -> bool) l : forallb p l = true -> dropWhile p l = [].
Proof. intros H. rewrite <- (app_nil_r l). now rewrite dropWhile_all. Qed.

Lemma takeWhile_all_nil (p : ascii -> bool) l : forallb p l = true -> takeWhile p l = l.
Proof.
  intros H. rewrite <- (app_nil_r l) at 1. rewrite takeWhile_all by assumption.
  simpl. apply app_nil_r.
Qed.

(** A text that neither starts nor ends with white space is its own trim. *)
Lemma trim_chars_fixed (l : list ascii) :
  match l with [] => True | c :: _ => is_space c = false end ->
  match rev l with [] => True | c :: _ => is_space c = false end ->
  trim_chars l = l.
Proof.
  intros H1 H2. unfold trim_chars.
  assert (E1 : dropWhile is_space l = l).
  { destruct l as [|c l]; [reflexivity | now apply dropWhile_head]. }
  rewrite E1.
  assert (E2 : dropWhile is_space (rev l) = rev l).
  { destruct (rev l) as [|c r]; [reflexivity | now apply dropWhile_head]. }
  rewrite E2. apply rev_involutive.
Qed.

Lemma trim_chars_solid (l : list ascii) :
  forallb (fun c => negb (is_space c)) l = true -> trim_chars l = l.
Proof.
  intros H. rewrite forallb_forall in H. apply trim_chars_fixed.
  - destruct l as [|c l]; [exact I|]. apply negb_true_iff, H. now left.
  - destruct (rev l) as [|c r] eqn:E; [exact I|]. apply negb_true_iff, H.
    apply in_rev. rewrite E. now left.
Qed.
End Texts.

(** ** Quoted literals *)

Section Quoting.
Context {N : JsNumber}.

Lemma tryParseLiteral_quoted_chars (q : ascii) (l : list ascii) :
  q = dquote \/ q = "'"%char ->
  tryParseLiteral (str (q :: l ++ [q])) = Some (LString (str l)).
Proof.
  intros Hq. unfold tryParseLiteral. rewrite chars_str.
  assert (Hsp : is_space q = false) by (destruct Hq; subst; reflexivity).
  rewrite trim_chars_fixed.
  - assert (Hs : starts_with [q] (q :: l ++ [q]) = true).
    { simpl. now rewrite Ascii.eqb_refl. }
    assert (He : ends_with [q] (q :: l ++ [q]) = true).
    { unfold ends_with. change (q :: l ++ [q])%list with ((q :: l) ++ [q])%list.
      rewrite rev_app_distr. simpl. now rewrite Ascii.eqb_refl. }
    assert (Hsl : slice_1_m1 (q :: l ++ [q]) = l).
    { unfold slice_1_m1. simpl tl. apply removelast_last. }
    rewrite Hsl. destruct Hq; subst q; rewrite Hs, He; cbn [andb orb];
      rewrite ?orb_true_r; reflexivity.
  - exact Hsp.
  - change (q :: l ++ [q])%list with ((q :: l) ++ [q])%list.
    rewrite rev_app_distr. exact Hsp.
Qed.
End Quoting.

(** A text between two double quotes, or between two single quotes, parses
    as the string literal of the text as it stands, whatever the text holds:
    quotes and backslashes inside it are kept, nothing is unescaped. *)
Theorem tryParseLiteral_quoted {N : JsNumber} (q : ascii) (s : string) :
  q = dquote \/ q = "'"%char ->
  tryParseLiteral (quoted q s) = Some (LString s) /\
  String_of_literal (LString s) = s.
Proof.
  intros Hq. split; [|reflexivity].
  pose proof (tryParseLiteral_quoted_chars (chars s) Hq) as H.
  rewrite str_chars in H. rewrite <- H. f_equal.
  unfold quoted. rewrite <- (str_chars (String q (s ++ String q ""))). f_equal.
  change (chars (String q (s ++ String q ""))) with (q :: chars (s ++ String q "")).
  now rewrite chars_app.
Qed.

(** The text [it's], between single quotes. *)
Lemma tryParseLiteral_quoted_witness :
  @tryParseLiteral DecimalNumber "'it's'" = Some (LString "it's") /\
  @String_of_literal DecimalNumber (LString "it's") = "it's".
Proof.
  apply (@tryParseLiteral_quoted DecimalNumber "'"%char "it's"). right. reflexivity.
Defined.

(** ** Splitting a text that does not hold the separator *)

Section Splitting.

Lemma splitLoop_no_sep (sep : ascii) (l : list ascii) :
  ~ In sep l ->
  forall prev parts depthParen depthAngle cur inStr,
    splitLoop sep l prev parts depthParen depthAngle cur inStr = (parts, (cur ++ l)%list).
Proof.
  induction l as [|ch l IH]; intros Hs prev parts dp da cur inStr; cbn [splitLoop].
  - now rewrite app_nil_r.
  - assert (Hne : Ascii.eqb ch sep = false).
    { apply Ascii.eqb_neq. intros ->. apply Hs. now left. }
    assert (Hl : ~ In sep l) by (intros H; apply Hs; now right).
    assert (Happ : ((cur ++ [ch]) ++ l = cur ++ ch :: l)%list)
      by now rewrite <- app_assoc.
    destruct inStr as [q|].
    + rewrite IH by assumption. now rewrite Happ.
    + destruct (Ascii.eqb ch dquote || Ascii.eqb ch "'").
      * rewrite IH by assumption. now rewrite Happ.
      * rewrite Hne, !andb_false_r. rewrite IH by assumption. now rewrite Happ.
Qed.

Lemma splitTopLevel_no_sep (s : string) (sep : ascii) :
  ~ In sep (chars s) ->
  splitTopLevel s sep =
  match trim_chars (chars s) with
  | [] => []
  | c :: cs => [str (c :: cs)]
  end.
Proof.
  intros H. unfold splitTopLevel. rewrite splitLoop_no_sep by exact H. reflexivity.
Qed.
End Splitting.

(** A text that does not hold the separator character is not split:
    [splitTopLevel] returns the trimmed text alone, or nothing when the text
    is blank. *)
Theorem splitTopLevel_without_separator (s : string) (sep : ascii) :
  ~ In sep (chars s) ->
  splitTopLevel s sep = (if String.eqb (trim s) "" then [] else [trim s]).
Proof.
  intros H. rewrite splitTopLevel_no_sep by exact H. unfold trim.
  destruct (trim_chars (chars s)) as [|c cs]; reflexivity.
Qed.

(** A text with a bar, split at the ampersand it does not hold. *)
Lemma splitTopLevel_without_separator_witness :
  splitTopLevel " a(b|c) " "&" = ["a(b|c)"].
Proof.
  apply (@splitTopLevel_without_separator " a(b|c) " "&"%char).
  simpl. intros H. repeat (destruct H as [H|H]; [discriminate H|]). exact H.
Defined.

(** ** Property labels *)

Section Labels.

Lemma re_label_suffix (c : ascii) (rest tail : list ascii) :
  is_lower c = true -> forallb is_word rest = true ->
  match tail with [] => True | t :: _ => is_word t = false end ->
  forallb (fun x => negb (is_line_terminator x)) tail = true ->
  re_label (c :: rest ++ tail) = Some (c :: rest, tail).
Proof.
  intros Hc Hr Ht Hl. unfold re_label. rewrite Hc.
  assert (Hd : dropWhile is_word (rest ++ tail) = tail).
  { rewrite dropWhile_all by assumption.
    destruct tail as [|t tail]; [reflexivity | now apply dropWhile_head]. }
  assert (Hk : takeWhile is_word (rest ++ tail) = rest).
  { rewrite takeWhile_all by assumption.
    destruct tail as [|t tail]; simpl; [|rewrite Ht]; apply app_nil_r. }
  rewrite Hd, Hk, Hl. reflexivity.
Qed.

Lemma parseLabel_suffix (c : ascii) (rest : list ascii) (suffix : string) :
  is_lower c = true -> forallb is_word rest = true ->
  match chars suffix with [] => True | t :: _ => is_word t = false end ->
  forallb (fun x => negb (is_line_terminator x)) (chars suffix) = true ->
  parseLabel (str (c :: rest) ++ suffix) =
  Ok (str (c :: rest),
      includes (chars "[]") (trim_chars (chars suffix)),
      includes (chars "?") (trim_chars (chars suffix))).
Proof.
  intros Hc Hr Ht Hl. unfold parseLabel.
  rewrite chars_app, chars_str. cbn [app].
  rewrite re_label_suffix by assumption. reflexivity.
Qed.
End Labels.

(** A property label is decoded into what it was written from: a name (a
    lower-case letter, then letters, digits and underscores) followed by
    [?] for an optional property and by [[]] for an array, in either order,
    gives back the name and the two flags. *)
Theorem parseLabel_decodes (c : ascii) (rest : list ascii) (optional isArray : bool) :
  is_lower c = true -> forallb is_word rest = true ->
  let name := str (c :: rest) in
  parseLabel (name ++ (if optional then "?" else "") ++ (if isArray then "[]" else ""))
  = Ok (name, isArray, optional) /\
  parseLabel (name ++ "[]?") = Ok (name, true, true).
Proof.
  intros Hc Hr name. split.
  - unfold name. rewrite parseLabel_suffix by (try assumption; now destruct optional, isArray).
    now destruct optional, isArray.
  - unfold name. now rewrite parseLabel_suffix.
Qed.

(** The labels [items?[]] and [items[]?]. *)
Lemma parseLabel_decodes_witness :
  parseLabel "items?[]" = Ok ("items", true, true) /\
  parseLabel "items[]?" = Ok ("items", true, true).
Proof.
  apply (@parseLabel_decodes "i"%char (chars "tems") true true);
    reflexivity.
Defined.

(** ** Identifiers as type expressions *)

Section WordCharacters.
Lemma word_char_plain (c : ascii) :
  is_word c = true ->
  is_space c = false /\ Ascii.eqb c "=" = false /\ Ascii.eqb c ":" = false /\
  Ascii.eqb c "|" = false /\ Ascii.eqb c "&" = false /\ Ascii.eqb c "(" = false /\
  Ascii.eqb c dquote = false /\ Ascii.eqb c "'" = false.
Proof.
  destruct c as [[] [] [] [] [] [] [] []]; vm_compute; intros H;
    first [discriminate H | repeat split].
Qed.

Lemma upper_char (c : ascii) :
  is_upper c = true -> is_word c = true /\ is_lower c = false /\ is_digit c = false.
Proof.
  destruct c as [[] [] [] [] [] [] [] []]; vm_compute; intros H;
    first [discriminate H | repeat split].
Qed.

Lemma upper_not_lower (c d : ascii) :
  is_upper c = true -> is_lower d = true -> Ascii.eqb d c = false.
Proof.
  intros Hc Hd. apply Ascii.eqb_neq. intros ->.
  apply upper_char in Hc as (_ & Hl & _). congruence.
Qed.

Lemma word_chars_lack (x : ascii) (l : list ascii) :
  is_word x = false -> forallb is_word l = true -> ~ In x l.
Proof.
  intros Hx Hl Hin. rewrite forallb_forall in Hl. apply Hl in Hin. congruence.
Qed.

Lemma word_chars_solid (l : list ascii) :
  forallb is_word l = true -> forallb (fun c => negb (is_space c)) l = true.
Proof.
  rewrite !forallb_forall. intros H x Hx. apply H in Hx.
  apply word_char_plain in Hx as (-> & _). reflexivity.
Qed.

Lemma includes_absent (a : ascii) (sub l : list ascii) :
  ~ In a l -> includes (a :: sub) l = false.
Proof.
  induction l as [|c l IH]; intros H; simpl; [reflexivity|].
  assert (E : Ascii.eqb a c = false).
  { apply Ascii.eqb_neq. intros ->. apply H. now left. }
  rewrite E. simpl. apply IH. intros Hin. apply H. now right.
Qed.

Lemma has_word_from_inside (w : list ascii) (prev : ascii) (l : list ascii) :
  is_word prev = true -> forallb is_word l = true ->
  has_word_from w (Some prev) l = false.
Proof.
  revert prev. induction l as [|c l IH]; intros prev Hp Hl; cbn [has_word_from].
  - rewrite Hp. reflexivity.
  - rewrite Hp. cbn [negb andb orb]. simpl in Hl. apply andb_true_iff in Hl as [Hc Hl].
    now apply IH.
Qed.

Lemma has_word_capitalised (w : ascii) (ws : list ascii) (c : ascii) (r : list ascii) :
  is_lower w = true -> is_upper c = true -> forallb is_word r = true ->
  has_word_from (w :: ws) None (c :: r) = false.
Proof.
  intros Hw Hc Hr. cbn [has_word_from starts_with].
  rewrite (@upper_not_lower c w Hc Hw). cbn [andb orb].
  apply has_word_from_inside; [|exact Hr]. now apply upper_char.
Qed.
End WordCharacters.

Section Identifiers.
Context {N : JsNumber}.
Variable c : ascii.
Variable r : list ascii.
Hypothesis c_upper : is_upper c = true.
Hypothesis r_word : forallb is_word r = true.

Lemma identifier_word : forallb is_word (c :: r) = true.
Proof.
  simpl. rewrite r_word. destruct (upper_char c c_upper) as (-> & _). reflexivity.
Qed.

Lemma identifier_trim : trim_chars (c :: r) = c :: r.
Proof. apply trim_chars_solid, word_chars_solid, identifier_word. Qed.

Lemma identifier_lacks (x : ascii) : is_word x = false -> ~ In x (c :: r).
Proof. intros Hx. apply word_chars_lack; [exact Hx | apply identifier_word]. Qed.

Lemma first_char_differs (d : ascii) (s1 s2 : string) :
  Ascii.eqb c d = false -> String.eqb (String c s1) (String d s2) = false.
Proof. intros H. simpl. now rewrite H. Qed.

Lemma upper_lower_neq (d : ascii) : is_lower d = true -> Ascii.eqb c d = false.
Proof.
  intros Hd. apply Ascii.eqb_neq. intros ->.
  destruct (upper_char d c_upper) as (_ & Hl & _). congruence.
Qed.

Lemma identifier_not_literal : tryParseLiteral (str (c :: r)) = None.
Proof.
  unfold tryParseLiteral. rewrite chars_str, identifier_trim.
  destruct (word_char_plain c (proj1 (upper_char c c_upper)))
    as (_ & _ & _ & _ & _ & _ & Hq & Ha).
  assert (Hq' : Ascii.eqb dquote c = false).
  { apply Ascii.eqb_neq. intros E. apply Ascii.eqb_neq in Hq. now apply Hq. }
  assert (Ha' : Ascii.eqb "'" c = false).
  { apply Ascii.eqb_neq. intros E. apply Ascii.eqb_neq in Ha. now apply Ha. }
  cbn [starts_with]. rewrite Hq', Ha'. cbn [andb orb].
  change (str (c :: r)) with (String c (str r)).
  rewrite !first_char_differs by (apply upper_lower_neq; reflexivity).
  unfold re_number. cbn [takeWhile].
  destruct (upper_char c c_upper) as (_ & _ & ->). reflexivity.
Qed.

Lemma identifier_not_primitive : primitive_of_string (str (c :: r)) = None.
Proof.
  unfold primitive_of_string. change (str (c :: r)) with (String c (str r)).
  rewrite !first_char_differs by (apply upper_lower_neq; reflexivity).
  reflexivity.
Qed.

Lemma identifier_not_split (sep : ascii) :
  is_word sep = false -> splitTopLevel (str (c :: r)) sep = [str (c :: r)].
Proof.
  intros Hs. rewrite splitTopLevel_no_sep.
  - rewrite chars_str, identifier_trim. reflexivity.
  - rewrite chars_str. now apply identifier_lacks.
Qed.

Lemma identifier_not_generic : re_generic (c :: r) = false.
Proof.
  unfold re_generic. rewrite (dropWhile_all_nil is_word r r_word). cbn [dropWhile bracketed].
  apply andb_false_r.
Qed.

Lemma parseTypeExpr_identifier fuel :
  parseTypeExpr (S fuel) (str (c :: r)) =
  if re_type_name (c :: r) then Ok (TypeRef (str (c :: r)))
  else if re_all_caps (c :: r) then Ok (StringLiteral (str (c :: r)))
  else Throw ("Unsupported or unrecognized type expression: " ++ str (c :: r)).
Proof.
  cbn [parseTypeExpr]. cbv zeta. rewrite chars_str, identifier_trim.
  assert (E1 : String.eqb (str (c :: r)) "" = false) by reflexivity.
  assert (E2 : includes (chars "=>") (c :: r) = false).
  { apply (@includes_absent "="%char). now apply identifier_lacks. }
  assert (E3 : forall w ws, is_lower w = true ->
                            has_word (String w ws) (c :: r) = false).
  { intros w ws Hw. unfold has_word. apply has_word_capitalised; assumption. }
  assert (E4 : includes (chars "::") (c :: r) = false).
  { apply (@includes_absent ":"%char). now apply identifier_lacks. }
  assert (E5 : starts_with ["("%char] (c :: r) = false).
  { cbn [starts_with].
    destruct (word_char_plain c (proj1 (upper_char c c_upper)))
      as (_ & _ & _ & _ & _ & Hp & _).
    assert (Hp' : Ascii.eqb "(" c = false).
    { apply Ascii.eqb_neq. intros E. apply Ascii.eqb_neq in Hp. now apply Hp. }
    now rewrite Hp'. }
  rewrite E1, E2, !E3, E4, identifier_not_generic by reflexivity.
  cbn [orb]. rewrite !identifier_not_split by reflexivity.
  cbn [List.length Nat.ltb Nat.leb]. rewrite E5. cbn [andb].
  rewrite identifier_not_literal, identifier_not_primitive. reflexivity.
Qed.
End Identifiers.

(** A capitalised identifier of letters and digits is parsed as a reference
    to the type of that name, also when it is written in capitals only: an
    all-capitals token is parsed as a string literal only when it holds an
    underscore, which no type name does. *)
Theorem capitalised_identifier_parses {N : JsNumber} (fuel : nat) (name : string) :
  (re_type_name (chars name) = true ->
   parseTypeExpr (S fuel) name = Ok (TypeRef name)) /\
  (re_all_caps (chars name) = true -> re_type_name (chars name) = false ->
   parseTypeExpr (S fuel) name = Ok (StringLiteral name) /\
   In "_"%char (chars name)).
Proof.
  assert (En : name = str (chars name)) by (symmetry; apply str_chars).
  destruct (chars name) as [|c r] eqn:E; [split; discriminate|].
  rewrite En. split.
  - intros H. pose proof H as H'. unfold re_type_name in H'.
    apply andb_true_iff in H' as [Hc Hr].
    rewrite parseTypeExpr_identifier, H; [reflexivity | exact Hc |].
    rewrite forallb_forall in *. intros x Hx. unfold is_word. now rewrite (Hr x Hx).
  - intros Hcaps Hname. pose proof Hcaps as H'. unfold re_all_caps in H'.
    apply andb_true_iff in H' as [Hc Hr].
    assert (Hw : forallb is_word r = true).
    { rewrite forallb_forall in *. intros x Hx. specialize (Hr x Hx).
      unfold is_word, is_alnum, is_alpha.
      destruct (is_upper x), (is_digit x), (Ascii.eqb x "_"); try discriminate;
        now rewrite ?orb_true_r. }
    split.
    + rewrite parseTypeExpr_identifier, Hname, Hcaps; [reflexivity | exact Hc | exact Hw].
    + right. unfold re_type_name in Hname. rewrite Hc in Hname. cbn [andb] in Hname.
      clear - Hr Hname. induction r as [|x r IH]; [discriminate|].
      simpl in Hr, Hname. apply andb_true_iff in Hr as [Hx Hr].
      destruct (Ascii.eqb_spec x "_") as [->|Hne]; [now left|].
      right. apply IH; [|exact Hr].
      assert (Ea : is_alnum x = true).
      { unfold is_alnum, is_alpha.
        destruct (is_upper x), (is_digit x); cbn [orb] in *;
          rewrite ?orb_true_r; try reflexivity; discriminate Hx. }
      rewrite Ea in Hname. exact Hname.
Qed.

(** [RED] is a type reference; [DARK_RED] is a string literal. *)
Lemma capitalised_identifier_parses_witness :
  @parseTypeExpr DecimalNumber 1 "RED" = Ok (TypeRef "RED") /\
  @parseTypeExpr DecimalNumber 1 "DARK_RED" = Ok (StringLiteral "DARK_RED") /\
  In "_"%char (chars "DARK_RED").
Proof.
  split.
  - apply (proj1 (@capitalised_identifier_parses DecimalNumber 0 "RED")). reflexivity.
  - apply (proj2 (@capitalised_identifier_parses DecimalNumber 0 "DARK_RED"));
      reflexivity.
Defined.

(** ** The shape of parsed type expressions *)

Section ExpressionShape.
Context {N : JsNumber}.

Lemma rmap_length {A B : Type} (f : A -> result B) l bs :
  rmap f l = Ok bs -> List.length bs = List.length l.
Proof.
  revert bs. induction l as [|a l IH]; intros bs H; simpl in H.
  - now injection H as <-.
  - destruct (f a); try discriminate. destruct (rmap f l); try discriminate.
    injection H as <-. simpl. f_equal. now apply IH.
Qed.

Lemma shaped_members (ms : list TypeNode) :
  fold_right (fun m acc => expr_shaped m /\ acc) True ms <-> Forall expr_shaped ms.
Proof.
  induction ms as [|m ms IH]; simpl.
  - split; [constructor | trivial].
  - rewrite IH. split.
    + intros [H1 H2]; now constructor.
    + intros H; inversion H; auto.
Qed.

Lemma members_shaped fuel (parts : list string) (members : list TypeNode) :
  (forall expr node, parseTypeExpr fuel expr = Ok node -> expr_shaped node) ->
  Nat.ltb 1 (List.length parts) = true ->
  rmap (parseTypeExpr fuel) parts = Ok members ->
  2 <= List.length members /\
  fold_right (fun m acc => expr_shaped m /\ acc) True members.
Proof.
  intros IH Hlen Hm. split.
  - rewrite (rmap_length _ _ Hm). now apply Nat.ltb_lt in Hlen.
  - apply shaped_members. eapply rmap_Ok_Forall; [|exact Hm].
    intros a b _ Hab. eapply IH; exact Hab.
Qed.
End ExpressionShape.

(** A node that a scalar type expression parses into holds no object at any
    depth, and each of its unions and intersections has at least two
    members: object types come from YAML mappings only, and a union or an
    intersection of one member is never built. *)
Theorem parsed_expression_shape {N : JsNumber} (fuel : nat) (expr : string) (node : TypeNode) :
  parseTypeExpr fuel expr = Ok node -> expr_shaped node.
Proof.
  revert expr node. induction fuel as [|fuel IH]; intros expr node H; [discriminate|].
  cbn [parseTypeExpr] in H.
  set (t := trim_chars (chars expr)) in *.
  destruct (String.eqb (str t) ""); [discriminate|].
  destruct (includes (chars "=>") t); [discriminate|].
  destruct (has_word "if" t || has_word "then" t || has_word "else" t); [discriminate|].
  destruct (includes (chars "::") t); [discriminate|].
  destruct (re_generic t).
  { destruct (re_ref t); [|discriminate]. injection H as <-. exact I. }
  destruct (Nat.ltb 1 (List.length (splitTopLevel (str t) "|"))) eqn:Hu.
  { apply rbind_Ok in H as (members & Hm & H). injection H as <-.
    exact (members_shaped fuel _ IH Hu Hm). }
  destruct (Nat.ltb 1 (List.length (splitTopLevel (str t) "&"))) eqn:Ha.
  { apply rbind_Ok in H as (members & Hm & H). injection H as <-.
    exact (members_shaped fuel _ IH Ha Hm). }
  destruct (starts_with ["("%char] t && ends_with [")"%char] t && isBalancedParens (str t)).
  { eapply IH; exact H. }
  destruct (tryParseLiteral (str t)) as [lit|].
  { injection H as <-. now destruct lit. }
  destruct (primitive_of_string (str t)).
  { injection H as <-. exact I. }
  destruct (re_type_name t).
  { injection H as <-. exact I. }
  destruct (re_all_caps t); [|discriminate].
  injection H as <-. exact I.
Qed.

(** The expression ['a' | (B & C)]. *)
Lemma parsed_expression_shape_witness :
  parseTypeExpr 5 "'a' | (B & C)" = Ok nested_expr /\ expr_shaped nested_expr.
Proof.
  split; [reflexivity|].
  apply (@parsed_expression_shape DecimalNumber 5 "'a' | (B & C)" nested_expr).
  reflexivity.
Defined.

(** ** The top-level entries of a document *)

Section TopLevelEntries.
Context {N : JsNumber}.
Variable fuel : nat.

Lemma parseEntry_kinds (doc : TDLDoc) k v doc' :
  parseEntry fuel doc (k, v) = Ok doc' ->
  (is_meta_key k = true /\
   doc' = mkDoc (doc_types doc) (doc_symbols doc) (obj_assign k v (doc_meta doc))) \/
  (is_meta_key k = false /\ is_type_key k = true /\
   (exists node,
       doc_types doc' =
       map_set (type_key_name k) (mkTypeDef (type_key_name k) node) (doc_types doc)) /\
   doc_symbols doc' = doc_symbols doc /\ doc_meta doc' = doc_meta doc) \/
  (is_meta_key k = false /\ is_type_key k = false /\ is_symbol_key k = true /\
   (exists type isArray,
       doc_symbols doc' =
       (doc_symbols doc ++ [mkSymbol (label_name k) type (label_optional k) isArray])%list) /\
   doc_types doc' = doc_types doc /\ doc_meta doc' = doc_meta doc).
Proof.
  unfold parseEntry, is_type_key, is_symbol_key, is_meta_key, type_key_name.
  intros H.
  destruct (starts_with ["_"%char] (chars k)) eqn:Em.
  { left. injection H as <-. split; reflexivity. }
  right. cbn [negb andb].
  destruct (re_type_entry (chars k)) eqn:Et.
  { left. split; [reflexivity|]. split; [reflexivity|].
    destruct (re_extends (chars k)) as [[name baseExpr]|].
    - destruct v; try discriminate.
      apply rbind_Ok in H as (base & Hb & H). apply rbind_Ok in H as (body & Hy & H).
      injection H as <-. cbn [doc_types doc_symbols doc_meta]. eauto.
    - destruct (negb (isObjectNode v) && negb (isString v)); [discriminate|].
      apply rbind_Ok in H as (node & Hn & H). injection H as <-.
      cbn [doc_types doc_symbols doc_meta]. eauto. }
  right. cbn [negb andb].
  destruct (re_symbol_entry (chars k)) eqn:Es; [|discriminate].
  split; [reflexivity|]. split; [reflexivity|]. split; [reflexivity|].
  apply rbind_Ok in H as ([[name isArray] optional] & Hl & H).
  apply rbind_Ok in H as (type & Hty & H). injection H as <-.
  cbn [doc_types doc_symbols doc_meta].
  pose proof (parseLabel_name _ Hl) as ->.
  split; [|split; reflexivity]. exists type, isArray.
  unfold label_optional. rewrite Hl. reflexivity.
Qed.

Lemma parseEntries_structure entries (doc doc' : TDLDoc) :
  rfold (parseEntry fuel) entries doc = Ok doc' ->
  Forall (fun kv : string * yaml =>
            is_meta_key (fst kv) || is_type_key (fst kv) || is_symbol_key (fst kv) = true)
         entries /\
  List.map (fun s : SymbolDef => (sym_name s, sym_optional s)) (doc_symbols doc') =
  (List.map (fun s : SymbolDef => (sym_name s, sym_optional s)) (doc_symbols doc)
   ++ List.map (fun k => (label_name k, label_optional k))
               (filter is_symbol_key (List.map fst entries)))%list /\
  map_keys (doc_types doc') =
  fold_left (fun s k => set_add k s)
            (List.map type_key_name (filter is_type_key (List.map fst entries)))
            (map_keys (doc_types doc)) /\
  doc_meta doc' =
  fold_left (fun m (kv : string * yaml) => obj_assign (fst kv) (snd kv) m)
            (filter (fun kv : string * yaml => is_meta_key (fst kv)) entries)
            (doc_meta doc).
Proof.
  revert doc. induction entries as [|[k v] entries IH]; intros doc H; cbn [rfold] in H.
  - injection H as <-. cbn. rewrite app_nil_r. repeat split. constructor.
  - destruct (parseEntry fuel doc (k, v)) as [doc1| |] eqn:H1; try discriminate.
    apply IH in H as (HF & Hs & Ht & Hm). clear IH.
    cbn [List.map filter fst snd].
    apply parseEntry_kinds in H1
      as [(Km & ->)|[(Km & Kt & (node & Et) & Es & Em)|(Km & Kt & Ks & (ty & arr & Es) & Et & Em)]].
    + assert (Kt : is_type_key k = false) by (unfold is_type_key; now rewrite Km).
      assert (Ks : is_symbol_key k = false) by (unfold is_symbol_key; now rewrite Km).
      rewrite Km, Kt, Ks. cbn [doc_types doc_symbols doc_meta] in *.
      repeat split; try assumption. constructor; [cbn [fst]; now rewrite Km | exact HF].
    + assert (Ks : is_symbol_key k = false).
      { unfold is_symbol_key, is_type_key in *. rewrite Km in *. cbn [negb andb] in *.
        now rewrite Kt. }
      rewrite Km, Kt, Ks. rewrite Es in Hs. rewrite Em in Hm. rewrite Et in Ht.
      rewrite map_keys_set_add in Ht. cbn [List.map fold_left].
      repeat split; try assumption.
      constructor; [cbn [fst]; rewrite Kt; now rewrite orb_true_r | exact HF].
    + rewrite Km, Kt, Ks. rewrite Es in Hs. rewrite Em in Hm. rewrite Et in Ht.
      cbn [List.map]. rewrite map_app in Hs. cbn [List.map sym_name sym_optional] in Hs.
      rewrite <- app_assoc in Hs. cbn [app] in Hs.
      repeat split; try assumption.
      constructor; [cbn [fst]; rewrite Ks; now rewrite orb_true_r | exact HF].
Qed.
End TopLevelEntries.

(** [parseTDL] on a mapping, when it returns a document: every key is a
    metadata key, a type key or a symbol key; the symbols are the symbol
    entries in source order, named by their labels; the named types are
    keyed by the names the type keys declare, each at its first declaration;
    and the metadata holds the entries whose key starts with an underscore. *)
Theorem parseTDL_structure
        {N : JsNumber} (fuel : nat) (entries : list (string * yaml)) (doc : TDLDoc) :
  parseTDL fuel (YMap entries) = Ok doc ->
  Forall (fun kv : string * yaml =>
            is_meta_key (fst kv) || is_type_key (fst kv) || is_symbol_key (fst kv) = true)
         entries /\
  List.map (fun s : SymbolDef => sym_name s) (doc_symbols doc) =
  List.map label_name (filter is_symbol_key (List.map fst entries)) /\
  map_keys (doc_types doc) =
  first_occurrences (List.map type_key_name (filter is_type_key (List.map fst entries))) /\
  doc_meta doc =
  fold_left (fun m (kv : string * yaml) => obj_assign (fst kv) (snd kv) m)
            (filter (fun kv : string * yaml => is_meta_key (fst kv)) entries) [].
Proof.
  intros H. cbn [parseTDL] in H.
  apply parseEntries_structure in H as (HF & Hs & Ht & Hm).
  cbn [doc_types doc_symbols doc_meta List.map app] in *.
  repeat split; try assumption.
  apply (f_equal (List.map fst)) in Hs. rewrite !map_map in Hs. exact Hs.
Qed.

(** The document [mixed_entries]. *)
Lemma parseTDL_structure_witness :
  exists doc : @TDLDoc DecimalNumber,
    parseTDL 5 (YMap mixed_entries) = Ok doc /\
    List.map (fun s : SymbolDef => sym_name s) (doc_symbols doc) = ["total"; "note"] /\
    map_keys (doc_types doc) = ["Item"] /\
    map_keys (doc_meta doc) = ["_version"].
Proof.
  eexists. split; [reflexivity|].
  destruct (@parseTDL_structure DecimalNumber 5 mixed_entries _ eq_refl)
    as (_ & Hs & Ht & Hm).
  split; [exact Hs|]. split; [exact Ht|]. rewrite Hm. reflexivity.
Defined.

(** ** The roots of the two schemas of a converted document *)

Section Roots.
Context {N : JsNumber}.

Lemma required_keys_symbols (syms : list SymbolDef) :
  required_keys (List.map sym_origin syms) =
  List.map fst (filter (fun p : string * bool => negb (snd p))
                       (List.map (fun s : SymbolDef => (sym_name s, sym_optional s)) syms)).
Proof.
  unfold required_keys. induction syms as [|s syms IH]; [reflexivity|].
  cbn [List.map filter sym_origin o_optional snd].
  destruct (negb (sym_optional s)); cbn [List.map fst o_key]; now rewrite IH.
Qed.

Lemma filter_pairs {A : Type} (f : A -> string) (g : A -> bool) (l : list A) :
  List.map fst (filter (fun p : string * bool => negb (snd p))
                       (List.map (fun k => (f k, g k)) l)) =
  List.map f (filter (fun k => negb (g k)) l).
Proof.
  induction l as [|k l IH]; [reflexivity|].
  cbn [List.map filter snd]. destruct (negb (g k)); cbn [List.map fst]; now rewrite IH.
Qed.

Lemma filter_filter {A : Type} (f g : A -> bool) (l : list A) :
  filter f (filter g l) = filter (fun x => g x && f x) l.
Proof.
  induction l as [|x l IH]; [reflexivity|].
  cbn [filter]. destruct (g x); cbn [filter andb]; [|exact IH].
  destruct (f x); now rewrite IH.
Qed.
End Roots.

(** When a document is converted, the root of the OpenAI schema requires
    every symbol of the document, and the root of the Gemini schema the
    symbols whose label is not marked optional, both in the order of the
    source; both roots are closed objects. *)
Theorem converted_roots_require_symbols_in_order
        {N : JsNumber} (fuel : nat) (entries : list (string * yaml)) (openai gemini : json) :
  convertTypedocToSchemas fuel (YMap entries) = Ok (openai, gemini) ->
  obj_get "required" openai =
    Some (JArr (List.map JStr
                  (List.map label_name (filter is_symbol_key (List.map fst entries))))) /\
  obj_get "required" gemini =
    Some (JArr (List.map JStr
                  (List.map label_name
                            (filter is_required_symbol_key (List.map fst entries))))) /\
  obj_get "additionalProperties" openai = Some (JBool false) /\
  obj_get "additionalProperties" gemini = Some (JBool false).
Proof.
  unfold convertTypedocToSchemas. intros H.
  destruct (parseTDL fuel (YMap entries)) as [doc| |] eqn:Hp; try discriminate.
  destruct (OpenAI.generateOpenAISchema doc fuel) as [o| |] eqn:Ho; try discriminate.
  destruct (Gemini.generateGeminiSchema doc fuel) as [g| |] eqn:Hg; try discriminate.
  injection H as <- <-.
  cbn [parseTDL] in Hp. apply parseEntries_structure in Hp as (_ & Hs & _ & _).
  cbn [doc_symbols List.map app] in Hs.
  apply OpenAI_root_stores in Ho as (kvs & defs1 & _ & ->).
  apply Gemini_root_stores in Hg as (kvs2 & defs2 & _ & ->).
  split; [|split; [|split; reflexivity]].
  - cbn [obj_get map_get]. simpl. do 3 f_equal.
    apply (f_equal (List.map fst)) in Hs. rewrite !map_map in Hs. exact Hs.
  - cbn [obj_get map_get]. simpl. do 3 f_equal.
    rewrite required_keys_symbols, Hs, filter_pairs, filter_filter. reflexivity.
Qed.

(** The document [mixed_entries]: [total] and [note?]. *)
Lemma converted_roots_require_symbols_in_order_witness :
  exists openai gemini : @json DecimalNumber,
    convertTypedocToSchemas 5 (YMap mixed_entries) = Ok (openai, gemini) /\
    obj_get "required" openai = Some (JArr [JStr "total"; JStr "note"]) /\
    obj_get "required" gemini = Some (JArr [JStr "total"]).
Proof.
  do 2 eexists. split; [reflexivity|].
  destruct (@converted_roots_require_symbols_in_order DecimalNumber 5 mixed_entries _ _
              eq_refl) as (Ho & Hg & _).
  split; [exact Ho | exact Hg].
Defined.

(** ** Completed definitions are final *)

Section Completed.
Context {N : JsNumber}.
Variable doc : TDLDoc.

Lemma keeps_completed_refl c : keeps_completed c c.
Proof. split; auto. Qed.

Lemma keeps_completed_trans c1 c2 c3 :
  keeps_completed c1 c2 -> keeps_completed c2 c3 -> keeps_completed c1 c3.
Proof.
  intros [S1 K1] [S2 K2]. split; [congruence|].
  intros name v Hn Hv. apply K2; [now rewrite S1 | now apply K1].
Qed.

Lemma keeps_completed_ensureDef (emit : TypeNode -> M json) (placeholder : json) name ctx :
  forall r,
  (if map_has name (defs ctx) then Ok (tt, ctx)
   else if set_has name (stack ctx) then
     Ok (tt, mkCtx (map_set name placeholder (defs ctx)) (stack ctx))
   else
     match map_get name (doc_types doc) with
     | None => Throw ("Unknown type reference: " ++ name)
     | Some def =>
         match emit (def_node def) (mkCtx (defs ctx) (set_add name (stack ctx))) with
         | Ok (schema, ctx') =>
             Ok (tt, mkCtx (map_set name schema (defs ctx'))
                           (set_delete name (stack ctx')))
         | Throw msg => Throw msg
         | OutOfFuel => OutOfFuel
         end
     end) = Ok r ->
  (forall node c s c', emit node c = Ok (s, c') -> keeps_completed c c') ->
  keeps_completed ctx (snd r).
Proof.
  intros r H He.
  destruct (map_has name (defs ctx)) eqn:Hhas.
  { injection H as <-. apply keeps_completed_refl. }
  assert (Hfresh : forall n v, map_get n (defs ctx) = Some v -> n <> name).
  { intros n v Hv ->. unfold map_has in Hhas. now rewrite Hv in Hhas. }
  destruct (set_has name (stack ctx)) eqn:Hst.
  { injection H as <-. split; [reflexivity|]. cbn [snd defs].
    intros n v _ Hv. rewrite map_get_set_other; [exact Hv | eapply Hfresh; exact Hv]. }
  destruct (map_get name (doc_types doc)) as [def|]; [|discriminate].
  destruct (emit _ _) as [[schema ctx']| |] eqn:Hemit; try discriminate.
  injection H as <-. cbn [snd].
  destruct (He _ _ _ _ Hemit) as [Hs Hk]. cbn [stack defs] in Hs, Hk.
  split.
  - cbn [stack]. rewrite Hs. now apply set_delete_add.
  - cbn [defs]. intros n v Hn Hv.
    assert (Hne : n <> name) by (eapply Hfresh; exact Hv).
    rewrite map_get_set_other by exact Hne. apply Hk; [|exact Hv].
    intros Hin. apply set_add_In in Hin as [Hin|Hin]; auto.
Qed.

Lemma OpenAI_emit_keeps fuel node c s c' :
  OpenAI.emit doc fuel node c = Ok (s, c') -> keeps_completed c c'.
Proof.
  apply (@OpenAI_emit_rel _ doc (fun _ => True) keeps_completed); auto.
  - apply keeps_completed_refl.
  - apply keeps_completed_trans.
  - intros e name c0 r He _ Hr. eapply keeps_completed_ensureDef; [exact Hr|].
    intros; eapply He; eauto.
Qed.

Lemma Gemini_emit_keeps fuel node c s c' :
  Gemini.emit doc fuel node c = Ok (s, c') -> keeps_completed c c'.
Proof.
  apply (@Gemini_emit_rel _ doc (fun _ => True) keeps_completed); auto.
  - apply keeps_completed_refl.
  - apply keeps_completed_trans.
  - intros e name c0 r He _ Hr. eapply keeps_completed_ensureDef; [exact Hr|].
    intros; eapply He; eauto.
Qed.
End Completed.

(** An emission leaves the stack of names under emission as it found it, and
    leaves every completed definition as it is: a name that has an entry in
    [defs] and is not under emission is never emitted again, and its schema
    is not replaced. *)
Theorem completed_definitions_are_final
        {N : JsNumber} (doc : TDLDoc) (fuel : nat) (node : TypeNode) c s c' :
  OpenAI.emit doc fuel node c = Ok (s, c') \/ Gemini.emit doc fuel node c = Ok (s, c') ->
  stack c' = stack c /\
  forall name v,
    ~ In name (stack c) -> map_get name (defs c) = Some v ->
    map_get name (defs c') = Some v.
Proof.
  intros [H|H]; [eapply OpenAI_emit_keeps | eapply Gemini_emit_keeps]; exact H.
Qed.

(** A reference to [Tree] in a context where [Tree] is completed. *)
Lemma completed_definitions_are_final_witness :
  OpenAI.emit tree_doc 5 (TypeRef "Tree") seeded_ctx
  = Ok (JObj [("$ref", JStr "#/$defs/Tree")], seeded_ctx) /\
  map_get "Tree" (defs seeded_ctx) = Some (JObj [("type", JStr "string")]).
Proof.
  split; [reflexivity|].
  apply (proj2 (@completed_definitions_are_final DecimalNumber tree_doc 5
                  (TypeRef "Tree") seeded_ctx _ seeded_ctx (or_introl eq_refl))).
  - intros [].
  - reflexivity.
Defined.

(** ** The closure sugar *)

Section Closure.
Context {N : JsNumber}.
Variable parseInline : list (string * yaml) -> result TypeNode.
Variable fuel : nat.

Lemma isNever_true (t : TypeNode) : isNever t = true -> t = Primitive PNever.
Proof. destruct t as [[]| | | | | | |]; try discriminate. reflexivity. Qed.

Lemma member_closed props idx closed k v props' idx' closed' :
  parseMember_ parseInline fuel (props, idx, closed) (k, v) = Ok (props', idx', closed') ->
  (is_closure_entry (parseValue_ parseInline fuel) (k, v) /\ closed' = true) \/
  (~ is_closure_entry (parseValue_ parseInline fuel) (k, v) /\ closed' = closed).
Proof.
  intros H. apply parseMember_Ok in H
    as [(Hk & _ & domain & optional & isArray & vt & Hl & Hv & Hd)
       |(Hk & _ & Hc & _)].
  - destruct domain as [|keys].
    + destruct (optional && isNever vt) eqn:E.
      * left. apply andb_true_iff in E as [-> E]. apply isNever_true in E as ->.
        split; [|apply Hd]. split; [exact Hk|]. now exists isArray.
      * right. split; [|apply Hd]. intros (_ & a & Hl' & Hv'). cbn [fst snd] in *.
        rewrite Hl in Hl'. injection Hl' as -> _.
        rewrite Hv in Hv'. injection Hv' as ->. discriminate E.
    + right. split; [|apply Hd]. intros (_ & a & Hl' & _). cbn [fst] in Hl'.
      rewrite Hl in Hl'. discriminate Hl'.
  - right. split; [|exact Hc]. intros (Hk' & _). cbn [fst] in Hk'. congruence.
Qed.

Lemma fold_members_closed entries acc acc' :
  rfold (parseMember_ parseInline fuel) entries acc = Ok acc' ->
  (snd acc' = true <->
   snd acc = true \/ Exists (is_closure_entry (parseValue_ parseInline fuel)) entries).
Proof.
  revert acc. induction entries as [|[k v] entries IH]; intros acc H; cbn [rfold] in H.
  - injection H as <-. split; [now left | intros [H|H]; [exact H | inversion H]].
  - destruct (parseMember_ parseInline fuel acc (k, v)) as [acc1| |] eqn:Hm;
      try discriminate.
    apply IH in H. rewrite H. clear H IH.
    destruct acc as [[props idx] closed], acc1 as [[props1 idx1] closed1].
    apply member_closed in Hm as [[Hc ->]|[Hc ->]]; cbn [snd].
    + split; intros _; [right; now constructor | now left].
    + split.
      * intros [H|H]; [now left | right; now constructor 2].
      * intros [H|H]; [now left|]. inversion H; subst; [contradiction | now right].
Qed.
End Closure.

(** An inline object is closed exactly when one of the entries of its
    mapping, at any position, is the closure sugar: an index signature over
    [string], marked optional, with the value [never].  A signature over
    [string] whose value is [never] but which is not marked optional does
    not close the object. *)
Theorem closure_sugar_closes
        {N : JsNumber} (fuel : nat) (entries : list (string * yaml)) (obj : ObjectNode) :
  parseInlineObject (S fuel) entries = Ok (Object obj) ->
  (obj_closed obj = true <-> Exists (is_closure_entry (parseValue fuel)) entries).
Proof.
  intros H. cbn [parseInlineObject] in H.
  apply rbind_Ok in H as ([[props idx] closed] & Hf & H). injection H as <-.
  apply fold_members_closed in Hf. cbn [snd obj_closed] in *.
  rewrite Hf. split; [intros [H|H]; [discriminate H | exact H] | now right].
Qed.

(** The mapping [sealed_entries] holds the sugar after a property. *)
Lemma closure_sugar_closes_witness :
  parseInlineObject 3 sealed_entries = Ok (Object sealed_parsed) /\
  Exists (is_closure_entry (parseValue 2)) sealed_entries.
Proof.
  split; [reflexivity|].
  apply (proj1 (@closure_sugar_closes DecimalNumber 2 sealed_entries sealed_parsed
                  eq_refl)).
  reflexivity.
Defined.

(** ** Index-signature labels *)

Section IndexLabels.
Context {N : JsNumber}.

Lemma takeWhile_until (x : ascii) (l1 l2 : list ascii) :
  ~ In x l1 ->
  takeWhile (fun y => negb (Ascii.eqb y x)) (l1 ++ x :: l2) = l1 /\
  dropWhile (fun y => negb (Ascii.eqb y x)) (l1 ++ x :: l2) = x :: l2.
Proof.
  induction l1 as [|c l1 IH]; intros H; cbn [app takeWhile dropWhile].
  - rewrite Ascii.eqb_refl. now split.
  - assert (E : Ascii.eqb c x = false).
    { apply Ascii.eqb_neq. intros ->. apply H. now left. }
    rewrite E. cbn [negb].
    destruct IH as [-> ->]; [intros Hin; apply H; now right|]. now split.
Qed.

Lemma re_index_label_decodes (k0 : ascii) (krest dom suffix : list ascii) :
  is_alpha k0 || Ascii.eqb k0 "_" = true ->
  forallb is_word krest = true ->
  dom <> [] -> ~ In "]"%char dom ->
  forallb (fun x => negb (is_line_terminator x)) suffix = true ->
  re_index_label ("["%char :: k0 :: krest ++ ":"%char :: dom ++ "]"%char :: suffix)
  = Some (dom, suffix).
Proof.
  intros Hk Hr Hd Hb Hs. unfold re_index_label.
  rewrite Ascii.eqb_refl, Hk. cbn [andb].
  rewrite dropWhile_all by exact Hr.
  rewrite !dropWhile_head by reflexivity.
  destruct (@takeWhile_until "]"%char dom suffix Hb) as [-> ->].
  rewrite Ascii.eqb_refl, Hs. cbn [andb].
  destruct dom; [contradiction|]. reflexivity.
Qed.
End IndexLabels.

(** An index-signature label [[k: domain]] followed by a suffix is decoded
    into what it was written from: the domain [string] gives a string
    signature, any other domain is read as an enum of keys, and the suffix
    gives the two flags, [?] for optional and [[]] for array. *)
Theorem parseIndexLabel_decodes
        {N : JsNumber} (k0 : ascii) (krest dom : list ascii) (suffix : string) :
  is_alpha k0 || Ascii.eqb k0 "_" = true ->
  forallb is_word krest = true ->
  dom <> [] -> ~ In "]"%char dom ->
  forallb (fun x => negb (is_line_terminator x)) (chars suffix) = true ->
  let optional := includes (chars "?") (trim_chars (chars suffix)) in
  let isArray := includes (chars "[]") (trim_chars (chars suffix)) in
  parseIndexLabel
    (str ("["%char :: k0 :: krest ++ ":"%char :: dom ++ "]"%char :: chars suffix))
  = if String.eqb (str (trim_chars dom)) "string" then Ok (DString, optional, isArray)
    else rbind (parseEnumLike (str (trim_chars dom)))
               (fun keys => Ok (DEnum keys, optional, isArray)).
Proof.
  intros Hk Hr Hd Hb Hs optional isArray. unfold parseIndexLabel.
  rewrite chars_str, re_index_label_decodes by assumption. reflexivity.
Qed.

(** The closure label [[k: string]?] and the enum label [[k: 'a' | B_1][]]. *)
Lemma parseIndexLabel_decodes_witness :
  @parseIndexLabel DecimalNumber "[k: string]?" = Ok (DString, true, false) /\
  @parseIndexLabel DecimalNumber "[k: 'a' | B_1][]"
  = Ok (DEnum [LString "a"; LString "B_1"], false, true).
Proof.
  split.
  - apply (@parseIndexLabel_decodes DecimalNumber "k"%char [] (chars " string") "?");
      try reflexivity; [discriminate|].
    simpl. intros H. repeat (destruct H as [H|H]; [discriminate H|]). exact H.
  - apply (@parseIndexLabel_decodes DecimalNumber "k"%char [] (chars " 'a' | B_1") "[]");
      try reflexivity; [discriminate|].
    simpl. intros H. repeat (destruct H as [H|H]; [discriminate H|]). exact H.
Defined.

(** ** The extends sugar *)

Section Extends.
Lemma bracketed_decodes (open close : ascii) (mid : list ascii) :
  forallb (fun x => negb (is_line_terminator x)) mid = true ->
  bracketed open close (open :: mid ++ [close]) = Some mid.
Proof.
  intros H. unfold bracketed. rewrite Ascii.eqb_refl.
  rewrite rev_app_distr. cbn [rev app]. rewrite Ascii.eqb_refl. cbn [andb].
  assert (Hr : forallb (fun x => negb (is_line_terminator x)) (rev mid) = true).
  { rewrite forallb_forall in *. intros x Hx. apply H. now apply in_rev. }
  rewrite Hr. now rewrite rev_involutive.
Qed.

Lemma extends_key_decodes (c : ascii) (rest base : list ascii) :
  is_upper c = true -> forallb is_alnum rest = true ->
  forallb (fun x => negb (is_line_terminator x)) base = true ->
  let key := c :: rest ++ "("%char :: base ++ [")"%char] in
  starts_with ["_"%char] key = false /\
  re_type_entry key = true /\
  re_extends key = Some (c :: rest, base).
Proof.
  intros Hc Hr Hb key. unfold key.
  assert (Hd : dropWhile is_alnum (rest ++ "("%char :: base ++ [")"%char])
               = "("%char :: base ++ [")"%char]).
  { rewrite dropWhile_all by exact Hr. reflexivity. }
  assert (Ht : takeWhile is_alnum (rest ++ "("%char :: base ++ [")"%char]) = rest).
  { rewrite takeWhile_all by exact Hr. cbn [takeWhile].
    change (is_alnum "(") with false. cbv iota. apply app_nil_r. }
  split; [|split].
  - cbn [starts_with]. destruct (Ascii.eqb_spec "_"%char c) as [<-|]; [discriminate Hc|].
    reflexivity.
  - unfold re_type_entry. rewrite Hc, Hd. cbn [andb dropWhile].
    change (is_space "(") with false. cbv iota.
    now rewrite bracketed_decodes.
  - unfold re_extends. rewrite Hc, Hd, Ht. now rewrite bracketed_decodes.
Qed.
End Extends.

(** A type key [Name(Base)] declares [Name] as the intersection of the base
    expression and the body, in this order, so that by the merge the
    properties of the body override those of the base; a value that is not a
    mapping is rejected. *)
Theorem extends_sugar_declares_intersection
        {N : JsNumber} (fuel : nat) (doc : TDLDoc)
        (c : ascii) (rest base : list ascii) (v : yaml) :
  is_upper c = true -> forallb is_alnum rest = true ->
  forallb (fun x => negb (is_line_terminator x)) base = true ->
  let name := str (c :: rest) in
  parseEntry fuel doc (str (c :: rest ++ "("%char :: base ++ [")"%char]), v) =
  match v with
  | YMap body =>
      rbind (parseTypeExpr fuel (str base))
            (fun b =>
               rbind (parseInlineObject fuel body)
                     (fun o =>
                        Ok (mkDoc (map_set name (mkTypeDef name (Intersection [b; o]))
                                           (doc_types doc))
                                  (doc_symbols doc) (doc_meta doc))))
  | _ => Throw ("Type " ++ name ++ " with extends sugar must have an object body")
  end.
Proof.
  intros Hc Hr Hb name. unfold parseEntry. rewrite chars_str.
  destruct (extends_key_decodes c rest base Hc Hr Hb) as (-> & -> & ->).
  now destruct v.
Qed.

(** [Cat(Animal)] with a body. *)
Lemma extends_sugar_declares_intersection_witness :
  parseEntry 5 empty_doc ("Cat(Animal)", YMap [("lives", YStr "number")]) =
  Ok (mkDoc [("Cat",
              mkTypeDef "Cat"
                (Intersection
                   [TypeRef "Animal";
                    Object (mkObject [mkProp "lives" (Primitive PNumber) false false]
                                     [] false)]))] [] []).
Proof.
  refine (eq_trans
            (@extends_sugar_declares_intersection DecimalNumber 5 empty_doc
               "C"%char (chars "at") (chars "Animal")
               (YMap [("lives", YStr "number")]) eq_refl eq_refl eq_refl) _).
  reflexivity.
Defined.

(** ** Texts refused before they are read *)

Section Trimming.
Lemma span_while (p : ascii -> bool) (l : list ascii) :
  (takeWhile p l ++ dropWhile p l)%list = l /\ forallb p (takeWhile p l) = true.
Proof.
  induction l as [|c l [IH1 IH2]]; [now split|].
  cbn [takeWhile dropWhile]. destruct (p c) eqn:E; cbn [app forallb].
  - rewrite IH1, E, IH2. now split.
  - now split.
Qed.

Lemma forallb_rev (p : ascii -> bool) (l : list ascii) :
  forallb p l = true -> forallb p (rev l) = true.
Proof.
  rewrite !forallb_forall. intros H x Hx. apply H. now apply in_rev.
Qed.

(** A text is its trim between two runs of white space. *)
Lemma trim_chars_between (l : list ascii) :
  exists ws1 ws2,
    l = (ws1 ++ trim_chars l ++ ws2)%list /\
    forallb is_space ws1 = true /\ forallb is_space ws2 = true.
Proof.
  unfold trim_chars.
  destruct (span_while is_space l) as [E1 F1].
  destruct (span_while is_space (rev (dropWhile is_space l))) as [E2 F2].
  exists (takeWhile is_space l),
         (rev (takeWhile is_space (rev (dropWhile is_space l)))).
  split; [|split; [exact F1 | now apply forallb_rev]].
  rewrite <- rev_app_distr, E2, rev_involutive. now rewrite E1.
Qed.

Lemma space_not_word (c : ascii) : is_space c = true -> is_word c = false.
Proof.
  destruct c as [[] [] [] [] [] [] [] []]; vm_compute; intros H;
    first [discriminate H | reflexivity].
Qed.

Variable w : list ascii.
Hypothesis w_some : w <> [].

Section Includes.
Hypothesis w_solid : forallb (fun c => negb (is_space c)) w = true.

Lemma solid_not_at_space (c : ascii) (l : list ascii) :
  is_space c = true -> starts_with w (c :: l) = false.
Proof.
  intros Hc. destruct w as [|a w']; [contradiction|].
  cbn [forallb] in w_solid. apply andb_true_iff in w_solid as [Ha _].
  cbn [starts_with]. destruct (Ascii.eqb_spec a c) as [->|]; [|reflexivity].
  rewrite Hc in Ha. discriminate Ha.
Qed.

Lemma solid_within (m ws : list ascii) :
  forallb is_space ws = true -> starts_with w (m ++ ws) = starts_with w m.
Proof.
  clear w_some. revert m. induction w as [|a w' IH]; intros m Hws; [reflexivity|].
  cbn [forallb] in w_solid. apply andb_true_iff in w_solid as [Ha Hw'].
  destruct m as [|c m]; cbn [app].
  - destruct ws as [|c ws]; [reflexivity|]. cbn [starts_with forallb] in *.
    apply andb_true_iff in Hws as [Hc _].
    destruct (Ascii.eqb_spec a c) as [->|]; [|reflexivity].
    rewrite Hc in Ha. discriminate Ha.
  - cbn [starts_with]. now rewrite (IH Hw').
Qed.

Lemma includes_after_spaces (ws m : list ascii) :
  forallb is_space ws = true -> includes w (ws ++ m) = includes w m.
Proof.
  induction ws as [|c ws IH]; intros H; [reflexivity|].
  cbn [forallb] in H. apply andb_true_iff in H as [Hc H].
  cbn [app includes]. rewrite solid_not_at_space by exact Hc. now apply IH.
Qed.

Lemma includes_before_spaces (m ws : list ascii) :
  forallb is_space ws = true -> includes w (m ++ ws) = includes w m.
Proof.
  intros H. induction m as [|c m IH].
  - cbn [app]. rewrite <- (app_nil_r ws). rewrite includes_after_spaces by exact H.
    reflexivity.
  - cbn [app includes]. rewrite IH.
    change (c :: m ++ ws)%list with ((c :: m) ++ ws)%list.
    now rewrite solid_within.
Qed.

Lemma includes_trim (l : list ascii) : includes w (trim_chars l) = includes w l.
Proof.
  destruct (trim_chars_between l) as (ws1 & ws2 & E & H1 & H2).
  rewrite E at 2.
  rewrite includes_after_spaces by exact H1.
  now rewrite includes_before_spaces by exact H2.
Qed.
End Includes.

Section Words.
Hypothesis w_word : forallb is_word w = true.

Lemma tail_after (m ws : list ascii) :
  forallb is_space ws = true ->
  starts_with w m = true ->
  match skipn (List.length w) (m ++ ws) with
  | [] => true
  | c :: _ => negb (is_word c)
  end =
  match skipn (List.length w) m with
  | [] => true
  | c :: _ => negb (is_word c)
  end.
Proof.
  clear w_some w_word. revert m. induction w as [|a w' IH]; intros m Hws Hm.
  - cbn [List.length skipn]. destruct m as [|c m]; cbn [app]; [|reflexivity].
    destruct ws as [|c ws]; [reflexivity|].
    cbn [forallb] in Hws. apply andb_true_iff in Hws as [Hc _].
    now rewrite (space_not_word _ Hc).
  - destruct m as [|c m]; [discriminate Hm|].
    cbn [starts_with] in Hm. apply andb_true_iff in Hm as [_ Hm].
    cbn [List.length skipn app]. now apply IH.
Qed.

Lemma not_at_end : starts_with w [] = false.
Proof. destruct w; [contradiction | reflexivity]. Qed.

Lemma has_word_in_spaces (prev : option ascii) (ws : list ascii) :
  forallb is_space ws = true -> has_word_from w prev ws = false.
Proof.
  pose proof (word_chars_solid _ w_word) as Hsolid.
  revert prev. induction ws as [|c ws IH]; intros prev Hws; cbn [has_word_from].
  - rewrite not_at_end. now rewrite andb_false_r.
  - cbn [forallb] in Hws. apply andb_true_iff in Hws as [Hc Hws].
    rewrite (@solid_not_at_space Hsolid c _ Hc).
    rewrite andb_false_r. cbn [andb orb]. now apply IH.
Qed.

Lemma has_word_before_spaces (prev : option ascii) (m ws : list ascii) :
  forallb is_space ws = true ->
  has_word_from w prev (m ++ ws) = has_word_from w prev m.
Proof.
  intros Hws. pose proof (word_chars_solid _ w_word) as Hsolid.
  revert prev. induction m as [|c m IH]; intros prev.
  - cbn [app]. rewrite has_word_in_spaces by exact Hws.
    cbn [has_word_from]. rewrite not_at_end. now rewrite andb_false_r.
  - cbn [app has_word_from]. rewrite IH.
    change (c :: m ++ ws)%list with ((c :: m) ++ ws)%list.
    rewrite (@solid_within Hsolid _ _ Hws).
    destruct (starts_with w (c :: m)) eqn:Es.
    + now rewrite (@tail_after _ _ Hws Es).
    + now rewrite !andb_false_r.
Qed.

Lemma has_word_after_other (c : ascii) (l : list ascii) :
  is_word c = false -> has_word_from w (Some c) l = has_word_from w None l.
Proof. intros Hc. destruct l; cbn [has_word_from]; now rewrite Hc. Qed.

Lemma has_word_after_spaces (ws m : list ascii) :
  forallb is_space ws = true ->
  has_word_from w None (ws ++ m) = has_word_from w None m.
Proof.
  pose proof (word_chars_solid _ w_word) as Hsolid.
  induction ws as [|c ws IH]; intros H; [reflexivity|].
  cbn [forallb] in H. apply andb_true_iff in H as [Hc H].
  cbn [app has_word_from]. rewrite (@solid_not_at_space Hsolid c _ Hc).
  cbn [andb orb]. rewrite has_word_after_other by now apply space_not_word.
  now apply IH.
Qed.

Lemma has_word_trim (l : list ascii) :
  has_word_from w None (trim_chars l) = has_word_from w None l.
Proof.
  destruct (trim_chars_between l) as (ws1 & ws2 & E & H1 & H2).
  rewrite E at 2.
  rewrite has_word_after_spaces by exact H1.
  now rewrite has_word_before_spaces by exact H2.
Qed.
End Words.
End Trimming.

Lemma unsupported_trim (l : list ascii) : unsupported (trim_chars l) = unsupported l.
Proof.
  unfold unsupported, has_keyword, has_word.
  rewrite !includes_trim by (discriminate || reflexivity).
  rewrite !has_word_trim by (discriminate || reflexivity).
  reflexivity.
Qed.

Lemma unsupported_not_blank (l : list ascii) (msg : string) :
  unsupported l = Some msg -> l <> [].
Proof. intros H ->. discriminate H. Qed.

(** A text that holds an arrow [=>], one of the words [if], [then], [else],
    or a double colon [::] is refused with the message of the first of these
    it holds, wherever in the text it stands: inside quotes or brackets as
    well, and before the text is read as a literal or split into members. *)
Theorem unsupported_syntax_rejected
        {N : JsNumber} (fuel : nat) (expr msg : string) :
  unsupported (chars expr) = Some msg ->
  parseTypeExpr (S fuel) expr = Throw (msg ++ expr).
Proof.
  intros H. rewrite <- unsupported_trim in H.
  pose proof (unsupported_not_blank H) as Hne.
  cbn [parseTypeExpr].
  destruct (trim_chars (chars expr)) as [|c t] eqn:Et; [contradiction|].
  change (String.eqb (str (c :: t)) "") with false. cbv iota.
  unfold unsupported, has_keyword in H.
  destruct (includes (chars "=>") (c :: t)); [now inversion H|].
  destruct (has_word "if" (c :: t) || has_word "then" (c :: t) || has_word "else" (c :: t));
    [now inversion H|].
  destruct (includes (chars "::") (c :: t)); [now inversion H|].
  discriminate H.
Qed.

(** A quoted text with an arrow, the quoted word [else], and a qualified name. *)
Lemma unsupported_syntax_rejected_witness :
  @parseTypeExpr DecimalNumber 3 "'a=>b'"
  = Throw "Function types are not supported: 'a=>b'" /\
  @parseTypeExpr DecimalNumber 3 " 'else' | 'other'"
  = Throw "Conditionals are not supported:  'else' | 'other'" /\
  @parseTypeExpr DecimalNumber 3 "(ns::Name)"
  = Throw "Qualified imports are not supported: (ns::Name)".
Proof.
  split; [|split].
  - exact (@unsupported_syntax_rejected DecimalNumber 2 "'a=>b'" _ eq_refl).
  - exact (@unsupported_syntax_rejected DecimalNumber 2 " 'else' | 'other'" _ eq_refl).
  - exact (@unsupported_syntax_rejected DecimalNumber 2 "(ns::Name)" _ eq_refl).
Defined.

(** ** The operands of an intersection *)

Section Resolution.
Context {N : JsNumber}.
Variable doc : TDLDoc.

Lemma rfold_resolve_agree (r1 r2 : TypeNode -> result ObjectNode) parts acc acc' :
  (forall p o, In p parts -> r1 p = Ok o -> r2 p = Ok o) ->
  rfold (fun acc p =>
           match r1 p with
           | Ok obj => Ok (mergeStep acc obj)
           | Throw msg => Throw msg
           | OutOfFuel => OutOfFuel
           end) parts acc = Ok acc' ->
  rfold (fun acc p =>
           match r2 p with
           | Ok obj => Ok (mergeStep acc obj)
           | Throw msg => Throw msg
           | OutOfFuel => OutOfFuel
           end) parts acc = Ok acc'.
Proof.
  revert acc. induction parts as [|p parts IH]; intros acc Hr H; cbn [rfold] in *;
    [exact H|].
  destruct (r1 p) as [o| |] eqn:Hp; try discriminate H.
  rewrite (Hr p o (or_introl eq_refl) Hp).
  apply IH; [|exact H]. intros q o' Hq. apply Hr. now right.
Qed.

Lemma mergeWith_agree (r1 r2 : TypeNode -> result ObjectNode) parts merged :
  (forall p o, In p parts -> r1 p = Ok o -> r2 p = Ok o) ->
  mergeWith r1 parts = Ok merged -> mergeWith r2 parts = Ok merged.
Proof.
  unfold mergeWith. intros Hr H.
  destruct (rfold _ parts _) as [acc| |] eqn:Hfold; try discriminate H.
  now rewrite (@rfold_resolve_agree r1 r2 parts _ _ Hr Hfold).
Qed.

Lemma resolveObject_step (fuel : nat) :
  forall node o,
    resolveObject doc fuel node = Ok o -> resolveObject doc (S fuel) node = Ok o.
Proof.
  induction fuel as [|fuel IH]; intros node o H; [discriminate H|].
  cbn [resolveObject] in H. change (resolveObject doc (S (S fuel)) node) with
    (match node with
     | Object obj => Ok obj
     | TypeRef name =>
         match map_get name (doc_types doc) with
         | None => Throw ("Unknown type: " ++ name)
         | Some def => resolveObject doc (S fuel) (def_node def)
         end
     | Intersection members => mergeWith (resolveObject doc (S fuel)) members
     | _ => Throw "Intersection operands must be object-like"
     end).
  destruct node; try discriminate H.
  - destruct (map_get _ _); [now apply IH | discriminate H].
  - refine (@mergeWith_agree _ _ _ _ _ H). intros p o' _. apply IH.
  - exact H.
Qed.

Lemma resolveObject_more (fuel fuel' : nat) node o :
  fuel <= fuel' ->
  resolveObject doc fuel node = Ok o -> resolveObject doc fuel' node = Ok o.
Proof.
  induction 1 as [|fuel' _ IH]; intros H; [exact H|].
  now apply resolveObject_step, IH.
Qed.

Lemma resolve_members_together (members : list TypeNode) :
  (forall m, In m members -> exists fuel o, resolveObject doc fuel m = Ok o) ->
  exists fuel, forall m, In m members -> exists o, resolveObject doc fuel m = Ok o.
Proof.
  induction members as [|m members IH]; intros H.
  - exists 0. intros m [].
  - destruct (H m (or_introl eq_refl)) as (f1 & o1 & H1).
    destruct IH as (f2 & H2); [intros q Hq; apply H; now right|].
    exists (Nat.max f1 f2). intros q [<-|Hq].
    + exists o1. apply (@resolveObject_more _ _ _ _ (Nat.le_max_l f1 f2) H1).
    + destruct (H2 q Hq) as (o & Ho). exists o.
      apply (@resolveObject_more _ _ _ _ (Nat.le_max_r f1 f2) Ho).
Qed.

Lemma rfold_resolve_returns (resolve : TypeNode -> result ObjectNode) parts acc :
  (forall p, In p parts -> exists o, resolve p = Ok o) ->
  exists acc',
    rfold (fun acc p =>
             match resolve p with
             | Ok obj => Ok (mergeStep acc obj)
             | Throw msg => Throw msg
             | OutOfFuel => OutOfFuel
             end) parts acc = Ok acc'.
Proof.
  revert acc. induction parts as [|p parts IH]; intros acc H; cbn [rfold].
  - now exists acc.
  - destruct (H p (or_introl eq_refl)) as (o & ->).
    apply IH. intros q Hq. apply H. now right.
Qed.

Lemma mergeWith_returns (resolve : TypeNode -> result ObjectNode) parts :
  (forall p, In p parts -> exists o, resolve p = Ok o) ->
  exists merged, mergeWith resolve parts = Ok merged.
Proof.
  intros H. unfold mergeWith.
  destruct (@rfold_resolve_returns resolve parts ([], [], false) H)
    as ([[outProps outIdx] closed] & ->).
  eexists. reflexivity.
Qed.

Lemma mergeWith_members (resolve : TypeNode -> result ObjectNode) parts merged :
  mergeWith resolve parts = Ok merged ->
  forall p, In p parts -> exists o, resolve p = Ok o.
Proof.
  intros H. apply mergeWith_spec in H as (objs & HF & _).
  induction HF as [|p o parts objs Hp _ IH]; intros q Hq; [destruct Hq|].
  destruct Hq as [<-|Hq]; [now exists o | now apply IH].
Qed.

Lemma object_like_resolves node :
  object_like doc node -> exists fuel o, resolveObject doc fuel node = Ok o.
Proof.
  induction 1 as [obj | name def Hget _ IH | members _ IH].
  - exists 1, obj. reflexivity.
  - destruct IH as (fuel & o & H). exists (S fuel), o.
    cbn [resolveObject]. now rewrite Hget.
  - destruct (resolve_members_together members IH) as (fuel & H).
    destruct (@mergeWith_returns (resolveObject doc fuel) members H) as (merged & Hm).
    exists (S fuel), merged. exact Hm.
Qed.

Lemma resolved_object_like (fuel : nat) :
  forall node o, resolveObject doc fuel node = Ok o -> object_like doc node.
Proof.
  induction fuel as [|fuel IH]; intros node o H; [discriminate H|].
  cbn [resolveObject] in H. destruct node; try discriminate H.
  - destruct (map_get _ _) as [def|] eqn:Hget; [|discriminate H].
    apply object_like_ref with (def := def); [exact Hget | now apply IH with (o := o)].
  - constructor. intros m Hm.
    destruct (@mergeWith_members _ _ _ H m Hm) as (o' & Ho'). now apply IH with (o := o').
  - constructor.
Qed.
End Resolution.

(** Resolving the operand of an intersection returns an object exactly for
    the nodes that stand for one through finitely many steps: an object, a
    reference to a declared type whose body does, an intersection whose
    members all do.  For every other node it raises an error or, as for a
    type that extends itself, does not return. *)
Theorem resolveObject_returns_for_object_like
        {N : JsNumber} (doc : TDLDoc) (node : TypeNode) :
  object_like doc node <-> exists fuel obj, resolveObject doc fuel node = Ok obj.
Proof.
  split.
  - apply object_like_resolves.
  - intros (fuel & obj & H). exact (@resolved_object_like _ doc fuel node obj H).
Qed.

(** Neither emitter returns a schema for an intersection unless each of its
    members stands for an object: a primitive, a literal, a union, or a
    reference to a type that is not an object, as a member, leaves no
    schema. *)
Theorem intersection_schema_needs_object_members
        {N : JsNumber} (doc : TDLDoc) (fuel : nat) (members : list TypeNode)
        (c : Ctx) (r : json * Ctx) :
  OpenAI.emit doc fuel (Intersection members) c = Ok r \/
  Gemini.emit doc fuel (Intersection members) c = Ok r ->
  forall m, In m members -> object_like doc m.
Proof.
  intros H m Hm.
  assert (Hmerge : exists f merged, mergeObjects doc f members = Ok merged).
  { destruct fuel as [|f]; [destruct H as [H|H]; discriminate H|].
    exists f. destruct H as [H|H]; cbn [OpenAI.emit Gemini.emit] in H;
      unfold bind, lift in H;
      (destruct (mergeObjects doc f members) as [merged| |];
       [now exists merged | discriminate H | discriminate H]). }
  destruct Hmerge as (f & merged & Hmerge).
  destruct (@mergeWith_members _ _ _ _ Hmerge m Hm) as (o & Ho).
  exact (@resolved_object_like _ doc f m o Ho).
Qed.

(** [Pet & { age: number }] is emitted, and both members are objects. *)
Lemma intersection_schema_needs_object_members_witness :
  is_ok (OpenAI.emit pet_doc 4 (Intersection pet_with_age) empty_ctx) = true /\
  Forall (object_like pet_doc) pet_with_age.
Proof.
  split; [reflexivity|].
  apply Forall_forall.
  destruct (OpenAI.emit pet_doc 4 (Intersection pet_with_age) empty_ctx) as [r| |] eqn:E;
    [|discriminate E|discriminate E].
  exact (@intersection_schema_needs_object_members DecimalNumber pet_doc 4 pet_with_age
           empty_ctx r (or_introl E)).
Defined.

(** ** Splitting at the separators outside quotes and parentheses *)

Section GuardedSplitting.
Variable sep : ascii.
Hypothesis sep_plain : is_delimiter sep = false.

Lemma delimiter_cases (c : ascii) :
  is_delimiter c = false ->
  Ascii.eqb c dquote = false /\ Ascii.eqb c "'" = false /\ Ascii.eqb c "(" = false /\
  Ascii.eqb c ")" = false /\ Ascii.eqb c "<" = false /\ Ascii.eqb c ">" = false.
Proof.
  unfold is_delimiter. intros H.
  repeat (apply orb_false_iff in H as [H ?]). repeat split; assumption.
Qed.

Lemma app_one (cur : list ascii) (c : ascii) (l : list ascii) :
  ((cur ++ [c]) ++ l = cur ++ c :: l)%list.
Proof. now rewrite <- app_assoc. Qed.

Lemma last_of_some (a : ascii) (l : list ascii) (d d' : ascii) :
  last (a :: l) d = last (a :: l) d'.
Proof.
  revert a. induction l as [|b l IH]; intros a; [reflexivity|].
  change (last (b :: l) d = last (b :: l) d'). apply IH.
Qed.

(** Inside a quoted run, up to the closing quote. *)
Lemma splitLoop_in_quotes (q : ascii) (body rest : list ascii) :
  forallb (fun c => negb (Ascii.eqb c q)) body = true ->
  forall p parts dp da cur,
    splitLoop sep (body ++ rest)%list (Some p) parts dp da cur (Some q) =
    splitLoop sep rest (Some (last body p)) parts dp da (cur ++ body)%list (Some q).
Proof.
  induction body as [|c body IH]; intros Hb p parts dp da cur.
  - cbn [app last]. now rewrite app_nil_r.
  - cbn [forallb] in Hb. apply andb_true_iff in Hb as [Hc Hb].
    apply negb_true_iff in Hc.
    cbn [app splitLoop]. rewrite Hc. cbn [andb]. rewrite (IH Hb), app_one.
    destruct body as [|a body]; [reflexivity|].
    now rewrite (last_of_some a body c p).
Qed.

(** Inside a group, up to the closing parenthesis. *)
Lemma splitLoop_in_group (inner rest : list ascii) :
  forallb (fun c => negb (is_delimiter c)) inner = true ->
  forall prev parts cur,
  exists prev',
    splitLoop sep (inner ++ rest)%list prev parts 1%Z 0%Z cur None =
    splitLoop sep rest prev' parts 1%Z 0%Z (cur ++ inner)%list None.
Proof.
  induction inner as [|c inner IH]; intros Hi prev parts cur.
  - exists prev. cbn [app]. now rewrite app_nil_r.
  - cbn [forallb] in Hi. apply andb_true_iff in Hi as [Hc Hi].
    apply negb_true_iff, delimiter_cases in Hc as (H1 & H2 & H3 & H4 & H5 & H6).
    destruct (IH Hi (Some c) parts (cur ++ [c])%list) as (prev' & E).
    exists prev'. cbn [app splitLoop]. rewrite H1, H2, H3, H4, H5, H6.
    cbn [orb andb Z.eqb]. rewrite E, app_one. reflexivity.
Qed.

Lemma splitLoop_item (it : Item) (rest : list ascii) :
  item_ok sep it = true ->
  forall prev parts cur,
  exists prev',
    splitLoop sep (item_chars it ++ rest)%list prev parts 0%Z 0%Z cur None =
    splitLoop sep rest prev' parts 0%Z 0%Z (cur ++ item_chars it)%list None.
Proof.
  pose proof (delimiter_cases sep sep_plain) as (S1 & S2 & S3 & S4 & S5 & S6).
  destruct it as [c | q body | inner]; cbn [item_ok item_chars]; intros Hok prev parts cur.
  - apply andb_true_iff in Hok as [Hd Hs]. apply negb_true_iff in Hs.
    apply negb_true_iff, delimiter_cases in Hd as (H1 & H2 & H3 & H4 & H5 & H6).
    exists (Some c). cbn [app splitLoop]. rewrite H1, H2, H3, H4, H5, H6, Hs.
    cbn [orb andb Z.eqb]. reflexivity.
  - apply andb_true_iff in Hok as [Hok Hl]. apply andb_true_iff in Hok as [Hq Hb].
    apply negb_true_iff in Hl.
    exists (Some q). cbn [app splitLoop]. rewrite Hq.
    rewrite <- app_assoc. rewrite (splitLoop_in_quotes q body ([q] ++ rest)%list Hb).
    cbn [app splitLoop]. rewrite Ascii.eqb_refl, Hl. cbn [negb andb].
    now rewrite !app_one, <- app_assoc.
  - exists (Some ")"%char). cbn [app splitLoop].
    change (Ascii.eqb "(" dquote) with false. change (Ascii.eqb "(" "'") with false.
    change (Ascii.eqb "(" "(") with true. cbn [orb]. cbv iota.
    change (0 + 1)%Z with 1%Z. change (Z.eqb 1 0) with false. cbn [andb]. cbv iota.
    rewrite <- app_assoc.
    destruct (splitLoop_in_group inner ([")"%char] ++ rest)%list Hok (Some "("%char) parts
                (cur ++ ["("%char])%list) as (prev' & ->).
    cbn [app splitLoop].
    change (Ascii.eqb ")" dquote) with false. change (Ascii.eqb ")" "'") with false.
    change (Ascii.eqb ")" "(") with false. change (Ascii.eqb ")" ")") with true.
    cbn [orb]. cbv iota. change (1 - 1)%Z with 0%Z. change (Z.eqb 0 0) with true.
    cbn [andb]. rewrite (Ascii.eqb_sym ")"%char sep), S4.
    now rewrite !app_one, <- app_assoc.
Qed.

Lemma splitLoop_items (its : list Item) (rest : list ascii) :
  forallb (item_ok sep) its = true ->
  forall prev parts cur,
  exists prev',
    splitLoop sep (items_chars its ++ rest)%list prev parts 0%Z 0%Z cur None =
    splitLoop sep rest prev' parts 0%Z 0%Z (cur ++ items_chars its)%list None.
Proof.
  unfold items_chars.
  induction its as [|it its IH]; intros Hok prev parts cur.
  - exists prev. cbn [flat_map app]. now rewrite app_nil_r.
  - cbn [forallb] in Hok. apply andb_true_iff in Hok as [Hit Hok].
    cbn [flat_map]. rewrite <- app_assoc.
    destruct (splitLoop_item it (flat_map item_chars its ++ rest)%list Hit prev parts cur)
      as (p1 & ->).
    destruct (IH Hok p1 parts (cur ++ item_chars it)%list) as (p2 & ->).
    exists p2. now rewrite app_assoc.
Qed.

Lemma splitLoop_separator (rest : list ascii) prev parts cur :
  splitLoop sep (sep :: rest) prev parts 0%Z 0%Z cur None =
  splitLoop sep rest (Some sep) (parts ++ [str (trim_chars cur)])%list 0%Z 0%Z [] None.
Proof.
  pose proof (delimiter_cases sep sep_plain) as (S1 & S2 & S3 & S4 & S5 & S6).
  cbn [splitLoop]. rewrite S1, S2, S3, S4, S5, S6, Ascii.eqb_refl. reflexivity.
Qed.

Lemma splitLoop_segments (segs : list (list Item)) (rest : list ascii) :
  forallb (forallb (item_ok sep)) segs = true ->
  forall prev parts,
  exists prev',
    splitLoop sep (flat_map (fun seg => (items_chars seg ++ [sep])%list) segs ++ rest)%list
              prev parts 0%Z 0%Z [] None =
    splitLoop sep rest prev'
              (parts ++ List.map (fun seg => str (trim_chars (items_chars seg))) segs)%list
              0%Z 0%Z [] None.
Proof.
  induction segs as [|seg segs IH]; intros Hok prev parts.
  - exists prev. cbn [flat_map List.map app]. now rewrite app_nil_r.
  - cbn [forallb] in Hok. apply andb_true_iff in Hok as [Hseg Hok].
    cbn [flat_map List.map]. rewrite <- !app_assoc.
    destruct (splitLoop_items seg
                ([sep] ++ flat_map (fun seg => (items_chars seg ++ [sep])%list) segs ++ rest)%list
                Hseg prev parts []) as (p1 & ->).
    cbn [app]. rewrite splitLoop_separator.
    destruct (IH Hok (Some sep) (parts ++ [str (trim_chars (items_chars seg))])%list)
      as (p2 & ->).
    exists p2. now rewrite <- app_assoc.
Qed.

Lemma splitTopLevel_joined (segs : list (list Item)) (final : list Item) :
  forallb (forallb (item_ok sep)) segs = true ->
  forallb (item_ok sep) final = true ->
  splitTopLevel (str (joined sep segs final)) sep =
  (List.map (fun seg => str (trim_chars (items_chars seg))) segs
   ++ match trim_chars (items_chars final) with
      | [] => []
      | c :: cs => [str (c :: cs)]
      end)%list.
Proof.
  intros Hsegs Hfinal. unfold splitTopLevel, joined. rewrite chars_str.
  destruct (splitLoop_segments segs (items_chars final) Hsegs None []) as (p1 & ->).
  rewrite <- (app_nil_r (items_chars final)) at 1.
  destruct (splitLoop_items final [] Hfinal p1
              ([] ++ List.map (fun seg => str (trim_chars (items_chars seg))) segs)%list [])
    as (p2 & ->).
  cbn [splitLoop app].
  destruct (trim_chars (items_chars final)); [now rewrite app_nil_r | reflexivity].
Qed.
End GuardedSplitting.

(** A text is split at its separators outside quotes and parentheses, and
    only there: for segments written from plain characters, quoted runs and
    parenthesised groups, each followed by the separator, and a last
    segment, the parts are the trimmed segments in order, a blank one as the
    empty text, and the trimmed last segment unless it is blank. *)
Theorem splitTopLevel_splits_outside_guards
        (sep : ascii) (segs : list (list Item)) (final : list Item) :
  sep = "|"%char \/ sep = "&"%char ->
  forallb (forallb (item_ok sep)) segs = true ->
  forallb (item_ok sep) final = true ->
  splitTopLevel (str (joined sep segs final)) sep =
  (List.map (fun seg => str (trim_chars (items_chars seg))) segs
   ++ (if String.eqb (str (trim_chars (items_chars final))) "" then []
       else [str (trim_chars (items_chars final))]))%list.
Proof.
  intros Hsep Hsegs Hfinal.
  rewrite splitTopLevel_joined by (assumption || (destruct Hsep; subst sep; reflexivity)).
  destruct (trim_chars (items_chars final)); reflexivity.
Qed.

(** ['a|b' | (C | D) | ] is split in two, at the bars outside the quotes and
    the parentheses. *)
Lemma splitTopLevel_splits_outside_guards_witness :
  splitTopLevel "'a|b' | (C | D) | " "|" = ["'a|b'"; "(C | D)"].
Proof.
  exact (@splitTopLevel_splits_outside_guards "|"%char guarded_segments [Plain " "%char]
           (or_introl eq_refl) eq_refl eq_refl).
Defined.

